(** * A shallow embedding of scheduler.js

    The scheduling simulation engine ([simulate] and the five simulators
    [simulateRR], [simulateFCFS], [simulateSJF], [simulatePriority] and
    [simulateMLQ]) is embedded as executable functions, and the properties of
    the engine's specification are stated and settled over them.

    Modelling conventions.
    - JavaScript numbers that hold times, bursts, priorities and quanta are
      integers ([Z]); the statistics, which divide, are exact rationals
      extended with [NaN] and the two infinities ([JsNum]).  Rounding of
      doubles is not modelled.
    - [null] and [undefined] are [None].
    - An array that the source mutates in place is a list that is threaded
      through the state; [push] appends at the tail, [shift] removes the head.
    - The objects of [procs] are shared between [procs] and (for SJF and
      Priority) [readyList]: a reference to such an object is its position in
      [procs].
    - The main [while] loop counts its iterations in [iter] and stops at
      [maxIter]; the model recurses on the number of iterations that are
      left.  The inner loops get the number of iterations their guard allows
      as fuel and still test the guard. *)

From Stdlib Require Import ZArith QArith String List Bool Lia.
From stdpp Require Import base relations list.
Import ListNotations.

Open Scope Z_scope.

(** ** Data model *)

(** An element of the [processes] argument of [simulate]; [priority] may be
    absent. *)
Record ProcIn := mkProcIn {
  in_pid : string;
  in_arrival : Z;
  in_burst : Z;
  in_priority : option Z
}.

(** An element of [procsIn], the normalised list. *)
Record Descriptor := mkDescriptor {
  d_pid : string;
  d_arrival : Z;
  d_burst : Z;
  d_priority : Z
}.

(** An element of [procs] while a simulator runs. *)
Record Proc := mkProc {
  pid : string;
  arrival : Z;
  burst : Z;
  priority : Z;
  remaining : Z;
  startTime : option Z;
  completionTime : option Z;
  enqueued : bool
}.

(** What [makeProcessState] copies of a process into a snapshot. *)
Record ProcState := mkProcState {
  ps_pid : string;
  ps_arrival : Z;
  ps_burst : Z;
  ps_remaining : Z;
  ps_startTime : option Z;
  ps_completionTime : option Z;
  ps_priority : Z
}.

Record Snapshot := mkSnapshot {
  snap_time : Z;
  snap_cpu : option string;
  snap_ready : list string;
  snap_procs : list ProcState
}.

Record TraceEvent := mkTraceEvent {
  ev_time : Z;
  ev_cpu : option string;
  ev_ready : list string;
  ev_event : string
}.

(** An element of [procs] after the finalising loop: both times are numbers
    and [turnaround] and [waiting] have been added. *)
Record FinalProc := mkFinalProc {
  f_pid : string;
  f_arrival : Z;
  f_burst : Z;
  f_priority : Z;
  f_remaining : Z;
  f_startTime : Z;
  f_completionTime : Z;
  f_enqueued : bool;
  f_turnaround : Z;
  f_waiting : Z
}.

(** The numbers that the statistics can be. *)
Inductive JsNum := Fin (q : Q) | NaN | PosInf | NegInf.

Record Stats := mkStats {
  avgWaiting : JsNum;
  avgTurnaround : JsNum;
  makespan : JsNum;
  throughput : JsNum;
  processes : list FinalProc
}.

Record SimResult := mkSimResult {
  res_trace : list TraceEvent;
  historySnapshots : list Snapshot;
  stats : Stats
}.

Record Options := mkOptions {
  quantum : option Z;
  mlqFgQuantum : option Z;
  mlqBgQuantum : option Z
}.

(** The only way the engine can throw: reading a property of [undefined]
    after [procs.find] found nothing. *)
Inductive JsError := TypeError.

Inductive Outcome (A : Type) :=
| Returned (a : A)
| Thrown (e : JsError).
Arguments Returned {A} a.
Arguments Thrown {A} e.

Definition bind {A B} (o : Outcome A) (k : A -> Outcome B) : Outcome B :=
  match o with
  | Returned a => k a
  | Thrown e => Thrown e
  end.

Definition fails {A} (o : Outcome A) : Prop :=
  match o with
  | Returned _ => False
  | Thrown _ => True
  end.

(** How an iteration of the main loop ends: at its closing brace or at a
    [continue] ([Continue]), or at [break]. *)
Inductive Flow := Continue | Break.

(** The variables of a simulator; [R] is the type of its ready structure. *)
Record State (R : Type) := mkState {
  procs : list Proc;
  time : Z;
  ready : R;
  history : list Snapshot;
  trace : list TraceEvent
}.
Arguments mkState {R} _ _ _ _ _.
Arguments procs {R} _.
Arguments time {R} _.
Arguments ready {R} _.
Arguments history {R} _.
Arguments trace {R} _.

(** [fgQueue] and [bgQueue] of [simulateMLQ]. *)
Record MlqQueues := mkMlqQueues {
  fgQueue : list string;
  bgQueue : list string
}.

(** ** Numbers of the statistics *)

Definition of_Z (z : Z) : JsNum := Fin (inject_Z z).

Definition js_div (a b : JsNum) : JsNum :=
  match a, b with
  | NaN, _ | _, NaN => NaN
  | Fin x, Fin y =>
      if Qeq_bool y 0
      then (if Qeq_bool x 0 then NaN
            else if Qle_bool 0 x then PosInf else NegInf)
      else Fin (x / y)
  | Fin _, (PosInf | NegInf) => Fin 0
  | PosInf, Fin y => if Qle_bool 0 y then PosInf else NegInf
  | NegInf, Fin y => if Qle_bool 0 y then NegInf else PosInf
  | (PosInf | NegInf), (PosInf | NegInf) => NaN
  end.

Definition js_sub (a b : JsNum) : JsNum :=
  match a, b with
  | NaN, _ | _, NaN => NaN
  | Fin x, Fin y => Fin (x - y)
  | Fin _, PosInf => NegInf
  | Fin _, NegInf => PosInf
  | PosInf, PosInf => NaN
  | PosInf, _ => PosInf
  | NegInf, NegInf => NaN
  | NegInf, _ => NegInf
  end.

Definition js_max (a b : JsNum) : JsNum :=
  match a, b with
  | NaN, _ | _, NaN => NaN
  | PosInf, _ | _, PosInf => PosInf
  | NegInf, x | x, NegInf => x
  | Fin x, Fin y => if Qle_bool x y then Fin y else Fin x
  end.

Definition js_min (a b : JsNum) : JsNum :=
  match a, b with
  | NaN, _ | _, NaN => NaN
  | NegInf, _ | _, NegInf => NegInf
  | PosInf, x | x, PosInf => x
  | Fin x, Fin y => if Qle_bool x y then Fin x else Fin y
  end.

(** [Math.max(...l)] and [Math.min(...l)]. *)
Definition Math_max (l : list JsNum) : JsNum := fold_left js_max l NegInf.
Definition Math_min (l : list JsNum) : JsNum := fold_left js_min l PosInf.

(** ** Common helpers *)

Definition makeProcessState (l : list Proc) : list ProcState :=
  map (fun p => mkProcState (pid p) (arrival p) (burst p) (remaining p)
                  (startTime p) (completionTime p) (priority p)) l.

Definition snapshotState (time : Z) (cpu : option string) (procs : list Proc)
    (ready : list string) : Snapshot :=
  mkSnapshot time cpu ready (makeProcessState procs).

(** [deepCopy], a round trip through JSON, is the identity on these records. *)
Definition computeStats (procs : list FinalProc) : Stats :=
  let total := of_Z (Z.of_nat (length procs)) in
  let avgWaiting :=
    js_div (of_Z (fold_left (fun s x => s + (f_turnaround x - f_burst x)) procs 0)) total in
  let avgTurnaround :=
    js_div (of_Z (fold_left (fun s x => s + f_turnaround x) procs 0)) total in
  let makespan :=
    js_sub (Math_max (map (fun p => of_Z (f_completionTime p)) procs))
           (Math_min (map (fun p => of_Z (f_arrival p)) procs)) in
  let lastTime := Math_max (map (fun p => of_Z (f_completionTime p)) procs) in
  let throughput := js_div total (js_max (of_Z 1) lastTime) in
  mkStats avgWaiting avgTurnaround makespan throughput procs.

(** [Array.prototype.sort] with a comparator: a stable sort; [cmp a b > 0]
    puts [b] before [a]. *)
Fixpoint sort_insert {A} (cmp : A -> A -> Z) (x : A) (l : list A) : list A :=
  match l with
  | [] => [x]
  | y :: l' => if 0 <? cmp x y then y :: sort_insert cmp x l' else x :: l
  end.

Definition js_sort {A} (cmp : A -> A -> Z) (l : list A) : list A :=
  fold_right (sort_insert cmp) [] l.

(** [a || b] on numbers. *)
Definition or_else (a b : Z) : Z := if a =? 0 then b else a.

(** [procs.find(x => f x)], as the position of the element found. *)
Fixpoint find_index {A} (f : A -> bool) (l : list A) : option nat :=
  match l with
  | [] => None
  | x :: l' => if f x then Some 0%nat else option_map S (find_index f l')
  end.

Global Instance Proc_inhabited : Inhabited Proc :=
  populate (mkProc EmptyString 0 0 0 0 None None false).

(** The initial run-time state of a process:
    [{...p, remaining: p.burst, startTime: null, completionTime: null, enqueued: false}]. *)
Definition init_proc (d : Descriptor) : Proc :=
  mkProc (d_pid d) (d_arrival d) (d_burst d) (d_priority d) (d_burst d) None None false.

Definition set_enqueued (p : Proc) : Proc :=
  mkProc (pid p) (arrival p) (burst p) (priority p) (remaining p)
         (startTime p) (completionTime p) true.

(** [p.remaining -= 1]. *)
Definition dec_remaining (p : Proc) : Proc :=
  mkProc (pid p) (arrival p) (burst p) (priority p) (remaining p - 1)
         (startTime p) (completionTime p) (enqueued p).

(** [if (p.startTime === null) p.startTime = time]. *)
Definition set_start (t : Z) (p : Proc) : Proc :=
  mkProc (pid p) (arrival p) (burst p) (priority p) (remaining p)
         (match startTime p with None => Some t | Some s => Some s end)
         (completionTime p) (enqueued p).

(** [p.completionTime = time]. *)
Definition set_completion (t : Z) (p : Proc) : Proc :=
  mkProc (pid p) (arrival p) (burst p) (priority p) (remaining p)
         (startTime p) (Some t) (enqueued p).

(** The body of the finalising loop. *)
Definition finalize_proc (t : Z) (p : Proc) : FinalProc :=
  let completion := match completionTime p with None => t | Some c => c end in
  let turnaround := completion - arrival p in
  let waiting := turnaround - burst p in
  let start := match startTime p with None => arrival p | Some s => s end in
  mkFinalProc (pid p) (arrival p) (burst p) (priority p) (remaining p)
              start completion (enqueued p) turnaround waiting.

Definition with_procs {R} (ps : list Proc) (st : State R) : State R :=
  mkState ps (time st) (ready st) (history st) (trace st).

Definition with_ready {R} (r : R) (st : State R) : State R :=
  mkState (procs st) (time st) r (history st) (trace st).

(** The template literal [`exec(${pid})`]. *)
Definition exec_label (p : string) : string :=
  String.append "exec(" (String.append p ")").

(** [maxIter]. *)
Definition maxIter : nat := Z.to_nat 200000.

(** ** The parts that the five simulators share

    Each simulator declares its own [enqueueArrivals], idle branch and
    execution loop; they differ only in the ready structure and in how it is
    shown in a snapshot.  The shared text is written once, over [R]. *)

Section Engine.
Context {R : Type}.

(** [push i p r]: what [enqueueArrivals] does to the ready structure [r]
    for the process [p], which is at position [i] of [procs]. *)
Variable push : nat -> Proc -> R -> R.

(** The ready contents that an execution snapshot shows. *)
Variable view : list Proc -> R -> list string.

(** The ready contents that an idle snapshot shows. *)
Variable idle_view : R -> list string.

(** [for (const p of procs) if (!p.enqueued && p.arrival <= time &&
    p.remaining > 0) { push; p.enqueued = true; }], from position [i]. *)
Fixpoint enqueue_from (now : Z) (i : nat) (ps : list Proc) (r : R) : list Proc * R :=
  match ps with
  | [] => ([], r)
  | p :: ps' =>
      if negb (enqueued p) && (arrival p <=? now) && (0 <? remaining p)
      then let '(qs, r') := enqueue_from now (S i) ps' (push i p r) in
           (set_enqueued p :: qs, r')
      else let '(qs, r') := enqueue_from now (S i) ps' r in
           (p :: qs, r')
  end.

Definition enqueueArrivals (st : State R) : State R :=
  let '(ps, r) := enqueue_from (time st) 0%nat (procs st) (ready st) in
  mkState ps (time st) r (history st) (trace st).

(** [history.push(snapshotState(time, cpu, procs, rd));
    trace.push({time, cpu, ready: rd, event}); time++]. *)
Definition emit (cpu : option string) (rd : list string) (event : string)
    (st : State R) : State R :=
  mkState (procs st) (time st + 1) (ready st)
          (history st ++ [snapshotState (time st) cpu (procs st) rd])
          (trace st ++ [mkTraceEvent (time st) cpu rd event]).

(** [while (time < jumpTo) { ...idle unit... }]. *)
Fixpoint idle_until (fuel : nat) (jumpTo : Z) (st : State R) : State R :=
  match fuel with
  | O => st
  | S fuel' =>
      if time st <? jumpTo
      then idle_until fuel' jumpTo (emit None (idle_view (ready st)) "idle" st)
      else st
  end.

(** The branch taken when nothing is ready. *)
Definition idle_phase (st : State R) : Flow * State R :=
  match find (fun p => negb (enqueued p) && (0 <? remaining p)) (procs st) with
  | None => (Break, st)
  | Some next =>
      let jumpTo := arrival next in
      (Continue,
       enqueueArrivals (idle_until (Z.to_nat (jumpTo - time st)) jumpTo st))
  end.

(** One unit of execution of the process at position [i], whose pid is
    [p]: the body of the execution loops. *)
Definition exec_unit (i : nat) (p : string) (st : State R) : State R :=
  let st1 := with_procs (alter dec_remaining i (procs st)) st in
  let st2 := emit (Some p) (view (procs st1) (ready st1)) (exec_label p) st1 in
  enqueueArrivals st2.

(** [for (let t=0;t<run;t++) { ...unit... }], [n] being the number of
    iterations. *)
Fixpoint run_for (n : nat) (i : nat) (p : string) (st : State R) : State R :=
  match n with
  | O => st
  | S n' => run_for n' i p (exec_unit i p st)
  end.

(** [while (p.remaining > 0) { ...unit... }]. *)
Fixpoint run_to_completion (fuel : nat) (i : nat) (p : string) (st : State R)
    : State R :=
  match fuel with
  | O => st
  | S fuel' =>
      if 0 <? remaining (procs st !!! i)
      then run_to_completion fuel' i p (exec_unit i p st)
      else st
  end.

(** [const run = Math.min(q, p.remaining); for (...) {...};
    if (p.remaining === 0) p.completionTime = time; else requeue]. *)
Definition run_slice (requeue : string -> R -> R) (q : Z) (i : nat) (p : string)
    (st : State R) : State R :=
  let run := Z.min q (remaining (procs st !!! i)) in
  let st1 := run_for (Z.to_nat run) i p st in
  if remaining (procs st1 !!! i) =? 0
  then with_procs (alter (set_completion (time st1)) i (procs st1)) st1
  else with_ready (requeue p (ready st1)) st1.

(** [while (p.remaining > 0) {...}; p.completionTime = time]. *)
Definition run_whole (i : nat) (p : string) (st : State R) : State R :=
  let st1 := run_to_completion (Z.to_nat (remaining (procs st !!! i))) i p st in
  with_procs (alter (set_completion (time st1)) i (procs st1)) st1.

(** [const p = procs.find(x=>x.pid===pid);
    if (p.startTime === null) p.startTime = time], then [k] at the
    position of [p]. *)
Definition with_found (p : string) (st : State R)
    (k : nat -> State R -> State R) : Outcome (Flow * State R) :=
  match find_index (fun x => String.eqb (pid x) p) (procs st) with
  | None => Thrown TypeError
  | Some i =>
      Returned (Continue,
                k i (with_procs (alter (set_start (time st)) i (procs st)) st))
  end.

(** The guard of the main loop without its [iter < maxIter]. *)
Variable is_empty : R -> bool.

Definition work_left (st : State R) : bool :=
  existsb (fun p => 0 <? remaining p) (procs st) || negb (is_empty (ready st)).

(** The body of the main loop after [iter++; enqueueArrivals()]. *)
Variable dispatch : State R -> Outcome (Flow * State R).

Definition iteration (st : State R) : Outcome (Flow * State R) :=
  dispatch (enqueueArrivals st).

(** The main loop, [fuel] being [maxIter - iter]. *)
Fixpoint main_loop (fuel : nat) (st : State R) : Outcome (State R) :=
  match fuel with
  | O => Returned st
  | S fuel' =>
      if work_left st
      then match iteration st with
           | Thrown e => Thrown e
           | Returned (Break, st') => Returned st'
           | Returned (Continue, st') => main_loop fuel' st'
           end
      else Returned st
  end.

(** The finalising loop and the [return]. *)
Definition finish (st : State R) : SimResult :=
  mkSimResult (trace st) (history st)
              (computeStats (map (finalize_proc (time st)) (procs st))).

(** A simulator from its initial [procs] and ready structure. *)
Definition run_simulator (ps : list Proc) (r0 : R) : Outcome SimResult :=
  match main_loop maxIter (enqueueArrivals (mkState ps 0 r0 [] [])) with
  | Returned st => Returned (finish st)
  | Thrown e => Thrown e
  end.

End Engine.

(** ** Round Robin *)

Definition queue_push (i : nat) (p : Proc) (q : list string) : list string :=
  q ++ [pid p].

Definition queue_view (ps : list Proc) (q : list string) : list string := q.

Definition queue_empty (q : list string) : bool :=
  match q with [] => true | _ => false end.

Definition by_arrival (a b : Proc) : Z := arrival a - arrival b.

Definition rr_dispatch (quantum : Z) (st : State (list string))
    : Outcome (Flow * State (list string)) :=
  match ready st with
  | [] => Returned (idle_phase queue_push (fun q => q) st)
  | p :: rest =>
      with_found p (with_ready rest st)
        (fun i => run_slice queue_push queue_view (fun x q => q ++ [x]) quantum i p)
  end.

Definition simulateRR (processes : list Descriptor) (quantum : Z)
    : Outcome SimResult :=
  run_simulator queue_push queue_empty (rr_dispatch quantum)
    (js_sort by_arrival (map init_proc processes)) [].

(** ** FCFS *)

Definition fcfs_dispatch (st : State (list string))
    : Outcome (Flow * State (list string)) :=
  match ready st with
  | [] => Returned (idle_phase queue_push (fun q => q) st)
  | p :: rest =>
      with_found p (with_ready rest st)
        (fun i => run_whole queue_push queue_view i p)
  end.

Definition simulateFCFS (processes : list Descriptor) : Outcome SimResult :=
  run_simulator queue_push queue_empty fcfs_dispatch
    (js_sort by_arrival (map init_proc processes)) [].

(** ** SJF and Priority (non-preemptive)

    [readyList] holds the process objects themselves: positions in [procs]. *)

Definition list_push (i : nat) (p : Proc) (l : list nat) : list nat := l ++ [i].

Definition list_view (ps : list Proc) (l : list nat) : list string :=
  map (fun r => pid (ps !!! r)) l.

Definition list_empty (l : list nat) : bool :=
  match l with [] => true | _ => false end.

(** [a.remaining - b.remaining || a.arrival - b.arrival]. *)
Definition by_remaining (a b : Proc) : Z :=
  or_else (remaining a - remaining b) (arrival a - arrival b).

(** [a.priority - b.priority || a.arrival - b.arrival || a.burst - b.burst]. *)
Definition by_priority (a b : Proc) : Z :=
  or_else (or_else (priority a - priority b) (arrival a - arrival b))
          (burst a - burst b).

(** The body shared by [simulateSJF] and [simulatePriority], which differ in
    the comparator of [readyList.sort]. *)
Definition pick_dispatch (cmp : Proc -> Proc -> Z) (st : State (list nat))
    : Outcome (Flow * State (list nat)) :=
  match ready st with
  | [] => Returned (idle_phase list_push (fun _ => []) st)
  | _ :: _ =>
      match js_sort (fun a b => cmp (procs st !!! a) (procs st !!! b)) (ready st) with
      | [] => Thrown TypeError
      | i :: rest =>
          let p := pid (procs st !!! i) in
          let st1 := mkState (alter (set_start (time st)) i (procs st)) (time st)
                             rest (history st) (trace st) in
          Returned (Continue, run_whole list_push list_view i p st1)
      end
  end.

Definition simulateSJF (processes : list Descriptor) : Outcome SimResult :=
  run_simulator list_push list_empty (pick_dispatch by_remaining)
    (map init_proc processes) [].

Definition simulatePriority (processes : list Descriptor) : Outcome SimResult :=
  run_simulator list_push list_empty (pick_dispatch by_priority)
    (map init_proc processes) [].

(** ** Multilevel queue *)

Definition mlq_push (i : nat) (p : Proc) (q : MlqQueues) : MlqQueues :=
  if priority p =? 0
  then mkMlqQueues (fgQueue q ++ [pid p]) (bgQueue q)
  else mkMlqQueues (fgQueue q) (bgQueue q ++ [pid p]).

(** [[...fgQueue, ...bgQueue]]. *)
Definition mlq_view (ps : list Proc) (q : MlqQueues) : list string :=
  fgQueue q ++ bgQueue q.

Definition mlq_empty (q : MlqQueues) : bool :=
  queue_empty (fgQueue q) && queue_empty (bgQueue q).

Definition fg_requeue (p : string) (q : MlqQueues) : MlqQueues :=
  mkMlqQueues (fgQueue q ++ [p]) (bgQueue q).

Definition bg_requeue (p : string) (q : MlqQueues) : MlqQueues :=
  mkMlqQueues (fgQueue q) (bgQueue q ++ [p]).

Definition mlq_dispatch (fgQuantum : Z) (bgQuantum : option Z)
    (st : State MlqQueues) : Outcome (Flow * State MlqQueues) :=
  match fgQueue (ready st), bgQueue (ready st) with
  | [], [] => Returned (idle_phase mlq_push (fun _ => []) st)
  | p :: rest, bg =>
      with_found p (with_ready (mkMlqQueues rest bg) st)
        (fun i => run_slice mlq_push mlq_view fg_requeue fgQuantum i p)
  | [], p :: rest =>
      with_found p (with_ready (mkMlqQueues [] rest) st)
        (fun i =>
           match bgQuantum with
           | None => run_whole mlq_push mlq_view i p
           | Some q => run_slice mlq_push mlq_view bg_requeue q i p
           end)
  end.

Definition simulateMLQ (processes : list Descriptor) (fgQuantum : Z)
    (bgQuantum : option Z) : Outcome SimResult :=
  run_simulator mlq_push mlq_empty (mlq_dispatch fgQuantum bgQuantum)
    (js_sort by_arrival (map init_proc processes)) (mkMlqQueues [] []).

(** ** The entry point *)

(** [x ?? d]. *)
Definition nullish (x : option Z) (d : Z) : Z :=
  match x with Some v => v | None => d end.

Definition normalize (p : ProcIn) : Descriptor :=
  mkDescriptor (in_pid p) (in_arrival p) (in_burst p)
               (match in_priority p with Some v => v | None => 0 end).

Definition simulate (algorithm : string) (processes : list ProcIn)
    (options : Options) : Outcome SimResult :=
  let procsIn := map normalize processes in
  if String.eqb algorithm "RR" then
    simulateRR procsIn (nullish (quantum options) 4)
  else if String.eqb algorithm "FCFS" then
    simulateFCFS procsIn
  else if String.eqb algorithm "SJF" then
    simulateSJF procsIn
  else if String.eqb algorithm "PRIORITY" then
    simulatePriority procsIn
  else if String.eqb algorithm "MLQ" then
    simulateMLQ procsIn (nullish (mlqFgQuantum options) 2)
                (Some (nullish (mlqBgQuantum options) 4))
  else
    simulateRR procsIn (nullish (quantum options) 4).

(** * The consumers of the engine: utils.js, animation.js, app.js *)

(** ** utils.js *)

(** [Math.max(a, Math.min(b, v))]. *)
Definition clamp (v a b : Z) : Z := Z.max a (Z.min b v).

(** ** animation.js: the cursor of [Animator]

    Of an [Animator] the model keeps [history] and [current].  Drawing is
    modelled by what [draw] reads: the snapshot it renders.  The timer of
    [play] and [pause] is not modelled. *)

Record Animator := mkAnimator {
  anim_history : list Snapshot;
  current : Z
}.

(** What [draw] puts on the canvas: the notice that nothing is loaded, or the
    rendering of a snapshot. *)
Inductive Frame :=
| NoSimulation
| Shows (s : Snapshot).

(** [l[i]] for a number [i]: [undefined] outside the list. *)
Definition js_index {A} (l : list A) (i : Z) : option A :=
  if i <? 0 then None else l !! Z.to_nat i.

(** [Math.max(0, this.history.length - 1)]. *)
Definition last_index (a : Animator) : Z :=
  Z.max 0 (Z.of_nat (length (anim_history a)) - 1).

(** [draw]: reading [snap.time] of an [undefined] snapshot throws. *)
Definition draw (a : Animator) : Outcome Frame :=
  match anim_history a with
  | [] => Returned NoSimulation
  | _ :: _ =>
      match js_index (anim_history a) (current a) with
      | Some snap => Returned (Shows snap)
      | None => Thrown TypeError
      end
  end.

(** The state of a new [Animator]. *)
Definition new_animator : Animator := mkAnimator [] 0.

(** A method that sets the cursor and draws. *)
Definition show_at (h : list Snapshot) (c : Z) : Outcome (Animator * Frame) :=
  let a := mkAnimator h c in
  match draw a with
  | Returned f => Returned (a, f)
  | Thrown e => Thrown e
  end.

Definition loadHistory (h : list Snapshot) (a : Animator)
    : Outcome (Animator * Frame) :=
  show_at h 0.

Definition stepForward (a : Animator) : Outcome (Animator * Frame) :=
  show_at (anim_history a) (clamp (current a + 1) 0 (last_index a)).

Definition stepBackward (a : Animator) : Outcome (Animator * Frame) :=
  show_at (anim_history a) (clamp (current a - 1) 0 (last_index a)).

Definition jumpTo (index : Z) (a : Animator) : Outcome (Animator * Frame) :=
  show_at (anim_history a) (clamp index 0 (last_index a)).

(** ** app.js: the Gantt chart

    [drawGanttChart] is modelled by the shapes it draws: the bars of the
    units, the marks of the time scale and the entries of the legend. *)

(** A value that JavaScript takes for true: a pid that is not empty. *)
Definition truthy (c : option string) : bool :=
  match c with
  | Some (String _ _) => true
  | _ => false
  end.

(** [[...new Set(l)]]: the elements of [l], each once, in the order of their
    first occurrence. *)
Definition js_set (l : list string) : list string :=
  fold_left (fun acc x => if existsb (String.eqb x) acc then acc else acc ++ [x])
            l [].

Definition colorPalette : list string :=
  [ "#E57373"; "#64B5F6"; "#81C784"; "#FFF176"; "#BA68C8";
    "#4DB6AC"; "#FFD54F"; "#9575CD"; "#4FC3F7"; "#A1887F" ]%string.

(** A value read from [colors]: a string, the object [Object.prototype], a
    method that [colors] inherits from [Object.prototype], or [undefined]. *)
Inductive ColorValue :=
| Str (c : string)
| ObjectPrototype
| Method (name : string)
| Undefined.

(** The key of the accessor through which an object shows its prototype. *)
Definition proto_key : string := "__proto__".

(** The names of the methods of [Object.prototype]. *)
Definition object_methods : list string :=
  [ "constructor"; "hasOwnProperty"; "isPrototypeOf"; "propertyIsEnumerable";
    "toLocaleString"; "toString"; "valueOf"; "__defineGetter__";
    "__defineSetter__"; "__lookupGetter__"; "__lookupSetter__" ]%string.

(** [colors[pid] = c] on the object [colors], which starts as [{}] and is kept
    as the list of its own properties, the latest first.  For the key
    [__proto__] the assignment calls the setter of the accessor, which ignores
    a string: no property is made and the prototype stays. *)
Definition set_color (p c : string) (colors : list (string * string))
    : list (string * string) :=
  if String.eqb p proto_key then colors else (p, c) :: colors.

(** [pids.forEach((pid, i) => colors[pid] = colorPalette[i % colorPalette.length])],
    from index [i]. *)
Fixpoint assign_colors (i : nat) (pids : list string) (colors : list (string * string))
    : list (string * string) :=
  match pids with
  | [] => colors
  | p :: pids' =>
      assign_colors (S i) pids'
        (match colorPalette !! (i mod length colorPalette)%nat with
         | Some c => set_color p c colors
         | None => colors
         end)
  end.

(** The own property [p] of [colors]. *)
Fixpoint own_color (colors : list (string * string)) (p : string) : option string :=
  match colors with
  | [] => None
  | (q, c) :: colors' => if String.eqb q p then Some c else own_color colors' p
  end.

(** [colors[pid]]: the key [__proto__] reads the prototype, another key its
    own property, or else what [Object.prototype] has under that name. *)
Definition color_of (colors : list (string * string)) (p : string) : ColorValue :=
  if String.eqb p proto_key then ObjectPrototype
  else match own_color colors p with
       | Some c => Str c
       | None => if existsb (String.eqb p) object_methods then Method p else Undefined
       end.

(** A bar: [bar_color] is the value given to [ctx.fillStyle]. *)
Record Bar := mkBar {
  bar_x : Z;
  bar_color : ColorValue;
  bar_label : string
}.

Record Gantt := mkGantt {
  bars : list Bar;
  marks : list (Z * Z);
  legend : list (Z * ColorValue * string)
}.

Definition pxPerUnit : Z := 30.

(** [const pids = [...new Set(trace.filter(t => t.cpu).map(t => t.cpu))]]. *)
Definition gantt_pids (trace : list TraceEvent) : list string :=
  js_set (omap (fun t => if truthy (ev_cpu t) then ev_cpu t else None) trace).

(** [trace.forEach((t, i) => { if (t.cpu) {...bar at x...}; x += pxPerUnit })]. *)
Fixpoint gantt_bars (colors : list (string * string)) (x : Z)
    (trace : list TraceEvent) : list Bar :=
  match trace with
  | [] => []
  | t :: trace' =>
      match ev_cpu t with
      | Some p =>
          if truthy (ev_cpu t)
          then mkBar x (color_of colors p) p :: gantt_bars colors (x + pxPerUnit) trace'
          else gantt_bars colors (x + pxPerUnit) trace'
      | None => gantt_bars colors (x + pxPerUnit) trace'
      end
  end.

(** [while (tMark <= trace.length) { mark tMark at x; x += pxPerUnit; tMark++ }],
    [n] being the number of iterations that are left. *)
Fixpoint gantt_marks (n : nat) (tMark x : Z) : list (Z * Z) :=
  match n with
  | O => []
  | S n' => (tMark, x) :: gantt_marks n' (tMark + 1) (x + pxPerUnit)
  end.

(** [pids.forEach(pid => { ...entry at lx...; lx += 70 })]. *)
Fixpoint gantt_legend (colors : list (string * string)) (lx : Z)
    (pids : list string) : list (Z * ColorValue * string) :=
  match pids with
  | [] => []
  | p :: pids' => (lx, color_of colors p, p) :: gantt_legend colors (lx + 70) pids'
  end.

Definition drawGanttChart (trace : list TraceEvent) : Gantt :=
  let pids := gantt_pids trace in
  let colors := assign_colors 0 pids [] in
  mkGantt (gantt_bars colors 50 trace)
          (gantt_marks (S (length trace)) 0 50)
          (gantt_legend colors 50 pids).

(** ** animation.js: the panels of a frame

    [_drawProcesses] and [_drawReadyQueue] are modelled by the boxes they
    draw. *)

(** [fillRect(x, y, w, h)] and [strokeRect(x, y, w, h)]. *)
Record Rect := mkRect {
  r_x : Z;
  r_y : Z;
  r_w : Z;
  r_h : Z
}.

Record ProcessBox := mkProcessBox {
  box_rect : Rect;
  box_fill : string;
  box_stroke : string;
  box_pid : string;
  box_rem : Z
}.

(** [p.pid === snap.cpu]. *)
Definition on_cpu (cpu : option string) (p : ProcState) : bool :=
  match cpu with
  | Some q => String.eqb (ps_pid p) q
  | None => false
  end.

(** The body of the loop of [_drawProcesses] for the process at index [i]:
    three columns of width [420/3], rows of height [itemH + 12]. *)
Definition process_box (cpu : option string) (i : nat) (p : ProcState)
    : ProcessBox :=
  let x := 520 in
  let y := 120 in
  let itemW := 420 / 3 in
  let itemH := 60 in
  let col := Z.of_nat (i mod 3) in
  let row := Z.of_nat (i / 3) in
  let xx := x + 12 + col * itemW in
  let yy := y + 28 + row * (itemH + 12) in
  mkProcessBox (mkRect xx yy (itemW - 18) itemH)
    (if on_cpu cpu p then "#2b1608"
     else if ps_remaining p =? 0 then "#0b2a18" else "#071922")
    (if on_cpu cpu p then "#ffb020" else "#163a50")
    (ps_pid p) (ps_remaining p).

(** [for (let i=0;i<procs.length;i++) {...}], from index [i]. *)
Fixpoint process_boxes (cpu : option string) (i : nat) (l : list ProcState)
    : list ProcessBox :=
  match l with
  | [] => []
  | p :: l' => process_box cpu i p :: process_boxes cpu (S i) l'
  end.

Definition drawProcesses (snap : Snapshot) : list ProcessBox :=
  process_boxes (snap_cpu snap) 0 (snap_procs snap).

(** The panel that [_drawProcesses] draws first, and the canvas of the
    [Animator] that app.js creates. *)
Definition processes_panel : Rect := mkRect 520 120 440 300.
Definition canvas_area : Rect := mkRect 0 0 1000 480.

(** The body of the loop of [_drawReadyQueue] for the item at index [i]. *)
Definition ready_item (i : nat) (p : string) : Rect * string :=
  let x := 20 in
  let y := 120 in
  let w := 160 in
  let itemH := 28 in
  let yy := y + 36 + Z.of_nat i * (itemH + 6) in
  (mkRect (x + 8) yy (w - 24) itemH, p).

Fixpoint ready_items (i : nat) (l : list string) : list (Rect * string) :=
  match l with
  | [] => []
  | p :: l' => ready_item i p :: ready_items (S i) l'
  end.

Definition drawReadyQueue (snap : Snapshot) : list (Rect * string) :=
  ready_items 0 (snap_ready snap).

Definition ready_panel : Rect := mkRect 20 120 160 300.

(** * Definitions used by the statements *)

(** ** Sample inputs *)

Definition no_options : Options := mkOptions None None None.

(** Two background processes, both present at time 0. *)
Definition two_background : list ProcIn :=
  [ mkProcIn "B" 0 5 (Some 1); mkProcIn "C" 0 1 (Some 1) ].

Definition one_process : list ProcIn := [ mkProcIn "P1" 0 1 None ].

(** The CPU occupants of a trace, in order. *)
Definition occupants (o : Outcome SimResult) : list (option string) :=
  match o with
  | Returned r => map ev_cpu (res_trace r)
  | Thrown _ => []
  end.

(** The tags that [simulate] has a [case] for. *)
Definition known_tags : list string :=
  [ "RR"; "FCFS"; "SJF"; "PRIORITY"; "MLQ" ]%string.

(** What [simulate] returns for no processes at all. *)
Definition empty_result : SimResult :=
  mkSimResult [] [] (mkStats NaN NaN NegInf (Fin 0) []).

(** ** The log of a run

    What a run leaves behind does not depend on the ready structure: the
    log of a state forgets it. *)

Definition erase {R} (st : State R) : State unit :=
  mkState (procs st) (time st) tt (history st) (trace st).

(** The fields of a process that only a unit of execution changes. *)
Definition core (p : Proc) : string * Z * Z * Z * Z :=
  (pid p, arrival p, burst p, priority p, remaining p).

(** The three ways in which a simulator changes its log: bookkeeping on the
    processes ([enqueued], [startTime], [completionTime]), an idle unit, and
    a unit of execution of the process at position [i], whose pid is [p]. *)
Inductive prim : State unit -> State unit -> Prop :=
| prim_meta st ps :
    map core ps = map core (procs st) ->
    prim st (with_procs ps st)
| prim_idle st rd ev :
    prim st (emit None rd ev st)
| prim_exec st i p rd ev :
    map pid (procs st) !! i = Some p ->
    prim st (emit (Some p) rd ev
               (with_procs (alter dec_remaining i (procs st)) st)).

(** The log with which every simulator starts. *)
Definition start_log (ps : list Proc) : State unit := mkState ps 0 tt [] [].

(** The ready structure of [st] has the property [G], which may depend on
    the pids of [procs]. *)
Definition ready_ok {R} (G : list string -> R -> Prop) (st : State R) : Prop :=
  G (map pid (procs st)) (ready st).

(** [st'] comes after [st]: its log extends the log of [st] by units, and
    its ready structure is as good as that of [st]. *)
Definition leads {R} (G : list string -> R -> Prop) (st st' : State R) : Prop :=
  rtc prim (erase st) (erase st') /\ (ready_ok G st -> ready_ok G st').

(** The ready structure only names processes of [procs]. *)
Definition queue_ok (pids : list string) (q : list string) : Prop :=
  Forall (fun p => In p pids) q.

Definition list_ok (pids : list string) (l : list nat) : Prop :=
  Forall (fun i => (i < length pids)%nat) l.

Definition mlq_ok (pids : list string) (q : MlqQueues) : Prop :=
  queue_ok pids (fgQueue q) /\ queue_ok pids (bgQueue q).

(** ** Trace and snapshots, unit by unit *)

(** The trace entry [e] and the snapshot [s] both record unit [i]. *)
Definition same_unit (i : nat) (e : TraceEvent) (s : Snapshot) : Prop :=
  ev_time e = Z.of_nat i /\ snap_time s = Z.of_nat i
  /\ ev_cpu e = snap_cpu s /\ ev_ready e = snap_ready s.

Definition aligned (tr : list TraceEvent) (h : list Snapshot) : Prop :=
  length tr = length h
  /\ forall i e s, tr !! i = Some e -> h !! i = Some s -> same_unit i e s.

Definition log_aligned (st : State unit) : Prop :=
  time st = Z.of_nat (length (trace st)) /\ aligned (trace st) (history st).

(** ** The iteration ceiling *)

Section Ceiling.
Context {R : Type}.
Variable push : nat -> Proc -> R -> R.
Variable is_empty : R -> bool.
Variable dispatch : State R -> Outcome (Flow * State R).

(** The main loop stops because [iter < maxIter] fails while there is
    still work: it follows [main_loop] and answers at the end. *)
Fixpoint loop_hits_ceiling (fuel : nat) (st : State R) : bool :=
  match fuel with
  | O => work_left is_empty st
  | S fuel' =>
      if work_left is_empty st
      then match iteration push dispatch st with
           | Returned (Continue, st') => loop_hits_ceiling fuel' st'
           | _ => false
           end
      else false
  end.

Definition hits_ceiling (ps : list Proc) (r0 : R) : bool :=
  loop_hits_ceiling maxIter (enqueueArrivals push (mkState ps 0 r0 [] [])).

(** The state at the head of the main loop after [k] full iterations, if the
    loop gets that far. *)
Fixpoint state_after (k : nat) (st : State R) : option (State R) :=
  match k with
  | O => Some st
  | S k' =>
      if work_left is_empty st
      then match iteration push dispatch st with
           | Returned (Continue, st') => state_after k' st'
           | _ => None
           end
      else None
  end.
(** The state in which the main loop stops when it reaches the ceiling: the
    one after [maxIter] iterations, where the guard fails on [iter < maxIter];
    the ready structure is forgotten. *)
Definition stops_at_ceiling (ps : list Proc) (r0 : R) : option (State unit) :=
  match state_after maxIter (enqueueArrivals push (mkState ps 0 r0 [] [])) with
  | Some st => Some (erase st)
  | None => None
  end.
End Ceiling.

(** The ceiling is reached in the simulator that [simulate] selects. *)
Definition ceiling_reached (algorithm : string) (processes : list ProcIn)
    (options : Options) : bool :=
  let procsIn := map normalize processes in
  let sorted := js_sort by_arrival (map init_proc procsIn) in
  let rr := hits_ceiling queue_push queue_empty
              (rr_dispatch (nullish (quantum options) 4)) sorted [] in
  if String.eqb algorithm "RR" then rr
  else if String.eqb algorithm "FCFS" then
    hits_ceiling queue_push queue_empty fcfs_dispatch sorted []
  else if String.eqb algorithm "SJF" then
    hits_ceiling list_push list_empty (pick_dispatch by_remaining)
      (map init_proc procsIn) []
  else if String.eqb algorithm "PRIORITY" then
    hits_ceiling list_push list_empty (pick_dispatch by_priority)
      (map init_proc procsIn) []
  else if String.eqb algorithm "MLQ" then
    hits_ceiling mlq_push mlq_empty
      (mlq_dispatch (nullish (mlqFgQuantum options) 2)
                    (Some (nullish (mlqBgQuantum options) 4)))
      sorted (mkMlqQueues [] [])
  else rr.

(** The state in which the loop of the simulator that [simulate] selects
    stops at the ceiling. *)
Definition state_at_ceiling (algorithm : string) (processes : list ProcIn)
    (options : Options) : option (State unit) :=
  let procsIn := map normalize processes in
  let sorted := js_sort by_arrival (map init_proc procsIn) in
  let rr := stops_at_ceiling queue_push queue_empty
              (rr_dispatch (nullish (quantum options) 4)) sorted [] in
  if String.eqb algorithm "RR" then rr
  else if String.eqb algorithm "FCFS" then
    stops_at_ceiling queue_push queue_empty fcfs_dispatch sorted []
  else if String.eqb algorithm "SJF" then
    stops_at_ceiling list_push list_empty (pick_dispatch by_remaining)
      (map init_proc procsIn) []
  else if String.eqb algorithm "PRIORITY" then
    stops_at_ceiling list_push list_empty (pick_dispatch by_priority)
      (map init_proc procsIn) []
  else if String.eqb algorithm "MLQ" then
    stops_at_ceiling mlq_push mlq_empty
      (mlq_dispatch (nullish (mlqFgQuantum options) 2)
                    (Some (nullish (mlqBgQuantum options) 4)))
      sorted (mkMlqQueues [] [])
  else rr.

(** One process that needs more units than Round Robin with quantum 1 can
    give within the ceiling. *)
Definition long_process : list ProcIn := [ mkProcIn "P1" 0 200001 None ].
Definition quantum_one : Options := mkOptions (Some 1) None None.

(** A process list with a process that has no work. *)
Definition zero_burst : list ProcIn :=
  [ mkProcIn "P1" 0 0 None; mkProcIn "P2" 0 2 None ].

(** The state of Round Robin on [long_process] at the start of an iteration:
    [P1] is alone in the queue with [rem] units left. *)
Definition long_state (rem : Z) (s : option Z) (t : Z) (h : list Snapshot)
    (tr : list TraceEvent) : State (list string) :=
  mkState [mkProc "P1" 0 200001 0 rem s None true] t ["P1"%string] h tr.

(** A simulator returns, and what it returns is the finalised last state of
    a log that grows from the initial one by units. *)
Definition runs_from (ps : list Proc) (o : Outcome SimResult) : Prop :=
  exists st : State unit, o = Returned (finish st) /\ rtc prim (start_log ps) st.


(** ** Statistics, as the specification words them *)

Definition total (l : list Z) : Z := fold_right Z.add 0 l.

(** The mean of a non-empty list. *)
Definition mean (l : list Z) : Q :=
  inject_Z (total l) / inject_Z (Z.of_nat (length l)).

Definition is_max (m : Z) (l : list Z) : Prop :=
  In m l /\ forall x, In x l -> x <= m.

Definition is_min (m : Z) (l : list Z) : Prop :=
  In m l /\ forall x, In x l -> m <= x.

(** ** Admission *)

(** The test of [enqueueArrivals]. *)
Definition admissible (now : Z) (p : Proc) : bool :=
  negb (enqueued p) && (arrival p <=? now) && (0 <? remaining p).

(** What [enqueueArrivals] does to a process. *)
Definition admit_mark (now : Z) (p : Proc) : Proc :=
  if admissible now p then set_enqueued p else p.

(** The pids that [enqueueArrivals] appends to a queue. *)
Definition admitted_pids (now : Z) (ps : list Proc) : list string :=
  map pid (List.filter (admissible now) ps).

(** A state of Round Robin in which [P1] is selected while [P2] has yet to
    arrive. *)
Definition rr_sample_state : State (list string) :=
  mkState [ mkProc "P1" 0 5 0 5 None None true;
            mkProc "P2" 1 3 0 3 None None false ]
          0 [ "P1"%string ] [] [].

(** The process [y] has not been admitted, has work, and its arrival time is
    reached after [t0] and at [t1] at the latest. *)
Definition arrives_within (t0 t1 : Z) (y : Proc) : Prop :=
  enqueued y = false /\ 0 < remaining y /\ t0 < arrival y <= t1.

(** ** Remaining times in the snapshots *)

(** The remaining times that a snapshot records, in the order of [procs]. *)
Definition snap_remaining (s : Snapshot) : list Z :=
  map ps_remaining (snap_procs s).

(** What a unit does to the remaining times: an idle unit nothing, a unit of
    execution of [p] takes one from the process with pid [p]. *)
Definition unit_effect (pids : list string) (cpu : option string)
    (rems : list Z) : list Z :=
  match cpu with
  | None => rems
  | Some p =>
      match find_index (fun q => String.eqb q p) pids with
      | Some k => alter (fun r => r - 1) k rems
      | None => rems
      end
  end.

(** Every snapshot of [h] records the effect of its own unit on the
    remaining times left by the snapshot before it ([rems] for the first). *)
Fixpoint replays (pids : list string) (bursts rems : list Z)
    (h : list Snapshot) : Prop :=
  match h with
  | [] => True
  | s :: h' =>
      map ps_pid (snap_procs s) = pids
      /\ map ps_burst (snap_procs s) = bursts
      /\ snap_remaining s = unit_effect pids (snap_cpu s) rems
      /\ replays pids bursts (snap_remaining s) h'
  end.

(** The remaining times after the last snapshot of [h]. *)
Definition last_remaining (rems : list Z) (h : list Snapshot) : list Z :=
  fold_left (fun _ s => snap_remaining s) h rems.

Definition log_replays (pids : list string) (bursts : list Z)
    (st : State unit) : Prop :=
  map pid (procs st) = pids
  /\ map burst (procs st) = bursts
  /\ replays pids bursts bursts (history st)
  /\ map remaining (procs st) = last_remaining bursts (history st).

(** The remaining time that the snapshot [s] records for the process [p]. *)
Definition remaining_in (s : Snapshot) (p : string) : option Z :=
  option_map ps_remaining
    (find (fun e => String.eqb (ps_pid e) p) (snap_procs s)).

(** The remaining time of the process of the entry [e] before unit [i]: its
    burst before the first unit, and what the snapshot of the unit before
    records otherwise. *)
Definition remaining_before (h : list Snapshot) (i : nat) (e : ProcState)
    : option Z :=
  match i with
  | O => Some (ps_burst e)
  | S j =>
      match h !! j with
      | Some s' => remaining_in s' (ps_pid e)
      | None => None
      end
  end.

(** No unit after unit [i] of [h] is a unit of [p]. *)
Definition last_unit_of (h : list Snapshot) (i : nat) (p : string) : Prop :=
  forall j s', (i < j)%nat -> h !! j = Some s' -> snap_cpu s' <> Some p.

(** ** Multilevel queue *)

(** The state in which [simulateMLQ] enters its main loop. *)
Definition mlq_start (processes : list Descriptor) : State MlqQueues :=
  enqueueArrivals mlq_push
    (mkState (js_sort by_arrival (map init_proc processes)) 0
             (mkMlqQueues [] []) [] []).

(** Every admitted foreground process with work left is in the foreground
    queue, the process [e] that holds the CPU apart. *)
Definition fg_waiting (e : option string) (st : State MlqQueues) : Prop :=
  forall y, In y (procs st) -> priority y = 0 -> enqueued y = true ->
            0 < remaining y ->
            e = Some (pid y) \/ In (pid y) (fgQueue (ready st)).

(** The background queue, and the background process [nb] that holds the
    CPU, name background processes only. *)
Definition bg_only (nb : list string) (st : State MlqQueues) : Prop :=
  forall q y, In q (bgQueue (ready st) ++ nb) -> In y (procs st) ->
              pid y = q -> priority y <> 0.

Definition mlq_inv (e : option string) (nb : list string)
    (st : State MlqQueues) : Prop :=
  NoDup (map pid (procs st)) /\ fg_waiting e st /\ bg_only nb st.

(** The foreground queue, and the foreground process [nf] that holds the
    CPU, name foreground processes only. *)
Definition fg_only (nf : list string) (st : State MlqQueues) : Prop :=
  forall q y, In q (fgQueue (ready st) ++ nf) -> In y (procs st) ->
              pid y = q -> priority y = 0.

Definition fg_inv (nf : list string) (st : State MlqQueues) : Prop :=
  NoDup (map pid (procs st)) /\ fg_only nf st.

(** [st'] comes from [st] by units that all have [c] on the CPU. *)
Definition serves {R} (c : option string) (st st' : State R) : Prop :=
  exists units, trace st' = trace st ++ units
                /\ Forall (fun e => ev_cpu e = c) units.

(** A foreground process that finishes in the first iteration, and a
    background process. *)
Definition mlq_sample : list Descriptor :=
  [ mkDescriptor "F" 0 1 0; mkDescriptor "B" 0 2 1 ].

Definition mlq_sample_state : State MlqQueues :=
  Eval vm_compute in
    match state_after mlq_push mlq_empty (mlq_dispatch 2 (Some 4)) 1
                      (mlq_start mlq_sample) with
    | Some st => st
    | None => mlq_start mlq_sample
    end.

(** The state after the iteration that follows, in which [B] is served. *)
Definition mlq_sample_next : State MlqQueues :=
  Eval vm_compute in
    match iteration mlq_push (mlq_dispatch 2 (Some 4)) mlq_sample_state with
    | Returned (_, st') => st'
    | Thrown _ => mlq_sample_state
    end.

(** ** The scenario of the specification *)

Definition four_processes : list ProcIn :=
  [ mkProcIn "P1" 0 5 None; mkProcIn "P2" 1 3 None;
    mkProcIn "P3" 2 8 None; mkProcIn "P4" 3 6 None ].

(** Pid, completion time and waiting time of the finalised processes. *)
Definition completions (o : Outcome SimResult) : list (string * Z * Z) :=
  match o with
  | Returned r =>
      map (fun f => (f_pid f, f_completionTime f, f_waiting f)) (processes (stats r))
  | Thrown _ => []
  end.

(** * Definitions used by the further statements *)

(** ** The cursor of the animator *)

(** The moves of the cursor that the playback controls ask for. *)
Inductive Move :=
| StepForward
| StepBackward
| JumpTo (index : Z).

Inductive Command :=
| LoadHistory (h : list Snapshot)
| Go (m : Move).

Definition run_move (m : Move) (a : Animator) : Outcome (Animator * Frame) :=
  match m with
  | StepForward => stepForward a
  | StepBackward => stepBackward a
  | JumpTo i => jumpTo i a
  end.

Definition run_command (c : Command) (a : Animator) : Outcome (Animator * Frame) :=
  match c with
  | LoadHistory h => loadHistory h a
  | Go m => run_move m a
  end.

(** The commands in order, from [a]; the frame is the one drawn last. *)
Fixpoint run_commands (cs : list Command) (a : Animator) (f : Frame)
    : Outcome (Animator * Frame) :=
  match cs with
  | [] => Returned (a, f)
  | c :: cs' =>
      match run_command c a with
      | Returned (a', f') => run_commands cs' a' f'
      | Thrown e => Thrown e
      end
  end.

(** The cursor is an index of the history, or 0 when there is none, and the
    frame is what is at the cursor. *)
Definition cursor_ok (a : Animator) (f : Frame) : Prop :=
  match anim_history a with
  | [] => current a = 0 /\ f = NoSimulation
  | _ :: _ =>
      0 <= current a < Z.of_nat (length (anim_history a))
      /\ exists s, anim_history a !! Z.to_nat (current a) = Some s /\ f = Shows s
  end.

(** An animator with three snapshots loaded and the cursor on the second. *)
Definition sample_animator : Animator :=
  mkAnimator [ mkSnapshot 0 None [] []; mkSnapshot 1 None [] [];
               mkSnapshot 2 None [] [] ] 1.

(** The same three snapshots with the cursor on the last and on the first. *)
Definition sample_at_last : Animator := mkAnimator (anim_history sample_animator) 2.
Definition sample_at_first : Animator := mkAnimator (anim_history sample_animator) 0.

(** ** The Gantt chart *)

(** The colour of the palette for the pid that appears as the [j]-th. *)
Definition palette_color (j : nat) : option string :=
  colorPalette !! (j mod length colorPalette)%nat.

Definition gantt_sample : list TraceEvent :=
  [ mkTraceEvent 0 (Some "A"%string) [] "exec(A)";
    mkTraceEvent 1 None [] "idle";
    mkTraceEvent 2 (Some "B"%string) [] "exec(B)";
    mkTraceEvent 3 (Some "A"%string) [] "exec(A)" ].

(** A trace in which the second process to appear has the pid [__proto__]. *)
Definition gantt_proto_sample : list TraceEvent :=
  [ mkTraceEvent 0 (Some "A"%string) [] "exec(A)";
    mkTraceEvent 1 (Some proto_key) [] "exec(__proto__)";
    mkTraceEvent 2 (Some "B"%string) [] "exec(B)" ].

(** ** Units of a slice and of an idle stretch *)

(** The [n] entries that a slice of [p] from time [t] appends to the trace:
    all with [p] on the CPU and labelled [exec(p)], at the times [t], [t+1],
    ... *)
Definition slice_units (p : string) (t : Z) (n : nat) (units : list TraceEvent)
    : Prop :=
  length units = n
  /\ forall j e, units !! j = Some e ->
       ev_cpu e = Some p /\ ev_event e = exec_label p /\ ev_time e = t + Z.of_nat j.

(** The [n] entries of an idle stretch from time [t]. *)
Definition idle_units (rd : list string) (t : Z) (n : nat)
    (units : list TraceEvent) : Prop :=
  length units = n
  /\ forall j e, units !! j = Some e ->
       ev_cpu e = None /\ ev_event e = "idle"%string /\ ev_ready e = rd
       /\ ev_time e = t + Z.of_nat j.

(** Nothing is left to admit at time [now]. *)
Definition all_admitted (now : Z) (ps : list Proc) : Prop :=
  Forall (fun p => arrival p <= now -> 0 < remaining p -> enqueued p = true) ps.

(** ** Selection by a key *)

(** [a] goes before [b] in the order of [simulateSJF]: less remaining time,
    or the same and an arrival that is not later. *)
Definition shorter_or_earlier (a b : Proc) : Prop :=
  remaining a < remaining b
  \/ (remaining a = remaining b /\ arrival a <= arrival b).

(** [a] goes before [b] in the order of [simulatePriority]: a lower priority
    value, then an earlier arrival, then a burst that is not longer. *)
Definition more_urgent (a b : Proc) : Prop :=
  priority a < priority b
  \/ (priority a = priority b
      /\ (arrival a < arrival b
          \/ (arrival a = arrival b /\ burst a <= burst b))).

(** A state of SJF and Priority with three admitted processes. *)
Definition pick_sample_state : State (list nat) :=
  mkState [ mkProc "P1" 0 7 2 7 None None true;
            mkProc "P2" 1 3 1 3 None None true;
            mkProc "P3" 2 3 0 3 None None true ]
          2 [ 0%nat; 1%nat; 2%nat ] [] [].

(** A state of FCFS in which [P1] is selected while [P2] has yet to arrive. *)
Definition fcfs_sample_state : State (list string) :=
  mkState [ mkProc "P1" 0 3 0 3 None None true;
            mkProc "P2" 1 2 0 2 None None false ]
          0 [ "P1"%string ] [] [].

(** ** What every run leaves in its log *)

Definition descriptor_of (p : Proc) : Descriptor :=
  mkDescriptor (pid p) (arrival p) (burst p) (priority p).

Definition ps_descriptor (e : ProcState) : Descriptor :=
  mkDescriptor (ps_pid e) (ps_arrival e) (ps_burst e) (ps_priority e).

(** The log is about the processes [ds], in this order: [procs] and every
    snapshot list them, and only they get the CPU. *)
Definition log_about (ds : list Descriptor) (st : State unit) : Prop :=
  map descriptor_of (procs st) = ds
  /\ Forall (fun s => map ps_descriptor (snap_procs s) = ds
                      /\ forall p, snap_cpu s = Some p -> In p (map d_pid ds))
            (history st)
  /\ Forall (fun e => forall p, ev_cpu e = Some p -> In p (map d_pid ds)) (trace st).

(** The number of units of the trace in which [p] has the CPU. *)
Definition cpu_is (p : string) (c : option string) : bool :=
  match c with
  | Some q => String.eqb q p
  | None => false
  end.

Definition units_of (p : string) (cpus : list (option string)) : nat :=
  length (List.filter (cpu_is p) cpus).

(** ** The books of a process *)

(** What the simulators keep true of every process at time [now]: a process
    that has not been admitted is untouched; an admitted one has arrived,
    has not done more work than the time since its arrival and since its
    start allows, and is completed only with its work done. *)
Definition proc_ok (now : Z) (y : Proc) : Prop :=
  remaining y <= burst y
  /\ (enqueued y = false ->
      remaining y = burst y /\ startTime y = None /\ completionTime y = None)
  /\ (enqueued y = true ->
      0 < burst y /\ 0 <= remaining y /\ arrival y <= now
      /\ (remaining y < burst y -> startTime y <> None))
  /\ (forall s, startTime y = Some s ->
        arrival y <= s <= now /\ burst y - remaining y <= now - s)
  /\ (forall c, completionTime y = Some c ->
        remaining y = 0 /\ c <= now
        /\ exists s, startTime y = Some s /\ s + burst y <= c).

(** The invariant of a simulator, over the relation [named i y r]: the ready
    structure [r] names the process [y], which is at position [i].  Pids are
    distinct, every process is in order, the ready structure names admitted
    processes only, and every admitted process with work left is named by
    it, the process [run] that holds the CPU apart. *)
Definition books {R} (named : nat -> Proc -> R -> Prop) (run : option nat)
    (st : State R) : Prop :=
  NoDup (map pid (procs st))
  /\ Forall (proc_ok (time st)) (procs st)
  /\ (forall i y, procs st !! i = Some y -> named i y (ready st) ->
        enqueued y = true)
  /\ (forall i y, procs st !! i = Some y -> enqueued y = true ->
        0 < remaining y -> run = Some i \/ named i y (ready st)).

Definition queue_named (i : nat) (y : Proc) (q : list string) : Prop :=
  In (pid y) q.

Definition list_named (i : nat) (y : Proc) (l : list nat) : Prop := In i l.

Definition mlq_named (i : nat) (y : Proc) (q : MlqQueues) : Prop :=
  In (pid y) (fgQueue q ++ bgQueue q).

(** The process at position [i] is running: it is admitted, has been started
    and has at least [n] units left. *)
Definition running {R} (i : nat) (n : Z) (st : State R) : Prop :=
  exists y s, procs st !! i = Some y /\ enqueued y = true
              /\ startTime y = Some s /\ n <= remaining y.

(** A simulator returns the finalised last state of a log that grows from
    the initial one by units; in that state the books of every process are
    in order, and unless the ceiling was reached ([ceiling] is false) no
    process has work left. *)
Definition settled (ceiling : bool) (ps : list Proc) (o : Outcome SimResult)
    : Prop :=
  exists st : State unit,
    o = Returned (finish st)
    /\ rtc prim (start_log ps) st
    /\ Forall (proc_ok (time st)) (procs st)
    /\ (ceiling = false -> Forall (fun y => remaining y <= 0) (procs st)).

Definition f_descriptor (x : FinalProc) : Descriptor :=
  mkDescriptor (f_pid x) (f_arrival x) (f_burst x) (f_priority x).

(** What the books of a process become in the report, [T] being the time at
    the end of the run. *)
Definition report_ok (T : Z) (x : FinalProc) : Prop :=
  f_turnaround x = f_completionTime x - f_arrival x
  /\ f_waiting x = f_turnaround x - f_burst x
  /\ f_remaining x <= f_burst x
  /\ (f_enqueued x = false ->
        f_remaining x = f_burst x /\ f_startTime x = f_arrival x
        /\ f_completionTime x = T)
  /\ (f_enqueued x = true ->
        0 < f_burst x /\ 0 <= f_remaining x
        /\ f_arrival x <= f_startTime x
        /\ f_startTime x + (f_burst x - f_remaining x) <= f_completionTime x
        /\ f_completionTime x <= T).

(** A process with no work that arrives after the others are done. *)
Definition late_and_workless : list ProcIn :=
  [ mkProcIn "A" 0 2 None; mkProcIn "B" 7 0 None ].

(** ** Idle units *)

Fixpoint ascending (l : list Z) : Prop :=
  match l with
  | [] => True
  | a :: l' => Forall (fun b => a <= b) l' /\ ascending l'
  end.

(** In an idle snapshot nobody waits for the CPU: every process that still
    has work arrives later. *)
Definition nobody_waits (s : Snapshot) : Prop :=
  snap_cpu s = None ->
  Forall (fun e => 0 < ps_remaining e -> snap_time s < ps_arrival e) (snap_procs s).

(** [procs] is in the order of arrival and no idle unit of the log was spent
    while a process was waiting. *)
Definition quiet {R} (st : State R) : Prop :=
  ascending (map d_arrival (map descriptor_of (procs st)))
  /\ Forall nobody_waits (history st).

(** [st'] comes from [st] by units in which the CPU is busy. *)
Definition busy_after {R} (st st' : State R) : Prop :=
  map descriptor_of (procs st') = map descriptor_of (procs st)
  /\ exists units, history st' = history st ++ units
                   /\ Forall (fun s => snap_cpu s <> None) units.

(** Two processes with a gap between them. *)
Definition with_a_gap : list ProcIn :=
  [ mkProcIn "A" 0 2 None; mkProcIn "B" 5 1 None ].

(** ** Runs without preemption *)

(** Every process that has been started was completed [burst] units later,
    but for the one that runs, if any: for it the time since its start is
    what it has received. *)
Definition unbroken {R} (run : option nat) (st : State R) : Prop :=
  (forall k y s, run <> Some k -> procs st !! k = Some y -> startTime y = Some s ->
                 completionTime y = Some (s + burst y))
  /\ (forall i, run = Some i ->
        exists y s, procs st !! i = Some y /\ startTime y = Some s
                    /\ completionTime y = None
                    /\ s + (burst y - remaining y) = time st).

(** The processes that the ready structure names have not been started. *)
Definition waiting_fresh {R} (named : nat -> Proc -> R -> Prop) (st : State R)
    : Prop :=
  forall k y, procs st !! k = Some y -> named k y (ready st) -> startTime y = None.

Definition nonpreemptive {R} (named : nat -> Proc -> R -> Prop)
    (distinct : R -> Prop) (run : option nat) (st : State R) : Prop :=
  distinct (ready st) /\ waiting_fresh named st /\ unbroken run st.

(** ** A quantum that is not positive *)

(** Nothing has been executed: the trace has idle entries only and every
    process has its whole burst left. *)
Definition starved {R} (st : State R) : Prop :=
  Forall (fun e => ev_cpu e = None) (trace st)
  /\ Forall (fun y => remaining y = burst y) (procs st).

Definition no_quantum : Options := mkOptions (Some 0) None None.

(** ** The order of the report *)

Definition arrives_at (a : Z) (d : Descriptor) : bool := d_arrival d =? a.

(** [l'] is [l] sorted by arrival, the processes that arrive together being
    left in the order of [l]. *)
Definition sorted_by_arrival (l l' : list Descriptor) : Prop :=
  Permutation l' l
  /\ ascending (map d_arrival l')
  /\ forall a, List.filter (arrives_at a) l' = List.filter (arrives_at a) l.

(** ** The panels of a frame *)

(** Two rectangles have a point in common. *)
Definition overlap (a b : Rect) : Prop :=
  r_x a < r_x b + r_w b /\ r_x b < r_x a + r_w a
  /\ r_y a < r_y b + r_h b /\ r_y b < r_y a + r_h a.

(** [a] lies within [b]. *)
Definition within (a b : Rect) : Prop :=
  r_x b <= r_x a /\ r_x a + r_w a <= r_x b + r_w b
  /\ r_y b <= r_y a /\ r_y a + r_h a <= r_y b + r_h b.

(** The box is drawn as that of the process on the CPU. *)
Definition highlighted (b : ProcessBox) : bool :=
  String.eqb (box_stroke b) "#ffb020".

(** A snapshot of two processes, the second on the CPU. *)
Definition sample_snapshot : Snapshot :=
  mkSnapshot 3 (Some "B"%string) ["A"%string]
    [ mkProcState "A" 0 2 1 (Some 0) None 0;
      mkProcState "B" 1 4 2 (Some 1) None 0 ].

(** ** The order of service of FCFS *)

(** Admitted and not yet started. *)
Definition waiting (y : Proc) : bool :=
  enqueued y && match startTime y with None => true | Some _ => false end.

Definition started (y : Proc) : bool :=
  match startTime y with Some _ => true | None => false end.

(** What a change of a process that is neither its admission nor its start
    leaves as it is. *)
Definition same_keys (y y' : Proc) : Prop :=
  pid y' = pid y /\ enqueued y' = enqueued y /\ startTime y' = startTime y
  /\ burst y' = burst y /\ remaining y' <= remaining y.

(** The queue of FCFS holds the processes that wait, in the order of
    [procs]; in that order the processes that have been started come first,
    each one after the end of those before it, then those that wait, then
    those that have yet to be admitted. *)
Definition fcfs_order (st : State (list string)) : Prop :=
  ready st = map pid (List.filter waiting (procs st))
  /\ (forall i j y z, (i < j)%nat -> procs st !! i = Some y -> procs st !! j = Some z ->
        started z = true -> enqueued y = true -> started y = true)
  /\ (forall i j y z, (i < j)%nat -> procs st !! i = Some y -> procs st !! j = Some z ->
        enqueued z = true -> enqueued y = false -> remaining y <= 0)
  /\ (forall i j y z s s', (i < j)%nat ->
        procs st !! i = Some y -> procs st !! j = Some z ->
        startTime y = Some s -> startTime z = Some s' -> s + burst y <= s').

(** ** The order of service of SJF and Priority *)

(** A process as it is before its admission. *)
Definition fresh (y : Proc) : Proc := init_proc (descriptor_of y).

(** What stays once a process has been started. *)
Definition start_table {R} (st : State R) : list (Descriptor * option Z) :=
  map (fun y => (descriptor_of y, startTime y)) (procs st).

(** Every process that has been started was first by [cmp], at its start,
    among the processes with work that had arrived and had not been started
    before. *)
Definition picked_in_order {R} (cmp : Proc -> Proc -> Z) (st : State R) : Prop :=
  forall i j y z s,
    procs st !! i = Some y -> procs st !! j = Some z ->
    startTime y = Some s -> arrival z <= s -> 0 < burst z ->
    (exists s', startTime z = Some s' /\ s' < s) \/ cmp (fresh y) (fresh z) <= 0.

(** Three processes of which the shortest arrives last. *)
Definition short_comes_last : list ProcIn :=
  [ mkProcIn "A" 0 4 (Some 2); mkProcIn "B" 1 3 (Some 1); mkProcIn "C" 2 1 (Some 0) ].

(** ** The iterations that a run needs *)

(** What a process can still ask of the main loop: two iterations for each
    unit that is left, and two for its admission. *)
Definition cost (y : Proc) : Z :=
  2 * Z.max 0 (remaining y)
  + (if negb (enqueued y) && (0 <? remaining y) then 2 else 0).

(** A bound on the iterations that are left, [size] being the number of
    entries of the ready structure. *)
Definition load {R} (size : R -> Z) (st : State R) : Z :=
  total (map cost (procs st)) + size (ready st).

Definition queue_size (q : list string) : Z := Z.of_nat (length q).
Definition list_size (l : list nat) : Z := Z.of_nat (length l).
Definition mlq_size (q : MlqQueues) : Z :=
  Z.of_nat (length (fgQueue q)) + Z.of_nat (length (bgQueue q)).

(** The units of work of the processes that have some, and one more for
    each of them. *)
Definition demand (ps : list ProcIn) : Z :=
  total (map (fun p => if 0 <? in_burst p then in_burst p + 1 else 0) ps).

(** * The entry point *)

(** C1. Called through [simulate] without [mlqBgQuantum], the background
    queue is served with a quantum of 4: [B], with 5 units of work, is
    preempted after 4 units and re-enqueued behind [C].  Called directly
    without a background quantum, [simulateMLQ] runs [B] to completion. *)
Lemma C1_mlq_default_background_quantum :
  occupants (simulate "MLQ" two_background no_options)
    = [Some "B"; Some "B"; Some "B"; Some "B"; Some "C"; Some "B"]%string
  /\ occupants (simulateMLQ (map normalize two_background) 2 None)
    = [Some "B"; Some "B"; Some "B"; Some "B"; Some "B"; Some "C"]%string.
Proof. split; vm_compute; reflexivity. Qed.

Lemma simulate_unknown_tag (algorithm : string) (ps : list ProcIn) (o : Options) :
  ~ In algorithm known_tags ->
  simulate algorithm ps o = simulateRR (map normalize ps) (nullish (quantum o) 4).
Proof.
  intros Hout. unfold simulate.
  repeat match goal with
         | |- context [String.eqb algorithm ?s] =>
             destruct (String.eqb_spec algorithm s) as [->|_];
             [exfalso; apply Hout; simpl; tauto|]
         end.
  reflexivity.
Qed.

(** C2, as stated, fails: a tag without a [case] does not make [simulate]
    fail. *)
Lemma C2_unknown_tag_does_not_fail :
  ~ In "LOTTERY"%string known_tags
  /\ ~ fails (simulate "LOTTERY" one_process no_options).
Proof.
  split.
  - simpl. intros H. repeat destruct H as [H|H]; try discriminate H; exact H.
  - vm_compute. tauto.
Qed.

(** C3, as stated, fails: [simulate] returns for the empty list, and the
    averages of the returned statistics are [NaN]. *)
Lemma C3_empty_list_returns_NaN :
  ~ fails (simulate "FCFS" [] no_options)
  /\ (exists r, simulate "FCFS" [] no_options = Returned r
                /\ avgWaiting (stats r) = NaN).
Proof.
  split.
  - vm_compute. tauto.
  - eexists. split; vm_compute; reflexivity.
Qed.

(** C3, amended: for the empty process list [simulate] returns, whatever the
    tag and the options, an empty trace, no snapshots, and statistics whose
    averages are [NaN], whose makespan is minus infinity and whose throughput
    is 0. *)
Theorem C3_empty_list (algorithm : string) (o : Options) :
  simulate algorithm [] o = Returned empty_result.
Proof.
  unfold simulate.
  repeat (destruct (String.eqb _ _); [reflexivity|]).
  reflexivity.
Qed.

(** * The engine: every simulator returns, and its log is built from units *)

Lemma erase_emit {R} cpu rd ev (st : State R) :
  erase (emit cpu rd ev st) = emit cpu rd ev (erase st).
Proof. reflexivity. Qed.

Lemma erase_with_procs {R} ps (st : State R) :
  erase (with_procs ps st) = with_procs ps (erase st).
Proof. reflexivity. Qed.

Lemma erase_with_ready {R} (r : R) (st : State R) :
  erase (with_ready r st) = erase st.
Proof. reflexivity. Qed.

Lemma core_pid ps qs : map core ps = map core qs -> map pid ps = map pid qs.
Proof.
  intros H. change pid with (fun p => fst (fst (fst (fst (core p))))).
  rewrite <- !(map_map core (fun c => fst (fst (fst (fst c))))). now rewrite H.
Qed.

Lemma core_remaining ps qs :
  map core ps = map core qs -> map remaining ps = map remaining qs.
Proof.
  intros H. change remaining with (fun p => snd (core p)).
  rewrite <- !(map_map core snd). now rewrite H.
Qed.

Lemma core_alter_meta (f : Proc -> Proc) i ps :
  (forall p, core (f p) = core p) -> map core (alter f i ps) = map core ps.
Proof.
  intros Hf. revert i. induction ps as [|p ps IH]; intros [|i]; simpl; trivial.
  - now rewrite Hf.
  - f_equal. apply IH.
Qed.

Lemma prim_pids st st' : prim st st' -> map pid (procs st') = map pid (procs st).
Proof.
  intros [st0 ps H | st0 rd ev | st0 i p rd ev H]; simpl; trivial.
  - now apply core_pid.
  - clear. revert i. induction (procs st0) as [|x ps IH]; intros [|i]; simpl; trivial.
    f_equal. apply IH.
Qed.

Lemma steps_pids st st' : rtc prim st st' -> map pid (procs st') = map pid (procs st).
Proof.
  induction 1 as [|a b c Hab _ IH]; trivial.
  rewrite IH. now apply prim_pids.
Qed.

Section EngineFacts.
Context {R : Type}.
Variable push : nat -> Proc -> R -> R.
Variable view : list Proc -> R -> list string.
Variable idle_view : R -> list string.
Variable is_empty : R -> bool.

(** The property of the ready structure that [push] keeps. *)
Variable G : list string -> R -> Prop.
Hypothesis push_ok : forall pids i p r,
  pids !! i = Some (pid p) -> G pids r -> G pids (push i p r).

Lemma leads_refl st : leads G st st.
Proof. split; [apply rtc_refl | trivial]. Qed.

Lemma leads_trans st1 st2 st3 : leads G st1 st2 -> leads G st2 st3 -> leads G st1 st3.
Proof. intros [A B] [C D]. split; [now apply rtc_trans with (erase st2) | auto]. Qed.

Lemma leads_pids st st' : leads G st st' -> map pid (procs st') = map pid (procs st).
Proof. intros [H _]. apply (steps_pids _ _ H). Qed.

Lemma enqueue_from_core now i ps r : map core (fst (enqueue_from push now i ps r)) = map core ps.
Proof.
  revert i r. induction ps as [|p ps IH]; intros i r; simpl; trivial.
  destruct (negb (enqueued p) && (arrival p <=? now) && (0 <? remaining p)).
  - specialize (IH (S i) (push i p r)).
    destruct (enqueue_from push now (S i) ps (push i p r)); simpl in *. now rewrite IH.
  - specialize (IH (S i) r).
    destruct (enqueue_from push now (S i) ps r); simpl in *. now rewrite IH.
Qed.

Lemma enqueue_from_ready pids now i ps r :
  (forall j x, ps !! j = Some x -> pids !! (i + j)%nat = Some (pid x)) ->
  G pids r -> G pids (snd (enqueue_from push now i ps r)).
Proof.
  revert i r. induction ps as [|p ps IH]; intros i r Hps Hr; simpl; trivial.
  assert (Hp : pids !! i = Some (pid p)).
  { replace i with (i + 0)%nat by lia. now apply Hps. }
  assert (Htl : forall j x, ps !! j = Some x -> pids !! (S i + j)%nat = Some (pid x)).
  { intros j x Hj. replace (S i + j)%nat with (i + S j)%nat by lia. now apply Hps. }
  destruct (negb (enqueued p) && (arrival p <=? now) && (0 <? remaining p)).
  - specialize (IH (S i) (push i p r) Htl (push_ok _ _ _ _ Hp Hr)).
    now destruct (enqueue_from push now (S i) ps (push i p r)).
  - specialize (IH (S i) r Htl Hr).
    now destruct (enqueue_from push now (S i) ps r).
Qed.

Lemma enqueueArrivals_fields st :
  time (enqueueArrivals push st) = time st
  /\ history (enqueueArrivals push st) = history st
  /\ trace (enqueueArrivals push st) = trace st
  /\ map core (procs (enqueueArrivals push st)) = map core (procs st).
Proof.
  unfold enqueueArrivals.
  pose proof (enqueue_from_core (time st) 0 (procs st) (ready st)) as H.
  destruct (enqueue_from push (time st) 0 (procs st) (ready st)); simpl in *. auto.
Qed.

Lemma enqueueArrivals_leads st : leads G st (enqueueArrivals push st).
Proof.
  destruct (enqueueArrivals_fields st) as (Ht & Hh & Htr & Hc).
  split.
  - apply rtc_once.
    replace (erase (enqueueArrivals push st))
      with (with_procs (procs (enqueueArrivals push st)) (erase st)).
    + now apply prim_meta.
    + unfold with_procs, erase. simpl. now rewrite Ht, Hh, Htr.
  - unfold ready_ok. rewrite (core_pid _ _ Hc). intros Hr.
    unfold enqueueArrivals.
    pose proof (enqueue_from_ready (map pid (procs st)) (time st) 0 (procs st) (ready st)) as H.
    destruct (enqueue_from push (time st) 0 (procs st) (ready st)); simpl in *.
    apply H; trivial.
    intros j x Hj. rewrite list_lookup_fmap, Hj. reflexivity.
Qed.

Lemma emit_idle_leads rd ev st : leads G st (emit None rd ev st).
Proof. split; [apply rtc_once, prim_idle | trivial]. Qed.

Lemma idle_until_leads fuel jumpTo st : leads G st (idle_until idle_view fuel jumpTo st).
Proof.
  revert st. induction fuel as [|fuel IH]; intros st; simpl; [apply leads_refl|].
  destruct (time st <? jumpTo); [|apply leads_refl].
  eapply leads_trans; [apply emit_idle_leads | apply IH].
Qed.

Lemma idle_phase_leads st f st' :
  idle_phase push idle_view st = (f, st') -> leads G st st'.
Proof.
  unfold idle_phase.
  destruct (find _ (procs st)); intros [= <- <-]; [|apply leads_refl].
  eapply leads_trans; [apply idle_until_leads | apply enqueueArrivals_leads].
Qed.

Lemma alter_pids (f : Proc -> Proc) i ps :
  (forall p, pid (f p) = pid p) -> map pid (alter f i ps) = map pid ps.
Proof.
  intros Hf. revert i. induction ps as [|p ps IH]; intros [|i]; simpl; trivial.
  - now rewrite Hf.
  - f_equal. apply IH.
Qed.

Lemma exec_unit_leads i p st :
  map pid (procs st) !! i = Some p -> leads G st (exec_unit push view i p st).
Proof.
  intros Hp. unfold exec_unit.
  eapply leads_trans; [|apply enqueueArrivals_leads].
  split.
  - apply rtc_once. rewrite erase_emit, erase_with_procs. now apply prim_exec.
  - unfold ready_ok. simpl. now rewrite alter_pids.
Qed.

Lemma run_for_leads n i p st :
  map pid (procs st) !! i = Some p -> leads G st (run_for push view n i p st).
Proof.
  revert st. induction n as [|n IH]; intros st Hp; simpl; [apply leads_refl|].
  pose proof (exec_unit_leads i p st Hp) as H.
  eapply leads_trans; [exact H|]. apply IH. now rewrite (leads_pids _ _ H).
Qed.

Lemma run_to_completion_leads fuel i p st :
  map pid (procs st) !! i = Some p ->
  leads G st (run_to_completion push view fuel i p st).
Proof.
  revert st. induction fuel as [|n IH]; intros st Hp; simpl; [apply leads_refl|].
  destruct (0 <? remaining (procs st !!! i)); [|apply leads_refl].
  pose proof (exec_unit_leads i p st Hp) as H.
  eapply leads_trans; [exact H|]. apply IH. now rewrite (leads_pids _ _ H).
Qed.

Lemma meta_leads (f : Proc -> Proc) i st :
  (forall p, core (f p) = core p) ->
  leads G st (with_procs (alter f i (procs st)) st).
Proof.
  intros Hf. split.
  - apply rtc_once. rewrite erase_with_procs.
    apply (prim_meta (erase st)). now apply core_alter_meta.
  - unfold ready_ok. simpl.
    now rewrite (core_pid _ _ (core_alter_meta f i (procs st) Hf)).
Qed.

Lemma run_whole_leads i p st :
  map pid (procs st) !! i = Some p -> leads G st (run_whole push view i p st).
Proof.
  intros Hp. unfold run_whole.
  set (st1 := run_to_completion push view _ i p st).
  apply leads_trans with st1; [now apply run_to_completion_leads|].
  now apply meta_leads.
Qed.

Lemma run_slice_leads requeue q i p st :
  (forall pids r, In p pids -> G pids r -> G pids (requeue p r)) ->
  map pid (procs st) !! i = Some p ->
  leads G st (run_slice push view requeue q i p st).
Proof.
  intros Hre Hp. unfold run_slice.
  set (st1 := run_for push view _ i p st).
  assert (H1 : leads G st st1) by now apply run_for_leads.
  eapply leads_trans; [exact H1|].
  destruct (remaining (procs st1 !!! i) =? 0); [now apply meta_leads|].
  split; [rewrite erase_with_ready; apply rtc_refl|].
  unfold ready_ok. simpl. apply Hre.
  rewrite (leads_pids _ _ H1). apply list_elem_of_In. eapply list_elem_of_lookup_2, Hp.
Qed.

Lemma find_index_Some {A} (f : A -> bool) (l : list A) i :
  find_index f l = Some i -> exists x, l !! i = Some x /\ f x = true.
Proof.
  revert i. induction l as [|y l IH]; intros i; simpl; [discriminate|].
  destruct (f y) eqn:Hy.
  - intros [= <-]. eauto.
  - destruct (find_index f l) as [j|]; simpl; [|discriminate].
    intros [= <-]. apply (IH j eq_refl).
Qed.

Lemma find_index_None {A} (f : A -> bool) (l : list A) :
  find_index f l = None -> forall x, In x l -> f x = false.
Proof.
  induction l as [|y l IH]; simpl; [tauto|].
  destruct (f y) eqn:Hy; [discriminate|].
  destruct (find_index f l); simpl; [discriminate|].
  intros _ x [<-|Hx]; auto.
Qed.

Lemma find_index_pid p ps i :
  find_index (fun x => String.eqb (pid x) p) ps = Some i -> map pid ps !! i = Some p.
Proof.
  intros H. apply find_index_Some in H as (x & Hx & Heq).
  apply String.eqb_eq in Heq. rewrite list_lookup_fmap, Hx. simpl. now f_equal.
Qed.

Lemma find_index_present p ps :
  In p (map pid ps) -> exists i, find_index (fun x => String.eqb (pid x) p) ps = Some i.
Proof.
  intros Hin. destruct (find_index _ ps) as [i|] eqn:H; [eauto|].
  apply in_map_iff in Hin as (x & <- & Hx).
  pose proof (find_index_None _ _ H x Hx) as Hf. simpl in Hf.
  now rewrite String.eqb_refl in Hf.
Qed.

Lemma with_found_leads p st k :
  In p (map pid (procs st)) ->
  (forall i st1, map pid (procs st1) !! i = Some p -> leads G st1 (k i st1)) ->
  exists f st', with_found p st k = Returned (f, st') /\ leads G st st'.
Proof.
  intros Hin Hk. unfold with_found.
  destruct (find_index_present p (procs st) Hin) as [i Hi]. rewrite Hi.
  do 2 eexists. split; [reflexivity|].
  pose proof (meta_leads (set_start (time st)) i st (fun _ => eq_refl)) as H.
  eapply leads_trans; [exact H|]. apply Hk.
  rewrite (leads_pids _ _ H). now apply find_index_pid.
Qed.

(** The main loop. *)
Variable dispatch : State R -> Outcome (Flow * State R).
Hypothesis dispatch_ok : forall st,
  ready_ok G st -> exists f st', dispatch st = Returned (f, st') /\ leads G st st'.

Lemma main_loop_leads fuel st :
  ready_ok G st ->
  exists st', main_loop push is_empty dispatch fuel st = Returned st' /\ leads G st st'.
Proof.
  revert st. induction fuel as [|fuel IH]; intros st Hst; simpl.
  { eexists. split; [reflexivity | apply leads_refl]. }
  destruct (work_left is_empty st).
  2:{ eexists. split; [reflexivity | apply leads_refl]. }
  unfold iteration.
  pose proof (enqueueArrivals_leads st) as H1.
  destruct (dispatch_ok (enqueueArrivals push st)) as (f & st1 & -> & H2).
  { now apply H1. }
  pose proof (leads_trans _ _ _ H1 H2) as H3.
  destruct f.
  - destruct (IH st1) as (st' & -> & H4). { now apply H3. }
    eexists. split; [reflexivity|]. now apply leads_trans with st1.
  - eexists. split; [reflexivity | exact H3].
Qed.

Lemma run_simulator_leads ps r0 :
  G (map pid ps) r0 ->
  exists st : State R,
    run_simulator push is_empty dispatch ps r0 = Returned (finish st)
             /\ rtc prim (start_log ps) (erase st).
Proof.
  intros H0. unfold run_simulator.
  set (st0 := mkState ps 0 r0 [] []).
  pose proof (enqueueArrivals_leads st0) as H1.
  destruct (main_loop_leads maxIter (enqueueArrivals push st0)) as (st & -> & H2).
  { now apply H1. }
  exists st. split; [reflexivity|].
  apply (leads_trans _ _ _ H1 H2).

Qed.

End EngineFacts.

(** * The five simulators *)

Lemma sort_insert_perm {A} (cmp : A -> A -> Z) x l :
  Permutation (sort_insert cmp x l) (x :: l).
Proof.
  induction l as [|y l IH]; simpl; [reflexivity|].
  destruct (0 <? cmp x y); [|reflexivity].
  rewrite IH. apply perm_swap.
Qed.

Lemma js_sort_perm {A} (cmp : A -> A -> Z) l : Permutation (js_sort cmp l) l.
Proof.
  induction l as [|x l IH]; simpl; [reflexivity|].
  unfold js_sort in *. simpl. rewrite sort_insert_perm. now constructor.
Qed.

Lemma queue_push_ok pids i p q :
  pids !! i = Some (pid p) -> queue_ok pids q -> queue_ok pids (queue_push i p q).
Proof.
  intros Hp Hq. apply Forall_app. split; [exact Hq|].
  constructor; [|constructor].
  apply list_elem_of_In. eapply list_elem_of_lookup_2, Hp.
Qed.

Lemma queue_requeue_ok p pids q :
  In p pids -> queue_ok pids q -> queue_ok pids (q ++ [p]).
Proof. intros Hp Hq. apply Forall_app. split; [exact Hq | repeat constructor; exact Hp]. Qed.

Lemma list_push_ok pids i p l :
  pids !! i = Some (pid p) -> list_ok pids l -> list_ok pids (list_push i p l).
Proof.
  intros Hp Hl. apply Forall_app. split; [exact Hl|].
  constructor; [|constructor]. eapply lookup_lt_Some, Hp.
Qed.

Lemma mlq_push_ok pids i p q :
  pids !! i = Some (pid p) -> mlq_ok pids q -> mlq_ok pids (mlq_push i p q).
Proof.
  intros Hp [Hf Hb]. unfold mlq_push.
  destruct (priority p =? 0); split; simpl; trivial;
    now apply (queue_push_ok pids i p).
Qed.

Lemma shift_leads {R} (G : list string -> R -> Prop) (st : State R) r :
  (G (map pid (procs st)) (ready st) -> G (map pid (procs st)) r) ->
  leads G st (with_ready r st).
Proof. intros H. split; [apply rtc_refl | exact H]. Qed.

Lemma rr_dispatch_ok quantum st :
  ready_ok queue_ok st ->
  exists f st', rr_dispatch quantum st = Returned (f, st') /\ leads queue_ok st st'.
Proof.
  intros Hst. unfold rr_dispatch. destruct (ready st) as [|p rest] eqn:Hq.
  - destruct (idle_phase queue_push (fun q => q) st) as [f st'] eqn:Hi.
    exists f, st'. split; [reflexivity|].
    eapply idle_phase_leads, Hi. exact queue_push_ok.
  - unfold ready_ok in Hst. rewrite Hq in Hst.
    destruct (with_found_leads queue_ok p (with_ready rest st)
                (fun i => run_slice queue_push queue_view (fun x q => q ++ [x]) quantum i p))
      as (f & st' & Hw & Hl).
    + simpl. now inversion Hst.
    + intros i st1 Hp.
      apply (run_slice_leads _ _ queue_ok queue_push_ok); [|exact Hp].
      intros pids r. apply queue_requeue_ok.
    + exists f, st'. split; [exact Hw|].
      eapply leads_trans; [|exact Hl].
      apply shift_leads. rewrite Hq. intros H. now inversion H.
Qed.

Lemma fcfs_dispatch_ok st :
  ready_ok queue_ok st ->
  exists f st', fcfs_dispatch st = Returned (f, st') /\ leads queue_ok st st'.
Proof.
  intros Hst. unfold fcfs_dispatch. destruct (ready st) as [|p rest] eqn:Hq.
  - destruct (idle_phase queue_push (fun q => q) st) as [f st'] eqn:Hi.
    exists f, st'. split; [reflexivity|].
    eapply idle_phase_leads, Hi. exact queue_push_ok.
  - unfold ready_ok in Hst. rewrite Hq in Hst.
    destruct (with_found_leads queue_ok p (with_ready rest st)
                (fun i => run_whole queue_push queue_view i p))
      as (f & st' & Hw & Hl).
    + simpl. now inversion Hst.
    + intros i st1 Hp. now apply (run_whole_leads _ _ queue_ok queue_push_ok).
    + exists f, st'. split; [exact Hw|].
      eapply leads_trans; [|exact Hl].
      apply shift_leads. rewrite Hq. intros H. now inversion H.
Qed.

Lemma pick_dispatch_ok cmp st :
  ready_ok list_ok st ->
  exists f st', pick_dispatch cmp st = Returned (f, st') /\ leads list_ok st st'.
Proof.
  intros Hst. unfold pick_dispatch. destruct (ready st) as [|i0 rest0] eqn:Hq.
  - destruct (idle_phase list_push (fun _ => []) st) as [f st'] eqn:Hi.
    exists f, st'. split; [reflexivity|].
    eapply idle_phase_leads, Hi. exact list_push_ok.
  - set (cmp' := fun a b => cmp (procs st !!! a) (procs st !!! b)).
    pose proof (js_sort_perm cmp' (i0 :: rest0)) as Hperm.
    destruct (js_sort cmp' (i0 :: rest0)) as [|i rest] eqn:Hs.
    { apply Permutation_nil in Hperm. discriminate. }
    unfold ready_ok in Hst. rewrite Hq in Hst.
    assert (Hok : list_ok (map pid (procs st)) (i :: rest)).
    { unfold list_ok. now rewrite Hperm. }
    inversion Hok as [|? ? Hi Hrest]; subst.
    rewrite length_map in Hi.
    destruct (lookup_lt_is_Some_2 (procs st) i Hi) as [x Hx].
    do 2 eexists. split; [reflexivity|].
    set (st1 := mkState (alter (set_start (time st)) i (procs st)) (time st) rest
                        (history st) (trace st)).
    assert (H1 : leads list_ok st st1).
    { split.
      - apply rtc_once. apply (prim_meta (erase st)). now apply core_alter_meta.
      - intros _. unfold ready_ok, st1. simpl. now rewrite alter_pids. }
    eapply leads_trans; [exact H1|].
    apply (run_whole_leads _ _ list_ok list_push_ok).
    unfold st1. simpl. rewrite alter_pids by reflexivity.
    rewrite list_lookup_fmap, Hx. simpl.
    now rewrite (list_lookup_total_correct _ _ _ Hx).
Qed.

Lemma mlq_dispatch_ok fgQuantum bgQuantum st :
  ready_ok mlq_ok st ->
  exists f st', mlq_dispatch fgQuantum bgQuantum st = Returned (f, st')
                /\ leads mlq_ok st st'.
Proof.
  intros Hst. unfold mlq_dispatch.
  destruct (fgQueue (ready st)) as [|p rest] eqn:Hfg.
  - destruct (bgQueue (ready st)) as [|p rest] eqn:Hbg.
    + destruct (idle_phase mlq_push (fun _ => []) st) as [f st'] eqn:Hi.
      exists f, st'. split; [reflexivity|].
      eapply idle_phase_leads, Hi. exact mlq_push_ok.
    + destruct Hst as [_ Hb]. rewrite Hbg in Hb.
      destruct (with_found_leads mlq_ok p
                  (with_ready (mkMlqQueues [] rest) st)
                  (fun i => match bgQuantum with
                            | None => run_whole mlq_push mlq_view i p
                            | Some q => run_slice mlq_push mlq_view bg_requeue q i p
                            end))
        as (f & st' & Hw & Hl).
      * simpl. now inversion Hb.
      * intros i st1 Hp. destruct bgQuantum as [q|].
        -- apply (run_slice_leads _ _ mlq_ok mlq_push_ok); [|exact Hp].
           intros pids r Hin [Hf' Hb']. split; simpl; trivial.
           now apply queue_requeue_ok.
        -- apply (run_whole_leads _ _ mlq_ok mlq_push_ok); exact Hp.
      * exists f, st'. split; [exact Hw|].
        eapply leads_trans; [|exact Hl].
        apply shift_leads. intros _. split; simpl; [constructor | now inversion Hb].
  - destruct Hst as [Hf Hb]. rewrite Hfg in Hf.
    destruct (with_found_leads mlq_ok p
                (with_ready (mkMlqQueues rest (bgQueue (ready st))) st)
                (fun i => run_slice mlq_push mlq_view fg_requeue fgQuantum i p))
      as (f & st' & Hw & Hl).
    + simpl. now inversion Hf.
    + intros i st1 Hp.
      apply (run_slice_leads _ _ mlq_ok mlq_push_ok); [|exact Hp].
      intros pids r Hin [Hf' Hb']. split; simpl; trivial.
      now apply queue_requeue_ok.
    + exists f, st'. split; [exact Hw|].
      eapply leads_trans; [|exact Hl].
      apply shift_leads. intros _. split; simpl; [now inversion Hf | exact Hb].
Qed.

Lemma simulateRR_runs processes quantum :
  runs_from (js_sort by_arrival (map init_proc processes)) (simulateRR processes quantum).
Proof.
  destruct (run_simulator_leads queue_push queue_empty queue_ok queue_push_ok
              (rr_dispatch quantum) (rr_dispatch_ok quantum)
              (js_sort by_arrival (map init_proc processes)) []) as (st & H & Hs).
  { constructor. }
  exists (erase st). split; [exact H | exact Hs].
Qed.

Lemma simulateFCFS_runs processes :
  runs_from (js_sort by_arrival (map init_proc processes)) (simulateFCFS processes).
Proof.
  destruct (run_simulator_leads queue_push queue_empty queue_ok queue_push_ok
              fcfs_dispatch fcfs_dispatch_ok
              (js_sort by_arrival (map init_proc processes)) []) as (st & H & Hs).
  { constructor. }
  exists (erase st). split; [exact H | exact Hs].
Qed.

Lemma simulate_pick_runs cmp processes :
  runs_from (map init_proc processes)
    (run_simulator list_push list_empty (pick_dispatch cmp) (map init_proc processes) []).
Proof.
  destruct (run_simulator_leads list_push list_empty list_ok list_push_ok
              (pick_dispatch cmp) (pick_dispatch_ok cmp)
              (map init_proc processes) []) as (st & H & Hs).
  { constructor. }
  exists (erase st). split; [exact H | exact Hs].
Qed.

Lemma simulateMLQ_runs processes fgQuantum bgQuantum :
  runs_from (js_sort by_arrival (map init_proc processes))
    (simulateMLQ processes fgQuantum bgQuantum).
Proof.
  destruct (run_simulator_leads mlq_push mlq_empty mlq_ok mlq_push_ok
              (mlq_dispatch fgQuantum bgQuantum) (mlq_dispatch_ok fgQuantum bgQuantum)
              (js_sort by_arrival (map init_proc processes)) (mkMlqQueues [] []))
    as (st & H & Hs).
  { split; constructor. }
  exists (erase st). split; [exact H | exact Hs].
Qed.

(** [simulate] returns for every tag, every process list and all options. *)
Lemma simulate_runs algorithm ps o :
  exists ps0, Permutation ps0 (map init_proc (map normalize ps))
              /\ runs_from ps0 (simulate algorithm ps o).
Proof.
  unfold simulate.
  repeat match goal with
         | |- context [String.eqb algorithm ?s] => destruct (String.eqb algorithm s)
         end;
    eexists;
    (split;
     [| first [ apply simulateRR_runs | apply simulateFCFS_runs
              | apply simulate_pick_runs | apply simulateMLQ_runs ] ]);
    first [ apply js_sort_perm | reflexivity ].
Qed.

(** * Trace and snapshots *)

Lemma aligned_snoc tr h e s :
  aligned tr h -> same_unit (length tr) e s -> aligned (tr ++ [e]) (h ++ [s]).
Proof.
  intros [Hlen Hall] Hu. split.
  - rewrite !length_app. simpl. lia.
  - intros i e' s' He Hs.
    destruct (Nat.lt_ge_cases i (length tr)) as [Hlt|Hge].
    + rewrite lookup_app_l in He by exact Hlt.
      rewrite lookup_app_l in Hs by (rewrite <- Hlen; exact Hlt).
      now apply Hall.
    + assert (i = length tr) as ->.
      { apply lookup_lt_Some in He. rewrite length_app in He. simpl in He. lia. }
      rewrite list_lookup_middle in He by reflexivity.
      rewrite list_lookup_middle in Hs by exact Hlen.
      injection He as <-. injection Hs as <-. exact Hu.
Qed.

Lemma emit_aligned cpu rd ev (st : State unit) :
  log_aligned st -> log_aligned (emit cpu rd ev st).
Proof.
  intros [Ht Ha]. split; simpl.
  - rewrite length_app. simpl. lia.
  - apply aligned_snoc; trivial. repeat split; simpl; exact Ht.
Qed.

Lemma prim_aligned st st' : prim st st' -> log_aligned st -> log_aligned st'.
Proof.
  intros [st0 ps H | st0 rd ev | st0 i p rd ev H] Hst.
  - exact Hst.
  - now apply emit_aligned.
  - now apply (emit_aligned _ _ _ (with_procs _ st0)).
Qed.

Lemma steps_aligned st st' : rtc prim st st' -> log_aligned st -> log_aligned st'.
Proof. induction 1 as [|a b c Hab _ IH]; eauto using prim_aligned. Qed.

Lemma start_aligned ps : log_aligned (start_log ps).
Proof.
  split; [reflexivity|]. split; [reflexivity|].
  intros i e s H. simpl in H. now rewrite lookup_nil in H.
Qed.

(** C9. For every tag, process list and options, [simulate] returns a result
    whose trace and snapshot sequence have the same length, and whose entries
    at each index [i] both record time [i], the same CPU occupant (or none)
    and the same ready contents: the recorded times are 0, 1, 2, ... without
    gaps, idle units included. *)
Theorem C9_trace_and_snapshots_aligned (algorithm : string) (ps : list ProcIn)
    (o : Options) :
  exists r, simulate algorithm ps o = Returned r
            /\ length (res_trace r) = length (historySnapshots r)
            /\ forall i e s,
                 res_trace r !! i = Some e -> historySnapshots r !! i = Some s ->
                 ev_time e = Z.of_nat i /\ snap_time s = Z.of_nat i
                 /\ ev_cpu e = snap_cpu s /\ ev_ready e = snap_ready s.
Proof.
  destruct (simulate_runs algorithm ps o) as (ps0 & _ & st & -> & Hsteps).
  exists (finish st). split; [reflexivity|].
  destruct (steps_aligned _ _ Hsteps (start_aligned ps0)) as [_ [Hlen Hall]].
  split; [exact Hlen | exact Hall].
Qed.

(** * Inputs that the specification wants rejected *)

(** ** The iteration ceiling *)

Lemma long_iteration rem s t h tr :
  2 <= rem ->
  exists s' h' tr',
    iteration queue_push (rr_dispatch 1) (long_state rem s t h tr)
    = Returned (Continue, long_state (rem - 1) s' (t + 1) h' tr').
Proof.
  intros Hrem. unfold iteration, long_state, enqueueArrivals. simpl.
  unfold rr_dispatch, with_found. simpl.
  unfold run_slice. simpl.
  rewrite Z.min_l by lia. simpl.
  unfold exec_unit, enqueueArrivals. simpl.
  destruct (Z.eqb_spec (rem - 1) 0) as [H0|_]; [lia|].
  do 3 eexists. reflexivity.
Qed.

Lemma long_work_left rem s t h tr :
  work_left queue_empty (long_state rem s t h tr) = true.
Proof. unfold work_left. simpl. apply orb_true_r. Qed.

Lemma long_loop fuel : forall rem s t h tr,
  Z.of_nat fuel < rem ->
  loop_hits_ceiling queue_push queue_empty (rr_dispatch 1) fuel
    (long_state rem s t h tr) = true
  /\ exists s' h' tr',
       main_loop queue_push queue_empty (rr_dispatch 1) fuel (long_state rem s t h tr)
       = Returned (long_state (rem - Z.of_nat fuel) s' (t + Z.of_nat fuel) h' tr').
Proof.
  induction fuel as [|fuel IH]; intros rem s t h tr Hrem.
  - split; [apply long_work_left|].
    exists s, h, tr. simpl. now rewrite Z.sub_0_r, Z.add_0_r.
  - cbn [loop_hits_ceiling main_loop]. rewrite long_work_left.
    destruct (long_iteration rem s t h tr) as (s1 & h1 & tr1 & ->); [lia|].
    destruct (IH (rem - 1) s1 (t + 1) h1 tr1) as [Hc (s' & h' & tr' & Hm)]; [lia|].
    split; [exact Hc|]. exists s', h', tr'. rewrite Hm.
    do 2 f_equal; lia.
Qed.

Lemma long_process_run :
  ceiling_reached "RR" long_process quantum_one = true
  /\ exists s h tr,
       simulate "RR" long_process quantum_one
       = Returned (finish (long_state 1 s 200000 h tr)).
Proof.
  destruct (long_loop maxIter 200001 None 0 [] []) as [Hc (s & h & tr & Hm)].
  { unfold maxIter. rewrite Z2Nat.id; lia. }
  split; [exact Hc|].
  exists s, h, tr.
  change (simulate "RR" long_process quantum_one)
    with (match main_loop queue_push queue_empty (rr_dispatch 1) maxIter
                  (long_state 200001 None 0 [] []) with
          | Returned st => Returned (finish st)
          | Thrown e => Thrown e
          end).
  rewrite Hm. unfold maxIter. rewrite Z2Nat.id by lia. reflexivity.
Qed.

(** What [simulate] returns when the loop stops at the ceiling. *)
Section CeilingFacts.
Context {R : Type}.
Variable push : nat -> Proc -> R -> R.
Variable is_empty : R -> bool.
Variable G : list string -> R -> Prop.
Hypothesis push_ok : forall pids i p r,
  pids !! i = Some (pid p) -> G pids r -> G pids (push i p r).
Variable dispatch : State R -> Outcome (Flow * State R).
Hypothesis dispatch_ok : forall st,
  ready_ok G st -> exists f st', dispatch st = Returned (f, st') /\ leads G st st'.

(** A loop that reaches the ceiling has made all its iterations, and stops
    in the state after the last. *)
Lemma ceiling_loop fuel : forall st,
  loop_hits_ceiling push is_empty dispatch fuel st = true ->
  exists st', state_after push is_empty dispatch fuel st = Some st'
              /\ main_loop push is_empty dispatch fuel st = Returned st'.
Proof.
  induction fuel as [|fuel IH]; intros st; cbn [loop_hits_ceiling state_after main_loop].
  - intros _. now exists st.
  - destruct (work_left is_empty st); [|discriminate].
    destruct (iteration push dispatch st) as [[[|] st1]|]; try discriminate.
    apply IH.
Qed.

Lemma finalize_report (t : Z) (ps : list Proc) :
  Forall2 (fun y f =>
             f_pid f = pid y /\ f_remaining f = remaining y
             /\ (completionTime y = None -> f_completionTime f = t)
             /\ (forall c, completionTime y = Some c -> f_completionTime f = c))
          ps (map (finalize_proc t) ps).
Proof.
  induction ps as [|y ps IH]; constructor; [|exact IH].
  unfold finalize_proc. cbn [f_pid f_remaining f_completionTime].
  split; [reflexivity|]. split; [reflexivity|].
  split; [intros ->; reflexivity | intros c ->; reflexivity].
Qed.

Lemma ceiling_report (ps : list Proc) (r0 : R) :
  G (map pid ps) r0 ->
  hits_ceiling push is_empty dispatch ps r0 = true ->
  exists (st : State unit) (r : SimResult),
    stops_at_ceiling push is_empty dispatch ps r0 = Some st
    /\ run_simulator push is_empty dispatch ps r0 = Returned r
    /\ res_trace r = trace st
    /\ historySnapshots r = history st
    /\ time st = Z.of_nat (length (res_trace r))
    /\ aligned (res_trace r) (historySnapshots r)
    /\ Forall2 (fun y f =>
                  f_pid f = pid y /\ f_remaining f = remaining y
                  /\ (completionTime y = None -> f_completionTime f = time st)
                  /\ (forall c, completionTime y = Some c -> f_completionTime f = c))
               (procs st) (processes (stats r)).
Proof.
  intros H0 Hc. unfold hits_ceiling in Hc. unfold stops_at_ceiling, run_simulator.
  set (st0 := mkState ps 0 r0 [] []) in *.
  destruct (ceiling_loop _ _ Hc) as (st & -> & Hloop).
  pose proof (enqueueArrivals_leads push G push_ok st0) as H1.
  destruct (main_loop_leads push is_empty G push_ok dispatch dispatch_ok maxIter
              (enqueueArrivals push st0)) as (st' & Hm & H2).
  { now apply H1. }
  rewrite Hloop in Hm. injection Hm as <-. rewrite Hloop.
  destruct (leads_trans G _ _ _ H1 H2) as [Hsteps _].
  destruct (steps_aligned _ _ Hsteps (start_aligned ps)) as [Ht Hal].
  exists (erase st), (finish st). split; [reflexivity|]. split; [reflexivity|].
  split; [reflexivity|]. split; [reflexivity|].
  split; [exact Ht|]. split; [exact Hal|].
  apply finalize_report.
Qed.

End CeilingFacts.

(** C4, as stated, fails: Round Robin with quantum 1 on a single process of
    200001 units reaches the ceiling, and [simulate] returns: the process
    still has one unit left and 200000, the final time, as its completion
    time. *)
Lemma C4_ceiling_returns_truncated_run :
  ceiling_reached "RR" long_process quantum_one = true
  /\ exists r, simulate "RR" long_process quantum_one = Returned r
               /\ map (fun f => (f_remaining f, f_completionTime f))
                      (processes (stats r)) = [(1, 200000)].
Proof.
  destruct long_process_run as [Hc (s & h & tr & Hr)].
  split; [exact Hc|]. eexists. split; [exact Hr | reflexivity].
Qed.

(** C4, amended: on every input on which the loop reaches the ceiling,
    [simulate] returns what the loop has produced when it stops, after 200000
    iterations: the trace and the snapshots of the state [st] in which the
    loop stops, one of each per unit of time, and a report that has, for
    every process whose completion time the loop has not set, the time of
    [st] as completion time. *)
Theorem C4_ceiling_returns (algorithm : string) (ps : list ProcIn) (o : Options) :
  ceiling_reached algorithm ps o = true ->
  exists (st : State unit) (r : SimResult),
    state_at_ceiling algorithm ps o = Some st
    /\ simulate algorithm ps o = Returned r
    /\ res_trace r = trace st
    /\ historySnapshots r = history st
    /\ time st = Z.of_nat (length (res_trace r))
    /\ aligned (res_trace r) (historySnapshots r)
    /\ Forall2 (fun y f =>
                  f_pid f = pid y /\ f_remaining f = remaining y
                  /\ (completionTime y = None -> f_completionTime f = time st)
                  /\ (forall c, completionTime y = Some c -> f_completionTime f = c))
               (procs st) (processes (stats r)).
Proof.
  unfold ceiling_reached, state_at_ceiling, simulate. cbv zeta.
  unfold simulateRR, simulateFCFS, simulateSJF, simulatePriority, simulateMLQ.
  repeat match goal with
         | |- context [String.eqb algorithm ?s] => destruct (String.eqb algorithm s)
         end.
  - apply (ceiling_report queue_push queue_empty queue_ok queue_push_ok
             _ (rr_dispatch_ok _)). constructor.
  - apply (ceiling_report queue_push queue_empty queue_ok queue_push_ok
             _ fcfs_dispatch_ok). constructor.
  - apply (ceiling_report list_push list_empty list_ok list_push_ok
             _ (pick_dispatch_ok _)). constructor.
  - apply (ceiling_report list_push list_empty list_ok list_push_ok
             _ (pick_dispatch_ok _)). constructor.
  - apply (ceiling_report mlq_push mlq_empty mlq_ok mlq_push_ok
             _ (mlq_dispatch_ok _ _)). split; constructor.
  - apply (ceiling_report queue_push queue_empty queue_ok queue_push_ok
             _ (rr_dispatch_ok _)). constructor.
Qed.

Lemma C4_ceiling_returns_witness :
  exists (st : State unit) (r : SimResult),
    state_at_ceiling "RR" long_process quantum_one = Some st
    /\ simulate "RR" long_process quantum_one = Returned r
    /\ res_trace r = trace st
    /\ historySnapshots r = history st
    /\ time st = Z.of_nat (length (res_trace r))
    /\ aligned (res_trace r) (historySnapshots r)
    /\ Forall2 (fun y f =>
                  f_pid f = pid y /\ f_remaining f = remaining y
                  /\ (completionTime y = None -> f_completionTime f = time st)
                  /\ (forall c, completionTime y = Some c -> f_completionTime f = c))
               (procs st) (processes (stats r)).
Proof.
  apply (C4_ceiling_returns "RR" long_process quantum_one).
  apply long_process_run.
Defined.

(** ** Processes without work *)

(** C5, as stated, fails: a process list with a process of burst 0 does not
    make [simulate] fail. *)
Lemma C5_zero_burst_does_not_fail :
  (exists p, In p zero_burst /\ in_burst p <= 0)
  /\ ~ fails (simulate "FCFS" zero_burst no_options).
Proof.
  split.
  - eexists. split; [left; reflexivity | simpl; lia].
  - vm_compute. tauto.
Qed.

(** C5, amended: for every process list that contains a process whose burst
    is zero or negative, and for every tag, [simulate] does not fail: it
    returns a result. *)
Theorem C5_nonpositive_burst_returns (algorithm : string) (ps : list ProcIn)
    (o : Options) :
  (exists p, In p ps /\ in_burst p <= 0) ->
  exists r, simulate algorithm ps o = Returned r.
Proof.
  intros _.
  destruct (simulate_runs algorithm ps o) as (ps0 & _ & st & Hr & _).
  eauto.
Qed.

Lemma C5_nonpositive_burst_returns_witness :
  exists r, simulate "FCFS" zero_burst no_options = Returned r.
Proof.
  apply (C5_nonpositive_burst_returns "FCFS" zero_burst no_options).
  exists (mkProcIn "P1" 0 0 None). split; [left; reflexivity | simpl; lia].
Defined.

(** ** Unknown tags *)

(** C2, amended: for every tag outside the five that have a [case],
    [simulate] does not fail: it returns what Round Robin returns with
    quantum [options.quantum ?? 4]. *)
Theorem C2_unknown_tag_runs_round_robin (algorithm : string) (ps : list ProcIn)
    (o : Options) :
  ~ In algorithm known_tags ->
  simulate algorithm ps o = simulateRR (map normalize ps) (nullish (quantum o) 4)
  /\ exists r, simulate algorithm ps o = Returned r.
Proof.
  intros Hout. split; [now apply simulate_unknown_tag|].
  destruct (simulate_runs algorithm ps o) as (ps0 & _ & st & Hr & _).
  eauto.
Qed.

Lemma C2_unknown_tag_runs_round_robin_witness :
  simulate "LOTTERY" one_process no_options
    = simulateRR (map normalize one_process) (nullish (quantum no_options) 4)
  /\ exists r, simulate "LOTTERY" one_process no_options = Returned r.
Proof.
  apply (C2_unknown_tag_runs_round_robin "LOTTERY" one_process no_options).
  simpl. intros H. repeat destruct H as [H|H]; try discriminate H; exact H.
Defined.

(** * Statistics *)

Lemma js_max_of_Z a b : js_max (of_Z a) (of_Z b) = of_Z (Z.max a b).
Proof.
  unfold js_max, of_Z, Qle_bool. simpl. rewrite !Z.mul_1_r.
  destruct (Z.leb_spec a b).
  - now rewrite Z.max_r by lia.
  - now rewrite Z.max_l by lia.
Qed.

Lemma js_min_of_Z a b : js_min (of_Z a) (of_Z b) = of_Z (Z.min a b).
Proof.
  unfold js_min, of_Z, Qle_bool. simpl. rewrite !Z.mul_1_r.
  destruct (Z.leb_spec a b).
  - now rewrite Z.min_l by lia.
  - now rewrite Z.min_r by lia.
Qed.

Lemma js_sub_of_Z a b : js_sub (of_Z a) (of_Z b) = of_Z (a - b).
Proof.
  unfold js_sub, of_Z, inject_Z, Qminus, Qplus, Qopp. simpl.
  do 2 f_equal. lia.
Qed.

Lemma js_div_of_Z a b :
  b <> 0 -> js_div (of_Z a) (of_Z b) = Fin (inject_Z a / inject_Z b).
Proof.
  intros Hb. unfold js_div, of_Z.
  destruct (Qeq_bool (inject_Z b) 0) eqn:H; [|reflexivity].
  apply Qeq_bool_iff in H. unfold Qeq in H. simpl in H. lia.
Qed.

Lemma fold_max_of_Z l a :
  fold_left js_max (map of_Z l) (of_Z a) = of_Z (fold_left Z.max l a).
Proof.
  revert a. induction l as [|x l IH]; intros a; cbn [fold_left map]; [reflexivity|].
  now rewrite js_max_of_Z, IH.
Qed.

Lemma fold_min_of_Z l a :
  fold_left js_min (map of_Z l) (of_Z a) = of_Z (fold_left Z.min l a).
Proof.
  revert a. induction l as [|x l IH]; intros a; cbn [fold_left map]; [reflexivity|].
  now rewrite js_min_of_Z, IH.
Qed.

Lemma fold_max_is_max l a : is_max (fold_left Z.max l a) (a :: l).
Proof.
  revert a. induction l as [|x l IH]; intros a; simpl.
  - split; [now left | intros y [<-|[]]; lia].
  - destruct (IH (Z.max a x)) as [Hin Hle]. split.
    + destruct Hin as [Heq|Hin]; [|right; now right].
      rewrite <- Heq. destruct (Z.max_spec a x) as [[_ ->]|[_ ->]]; simpl; auto.
    + intros y [Hy|[Hy|Hy]]; [| |apply Hle; now right];
        specialize (Hle (Z.max a x) (or_introl eq_refl)); lia.
Qed.

Lemma fold_min_is_min l a : is_min (fold_left Z.min l a) (a :: l).
Proof.
  revert a. induction l as [|x l IH]; intros a; simpl.
  - split; [now left | intros y [<-|[]]; lia].
  - destruct (IH (Z.min a x)) as [Hin Hle]. split.
    + destruct Hin as [Heq|Hin]; [|right; now right].
      rewrite <- Heq. destruct (Z.min_spec a x) as [[_ ->]|[_ ->]]; simpl; auto.
    + intros y [Hy|[Hy|Hy]]; [| |apply Hle; now right];
        specialize (Hle (Z.min a x) (or_introl eq_refl)); lia.
Qed.

Lemma Math_max_of_Z l :
  l <> [] -> exists M, is_max M l /\ Math_max (map of_Z l) = of_Z M.
Proof.
  destruct l as [|a l]; [congruence|]. intros _.
  exists (fold_left Z.max l a). split; [apply fold_max_is_max|].
  unfold Math_max. cbn [fold_left map]. apply (fold_max_of_Z l a).
Qed.

Lemma Math_min_of_Z l :
  l <> [] -> exists m, is_min m l /\ Math_min (map of_Z l) = of_Z m.
Proof.
  destruct l as [|a l]; [congruence|]. intros _.
  exists (fold_left Z.min l a). split; [apply fold_min_is_min|].
  unfold Math_min. cbn [fold_left map]. apply (fold_min_of_Z l a).
Qed.

(** [reduce] from the left adds up what [total] adds up from the right. *)
Lemma reduce_total {A} (g : A -> Z) (l : list A) (s : Z) :
  fold_left (fun s x => s + g x) l s = s + total (map g l).
Proof.
  revert s. induction l as [|x l IH]; intros s; simpl; [lia|].
  rewrite IH. unfold total. simpl. lia.
Qed.

Lemma computeStats_spec (fs : list FinalProc) :
  fs <> [] ->
  avgWaiting (computeStats fs)
    = Fin (mean (map (fun f => f_turnaround f - f_burst f) fs))
  /\ avgTurnaround (computeStats fs) = Fin (mean (map f_turnaround fs))
  /\ exists M m,
       is_max M (map f_completionTime fs) /\ is_min m (map f_arrival fs)
       /\ makespan (computeStats fs) = of_Z (M - m)
       /\ throughput (computeStats fs)
          = Fin (inject_Z (Z.of_nat (length fs)) / inject_Z (Z.max 1 M)).
Proof.
  intros Hne.
  assert (Hlen : Z.of_nat (length fs) <> 0) by (destruct fs; [congruence | simpl; lia]).
  unfold computeStats. cbn [avgWaiting avgTurnaround makespan throughput].
  rewrite !js_div_of_Z by exact Hlen. rewrite !reduce_total, !Z.add_0_l.
  unfold mean. rewrite !length_map.
  split; [reflexivity|]. split; [reflexivity|].
  destruct (Math_max_of_Z (map f_completionTime fs)) as (M & HM & HeM).
  { destruct fs; [congruence | discriminate]. }
  destruct (Math_min_of_Z (map f_arrival fs)) as (m & Hm & Hem).
  { destruct fs; [congruence | discriminate]. }
  rewrite map_map in HeM, Hem.
  exists M, m. split; [exact HM|]. split; [exact Hm|].
  rewrite HeM, Hem. split; [apply js_sub_of_Z|].
  rewrite js_max_of_Z. apply js_div_of_Z. lia.
Qed.

(** C8. For every run over a non-empty process list, the returned statistics
    cover every process, with [turnaround = completionTime - arrival], and
    [avgWaiting] is the mean of [turnaround - burst], [avgTurnaround] the
    mean of [turnaround], [makespan] the greatest completion time minus the
    least arrival, and [throughput] the process count divided by the greater
    of 1 and the greatest completion time. *)
Theorem C8_statistics (algorithm : string) (ps : list ProcIn) (o : Options) :
  ps <> [] ->
  exists r, simulate algorithm ps o = Returned r
    /\ length (processes (stats r)) = length ps
    /\ Forall (fun f => f_turnaround f = f_completionTime f - f_arrival f)
              (processes (stats r))
    /\ avgWaiting (stats r)
       = Fin (mean (map (fun f => f_turnaround f - f_burst f) (processes (stats r))))
    /\ avgTurnaround (stats r) = Fin (mean (map f_turnaround (processes (stats r))))
    /\ exists M m,
         is_max M (map f_completionTime (processes (stats r)))
         /\ is_min m (map f_arrival (processes (stats r)))
         /\ makespan (stats r) = of_Z (M - m)
         /\ throughput (stats r)
            = Fin (inject_Z (Z.of_nat (length ps)) / inject_Z (Z.max 1 M)).
Proof.
  intros Hne.
  destruct (simulate_runs algorithm ps o) as (ps0 & Hperm & st & -> & Hsteps).
  exists (finish st). split; [reflexivity|].
  set (fs := map (finalize_proc (time st)) (procs st)).
  assert (Hlen : length fs = length ps).
  { unfold fs. rewrite length_map.
    rewrite <- (length_map pid (procs st)), (steps_pids _ _ Hsteps). simpl.
    now rewrite length_map, Hperm, !length_map. }
  assert (Hfs : fs <> []).
  { destruct fs; [destruct ps; [congruence | discriminate] | discriminate]. }
  destruct (computeStats_spec fs Hfs) as (Hw & Ht & M & m & HM & Hm & Hms & Hth).
  change (stats (finish st)) with (computeStats fs).
  change (processes (computeStats fs)) with fs.
  split; [exact Hlen|]. split.
  { unfold fs. apply List.Forall_forall. intros f Hf.
    apply in_map_iff in Hf as (p & <- & _). reflexivity. }
  split; [exact Hw|]. split; [exact Ht|].
  exists M, m. rewrite <- Hlen. auto.
Qed.

Lemma C8_statistics_witness :
  exists r, simulate "FCFS" one_process no_options = Returned r
    /\ length (processes (stats r)) = length one_process
    /\ Forall (fun f => f_turnaround f = f_completionTime f - f_arrival f)
              (processes (stats r))
    /\ avgWaiting (stats r)
       = Fin (mean (map (fun f => f_turnaround f - f_burst f) (processes (stats r))))
    /\ avgTurnaround (stats r) = Fin (mean (map f_turnaround (processes (stats r))))
    /\ exists M m,
         is_max M (map f_completionTime (processes (stats r)))
         /\ is_min m (map f_arrival (processes (stats r)))
         /\ makespan (stats r) = of_Z (M - m)
         /\ throughput (stats r)
            = Fin (inject_Z (Z.of_nat (length one_process)) / inject_Z (Z.max 1 M)).
Proof.
  apply (C8_statistics "FCFS" one_process no_options). discriminate.
Defined.

(** * Round Robin: one slice *)

Lemma enqueue_from_procs {R} (push : nat -> Proc -> R -> R) now i ps r :
  fst (enqueue_from push now i ps r) = map (admit_mark now) ps.
Proof.
  revert i r. induction ps as [|p ps IH]; intros i r; [reflexivity|].
  cbn [enqueue_from map]. unfold admit_mark at 1, admissible.
  destruct (negb (enqueued p) && (arrival p <=? now) && (0 <? remaining p)).
  - specialize (IH (S i) (push i p r)).
    destruct (enqueue_from push now (S i) ps (push i p r)). simpl in *. now f_equal.
  - specialize (IH (S i) r).
    destruct (enqueue_from push now (S i) ps r). simpl in *. now f_equal.
Qed.

Lemma enqueue_from_queue now i ps q :
  snd (enqueue_from queue_push now i ps q) = q ++ admitted_pids now ps.
Proof.
  revert i q. induction ps as [|p ps IH]; intros i q.
  - simpl. now rewrite app_nil_r.
  - cbn [enqueue_from]. unfold admitted_pids. cbn [List.filter]. unfold admissible at 1.
    destruct (negb (enqueued p) && (arrival p <=? now) && (0 <? remaining p)).
    + specialize (IH (S i) (queue_push i p q)).
      destruct (enqueue_from queue_push now (S i) ps (queue_push i p q)).
      simpl in *. rewrite IH. unfold queue_push. now rewrite <- app_assoc.
    + specialize (IH (S i) q).
      destruct (enqueue_from queue_push now (S i) ps q). simpl in *. exact IH.
Qed.

Lemma enqueueArrivals_queue (st : State (list string)) :
  enqueueArrivals queue_push st
  = mkState (map (admit_mark (time st)) (procs st)) (time st)
            (ready st ++ admitted_pids (time st) (procs st))
            (history st) (trace st).
Proof.
  unfold enqueueArrivals.
  pose proof (enqueue_from_procs queue_push (time st) 0 (procs st) (ready st)) as H1.
  pose proof (enqueue_from_queue (time st) 0 (procs st) (ready st)) as H2.
  destruct (enqueue_from queue_push (time st) 0 (procs st) (ready st)).
  simpl in *. now subst.
Qed.

Lemma admit_mark_remaining now p : remaining (admit_mark now p) = remaining p.
Proof. unfold admit_mark. now destruct (admissible now p). Qed.

Lemma lookup_total_remaining_mark now ps i :
  remaining (map (admit_mark now) ps !!! i) = remaining (ps !!! i).
Proof.
  destruct (ps !! i) as [x|] eqn:Hx.
  - rewrite (list_lookup_total_correct _ _ _ Hx).
    erewrite list_lookup_total_correct; [apply admit_mark_remaining|].
    now rewrite list_lookup_fmap, Hx.
  - rewrite !list_lookup_total_alt, list_lookup_fmap, Hx. reflexivity.
Qed.

Lemma lookup_total_remaining_dec ps i :
  (i < length ps)%nat ->
  remaining (alter dec_remaining i ps !!! i) = remaining (ps !!! i) - 1.
Proof.
  intros Hi. destruct (lookup_lt_is_Some_2 ps i Hi) as [x Hx].
  rewrite (list_lookup_total_correct _ _ _ Hx).
  erewrite list_lookup_total_correct; [|rewrite list_lookup_alter_eq, Hx; reflexivity].
  reflexivity.
Qed.

(** One unit of execution under Round Robin. *)
Lemma rr_exec_unit i p (st : State (list string)) :
  exec_unit queue_push queue_view i p st
  = mkState (map (admit_mark (time st + 1)) (alter dec_remaining i (procs st)))
            (time st + 1)
            (ready st ++ admitted_pids (time st + 1) (alter dec_remaining i (procs st)))
            (history st ++ [snapshotState (time st) (Some p)
                              (alter dec_remaining i (procs st)) (ready st)])
            (trace st ++ [mkTraceEvent (time st) (Some p) (ready st) (exec_label p)]).
Proof. unfold exec_unit. now rewrite enqueueArrivals_queue. Qed.

Lemma run_for_slice n : forall i p (st : State (list string)),
  (i < length (procs st))%nat ->
  exists units arrivals,
    let st' := run_for queue_push queue_view n i p st in
    time st' = time st + Z.of_nat n
    /\ length (procs st') = length (procs st)
    /\ remaining (procs st' !!! i) = remaining (procs st !!! i) - Z.of_nat n
    /\ trace st' = trace st ++ units
    /\ length units = n
    /\ (forall j e, units !! j = Some e ->
          ev_cpu e = Some p /\ ev_time e = time st + Z.of_nat j)
    /\ ready st' = ready st ++ arrivals
    /\ (forall k y, k <> i -> procs st !! k = Some y ->
          arrives_within (time st) (time st + Z.of_nat n) y -> In (pid y) arrivals)
    /\ (forall k y, k <> i -> procs st !! k = Some y ->
          enqueued y = false -> time st + Z.of_nat n < arrival y ->
          procs st' !! k = Some y).
Proof.
  induction n as [|n IH]; intros i p st Hi.
  - exists [], []. cbn [run_for]. rewrite Z.add_0_r, Z.sub_0_r, !app_nil_r.
    split; [reflexivity|]. split; [reflexivity|]. split; [reflexivity|].
    split; [reflexivity|]. split; [reflexivity|].
    split; [intros j e H; now rewrite lookup_nil in H|].
    split; [reflexivity|].
    split; [intros k y _ _ (_ & _ & H); lia | trivial].
  - cbn [run_for]. set (st1 := exec_unit queue_push queue_view i p st).
    assert (E1 : st1 = _) by apply rr_exec_unit.
    assert (Hp1 : procs st1 = map (admit_mark (time st + 1)) (alter dec_remaining i (procs st)))
      by now rewrite E1.
    assert (Ht1 : time st1 = time st + 1) by now rewrite E1.
    assert (Hi1 : (i < length (procs st1))%nat).
    { now rewrite Hp1, length_map, length_alter. }
    destruct (IH i p st1 Hi1) as (units & arrivals & Ht & Hl & Hr & Htr & Hlen & Hu & Hq & Hin & Hout).
    exists (mkTraceEvent (time st) (Some p) (ready st) (exec_label p) :: units),
           (admitted_pids (time st + 1) (alter dec_remaining i (procs st)) ++ arrivals).
    cbv zeta in *.
    assert (Hother : forall k y, k <> i -> procs st !! k = Some y ->
              procs st1 !! k = Some (admit_mark (time st + 1) y)).
    { intros k y Hk Hy. rewrite Hp1, list_lookup_fmap, list_lookup_alter_ne by congruence.
      now rewrite Hy. }
    split; [rewrite Ht, Ht1; lia|].
    split; [now rewrite Hl, Hp1, length_map, length_alter|].
    split.
    { rewrite Hr, Hp1, lookup_total_remaining_mark, lookup_total_remaining_dec by exact Hi.
      lia. }
    split; [rewrite Htr, E1; simpl; now rewrite <- app_assoc|].
    split; [simpl; now rewrite Hlen|].
    split.
    { intros [|j] e He; simpl in He.
      - injection He as <-. simpl. split; [reflexivity | lia].
      - destruct (Hu j e He) as [Hc Hti]. split; [exact Hc|]. rewrite Hti, Ht1. lia. }
    split; [rewrite Hq, E1; simpl; now rewrite <- app_assoc|].
    split.
    { intros k y Hk Hy (Hne & Hrem & Hlo & Hhi). apply in_or_app.
      destruct (Z_le_gt_dec (arrival y) (time st + 1)) as [Hnow|Hlater].
      - left. unfold admitted_pids. apply in_map. apply filter_In. split.
        + apply list_elem_of_In. apply (list_elem_of_lookup_2 _ k).
          now rewrite list_lookup_alter_ne, Hy by congruence.
        + unfold admissible. rewrite Hne. simpl.
          apply andb_true_iff. split; [now apply Z.leb_le | now apply Z.ltb_lt].
      - right. apply (Hin k y Hk).
        + rewrite (Hother k y Hk Hy). unfold admit_mark, admissible.
          rewrite Hne. simpl.
          destruct (Z.leb_spec (arrival y) (time st + 1)); [lia | reflexivity].
        + repeat split; trivial; rewrite Ht1; lia. }
    intros k y Hk Hy Hne Hlate. apply (Hout k y Hk).
    + rewrite (Hother k y Hk Hy). unfold admit_mark, admissible. rewrite Hne. simpl.
      destruct (Z.leb_spec (arrival y) (time st + 1)); [lia | reflexivity].
    + exact Hne.
    + rewrite Ht1. lia.
Qed.

Lemma lookup_total_remaining_meta (f : Proc -> Proc) (ps : list Proc) (i j : nat) :
  (forall p, remaining (f p) = remaining p) ->
  remaining (alter f i ps !!! j) = remaining (ps !!! j).
Proof.
  intros Hf. rewrite !list_lookup_total_alt, list_lookup_alter.
  destruct (decide (i = j)) as [->|]; [|reflexivity].
  destruct (ps !! j); simpl; [apply Hf | reflexivity].
Qed.

(** C6. Under Round Robin with quantum [Q], a selected process [p] with
    positive remaining work executes exactly [min(Q, remaining)] units, at
    consecutive times from the time of selection; if work remains after them,
    [p] is put back at the tail of the ready queue, behind every process
    whose arrival time was reached during the slice, the instant of
    preemption included. *)
Theorem C6_round_robin_slice (Q : Z) (st : State (list string)) (p : string)
    (rest : list string) (i : nat) (x : Proc) :
  0 <= Q ->
  ready st = p :: rest ->
  find_index (fun y => String.eqb (pid y) p) (procs st) = Some i ->
  procs st !! i = Some x ->
  0 < remaining x ->
  exists st' units arrivals,
    rr_dispatch Q st = Returned (Continue, st')
    /\ trace st' = trace st ++ units
    /\ Z.of_nat (length units) = Z.min Q (remaining x)
    /\ (forall j e, units !! j = Some e ->
          ev_cpu e = Some p /\ ev_time e = time st + Z.of_nat j)
    /\ remaining (procs st' !!! i) = remaining x - Z.min Q (remaining x)
    /\ (forall k y, k <> i -> procs st !! k = Some y ->
          arrives_within (time st) (time st + Z.min Q (remaining x)) y ->
          In (pid y) arrivals)
    /\ (Q < remaining x -> ready st' = rest ++ arrivals ++ [p])
    /\ (remaining x <= Q -> ready st' = rest ++ arrivals).
Proof.
  intros HQ Hq Hfind Hx Hrem.
  unfold rr_dispatch, with_found. rewrite Hq. cbn [procs with_ready]. rewrite Hfind.
  set (st0 := with_procs (alter (set_start (time (with_ready rest st))) i (procs st))
                         (with_ready rest st)).
  assert (Hr0 : remaining (procs st0 !!! i) = remaining x).
  { unfold st0. cbn [procs with_procs].
    rewrite lookup_total_remaining_meta by reflexivity.
    now rewrite (list_lookup_total_correct _ _ _ Hx). }
  assert (Hi0 : (i < length (procs st0))%nat).
  { unfold st0. cbn [procs with_procs]. rewrite length_alter.
    eapply lookup_lt_Some, Hx. }
  unfold run_slice. rewrite Hr0.
  set (n := Z.to_nat (Z.min Q (remaining x))).
  assert (Hn : Z.of_nat n = Z.min Q (remaining x)) by (unfold n; lia).
  destruct (run_for_slice n i p st0 Hi0)
    as (units & arrivals & Ht & Hl & Hr & Htr & Hlen & Hu & Hrd & Hin & _).
  cbv zeta in *. set (st1 := run_for queue_push queue_view n i p st0) in *.
  rewrite Hr0, Hn in Hr. rewrite Hn in Hin.
  assert (Hin' : forall k y, k <> i -> procs st !! k = Some y ->
            arrives_within (time st) (time st + Z.min Q (remaining x)) y ->
            In (pid y) arrivals).
  { intros k y Hk Hy Hy'. apply (Hin k y Hk); [|exact Hy'].
    unfold st0. cbn [procs with_procs]. now rewrite list_lookup_alter_ne by congruence. }
  destruct (Z.eqb_spec (remaining (procs st1 !!! i)) 0) as [Hz|Hnz].
  - eexists _, units, arrivals. split; [reflexivity|].
    cbn [trace ready procs with_procs].
    split; [exact Htr|]. split; [lia|]. split; [exact Hu|].
    split; [now rewrite lookup_total_remaining_meta by reflexivity|].
    split; [exact Hin'|]. split; [lia|]. intros _. exact Hrd.
  - eexists _, units, arrivals. split; [reflexivity|].
    cbn [trace ready procs with_ready].
    split; [exact Htr|]. split; [lia|]. split; [exact Hu|].
    split; [exact Hr|].
    split; [exact Hin'|]. split; [|lia].
    intros _. rewrite Hrd. simpl. now rewrite <- app_assoc.
Qed.

Lemma C6_round_robin_slice_witness :
  exists st' units arrivals,
    rr_dispatch 2 rr_sample_state = Returned (Continue, st')
    /\ trace st' = trace rr_sample_state ++ units
    /\ Z.of_nat (length units) = Z.min 2 5
    /\ (forall j e, units !! j = Some e ->
          ev_cpu e = Some "P1"%string /\ ev_time e = time rr_sample_state + Z.of_nat j)
    /\ remaining (procs st' !!! 0%nat) = 5 - Z.min 2 5
    /\ (forall k y, k <> 0%nat -> procs rr_sample_state !! k = Some y ->
          arrives_within (time rr_sample_state) (time rr_sample_state + Z.min 2 5) y ->
          In (pid y) arrivals)
    /\ (2 < 5 -> ready st' = [] ++ arrivals ++ ["P1"%string])
    /\ (5 <= 2 -> ready st' = [] ++ arrivals).
Proof.
  apply (C6_round_robin_slice 2 rr_sample_state "P1" [] 0
           (mkProc "P1" 0 5 0 5 None None true)).
  - lia.
  - reflexivity.
  - reflexivity.
  - reflexivity.
  - simpl. lia.
Defined.

(** * Remaining times in the snapshots *)

Lemma find_index_NoDup (pids : list string) (i : nat) (p : string) :
  NoDup pids -> pids !! i = Some p ->
  find_index (fun q => String.eqb q p) pids = Some i.
Proof.
  revert i. induction pids as [|q pids IH]; intros i Hnd Hi; [discriminate|].
  apply NoDup_cons in Hnd as [Hq Hnd]. simpl.
  destruct i as [|i]; simpl in Hi.
  - injection Hi as ->. now rewrite String.eqb_refl.
  - destruct (String.eqb_spec q p) as [->|_].
    + exfalso. apply Hq. eapply list_elem_of_lookup_2, Hi.
    + now rewrite (IH i Hnd Hi).
Qed.

Lemma find_index_lookup {A} (f : A -> bool) (l : list A) (k : nat) :
  find_index f l = Some k -> exists x, l !! k = Some x /\ find f l = Some x.
Proof.
  revert k. induction l as [|y l IH]; intros k; simpl; [discriminate|].
  destruct (f y).
  - intros [= <-]. eauto.
  - destruct (find_index f l) as [j|]; simpl; [|discriminate].
    intros [= <-]. apply (IH j eq_refl).
Qed.

Lemma find_index_map {A B} (g : A -> B) (f : B -> bool) (l : list A) :
  find_index f (map g l) = find_index (fun x => f (g x)) l.
Proof.
  induction l as [|y l IH]; simpl; [reflexivity|]. now rewrite IH.
Qed.

Lemma core_burst ps qs : map core ps = map core qs -> map burst ps = map burst qs.
Proof.
  intros H. change burst with (fun p => snd (fst (fst (core p)))).
  rewrite <- !(map_map core (fun c => snd (fst (fst c)))). now rewrite H.
Qed.

Lemma last_remaining_snoc rems h s :
  last_remaining rems (h ++ [s]) = snap_remaining s.
Proof. unfold last_remaining. now rewrite fold_left_app. Qed.

Lemma last_remaining_app rems h1 h2 :
  last_remaining rems (h1 ++ h2) = last_remaining (last_remaining rems h1) h2.
Proof. unfold last_remaining. now rewrite fold_left_app. Qed.

Lemma replays_app pids bursts rems h1 h2 :
  replays pids bursts rems (h1 ++ h2)
  <-> replays pids bursts rems h1
      /\ replays pids bursts (last_remaining rems h1) h2.
Proof.
  revert rems. induction h1 as [|s h1 IH]; intros rems; simpl.
  - tauto.
  - rewrite IH. tauto.
Qed.

Lemma snapshot_pids t cpu ps rd :
  map ps_pid (snap_procs (snapshotState t cpu ps rd)) = map pid ps.
Proof. simpl. unfold makeProcessState. now rewrite map_map. Qed.

Lemma snapshot_bursts t cpu ps rd :
  map ps_burst (snap_procs (snapshotState t cpu ps rd)) = map burst ps.
Proof. simpl. unfold makeProcessState. now rewrite map_map. Qed.

Lemma snapshot_remaining t cpu ps rd :
  snap_remaining (snapshotState t cpu ps rd) = map remaining ps.
Proof. unfold snap_remaining. simpl. unfold makeProcessState. now rewrite map_map. Qed.

Lemma alter_bursts (f : Proc -> Proc) (i : nat) (ps : list Proc) :
  (forall p, burst (f p) = burst p) -> map burst (alter f i ps) = map burst ps.
Proof.
  intros Hf. revert i. induction ps as [|p ps IH]; intros [|i]; simpl; trivial.
  - now rewrite Hf.
  - f_equal. apply IH.
Qed.

Lemma alter_dec_remaining (i : nat) (ps : list Proc) :
  map remaining (alter dec_remaining i ps) = alter (fun r => r - 1) i (map remaining ps).
Proof.
  revert i. induction ps as [|p ps IH]; intros [|i]; simpl; trivial.
  f_equal. apply IH.
Qed.

Section Replay.
Variable pids : list string.
Variable bursts : list Z.
Hypothesis pids_distinct : NoDup pids.

Lemma prim_replays st st' :
  prim st st' -> log_replays pids bursts st -> log_replays pids bursts st'.
Proof.
  intros [st0 ps H | st0 rd ev | st0 i p rd ev H] (Hp & Hb & Hr & Hl).
  - repeat split; cbn [procs history with_procs].
    + now rewrite (core_pid _ _ H).
    + now rewrite (core_burst _ _ H).
    + exact Hr.
    + now rewrite (core_remaining _ _ H).
  - repeat split; cbn [procs history emit]; trivial.
    + apply replays_app. split; [exact Hr|]. cbn [replays].
      rewrite snapshot_pids, snapshot_bursts, snapshot_remaining.
      split; [exact Hp|]. split; [exact Hb|]. split; [exact Hl | exact I].
    + now rewrite last_remaining_snoc, snapshot_remaining.
  - repeat split; cbn [procs history emit with_procs].
    + now rewrite alter_pids.
    + now rewrite alter_bursts.
    + apply replays_app. split; [exact Hr|]. cbn [replays].
      rewrite snapshot_pids, snapshot_bursts, snapshot_remaining.
      rewrite alter_pids, alter_bursts by reflexivity.
      split; [exact Hp|]. split; [exact Hb|]. split; [|exact I].
      cbn [snap_cpu snapshotState unit_effect].
      rewrite Hp in H. rewrite (find_index_NoDup pids i p pids_distinct H).
      now rewrite alter_dec_remaining, Hl.
    + now rewrite last_remaining_snoc, snapshot_remaining.
Qed.

Lemma steps_replays st st' :
  rtc prim st st' -> log_replays pids bursts st -> log_replays pids bursts st'.
Proof. induction 1 as [|a b c Hab _ IH]; eauto using prim_replays. Qed.

(** What [replays] says of the snapshot at index [i]. *)
Lemma replays_lookup rems h i s :
  replays pids bursts rems h -> h !! i = Some s ->
  map ps_pid (snap_procs s) = pids
  /\ map ps_burst (snap_procs s) = bursts
  /\ snap_remaining s
     = unit_effect pids (snap_cpu s)
         (match i with
          | O => rems
          | S j => match h !! j with Some s' => snap_remaining s' | None => [] end
          end).
Proof.
  revert rems i. induction h as [|s0 h IH]; intros rems i Hr Hi; [discriminate|].
  destruct Hr as (Hp & Hb & He & Hr).
  destruct i as [|i]; simpl in Hi.
  - injection Hi as <-. auto.
  - destruct (IH _ i Hr Hi) as (Hp' & Hb' & He'). split; [exact Hp'|]. split; [exact Hb'|].
    rewrite He'. destruct i; reflexivity.
Qed.

(** The entries of a snapshot are found by pid. *)
Lemma entry_by_pid (l : list ProcState) (k : nat) (e : ProcState) :
  map ps_pid l = pids -> l !! k = Some e ->
  find (fun e' => String.eqb (ps_pid e') (ps_pid e)) l = Some e
  /\ find_index (fun q => String.eqb q (ps_pid e)) pids = Some k.
Proof.
  intros Hl Hk.
  assert (Hfi : find_index (fun q => String.eqb q (ps_pid e)) pids = Some k).
  { apply find_index_NoDup; [exact pids_distinct|].
    rewrite <- Hl, list_lookup_fmap, Hk. reflexivity. }
  split; [|exact Hfi].
  rewrite <- Hl, find_index_map in Hfi.
  destruct (find_index_lookup _ _ _ Hfi) as (x & Hx & Hf).
  rewrite Hf. congruence.
Qed.

(** A unit of another process leaves the remaining time at position [k]. *)
Lemma unit_effect_other cpu rems k p :
  pids !! k = Some p -> cpu <> Some p ->
  unit_effect pids cpu rems !! k = rems !! k.
Proof.
  intros Hk Hcpu. unfold unit_effect. destruct cpu as [q|]; [|reflexivity].
  destruct (find_index (fun q0 => String.eqb q0 q) pids) as [j|] eqn:Hj; [|reflexivity].
  apply list_lookup_alter_ne. intros ->.
  apply find_index_Some in Hj as (x & Hx & Heq).
  apply String.eqb_eq in Heq. congruence.
Qed.

Lemma replays_untouched h : forall rems k p,
  replays pids bursts rems h -> pids !! k = Some p ->
  (forall s, In s h -> snap_cpu s <> Some p) ->
  last_remaining rems h !! k = rems !! k.
Proof.
  induction h as [|s h IH]; intros rems k p Hr Hk Hno; [reflexivity|].
  destruct Hr as (_ & _ & He & Hr).
  change (last_remaining rems (s :: h)) with (last_remaining (snap_remaining s) h).
  rewrite (IH _ k p Hr Hk).
  - rewrite He. apply (unit_effect_other _ _ _ p Hk). apply Hno. now left.
  - intros s' Hs'. apply Hno. now right.
Qed.

End Replay.

Lemma init_pids (ds : list ProcIn) :
  map pid (map init_proc (map normalize ds)) = map in_pid ds.
Proof. rewrite !map_map. reflexivity. Qed.

Lemma start_replays (ps0 : list Proc) (ds : list Descriptor) :
  Permutation ps0 (map init_proc ds) ->
  log_replays (map pid ps0) (map burst ps0) (start_log ps0).
Proof.
  intros Hperm. repeat split; simpl; trivial.
  apply map_ext_in. intros p Hp.
  apply (Permutation_in _ Hperm) in Hp. apply in_map_iff in Hp as (d & <- & _).
  reflexivity.
Qed.

(** * Multilevel queue: the foreground queue goes first *)

Lemma enqueue_from_mlq now i ps q :
  snd (enqueue_from mlq_push now i ps q)
  = mkMlqQueues
      (fgQueue q ++ map pid (List.filter
                               (fun p => admissible now p && (priority p =? 0)) ps))
      (bgQueue q ++ map pid (List.filter
                               (fun p => admissible now p && negb (priority p =? 0)) ps)).
Proof.
  revert i q. induction ps as [|p ps IH]; intros i q.
  - simpl. rewrite !app_nil_r. now destruct q.
  - cbn [enqueue_from List.filter].
    change (negb (enqueued p) && (arrival p <=? now) && (0 <? remaining p))
      with (admissible now p).
    destruct (admissible now p) eqn:Hadm; cbn [andb].
    + specialize (IH (S i) (mlq_push i p q)).
      destruct (enqueue_from mlq_push now (S i) ps (mlq_push i p q)) as [l m].
      cbn [snd] in *. rewrite IH. unfold mlq_push.
      destruct (priority p =? 0); cbn [negb fgQueue bgQueue map];
        now rewrite <- ?app_assoc.
    + specialize (IH (S i) q).
      destruct (enqueue_from mlq_push now (S i) ps q) as [l m].
      cbn [snd] in *. exact IH.
Qed.

Lemma enqueueArrivals_mlq (st : State MlqQueues) :
  procs (enqueueArrivals mlq_push st) = map (admit_mark (time st)) (procs st)
  /\ time (enqueueArrivals mlq_push st) = time st
  /\ ready (enqueueArrivals mlq_push st)
     = mkMlqQueues
         (fgQueue (ready st)
          ++ map pid (List.filter
                        (fun p => admissible (time st) p && (priority p =? 0))
                        (procs st)))
         (bgQueue (ready st)
          ++ map pid (List.filter
                        (fun p => admissible (time st) p && negb (priority p =? 0))
                        (procs st))).
Proof.
  unfold enqueueArrivals.
  pose proof (enqueue_from_procs mlq_push (time st) 0 (procs st) (ready st)) as H1.
  pose proof (enqueue_from_mlq (time st) 0 (procs st) (ready st)) as H2.
  destruct (enqueue_from mlq_push (time st) 0 (procs st) (ready st)).
  simpl in *. now subst.
Qed.

Lemma In_alter {A} (f : A -> A) (i : nat) (l : list A) (y' : A) :
  In y' (alter f i l) -> exists y, In y l /\ (y' = y \/ y' = f y).
Proof.
  revert i. induction l as [|x l IH]; intros [|i]; simpl; try tauto.
  - intros [<-|H]; eauto.
  - intros [<-|H]; [eauto|]. destruct (IH i H) as (y & Hy & Hyy). eauto.
Qed.

Lemma NoDup_pid_eq (ps : list Proc) (y z : Proc) :
  NoDup (map pid ps) -> In y ps -> In z ps -> pid y = pid z -> y = z.
Proof.
  intros Hnd Hy Hz Heq.
  apply list_elem_of_In, list_elem_of_lookup in Hy as [i Hi].
  apply list_elem_of_In, list_elem_of_lookup in Hz as [j Hj].
  assert (i = j) as ->.
  { eapply NoDup_lookup; [exact Hnd | |];
      rewrite list_lookup_fmap; [rewrite Hi | rewrite Hj]; simpl; [reflexivity|].
    now rewrite Heq. }
  congruence.
Qed.

Lemma admit_mark_fields now y :
  pid (admit_mark now y) = pid y /\ priority (admit_mark now y) = priority y.
Proof. unfold admit_mark. now destruct (admissible now y). Qed.

Lemma admit_mark_pids now ps : map pid (map (admit_mark now) ps) = map pid ps.
Proof. rewrite map_map. apply map_ext. intros y. apply admit_mark_fields. Qed.

(** The three primitive changes keep the invariant. *)
Lemma mlq_inv_enqueue e nb st :
  mlq_inv e nb st -> mlq_inv e nb (enqueueArrivals mlq_push st).
Proof.
  intros (Hnd & Hfg & Hbg).
  destruct (enqueueArrivals_mlq st) as (Hp & _ & Hr).
  unfold mlq_inv, fg_waiting, bg_only. rewrite Hp, Hr. cbn [fgQueue bgQueue].
  split; [now rewrite admit_mark_pids|]. split.
  - intros y' Hy' Hprio Henq Hrem.
    apply in_map_iff in Hy' as (y & <- & Hy).
    destruct (admit_mark_fields (time st) y) as [Hpid Hpr].
    rewrite Hpid. rewrite Hpr in Hprio. rewrite admit_mark_remaining in Hrem.
    unfold admit_mark in Henq. destruct (admissible (time st) y) eqn:Hadm.
    + right. apply in_or_app. right. apply in_map. apply filter_In.
      split; [exact Hy|]. rewrite Hadm. simpl. now apply Z.eqb_eq.
    + destruct (Hfg y Hy Hprio Henq Hrem) as [He|Hin]; [now left|].
      right. apply in_or_app. now left.
  - intros q y' Hq Hy' Hpid.
    apply in_map_iff in Hy' as (y & <- & Hy).
    destruct (admit_mark_fields (time st) y) as [Hpid' Hpr].
    rewrite Hpid' in Hpid. rewrite Hpr.
    rewrite <- app_assoc in Hq. apply in_app_or in Hq as [Hq|Hq].
    + apply (Hbg q y); trivial. apply in_or_app. now left.
    + apply in_app_or in Hq as [Hq|Hq].
      * apply in_map_iff in Hq as (z & Hz & Hzin).
        apply filter_In in Hzin as [Hzin Hzf].
        apply andb_true_iff in Hzf as [_ Hzp].
        assert (y = z) as -> by (apply (NoDup_pid_eq (procs st)); congruence).
        apply negb_true_iff, Z.eqb_neq in Hzp. exact Hzp.
      * apply (Hbg q y); trivial. apply in_or_app. now right.
Qed.

Lemma mlq_inv_alter (f : Proc -> Proc) e nb i st :
  (forall y, pid (f y) = pid y /\ priority (f y) = priority y
             /\ enqueued (f y) = enqueued y /\ remaining (f y) <= remaining y) ->
  mlq_inv e nb st -> mlq_inv e nb (with_procs (alter f i (procs st)) st).
Proof.
  intros Hf (Hnd & Hfg & Hbg).
  unfold mlq_inv, fg_waiting, bg_only. cbn [procs ready with_procs].
  split; [rewrite alter_pids; [exact Hnd | intros y; apply Hf]|]. split.
  - intros y' Hy' Hprio Henq Hrem.
    destruct (In_alter _ _ _ _ Hy') as (y & Hy & [->| ->]); [now apply Hfg|].
    destruct (Hf y) as (H1 & H2 & H3 & H4).
    rewrite H1. rewrite H2 in Hprio. rewrite H3 in Henq.
    apply Hfg; trivial. lia.
  - intros q y' Hq Hy' Hpid.
    destruct (In_alter _ _ _ _ Hy') as (y & Hy & [->| ->]); [now apply (Hbg q)|].
    destruct (Hf y) as (H1 & H2 & _). rewrite H1 in Hpid. rewrite H2.
    now apply (Hbg q).
Qed.

Lemma mlq_inv_emit e nb cpu rd ev st :
  mlq_inv e nb st -> mlq_inv e nb (emit cpu rd ev st).
Proof. intros H. exact H. Qed.

Lemma mlq_inv_exec_unit e nb i p st :
  mlq_inv e nb st -> mlq_inv e nb (exec_unit mlq_push mlq_view i p st).
Proof.
  intros H. unfold exec_unit. apply mlq_inv_enqueue, mlq_inv_emit.
  apply mlq_inv_alter; [|exact H].
  intros y. simpl. repeat split; trivial. lia.
Qed.

Lemma mlq_inv_run_for e nb n i p st :
  mlq_inv e nb st -> mlq_inv e nb (run_for mlq_push mlq_view n i p st).
Proof.
  revert st. induction n as [|n IH]; intros st H; simpl; [exact H|].
  now apply IH, mlq_inv_exec_unit.
Qed.

Lemma mlq_inv_run_to_completion e nb fuel i p st :
  mlq_inv e nb st -> mlq_inv e nb (run_to_completion mlq_push mlq_view fuel i p st).
Proof.
  revert st. induction fuel as [|n IH]; intros st H; simpl; [exact H|].
  destruct (0 <? remaining (procs st !!! i)); [|exact H].
  now apply IH, mlq_inv_exec_unit.
Qed.

Lemma mlq_inv_idle_until e nb fuel jumpTo st :
  mlq_inv e nb st -> mlq_inv e nb (idle_until (fun _ => []) fuel jumpTo st).
Proof.
  revert st. induction fuel as [|n IH]; intros st H; simpl; [exact H|].
  destruct (time st <? jumpTo); [|exact H].
  now apply IH, mlq_inv_emit.
Qed.

Lemma mlq_inv_idle_phase e nb st f st' :
  mlq_inv e nb st -> idle_phase mlq_push (fun _ => []) st = (f, st') ->
  mlq_inv e nb st'.
Proof.
  intros H. unfold idle_phase.
  destruct (find _ (procs st)); intros [= <- <-]; [|exact H].
  now apply mlq_inv_enqueue, mlq_inv_idle_until.
Qed.

Lemma set_start_fields t y :
  pid (set_start t y) = pid y /\ priority (set_start t y) = priority y
  /\ enqueued (set_start t y) = enqueued y /\ remaining (set_start t y) <= remaining y.
Proof. simpl. repeat split; trivial. lia. Qed.

Lemma set_completion_fields t y :
  pid (set_completion t y) = pid y /\ priority (set_completion t y) = priority y
  /\ enqueued (set_completion t y) = enqueued y
  /\ remaining (set_completion t y) <= remaining y.
Proof. simpl. repeat split; trivial. lia. Qed.

Lemma mlq_inv_weaken e nb st : mlq_inv e nb st -> mlq_inv e [] st.
Proof.
  intros (Hnd & Hfg & Hbg). split; [exact Hnd|]. split; [exact Hfg|].
  intros q y Hq. apply Hbg. rewrite app_nil_r in Hq. apply in_or_app. now left.
Qed.

(** The slice of a foreground process. *)
Lemma mlq_fg_slice fgQuantum i p st :
  map pid (procs st) !! i = Some p ->
  mlq_inv (Some p) [] st ->
  mlq_inv None [] (run_slice mlq_push mlq_view fg_requeue fgQuantum i p st).
Proof.
  intros Hp Hinv. unfold run_slice.
  set (st1 := run_for mlq_push mlq_view _ i p st).
  assert (H1 : mlq_inv (Some p) [] st1) by now apply mlq_inv_run_for.
  assert (Hp1 : map pid (procs st1) !! i = Some p).
  { rewrite (leads_pids mlq_ok st st1); [exact Hp|].
    now apply (run_for_leads _ _ mlq_ok mlq_push_ok). }
  destruct (Z.eqb_spec (remaining (procs st1 !!! i)) 0) as [Hz|Hnz].
  - apply mlq_inv_alter; [intros y; apply set_completion_fields|].
    destruct H1 as (Hnd & Hfg & Hbg). split; [exact Hnd|]. split; [|exact Hbg].
    intros y Hy Hprio Henq Hrem.
    destruct (Hfg y Hy Hprio Henq Hrem) as [He|Hin]; [|now right].
    exfalso. injection He as He.
    rewrite list_lookup_fmap in Hp1.
    destruct (procs st1 !! i) as [x|] eqn:Hx; [|discriminate].
    simpl in Hp1. injection Hp1 as Hp1.
    assert (y = x) as ->.
    { apply (NoDup_pid_eq (procs st1)); trivial; [|congruence].
      apply list_elem_of_In. eapply list_elem_of_lookup_2, Hx. }
    rewrite (list_lookup_total_correct _ _ _ Hx) in Hz. lia.
  - destruct H1 as (Hnd & Hfg & Hbg). split; [exact Hnd|]. split.
    + intros y Hy Hprio Henq Hrem. right. simpl. apply in_or_app.
      destruct (Hfg y Hy Hprio Henq Hrem) as [He|Hin]; [|now left].
      right. injection He as ->. now left.
    + exact Hbg.
Qed.

(** The slice of a background process. *)
Lemma mlq_bg_slice bgQuantum i p st :
  mlq_inv None [p] st ->
  mlq_inv None []
    ((match bgQuantum with
      | None => run_whole mlq_push mlq_view i p
      | Some q => run_slice mlq_push mlq_view bg_requeue q i p
      end) st).
Proof.
  intros Hinv. destruct bgQuantum as [q|].
  - unfold run_slice. set (st1 := run_for mlq_push mlq_view _ i p st).
    assert (H1 : mlq_inv None [p] st1) by now apply mlq_inv_run_for.
    destruct (remaining (procs st1 !!! i) =? 0).
    + apply mlq_inv_alter; [intros y; apply set_completion_fields|].
      now apply mlq_inv_weaken with [p].
    + destruct H1 as (Hnd & Hfg & Hbg). split; [exact Hnd|]. split; [exact Hfg|].
      intros q0 y Hq0. apply Hbg. simpl in Hq0. now rewrite app_nil_r in Hq0.
  - unfold run_whole.
    apply mlq_inv_alter; [intros y; apply set_completion_fields|].
    apply mlq_inv_weaken with [p]. now apply mlq_inv_run_to_completion.
Qed.

Lemma mlq_dispatch_inv fgQuantum bgQuantum st f st' :
  mlq_inv None [] st ->
  mlq_dispatch fgQuantum bgQuantum st = Returned (f, st') ->
  mlq_inv None [] st'.
Proof.
  intros Hinv. unfold mlq_dispatch.
  destruct (fgQueue (ready st)) as [|p rest] eqn:Hfq.
  - destruct (bgQueue (ready st)) as [|p rest] eqn:Hbq.
    + intros [= H]. now apply (mlq_inv_idle_phase None [] st f st').
    + unfold with_found.
      destruct (find_index _ _) as [i|] eqn:Hi; [|discriminate].
      intros [= <- <-]. apply mlq_bg_slice.
      apply (mlq_inv_alter (set_start (time st)) None [p] i
               (with_ready (mkMlqQueues [] rest) st));
        [intros y; apply set_start_fields|].
      destruct Hinv as (Hnd & Hfg & Hbg). split; [exact Hnd|]. split.
      * intros y Hy Hprio Henq Hrem. cbn [ready with_ready fgQueue].
        rewrite <- Hfq. now apply Hfg.
      * intros q y Hq. apply Hbg. rewrite Hbq, app_nil_r.
        cbn [ready with_ready bgQueue] in Hq.
        apply in_app_or in Hq as [Hq|[<-|[]]]; [now right | now left].
  - unfold with_found.
    destruct (find_index _ _) as [i|] eqn:Hi; [|discriminate].
    intros [= <- <-]. apply mlq_fg_slice.
    + cbn [procs with_procs]. rewrite alter_pids by reflexivity.
      now apply find_index_pid.
    + apply (mlq_inv_alter (set_start (time st)) (Some p) [] i
               (with_ready (mkMlqQueues rest (bgQueue (ready st))) st));
        [intros y; apply set_start_fields|].
      destruct Hinv as (Hnd & Hfg & Hbg). split; [exact Hnd|]. split.
      * intros y Hy Hprio Henq Hrem. cbn [ready with_ready fgQueue].
        destruct (Hfg y Hy Hprio Henq Hrem) as [He|Hin]; [discriminate|].
        rewrite Hfq in Hin. destruct Hin as [<-|Hin]; [now left | now right].
      * exact Hbg.
Qed.

Lemma mlq_start_inv (processes : list Descriptor) :
  NoDup (map d_pid processes) -> mlq_inv None [] (mlq_start processes).
Proof.
  intros Hnd. apply mlq_inv_enqueue. split; [|split].
  - cbn [procs]. rewrite js_sort_perm, map_map. exact Hnd.
  - intros y Hy _ Henq. cbn [procs] in Hy.
    apply (Permutation_in _ (js_sort_perm _ _)) in Hy.
    apply in_map_iff in Hy as (d & <- & _). discriminate.
  - intros q y []. 
Qed.

Lemma mlq_loop_inv fgQuantum bgQuantum k : forall st0 st,
  mlq_inv None [] st0 ->
  state_after mlq_push mlq_empty (mlq_dispatch fgQuantum bgQuantum) k st0 = Some st ->
  mlq_inv None [] st.
Proof.
  induction k as [|k IH]; intros st0 st H0; cbn [state_after].
  - now intros [= <-].
  - destruct (work_left mlq_empty st0); [|discriminate].
    destruct (iteration mlq_push (mlq_dispatch fgQuantum bgQuantum) st0)
      as [[[|] st1]|] eqn:Hit; try discriminate.
    apply IH. eapply mlq_dispatch_inv, Hit. now apply mlq_inv_enqueue.
Qed.

(** ** The foreground queue names foreground processes *)

Lemma fg_inv_enqueue nf st :
  fg_inv nf st -> fg_inv nf (enqueueArrivals mlq_push st).
Proof.
  intros (Hnd & Hfg).
  destruct (enqueueArrivals_mlq st) as (Hp & _ & Hr).
  unfold fg_inv, fg_only. rewrite Hp, Hr. cbn [fgQueue].
  split; [now rewrite admit_mark_pids|].
  intros q y' Hq Hy' Hpid.
  apply in_map_iff in Hy' as (y & <- & Hy).
  destruct (admit_mark_fields (time st) y) as [Hpid' Hpr].
  rewrite Hpid' in Hpid. rewrite Hpr.
  rewrite <- app_assoc in Hq. apply in_app_or in Hq as [Hq|Hq].
  - apply (Hfg q y); trivial. apply in_or_app. now left.
  - apply in_app_or in Hq as [Hq|Hq].
    + apply in_map_iff in Hq as (z & Hz & Hzin).
      apply filter_In in Hzin as [Hzin Hzf].
      apply andb_true_iff in Hzf as [_ Hzp].
      assert (y = z) as -> by (apply (NoDup_pid_eq (procs st)); congruence).
      now apply Z.eqb_eq.
    + apply (Hfg q y); trivial. apply in_or_app. now right.
Qed.

Lemma fg_inv_alter (f : Proc -> Proc) nf i st :
  (forall y, pid (f y) = pid y /\ priority (f y) = priority y) ->
  fg_inv nf st -> fg_inv nf (with_procs (alter f i (procs st)) st).
Proof.
  intros Hf (Hnd & Hfg).
  unfold fg_inv, fg_only. cbn [procs ready with_procs].
  split; [rewrite alter_pids; [exact Hnd | intros y; apply Hf]|].
  intros q y' Hq Hy' Hpid.
  destruct (In_alter _ _ _ _ Hy') as (y & Hy & [->| ->]); [now apply (Hfg q)|].
  destruct (Hf y) as (H1 & H2). rewrite H1 in Hpid. rewrite H2.
  now apply (Hfg q).
Qed.

Lemma fg_inv_exec_unit nf i p st :
  fg_inv nf st -> fg_inv nf (exec_unit mlq_push mlq_view i p st).
Proof.
  intros H. unfold exec_unit. apply fg_inv_enqueue.
  apply (fg_inv_alter dec_remaining nf i st); [|exact H].
  intros y. now split.
Qed.

Lemma fg_inv_run_for nf n i p st :
  fg_inv nf st -> fg_inv nf (run_for mlq_push mlq_view n i p st).
Proof.
  revert st. induction n as [|n IH]; intros st H; simpl; [exact H|].
  now apply IH, fg_inv_exec_unit.
Qed.

Lemma fg_inv_run_to_completion nf fuel i p st :
  fg_inv nf st -> fg_inv nf (run_to_completion mlq_push mlq_view fuel i p st).
Proof.
  revert st. induction fuel as [|n IH]; intros st H; simpl; [exact H|].
  destruct (0 <? remaining (procs st !!! i)); [|exact H].
  now apply IH, fg_inv_exec_unit.
Qed.

Lemma fg_inv_idle_until nf fuel jumpTo st :
  fg_inv nf st -> fg_inv nf (idle_until (fun _ => []) fuel jumpTo st).
Proof.
  revert st. induction fuel as [|n IH]; intros st H; simpl; [exact H|].
  destruct (time st <? jumpTo); [|exact H].
  now apply IH.
Qed.

Lemma fg_inv_idle_phase nf st f st' :
  fg_inv nf st -> idle_phase mlq_push (fun _ => []) st = (f, st') ->
  fg_inv nf st'.
Proof.
  intros H. unfold idle_phase.
  destruct (find _ (procs st)); intros [= <- <-]; [|exact H].
  now apply fg_inv_enqueue, fg_inv_idle_until.
Qed.

Lemma fg_inv_weaken nf st : fg_inv nf st -> fg_inv [] st.
Proof.
  intros (Hnd & Hfg). split; [exact Hnd|].
  intros q y Hq. apply Hfg. rewrite app_nil_r in Hq. apply in_or_app. now left.
Qed.

Lemma fg_inv_fg_slice fgQuantum i p st :
  fg_inv [p] st ->
  fg_inv [] (run_slice mlq_push mlq_view fg_requeue fgQuantum i p st).
Proof.
  intros Hinv. unfold run_slice.
  set (st1 := run_for mlq_push mlq_view _ i p st).
  assert (H1 : fg_inv [p] st1) by now apply fg_inv_run_for.
  destruct (remaining (procs st1 !!! i) =? 0).
  - apply fg_inv_alter; [intros y; now split|]. now apply fg_inv_weaken with [p].
  - destruct H1 as (Hnd & Hfg). split; [exact Hnd|].
    intros q y Hq. apply Hfg. simpl in Hq. now rewrite app_nil_r in Hq.
Qed.

Lemma fg_inv_bg_slice bgQuantum i p st :
  fg_inv [] st ->
  fg_inv []
    ((match bgQuantum with
      | None => run_whole mlq_push mlq_view i p
      | Some q => run_slice mlq_push mlq_view bg_requeue q i p
      end) st).
Proof.
  intros Hinv. destruct bgQuantum as [q|].
  - unfold run_slice. set (st1 := run_for mlq_push mlq_view _ i p st).
    assert (H1 : fg_inv [] st1) by now apply fg_inv_run_for.
    destruct (remaining (procs st1 !!! i) =? 0).
    + apply fg_inv_alter; [intros y; now split | exact H1].
    + exact H1.
  - unfold run_whole. apply fg_inv_alter; [intros y; now split|].
    now apply fg_inv_run_to_completion.
Qed.

Lemma fg_inv_dispatch fgQuantum bgQuantum st f st' :
  fg_inv [] st ->
  mlq_dispatch fgQuantum bgQuantum st = Returned (f, st') ->
  fg_inv [] st'.
Proof.
  intros Hinv. unfold mlq_dispatch.
  destruct (fgQueue (ready st)) as [|p rest] eqn:Hfq.
  - destruct (bgQueue (ready st)) as [|p rest] eqn:Hbq.
    + intros [= H]. now apply (fg_inv_idle_phase [] st f st').
    + unfold with_found.
      destruct (find_index _ _) as [i|] eqn:Hi; [|discriminate].
      intros [= <- <-]. apply fg_inv_bg_slice.
      apply (fg_inv_alter (set_start (time st)) [] i
               (with_ready (mkMlqQueues [] rest) st)); [intros y; now split|].
      destruct Hinv as (Hnd & Hfg). split; [exact Hnd|].
      intros q y []. 
  - unfold with_found.
    destruct (find_index _ _) as [i|] eqn:Hi; [|discriminate].
    intros [= <- <-]. apply fg_inv_fg_slice.
    apply (fg_inv_alter (set_start (time st)) [p] i
             (with_ready (mkMlqQueues rest (bgQueue (ready st))) st));
      [intros y; now split|].
    destruct Hinv as (Hnd & Hfg). split; [exact Hnd|].
    intros q y Hq. apply Hfg. rewrite Hfq, app_nil_r.
    cbn [ready with_ready fgQueue] in Hq.
    apply in_app_or in Hq as [Hq|[<-|[]]]; [now right | now left].
Qed.

Lemma mlq_start_fg_inv (processes : list Descriptor) :
  NoDup (map d_pid processes) -> fg_inv [] (mlq_start processes).
Proof.
  intros Hnd. apply fg_inv_enqueue. split.
  - cbn [procs]. rewrite js_sort_perm, map_map. exact Hnd.
  - intros q y [].
Qed.

Lemma mlq_loop_fg_inv fgQuantum bgQuantum k : forall st0 st,
  fg_inv [] st0 ->
  state_after mlq_push mlq_empty (mlq_dispatch fgQuantum bgQuantum) k st0 = Some st ->
  fg_inv [] st.
Proof.
  induction k as [|k IH]; intros st0 st H0; cbn [state_after].
  - now intros [= <-].
  - destruct (work_left mlq_empty st0); [|discriminate].
    destruct (iteration mlq_push (mlq_dispatch fgQuantum bgQuantum) st0)
      as [[[|] st1]|] eqn:Hit; try discriminate.
    apply IH. eapply fg_inv_dispatch, Hit. now apply fg_inv_enqueue.
Qed.

(** ** Who is served in an iteration *)

Section Served.
Context {R : Type}.
Variable push : nat -> Proc -> R -> R.
Variable view : list Proc -> R -> list string.
Variable idle_view : R -> list string.

Lemma serves_refl c (st : State R) : serves c st st.
Proof. exists []. split; [now rewrite app_nil_r | constructor]. Qed.

Lemma serves_trans c (st1 st2 st3 : State R) :
  serves c st1 st2 -> serves c st2 st3 -> serves c st1 st3.
Proof.
  intros (u1 & H1 & F1) (u2 & H2 & F2). exists (u1 ++ u2).
  split; [now rewrite H2, H1, app_assoc | now apply Forall_app].
Qed.

(** Steps that leave the trace serve whom one likes. *)
Lemma serves_same c (st st' : State R) : trace st' = trace st -> serves c st st'.
Proof. intros H. exists []. split; [now rewrite app_nil_r | constructor]. Qed.

Lemma serves_enqueue c (st : State R) : serves c st (enqueueArrivals push st).
Proof.
  apply serves_same. now destruct (enqueueArrivals_fields push st) as (_ & _ & H & _).
Qed.

Lemma serves_emit c rd ev (st : State R) : serves c st (emit c rd ev st).
Proof. eexists. split; [reflexivity|]. now repeat constructor. Qed.

Lemma serves_exec_unit i p (st : State R) :
  serves (Some p) st (exec_unit push view i p st).
Proof.
  unfold exec_unit. eapply serves_trans; [|apply serves_enqueue].
  eapply serves_trans; [|apply serves_emit]. now apply serves_same.
Qed.

Lemma serves_run_for n : forall i p (st : State R),
  serves (Some p) st (run_for push view n i p st).
Proof.
  induction n as [|n IH]; intros i p st; cbn [run_for]; [apply serves_refl|].
  eapply serves_trans; [apply serves_exec_unit | apply IH].
Qed.

Lemma serves_run_to_completion fuel : forall i p (st : State R),
  serves (Some p) st (run_to_completion push view fuel i p st).
Proof.
  induction fuel as [|n IH]; intros i p st; cbn [run_to_completion];
    [apply serves_refl|].
  destruct (0 <? remaining (procs st !!! i)); [|apply serves_refl].
  eapply serves_trans; [apply serves_exec_unit | apply IH].
Qed.

Lemma serves_run_slice requeue q i p (st : State R) :
  serves (Some p) st (run_slice push view requeue q i p st).
Proof.
  unfold run_slice.
  eapply serves_trans; [apply serves_run_for|].
  destruct (_ =? 0); now apply serves_same.
Qed.

Lemma serves_run_whole i p (st : State R) :
  serves (Some p) st (run_whole push view i p st).
Proof.
  unfold run_whole.
  eapply serves_trans; [apply serves_run_to_completion | now apply serves_same].
Qed.

Lemma serves_idle_until fuel : forall jumpTo (st : State R),
  serves None st (idle_until idle_view fuel jumpTo st).
Proof.
  induction fuel as [|n IH]; intros jumpTo st; cbn [idle_until]; [apply serves_refl|].
  destruct (time st <? jumpTo); [|apply serves_refl].
  eapply serves_trans; [apply serves_emit | apply IH].
Qed.

Lemma serves_idle_phase (st : State R) f st' :
  idle_phase push idle_view st = (f, st') -> serves None st st'.
Proof.
  unfold idle_phase. destruct (find _ (procs st)); intros [= <- <-];
    [|apply serves_refl].
  eapply serves_trans; [apply serves_idle_until | apply serves_enqueue].
Qed.

Lemma serves_with_found p (st : State R) (k : nat -> State R -> State R) f st' :
  (forall i st0, serves (Some p) st0 (k i st0)) ->
  with_found p st k = Returned (f, st') -> serves (Some p) st st'.
Proof.
  intros Hk. unfold with_found. destruct (find_index _ _) as [i|]; [|discriminate].
  intros [= <- <-]. eapply serves_trans; [|apply Hk]. now apply serves_same.
Qed.

(** The occupant of a unit that [st'] has after those of [st]. *)
Lemma serves_lookup c (st st' : State R) i e :
  serves c st st' -> (length (trace st) <= i)%nat -> trace st' !! i = Some e ->
  ev_cpu e = c.
Proof.
  intros (units & Htr & Hall) Hi He. rewrite Htr, lookup_app_r in He by exact Hi.
  rewrite List.Forall_forall in Hall. apply Hall.
  apply list_elem_of_In. eapply list_elem_of_lookup_2, He.
Qed.

End Served.

(** In an iteration of the multilevel queue the head of the foreground queue
    is served, the head of the background queue when the foreground queue is
    empty, and nobody when both are. *)
Lemma mlq_dispatch_serves fgQuantum bgQuantum st f st' :
  mlq_dispatch fgQuantum bgQuantum st = Returned (f, st') ->
  serves (match fgQueue (ready st), bgQueue (ready st) with
          | p :: _, _ => Some p
          | [], p :: _ => Some p
          | [], [] => None
          end) st st'.
Proof.
  unfold mlq_dispatch.
  destruct (fgQueue (ready st)) as [|p rest].
  - destruct (bgQueue (ready st)) as [|p rest].
    + intros [= H]. now apply (serves_idle_phase mlq_push (fun _ => []) st f st').
    + intros H.
      eapply serves_trans; [|eapply serves_with_found, H].
      * now apply serves_same.
      * intros i st0. destruct bgQuantum;
          [apply serves_run_slice | apply serves_run_whole].
  - intros H.
    eapply serves_trans; [|eapply serves_with_found, H].
    + now apply serves_same.
    + intros i st0. apply serves_run_slice.
Qed.

(** C7. In a multilevel-queue simulation over processes with distinct pids,
    at every selection point, which is the state after admission at the head
    of an iteration of the main loop: when a unit that the iteration records
    has a background process [y] (priority other than 0) on the CPU, no
    foreground process (priority 0) that is admitted, or whose arrival time
    has been reached, has work left at that point. *)
Theorem C7_foreground_before_background (processes : list Descriptor)
    (fgQuantum : Z) (bgQuantum : option Z) (k : nat) (st st' : State MlqQueues)
    (f : Flow) (i : nat) (e : TraceEvent) (y : Proc) :
  NoDup (map d_pid processes) ->
  state_after mlq_push mlq_empty (mlq_dispatch fgQuantum bgQuantum) k
              (mlq_start processes) = Some st ->
  iteration mlq_push (mlq_dispatch fgQuantum bgQuantum) st = Returned (f, st') ->
  (length (trace st) <= i)%nat ->
  trace st' !! i = Some e ->
  In y (procs st) ->
  ev_cpu e = Some (pid y) ->
  priority y <> 0 ->
  Forall (fun z => priority z = 0 ->
                   enqueued z = true \/ arrival z <= time st ->
                   remaining z <= 0)
         (procs (enqueueArrivals mlq_push st)).
Proof.
  intros Hnd Hst Hit Hi He Hy Hcpu Hprio.
  pose proof (mlq_loop_inv _ _ _ _ _ (mlq_start_inv _ Hnd) Hst) as Hinv.
  pose proof (mlq_loop_fg_inv _ _ _ _ _ (mlq_start_fg_inv _ Hnd) Hst) as Hfinv.
  apply mlq_inv_enqueue in Hinv. apply fg_inv_enqueue in Hfinv.
  unfold iteration in Hit.
  destruct (enqueueArrivals_mlq st) as (Hp & _ & _).
  destruct (enqueueArrivals_fields mlq_push st) as (_ & _ & Htr & _).
  pose proof (mlq_dispatch_serves _ _ _ _ _ Hit) as Hserve.
  rewrite <- Htr in Hi.
  pose proof (serves_lookup _ _ _ _ _ Hserve Hi He) as Hocc.
  rewrite Hcpu in Hocc.
  assert (Hy1 : In (admit_mark (time st) y) (procs (enqueueArrivals mlq_push st))).
  { rewrite Hp. now apply in_map. }
  destruct (admit_mark_fields (time st) y) as [Hpid Hpr].
  destruct (fgQueue (ready (enqueueArrivals mlq_push st))) as [|p rest] eqn:Hfq.
  - (* the foreground queue is empty *)
    destruct Hinv as (_ & Hfg & _).
    apply List.Forall_forall. intros z Hz Hzp Hadm.
    destruct (Z_le_gt_dec (remaining z) 0) as [Hle|Hgt]; [exact Hle|]. exfalso.
    assert (Henq : enqueued z = true).
    { destruct Hadm as [H|Harr]; [exact H|].
      rewrite Hp in Hz. apply in_map_iff in Hz as (z0 & <- & _).
      rewrite admit_mark_remaining in Hgt.
      unfold admit_mark in *. destruct (admissible (time st) z0) eqn:Ha; [reflexivity|].
      unfold admissible in Ha. destruct (enqueued z0); [reflexivity|].
      simpl in Ha. apply andb_false_iff in Ha as [Ha|Ha].
      - apply Z.leb_gt in Ha. lia.
      - apply Z.ltb_ge in Ha. lia. }
    destruct (Hfg z Hz Hzp Henq) as [H|Hin]; [lia | discriminate|].
    now rewrite Hfq in Hin.
  - (* its head is served, and is no background process *)
    exfalso. apply Hprio. rewrite <- Hpr.
    destruct Hfinv as (_ & Hfg). apply (Hfg p); [|exact Hy1|].
    + rewrite Hfq. now left.
    + rewrite Hpid. congruence.
Qed.

Lemma C7_foreground_before_background_witness :
  Forall (fun z => priority z = 0 ->
                   enqueued z = true \/ arrival z <= time mlq_sample_state ->
                   remaining z <= 0)
         (procs (enqueueArrivals mlq_push mlq_sample_state)).
Proof.
  apply (C7_foreground_before_background mlq_sample 2 (Some 4) 1 mlq_sample_state
           mlq_sample_next Continue 1
           (mkTraceEvent 1 (Some "B"%string) [] "exec(B)")
           (mkProc "B" 0 2 1 2 None None true)).
  - simpl. repeat constructor; simpl; intros H; apply list_elem_of_In in H;
      simpl in H; intuition discriminate.
  - vm_compute. reflexivity.
  - vm_compute. reflexivity.
  - vm_compute. lia.
  - vm_compute. reflexivity.
  - vm_compute. right. left. reflexivity.
  - reflexivity.
  - simpl. lia.
Defined.

(** * The inner loops stop at their guard *)

Section InnerLoops.
Context {R : Type}.
Variable push : nat -> Proc -> R -> R.
Variable view : list Proc -> R -> list string.
Variable idle_view : R -> list string.

Lemma enqueueArrivals_procs (st : State R) :
  procs (enqueueArrivals push st) = map (admit_mark (time st)) (procs st).
Proof.
  unfold enqueueArrivals.
  pose proof (enqueue_from_procs push (time st) 0 (procs st) (ready st)) as H.
  destruct (enqueue_from push (time st) 0 (procs st) (ready st)). exact H.
Qed.

Lemma exec_unit_remaining i p (st : State R) :
  (i < length (procs st))%nat ->
  (i < length (procs (exec_unit push view i p st)))%nat
  /\ remaining (procs (exec_unit push view i p st) !!! i)
     = remaining (procs st !!! i) - 1.
Proof.
  intros Hi. unfold exec_unit. rewrite enqueueArrivals_procs. cbn [procs emit with_procs].
  split; [now rewrite length_map, length_alter|].
  now rewrite lookup_total_remaining_mark, lookup_total_remaining_dec.
Qed.

(** [while (p.remaining > 0)] is left with nothing remaining: the fuel that
    [run_whole] gives is enough. *)
Lemma run_to_completion_done fuel : forall i p (st : State R),
  (i < length (procs st))%nat ->
  remaining (procs st !!! i) <= Z.of_nat fuel ->
  remaining (procs (run_to_completion push view fuel i p st) !!! i) <= 0.
Proof.
  induction fuel as [|fuel IH]; intros i p st Hi Hrem; cbn [run_to_completion].
  - simpl in Hrem. exact Hrem.
  - destruct (Z.ltb_spec 0 (remaining (procs st !!! i))) as [Hpos|Hdone]; [|exact Hdone].
    destruct (exec_unit_remaining i p st Hi) as [Hi' Hr'].
    apply IH; [exact Hi' | lia].
Qed.

Lemma emit_time cpu rd ev (st : State R) : time (emit cpu rd ev st) = time st + 1.
Proof. reflexivity. Qed.

(** [while (time < jumpTo)] is left at [jumpTo]: the fuel that [idle_phase]
    gives is enough. *)
Lemma idle_until_done fuel : forall jumpTo (st : State R),
  jumpTo - time st <= Z.of_nat fuel ->
  jumpTo <= time (idle_until idle_view fuel jumpTo st).
Proof.
  induction fuel as [|fuel IH]; intros jumpTo st Hfuel; cbn [idle_until].
  - simpl in Hfuel. lia.
  - destruct (Z.ltb_spec (time st) jumpTo) as [Hlt|Hge]; [|exact Hge].
    apply IH. rewrite emit_time. lia.
Qed.

End InnerLoops.

(** * The scenarios of the specification *)

Example fcfs_scenario :
  completions (simulate "FCFS" four_processes no_options)
  = [ ("P1", 5, 0); ("P2", 8, 4); ("P3", 16, 6); ("P4", 22, 13) ]%string.
Proof. vm_compute. reflexivity. Qed.

Example rr_scenario :
  firstn 3 (occupants (simulate "RR" four_processes (mkOptions (Some 2) None None)))
  = [ Some "P1"; Some "P1"; Some "P2" ]%string.
Proof. vm_compute. reflexivity. Qed.

Example single_process_scenario :
  exists r, simulate "SJF" one_process no_options = Returned r
            /\ makespan (stats r) = Fin 1
            /\ throughput (stats r) = Fin 1
            /\ avgWaiting (stats r) = Fin 0.
Proof. eexists. split; [vm_compute; reflexivity|]. repeat split. Qed.

(** * The cursor of the animator *)

Lemma clamp_range v a b : a <= b -> a <= clamp v a b <= b.
Proof. unfold clamp. lia. Qed.

Lemma clamp_inside v a b : a <= v <= b -> clamp v a b = v.
Proof. unfold clamp. lia. Qed.

Lemma show_at_ok (h : list Snapshot) (c : Z) :
  0 <= c <= Z.max 0 (Z.of_nat (length h) - 1) ->
  exists f, show_at h c = Returned (mkAnimator h c, f)
            /\ cursor_ok (mkAnimator h c) f.
Proof.
  intros Hc. unfold show_at, draw, cursor_ok. cbn [anim_history current].
  destruct h as [|s0 h'] eqn:Hh.
  - exists NoSimulation. split; [reflexivity|]. simpl in Hc. split; [lia | reflexivity].
  - rewrite <- Hh in *.
    assert (Hlen : 0 < Z.of_nat (length h)) by (rewrite Hh; simpl; lia).
    unfold js_index. destruct (Z.ltb_spec c 0) as [Hneg|_]; [lia|].
    destruct (lookup_lt_is_Some_2 h (Z.to_nat c)) as [s Hs]; [lia|].
    rewrite Hs. exists (Shows s). split; [reflexivity|].
    split; [lia|]. exists s. auto.
Qed.

Lemma run_command_ok (c : Command) (a : Animator) :
  exists a' f', run_command c a = Returned (a', f') /\ cursor_ok a' f'.
Proof.
  assert (Hl : 0 <= last_index a) by (unfold last_index; lia).
  destruct c as [h|[| |i]]; cbn [run_command run_move];
    unfold loadHistory, stepForward, stepBackward, jumpTo.
  - destruct (show_at_ok h 0) as (f & -> & Hok); [lia | eauto].
  - destruct (show_at_ok (anim_history a) (clamp (current a + 1) 0 (last_index a)))
      as (f & -> & Hok); [apply clamp_range, Hl | eauto].
  - destruct (show_at_ok (anim_history a) (clamp (current a - 1) 0 (last_index a)))
      as (f & -> & Hok); [apply clamp_range, Hl | eauto].
  - destruct (show_at_ok (anim_history a) (clamp i 0 (last_index a)))
      as (f & -> & Hok); [apply clamp_range, Hl | eauto].
Qed.

Lemma run_commands_ok (cs : list Command) : forall a f,
  cursor_ok a f ->
  exists a' f', run_commands cs a f = Returned (a', f') /\ cursor_ok a' f'.
Proof.
  induction cs as [|c cs IH]; intros a f Hok; cbn [run_commands]; [eauto|].
  destruct (run_command_ok c a) as (a1 & f1 & -> & H1). now apply IH.
Qed.

(** X1. Whatever the playback controls ask for, from a new animator on, drawing
    never reads a missing snapshot: every command returns, and leaves the
    cursor on an index of the loaded history (0 when it is empty) with the
    snapshot at the cursor on the canvas. *)
Theorem animator_cursor_stays_valid (cs : list Command) :
  exists a f, run_commands cs new_animator NoSimulation = Returned (a, f)
              /\ cursor_ok a f.
Proof. apply run_commands_ok. split; reflexivity. Qed.

Lemma cursor_ok_show (a : Animator) (f : Frame) :
  cursor_ok a f -> show_at (anim_history a) (current a) = Returned (a, f).
Proof.
  destruct a as [h c]. unfold cursor_ok, show_at, draw. cbn [anim_history current].
  destruct h as [|s0 h'].
  - intros [-> ->]. reflexivity.
  - intros (Hc & s & Hs & ->). unfold js_index.
    destruct (Z.ltb_spec c 0) as [Hneg|_]; [lia|]. now rewrite Hs.
Qed.

(** X2. A step forward from a cursor that is not on the last snapshot moves it by
    one, and the step backward that follows restores the animator and the
    frame. *)
Theorem step_forward_then_backward (a : Animator) (f : Frame) :
  cursor_ok a f ->
  current a < last_index a ->
  exists a1 f1,
    stepForward a = Returned (a1, f1)
    /\ current a1 = current a + 1
    /\ stepBackward a1 = Returned (a, f).
Proof.
  intros Hok Hlt.
  assert (H0 : 0 <= current a).
  { unfold cursor_ok in Hok. destruct (anim_history a); [|lia]. destruct Hok. lia. }
  unfold stepForward. rewrite clamp_inside by lia.
  destruct (show_at_ok (anim_history a) (current a + 1)) as (f1 & H1 & _).
  { unfold last_index in Hlt. lia. }
  exists (mkAnimator (anim_history a) (current a + 1)), f1.
  split; [exact H1|]. split; [reflexivity|].
  unfold stepBackward, last_index in *. cbn [anim_history current].
  rewrite clamp_inside by lia.
  replace (current a + 1 - 1) with (current a) by lia.
  now apply cursor_ok_show.
Qed.

Lemma step_forward_then_backward_witness :
  exists a1 f1,
    stepForward sample_animator = Returned (a1, f1)
    /\ current a1 = current sample_animator + 1
    /\ stepBackward a1 = Returned (sample_animator, Shows (mkSnapshot 1 None [] [])).
Proof.
  apply (step_forward_then_backward sample_animator (Shows (mkSnapshot 1 None [] []))).
  - unfold cursor_ok. simpl. split; [lia|]. eexists. split; reflexivity.
  - vm_compute. reflexivity.
Defined.

(** X3. At the ends the cursor stays: a step forward on the last snapshot and a
    step backward on the first change nothing. *)
Theorem step_saturates (a : Animator) (f : Frame) :
  cursor_ok a f ->
  (current a = last_index a -> stepForward a = Returned (a, f))
  /\ (current a = 0 -> stepBackward a = Returned (a, f)).
Proof.
  intros Hok.
  assert (Hl : 0 <= last_index a) by (unfold last_index; lia).
  split; intros Hc.
  - unfold stepForward. replace (clamp (current a + 1) 0 (last_index a)) with (current a)
      by (unfold clamp; lia).
    now apply cursor_ok_show.
  - unfold stepBackward. replace (clamp (current a - 1) 0 (last_index a)) with (current a)
      by (unfold clamp; lia).
    now apply cursor_ok_show.
Qed.

Lemma step_saturates_witness :
  stepForward sample_at_last
  = Returned (sample_at_last, Shows (mkSnapshot 2 None [] []))
  /\ stepBackward sample_at_first
     = Returned (sample_at_first, Shows (mkSnapshot 0 None [] [])).
Proof.
  split.
  - apply (step_saturates sample_at_last (Shows (mkSnapshot 2 None [] []))).
    + unfold cursor_ok. simpl. split; [lia|]. eexists. split; reflexivity.
    + reflexivity.
  - apply (step_saturates sample_at_first (Shows (mkSnapshot 0 None [] []))).
    + unfold cursor_ok. simpl. split; [lia|]. eexists. split; reflexivity.
    + reflexivity.
Defined.

Lemma show_at_history h c a f : show_at h c = Returned (a, f) -> anim_history a = h.
Proof.
  unfold show_at. destruct (draw _); [|discriminate]. now intros [= <- _].
Qed.

Lemma run_move_history (m : Move) a a' f' :
  run_move m a = Returned (a', f') -> anim_history a' = anim_history a.
Proof. destruct m; apply show_at_history. Qed.

Lemma run_moves_history (ms : list Move) : forall a f a' f',
  run_commands (map Go ms) a f = Returned (a', f') -> anim_history a' = anim_history a.
Proof.
  induction ms as [|m ms IH]; intros a f a' f'; cbn [map run_commands run_command].
  - now intros [= <- _].
  - destruct (run_move m a) as [[a1 f1]|] eqn:Hm; [|discriminate].
    intros H. rewrite (IH _ _ _ _ H). eapply run_move_history, Hm.
Qed.

Lemma snapshots_record_their_index (ps0 : list Proc) (st : State unit) i s :
  rtc prim (start_log ps0) st -> history st !! i = Some s -> snap_time s = Z.of_nat i.
Proof.
  intros Hsteps Hs.
  destruct (steps_aligned _ _ Hsteps (start_aligned ps0)) as [_ [Hlen Hall]].
  destruct (lookup_lt_is_Some_2 (trace st) i) as [e He].
  { rewrite Hlen. eapply lookup_lt_Some, Hs. }
  now destruct (Hall i e s He Hs) as (_ & Ht & _).
Qed.

(** X4. Playback of a simulation: once the snapshots that [simulate] returns are
    loaded, whatever moves of the cursor follow, the snapshot on the canvas
    is the one of the time unit that the cursor (and with it the timeline
    slider) shows; only a run without snapshots leaves the notice that
    nothing is loaded. *)
Theorem playback_shows_time_of_cursor (algorithm : string) (ps : list ProcIn)
    (o : Options) (ms : list Move) :
  exists r a f,
    simulate algorithm ps o = Returned r
    /\ run_commands (LoadHistory (historySnapshots r) :: map Go ms)
                    new_animator NoSimulation = Returned (a, f)
    /\ match f with
       | NoSimulation => historySnapshots r = []
       | Shows s => snap_time s = current a
       end.
Proof.
  destruct (simulate_runs algorithm ps o) as (ps0 & _ & st & -> & Hsteps).
  destruct (run_commands_ok (LoadHistory (history st) :: map Go ms)
              new_animator NoSimulation) as (a & f & Hrun & Hok).
  { split; reflexivity. }
  exists (finish st), a, f. split; [reflexivity|]. split; [exact Hrun|].
  assert (Hh : anim_history a = history st).
  { cbn [run_commands run_command] in Hrun. unfold loadHistory in Hrun.
    destruct (show_at (history st) 0) as [[a1 f1]|] eqn:H1; [|discriminate].
    rewrite (run_moves_history _ _ _ _ _ Hrun). eapply show_at_history, H1. }
  unfold cursor_ok in Hok. rewrite Hh in Hok. cbn [historySnapshots finish].
  destruct (history st) as [|s0 h'] eqn:Hhist.
  - destruct Hok as [_ ->]. reflexivity.
  - destruct Hok as (Hc & s & Hs & ->). rewrite <- Hhist in Hs.
    rewrite (snapshots_record_their_index ps0 st _ s Hsteps Hs). lia.
Qed.

(** X26. [clamp] brings a value into a range: when the bounds are in order
    the result lies between them, it is the value itself when that lies
    between them and the nearer bound otherwise, and clamping twice is
    clamping once.  When the bounds are crossed the result is the lower
    bound, whatever the value. *)
Theorem clamp_contract (v a b : Z) :
  (a <= b ->
   a <= clamp v a b <= b
   /\ (a <= v <= b -> clamp v a b = v)
   /\ (v < a -> clamp v a b = a)
   /\ (b < v -> clamp v a b = b)
   /\ clamp (clamp v a b) a b = clamp v a b)
  /\ (b < a -> clamp v a b = a).
Proof. unfold clamp. lia. Qed.

(** * The Gantt chart *)

Lemma gantt_bars_spec colors (tr : list TraceEvent) : forall x b,
  In b (gantt_bars colors x tr)
  <-> exists i e p, tr !! i = Some e /\ ev_cpu e = Some p /\ truthy (Some p) = true
                    /\ b = mkBar (x + pxPerUnit * Z.of_nat i) (color_of colors p) p.
Proof.
  induction tr as [|t tr IH]; intros x b.
  - simpl. split; [tauto|]. intros (i & e & p & H & _). now rewrite lookup_nil in H.
  - cbn [gantt_bars].
    assert (Htl : In b (gantt_bars colors (x + pxPerUnit) tr)
                  <-> exists i e p, (t :: tr) !! S i = Some e /\ ev_cpu e = Some p
                                    /\ truthy (Some p) = true
                                    /\ b = mkBar (x + pxPerUnit * Z.of_nat (S i))
                                                 (color_of colors p) p).
    { rewrite IH. split; intros (i & e & p & H1 & H2 & H3 & H4);
        exists i, e, p; (split; [exact H1|]); (split; [exact H2|]);
        (split; [exact H3|]); rewrite H4; f_equal; lia. }
    destruct (ev_cpu t) as [p0|] eqn:Hcpu.
    + destruct (truthy (Some p0)) eqn:Htr.
      * cbn [In]. rewrite Htl. split.
        -- intros [<-|(i & e & p & H)].
           ++ exists 0%nat, t, p0. simpl. rewrite Z.mul_0_r, Z.add_0_r. auto.
           ++ exists (S i), e, p. exact H.
        -- intros ([|i] & e & p & H1 & H2 & H3 & H4).
           ++ left. simpl in H1. injection H1 as <-. rewrite Hcpu in H2.
              injection H2 as <-. rewrite H4. simpl. now rewrite Z.mul_0_r, Z.add_0_r.
           ++ right. exists i, e, p. auto.
      * rewrite Htl. split.
        -- intros (i & e & p & H). exists (S i), e, p. exact H.
        -- intros ([|i] & e & p & H1 & H2 & H3 & H4).
           ++ simpl in H1. injection H1 as <-. rewrite Hcpu in H2.
              injection H2 as <-. congruence.
           ++ exists i, e, p. auto.
    + rewrite Htl. split.
      * intros (i & e & p & H). exists (S i), e, p. exact H.
      * intros ([|i] & e & p & H1 & H2 & H3 & H4).
        -- simpl in H1. injection H1 as <-. congruence.
        -- exists i, e, p. auto.
Qed.

Lemma gantt_marks_spec n : forall t x j,
  (j < n)%nat ->
  In (t + Z.of_nat j, x + pxPerUnit * Z.of_nat j) (gantt_marks n t x).
Proof.
  induction n as [|n IH]; intros t x j Hj; [lia|].
  cbn [gantt_marks]. destruct j as [|j].
  - left. f_equal; lia.
  - right. replace (t + Z.of_nat (S j)) with ((t + 1) + Z.of_nat j) by lia.
    replace (x + pxPerUnit * Z.of_nat (S j)) with ((x + pxPerUnit) + pxPerUnit * Z.of_nat j)
      by lia.
    apply IH. lia.
Qed.

(** X5. The chart of a simulation follows its time: a unit of time [t] with a
    process on the CPU is drawn as one bar that bears the pid and starts at
    [50 + 30 t], where the time scale has its mark [t]; idle units, and units
    of a process whose pid is the empty string, are left blank; and nothing
    else is drawn as a bar. *)
Theorem gantt_bars_follow_time (algorithm : string) (ps : list ProcIn) (o : Options) :
  exists r, simulate algorithm ps o = Returned r
    /\ (forall e, In e (res_trace r) -> truthy (ev_cpu e) = true ->
          exists b, In b (bars (drawGanttChart (res_trace r)))
                    /\ Some (bar_label b) = ev_cpu e
                    /\ bar_x b = 50 + 30 * ev_time e)
    /\ (forall b, In b (bars (drawGanttChart (res_trace r))) ->
          exists e, In e (res_trace r) /\ ev_cpu e = Some (bar_label b)
                    /\ bar_label b <> ""%string
                    /\ bar_x b = 50 + 30 * ev_time e)
    /\ (forall t, 0 <= t <= Z.of_nat (length (res_trace r)) ->
          In (t, 50 + 30 * t) (marks (drawGanttChart (res_trace r)))).
Proof.
  destruct (simulate_runs algorithm ps o) as (ps0 & _ & st & -> & Hsteps).
  exists (finish st). split; [reflexivity|]. cbn [res_trace finish].
  destruct (steps_aligned _ _ Hsteps (start_aligned ps0)) as [_ [Hlen Hall]].
  assert (Htime : forall i e, trace st !! i = Some e -> ev_time e = Z.of_nat i).
  { intros i e He.
    destruct (lookup_lt_is_Some_2 (history st) i) as [s Hs].
    { rewrite <- Hlen. eapply lookup_lt_Some, He. }
    now destruct (Hall i e s He Hs) as (Ht & _). }
  unfold drawGanttChart. cbn [bars marks]. split; [|split].
  - intros e He Htr.
    apply list_elem_of_In, list_elem_of_lookup in He as [i Hi].
    destruct (ev_cpu e) as [p|] eqn:Hcpu; [|discriminate].
    eexists. split.
    + apply gantt_bars_spec. exists i, e, p. eauto.
    + simpl. split; [reflexivity|]. rewrite (Htime i e Hi). unfold pxPerUnit. lia.
  - intros b Hb. apply gantt_bars_spec in Hb as (i & e & p & Hi & Hcpu & Htr & ->).
    exists e. cbn [bar_label bar_x].
    split; [apply list_elem_of_In; eapply list_elem_of_lookup_2, Hi|].
    split; [exact Hcpu|]. split; [now destruct p|].
    rewrite (Htime i e Hi). unfold pxPerUnit. lia.
  - intros t Ht.
    pose proof (gantt_marks_spec (S (length (trace st))) 0 50 (Z.to_nat t)) as H.
    rewrite Z2Nat.id in H by lia. simpl (0 + t) in H.
    unfold pxPerUnit in H. apply H. lia.
Qed.

Lemma existsb_eqb (x : string) (l : list string) :
  existsb (String.eqb x) l = true <-> In x l.
Proof.
  rewrite existsb_exists. split.
  - intros (y & Hy & Heq). apply String.eqb_eq in Heq. now subst.
  - intros H. exists x. split; [exact H | apply String.eqb_refl].
Qed.

Lemma js_set_fold (l : list string) : forall acc,
  NoDup acc ->
  NoDup (fold_left (fun acc x => if existsb (String.eqb x) acc then acc else acc ++ [x]) l acc)
  /\ forall x, In x (fold_left (fun acc x => if existsb (String.eqb x) acc then acc
                                             else acc ++ [x]) l acc)
               <-> In x acc \/ In x l.
Proof.
  induction l as [|y l IH]; intros acc Hacc; cbn [fold_left].
  - split; [exact Hacc|]. intros x. simpl. tauto.
  - destruct (existsb (String.eqb y) acc) eqn:Hy.
    + destruct (IH acc Hacc) as [Hnd Hin]. split; [exact Hnd|].
      intros x. rewrite Hin. apply existsb_eqb in Hy. simpl.
      split; [tauto|]. intros [H|[<-|H]]; auto.
    + assert (Hny : ~ In y acc).
      { intros H. apply existsb_eqb in H. congruence. }
      destruct (IH (acc ++ [y])) as [Hnd Hin].
      { apply NoDup_app. split; [exact Hacc|]. split.
        - intros x Hx [->|[]]%list_elem_of_In. apply Hny. now apply list_elem_of_In.
        - apply NoDup_singleton. }
      split; [exact Hnd|]. intros x. rewrite Hin, in_app_iff. simpl. tauto.
Qed.

Lemma js_set_spec (l : list string) :
  NoDup (js_set l) /\ forall x, In x (js_set l) <-> In x l.
Proof.
  destruct (js_set_fold l [] (NoDup_nil_2)) as [Hnd Hin]. split; [exact Hnd|].
  intros x. unfold js_set. rewrite Hin. simpl. tauto.
Qed.

Lemma palette_color_defined (j : nat) :
  exists c, palette_color j = Some c /\ In c colorPalette.
Proof.
  unfold palette_color.
  destruct (lookup_lt_is_Some_2 colorPalette (j mod length colorPalette)) as [c Hc].
  { apply Nat.mod_upper_bound. discriminate. }
  exists c. split; [exact Hc|]. apply list_elem_of_In. eapply list_elem_of_lookup_2, Hc.
Qed.

Lemma own_color_set (p c : string) colors q :
  q <> proto_key ->
  own_color (set_color p c colors) q
  = if String.eqb p q then Some c else own_color colors q.
Proof.
  intros Hq. unfold set_color.
  destruct (String.eqb_spec p proto_key) as [->|_]; [|reflexivity].
  destruct (String.eqb_spec proto_key q) as [H|_]; [|reflexivity].
  now elim Hq.
Qed.

Lemma assign_colors_other (pids : list string) : forall i colors p,
  ~ In p pids -> own_color (assign_colors i pids colors) p = own_color colors p.
Proof.
  induction pids as [|q pids IH]; intros i colors p Hp; cbn [assign_colors]; [reflexivity|].
  rewrite IH by (intros H; apply Hp; now right).
  destruct (colorPalette !! (i mod length colorPalette)%nat); [|reflexivity].
  unfold set_color. destruct (String.eqb q proto_key); [reflexivity|].
  cbn [own_color]. destruct (String.eqb_spec q p) as [->|_]; [|reflexivity].
  exfalso. apply Hp. now left.
Qed.

Lemma assign_colors_own (pids : list string) : forall i colors j p,
  NoDup pids -> pids !! j = Some p -> p <> proto_key ->
  own_color (assign_colors i pids colors) p = palette_color (i + j).
Proof.
  induction pids as [|q pids IH]; intros i colors j p Hnd Hj Hp; [discriminate|].
  apply NoDup_cons in Hnd as [Hq Hnd]. cbn [assign_colors].
  destruct j as [|j]; simpl in Hj.
  - injection Hj as ->. rewrite assign_colors_other.
    2:{ intros H. apply Hq. now apply list_elem_of_In. }
    rewrite Nat.add_0_r.
    destruct (palette_color_defined i) as (c & Hc & _). unfold palette_color in *.
    rewrite Hc, own_color_set by exact Hp. now rewrite String.eqb_refl.
  - rewrite (IH (S i) _ j p Hnd Hj Hp). f_equal. lia.
Qed.

(** What [colors[p]] is once the pids have their colours. *)
Lemma assign_colors_spec (pids : list string) i colors j p c :
  NoDup pids -> pids !! j = Some p -> palette_color (i + j) = Some c ->
  color_of (assign_colors i pids colors) p
  = if String.eqb p proto_key then ObjectPrototype else Str c.
Proof.
  intros Hnd Hj Hc. unfold color_of.
  destruct (String.eqb_spec p proto_key) as [_|Hp]; [reflexivity|].
  now rewrite (assign_colors_own pids i colors j p Hnd Hj Hp), Hc.
Qed.

Lemma gantt_pids_spec (tr : list TraceEvent) (p : string) :
  In p (gantt_pids tr)
  <-> exists e, In e tr /\ ev_cpu e = Some p /\ truthy (Some p) = true.
Proof.
  unfold gantt_pids. destruct (js_set_spec (omap (fun t => if truthy (ev_cpu t) then ev_cpu t else None) tr)) as [_ Hin].
  rewrite Hin, <- list_elem_of_In, list_elem_of_omap. split.
  - intros (e & He & Hp). exists e. apply list_elem_of_In in He.
    destruct (truthy (ev_cpu e)) eqn:Ht; [|discriminate]. rewrite Hp in Ht. auto.
  - intros (e & He & Hcpu & Ht). exists e. apply list_elem_of_In in He.
    rewrite Hcpu, Ht. auto.
Qed.

Lemma gantt_legend_spec colors (pids : list string) : forall lx j p,
  pids !! j = Some p ->
  gantt_legend colors lx pids !! j = Some (lx + 70 * Z.of_nat j, color_of colors p, p).
Proof.
  induction pids as [|q pids IH]; intros lx j p Hj; [discriminate|].
  destruct j as [|j]; simpl in Hj; cbn [gantt_legend].
  - injection Hj as ->. simpl. do 3 f_equal. lia.
  - simpl. rewrite (IH (lx + 70) j p Hj). do 3 f_equal. lia.
Qed.

Lemma palette_distinct : NoDup colorPalette.
Proof.
  unfold colorPalette.
  repeat (apply NoDup_cons; split;
          [intros H; apply list_elem_of_In in H; simpl in H;
           repeat (destruct H as [H|H]; [discriminate H|]); exact H|]).
  apply NoDup_nil_2.
Qed.

Lemma gantt_bar_rank (tr : list TraceEvent) (b : Bar) :
  In b (bars (drawGanttChart tr)) ->
  exists j c,
    gantt_pids tr !! j = Some (bar_label b)
    /\ (forall j', gantt_pids tr !! j' = Some (bar_label b) -> j' = j)
    /\ palette_color j = Some c
    /\ bar_color b
       = (if String.eqb (bar_label b) proto_key then ObjectPrototype else Str c)
    /\ legend (drawGanttChart tr) !! j
       = Some (50 + 70 * Z.of_nat j, bar_color b, bar_label b).
Proof.
  unfold drawGanttChart. cbn [bars legend]. intros Hb.
  apply gantt_bars_spec in Hb as (i & e & p & Hi & Hcpu & Htr & ->).
  cbn [bar_label bar_color].
  destruct (js_set_spec (omap (fun t => if truthy (ev_cpu t) then ev_cpu t else None) tr))
    as [Hnd _]. fold (gantt_pids tr) in Hnd.
  assert (Hin : In p (gantt_pids tr)).
  { apply gantt_pids_spec. exists e. split; [|auto].
    apply list_elem_of_In. eapply list_elem_of_lookup_2, Hi. }
  apply list_elem_of_In, list_elem_of_lookup in Hin as [j Hj].
  destruct (palette_color_defined j) as (c & Hc & _).
  exists j, c. split; [exact Hj|]. split.
  { intros j' Hj'. eapply NoDup_lookup; eauto. }
  split; [exact Hc|].
  split; [exact (assign_colors_spec (gantt_pids tr) 0 [] j p c Hnd Hj Hc)|].
  exact (gantt_legend_spec _ _ 50 j p Hj).
Qed.

(** X6. The colours of the chart: every pid that has a bar stands once in the
    legend, at the rank [j] of its first appearance, and its bars and its
    legend entry are filled with the same value: the colour [j mod 10] of the
    palette, unless the pid is [__proto__], for which the value read from
    [colors] is [Object.prototype] and no colour. *)
Theorem gantt_colors_by_first_appearance (tr : list TraceEvent) (b : Bar) :
  In b (bars (drawGanttChart tr)) ->
  exists j c,
    gantt_pids tr !! j = Some (bar_label b)
    /\ (forall j', gantt_pids tr !! j' = Some (bar_label b) -> j' = j)
    /\ palette_color j = Some c
    /\ (bar_label b <> proto_key -> bar_color b = Str c)
    /\ (bar_label b = proto_key -> bar_color b = ObjectPrototype)
    /\ legend (drawGanttChart tr) !! j
       = Some (50 + 70 * Z.of_nat j, bar_color b, bar_label b).
Proof.
  intros Hb. destruct (gantt_bar_rank tr b Hb) as (j & c & Hj & Hu & Hc & Hcol & Hl).
  exists j, c. split; [exact Hj|]. split; [exact Hu|]. split; [exact Hc|].
  destruct (String.eqb_spec (bar_label b) proto_key) as [Hp|Hp].
  - split; [intros H; now elim H|]. split; [intros _; exact Hcol | exact Hl].
  - split; [intros _; exact Hcol|]. split; [intros H; now elim Hp | exact Hl].
Qed.

Lemma gantt_colors_by_first_appearance_witness :
  (exists j c,
     gantt_pids gantt_sample !! j = Some "B"%string
     /\ (forall j', gantt_pids gantt_sample !! j' = Some "B"%string -> j' = j)
     /\ palette_color j = Some c
     /\ ("B"%string <> proto_key -> Str "#64B5F6" = Str c)
     /\ ("B"%string = proto_key -> Str "#64B5F6" = ObjectPrototype)
     /\ legend (drawGanttChart gantt_sample) !! j
        = Some (50 + 70 * Z.of_nat j, Str "#64B5F6", "B"%string))
  /\ (exists j c,
        gantt_pids gantt_proto_sample !! j = Some proto_key
        /\ (forall j', gantt_pids gantt_proto_sample !! j' = Some proto_key -> j' = j)
        /\ palette_color j = Some c
        /\ (proto_key <> proto_key -> ObjectPrototype = Str c)
        /\ (proto_key = proto_key -> ObjectPrototype = ObjectPrototype)
        /\ legend (drawGanttChart gantt_proto_sample) !! j
           = Some (50 + 70 * Z.of_nat j, ObjectPrototype, proto_key)).
Proof.
  split.
  - apply (gantt_colors_by_first_appearance gantt_sample
             (mkBar 110 (Str "#64B5F6") "B")).
    vm_compute. right. left. reflexivity.
  - apply (gantt_colors_by_first_appearance gantt_proto_sample
             (mkBar 80 ObjectPrototype proto_key)).
    vm_compute. right. left. reflexivity.
Defined.

(** X7. With at most ten processes on the chart, bars of the same colour belong
    to the same process. *)
Theorem gantt_colors_tell_processes_apart (tr : list TraceEvent) (b b' : Bar) :
  (length (gantt_pids tr) <= length colorPalette)%nat ->
  In b (bars (drawGanttChart tr)) ->
  In b' (bars (drawGanttChart tr)) ->
  bar_color b = bar_color b' ->
  bar_label b = bar_label b'.
Proof.
  intros Hlen Hb Hb' Hcol.
  destruct (gantt_bar_rank tr b Hb) as (j & c & Hj & _ & Hc & Hbc & _).
  destruct (gantt_bar_rank tr b' Hb') as (j' & c' & Hj' & _ & Hc' & Hbc' & _).
  rewrite Hbc, Hbc' in Hcol.
  destruct (String.eqb_spec (bar_label b) proto_key) as [Hp|Hp];
    destruct (String.eqb_spec (bar_label b') proto_key) as [Hp'|Hp'];
    try discriminate; [congruence|].
  injection Hcol as <-.
  unfold palette_color in *.
  apply lookup_lt_Some in Hj as Hlt. apply lookup_lt_Some in Hj' as Hlt'.
  rewrite Nat.mod_small in Hc, Hc' by lia.
  assert (j = j') as <- by (eapply NoDup_lookup; eauto using palette_distinct).
  congruence.
Qed.

Lemma gantt_colors_tell_processes_apart_witness :
  bar_label (mkBar 50 (Str "#E57373") "A")
  = bar_label (mkBar 140 (Str "#E57373") "A").
Proof.
  apply (gantt_colors_tell_processes_apart gantt_sample
           (mkBar 50 (Str "#E57373") "A")
           (mkBar 140 (Str "#E57373") "A")).
  - vm_compute. lia.
  - vm_compute. left. reflexivity.
  - vm_compute. right. right. left. reflexivity.
  - reflexivity.
Defined.

(** * Steps of the simulators *)

Lemma admit_mark_settled now p : admissible now (admit_mark now p) = false.
Proof.
  unfold admit_mark. destruct (admissible now p) eqn:H; [reflexivity | exact H].
Qed.

Lemma enqueue_from_settled {R} (push : nat -> Proc -> R -> R) now (ps : list Proc) :
  forall i r,
    Forall (fun p => admissible now p = false) ps ->
    enqueue_from push now i ps r = (ps, r).
Proof.
  induction ps as [|p ps IH]; intros i r Hall; [reflexivity|].
  inversion Hall as [|? ? Hp Hps]; subst. cbn [enqueue_from].
  change (negb (enqueued p) && (arrival p <=? now) && (0 <? remaining p))
    with (admissible now p).
  now rewrite Hp, (IH (S i) r Hps).
Qed.

Lemma admissible_false now p :
  admissible now p = false ->
  arrival p <= now -> 0 < remaining p -> enqueued p = true.
Proof.
  unfold admissible. intros H Ha Hr.
  destruct (enqueued p); [reflexivity|]. simpl in H.
  apply andb_false_iff in H as [H|H]; [apply Z.leb_gt in H | apply Z.ltb_ge in H]; lia.
Qed.

Lemma enqueueArrivals_settled {R} (push : nat -> Proc -> R -> R) (st : State R) :
  Forall (fun p => admissible (time st) p = false) (procs (enqueueArrivals push st)).
Proof.
  rewrite enqueueArrivals_procs. apply Forall_map, Forall_true. intros p.
  apply admit_mark_settled.
Qed.

Lemma enqueueArrivals_all_admitted {R} (push : nat -> Proc -> R -> R) (st : State R) :
  all_admitted (time st) (procs (enqueueArrivals push st)).
Proof.
  unfold all_admitted. eapply Forall_impl; [apply enqueueArrivals_settled|].
  intros p H. now apply admissible_false.
Qed.

(** X8. Admission is complete and idempotent: after [enqueueArrivals] every
    process with work whose arrival time has been reached is marked as
    admitted, and a second call in a row changes nothing, whatever the ready
    structure. *)
Theorem enqueueArrivals_idempotent {R} (push : nat -> Proc -> R -> R) (st : State R) :
  all_admitted (time st) (procs (enqueueArrivals push st))
  /\ enqueueArrivals push (enqueueArrivals push st) = enqueueArrivals push st.
Proof.
  destruct (enqueueArrivals_fields push st) as (Ht & _).
  pose proof (enqueueArrivals_settled push st) as Hall.
  split; [apply enqueueArrivals_all_admitted|].
  revert Ht Hall. generalize (enqueueArrivals push st). intros s1 Ht Hall.
  unfold enqueueArrivals. rewrite Ht.
  rewrite (enqueue_from_settled push _ _ 0%nat _ Hall).
  rewrite <- Ht. now destruct s1.
Qed.

Section Slices.
Context {R : Type}.
Variable push : nat -> Proc -> R -> R.
Variable view : list Proc -> R -> list string.
Variable idle_view : R -> list string.

Lemma exec_unit_log i p (st : State R) :
  time (exec_unit push view i p st) = time st + 1
  /\ exists e, trace (exec_unit push view i p st) = trace st ++ [e]
               /\ ev_cpu e = Some p /\ ev_event e = exec_label p
               /\ ev_time e = time st.
Proof.
  unfold exec_unit.
  match goal with |- context [enqueueArrivals push ?s] =>
    destruct (enqueueArrivals_fields push s) as (Ht & _ & Htr & _) end.
  rewrite Ht, Htr. cbn [time trace emit with_procs]. split; [reflexivity|].
  eexists. split; [reflexivity|]. auto.
Qed.

(** The log of a slice of [n] units. *)
Lemma run_for_units n : forall i p (st : State R),
  (i < length (procs st))%nat ->
  time (run_for push view n i p st) = time st + Z.of_nat n
  /\ (i < length (procs (run_for push view n i p st)))%nat
  /\ remaining (procs (run_for push view n i p st) !!! i)
     = remaining (procs st !!! i) - Z.of_nat n
  /\ exists units, trace (run_for push view n i p st) = trace st ++ units
                   /\ slice_units p (time st) n units.
Proof.
  induction n as [|n IH]; intros i p st Hi; cbn [run_for].
  - split; [lia|]. split; [exact Hi|]. split; [lia|].
    exists []. rewrite app_nil_r. split; [reflexivity|]. split; [reflexivity|].
    intros j e H. now rewrite lookup_nil in H.
  - destruct (exec_unit_remaining push view i p st Hi) as [Hi1 Hr1].
    destruct (exec_unit_log i p st) as (Ht1 & e & Htr1 & Hc & Hev & Hte).
    destruct (IH i p _ Hi1) as (Ht & Hi' & Hr & units & Htr & Hlen & Hu).
    split; [rewrite Ht, Ht1; lia|]. split; [exact Hi'|].
    split; [rewrite Hr, Hr1; lia|].
    exists (e :: units). split; [rewrite Htr, Htr1, <- app_assoc; reflexivity|].
    split; [simpl; now rewrite Hlen|].
    intros [|j] e' He'; simpl in He'.
    + injection He' as <-. repeat split; trivial. lia.
    + destruct (Hu j e' He') as (H1 & H2 & H3). repeat split; trivial.
      rewrite H3, Ht1. lia.
Qed.

(** [while (p.remaining > 0)] makes as many units as [p] has left. *)
Lemma run_to_completion_run_for n : forall i p (st : State R),
  (i < length (procs st))%nat ->
  remaining (procs st !!! i) = Z.of_nat n ->
  run_to_completion push view n i p st = run_for push view n i p st.
Proof.
  induction n as [|n IH]; intros i p st Hi Hrem; cbn [run_to_completion run_for];
    [reflexivity|].
  rewrite Hrem. destruct (Z.ltb_spec 0 (Z.of_nat (S n))) as [_|H]; [|lia].
  destruct (exec_unit_remaining push view i p st Hi) as [Hi1 Hr1].
  apply IH; [exact Hi1 | lia].
Qed.

Lemma idle_until_units fuel : forall jumpTo (st : State R),
  Z.of_nat fuel = Z.max 0 (jumpTo - time st) ->
  time (idle_until idle_view fuel jumpTo st) = Z.max (time st) jumpTo
  /\ procs (idle_until idle_view fuel jumpTo st) = procs st
  /\ ready (idle_until idle_view fuel jumpTo st) = ready st
  /\ exists units, trace (idle_until idle_view fuel jumpTo st) = trace st ++ units
                   /\ idle_units (idle_view (ready st)) (time st) fuel units.
Proof.
  induction fuel as [|fuel IH]; intros jumpTo st Hfuel; cbn [idle_until].
  - split; [lia|]. split; [reflexivity|]. split; [reflexivity|].
    exists []. rewrite app_nil_r. split; [reflexivity|]. split; [reflexivity|].
    intros j e H. now rewrite lookup_nil in H.
  - destruct (Z.ltb_spec (time st) jumpTo) as [Hlt|Hge]; [|lia].
    destruct (IH jumpTo (emit None (idle_view (ready st)) "idle" st))
      as (Ht & Hp & Hr & units & Htr & Hlen & Hu).
    { cbn [time emit]. lia. }
    cbn [time procs ready trace emit] in Ht, Hp, Hr, Htr, Hu.
    split; [rewrite Ht; lia|]. split; [exact Hp|]. split; [exact Hr|].
    eexists (_ :: units). split; [rewrite Htr, <- app_assoc; reflexivity|].
    split; [simpl; now rewrite Hlen|].
    intros [|j] e' He'; simpl in He'.
    + injection He' as <-. repeat split; trivial. simpl. lia.
    + destruct (Hu j e' He') as (H1 & H2 & H3 & H4). repeat split; trivial.
      rewrite H4. lia.
Qed.

(** X9. When nothing is ready, the simulator looks for the first process of
    [procs] that has work and has not been admitted.  Without one the loop is
    left.  With one, [next], the CPU idles for one trace entry per time unit
    until [next.arrival], admitting nobody on the way, and admission follows
    at that time. *)
Theorem idle_phase_waits_for_next (st : State R) :
  match find (fun p => negb (enqueued p) && (0 <? remaining p)) (procs st) with
  | None => idle_phase push idle_view st = (Break, st)
  | Some next =>
      exists waited units,
        idle_phase push idle_view st = (Continue, enqueueArrivals push waited)
        /\ time waited = Z.max (time st) (arrival next)
        /\ procs waited = procs st
        /\ ready waited = ready st
        /\ trace waited = trace st ++ units
        /\ idle_units (idle_view (ready st)) (time st)
                      (Z.to_nat (arrival next - time st)) units
  end.
Proof.
  unfold idle_phase. destruct (find _ (procs st)) as [next|]; [|reflexivity].
  destruct (idle_until_units (Z.to_nat (arrival next - time st)) (arrival next) st)
    as (Ht & Hp & Hr & units & Htr & Hu); [lia|].
  eexists _, units. split; [reflexivity|]. auto.
Qed.

End Slices.

(** * Selection without preemption: FCFS, SJF and Priority *)

Lemma run_to_completion_all {R} (push : nat -> Proc -> R -> R)
    (view : list Proc -> R -> list string) i p (st : State R) :
  (i < length (procs st))%nat ->
  run_to_completion push view (Z.to_nat (remaining (procs st !!! i))) i p st
  = run_for push view (Z.to_nat (remaining (procs st !!! i))) i p st.
Proof.
  intros Hi. destruct (Z_le_gt_dec (remaining (procs st !!! i)) 0) as [Hle|Hgt].
  - replace (Z.to_nat (remaining (procs st !!! i))) with 0%nat by lia. reflexivity.
  - apply run_to_completion_run_for; [exact Hi | lia].
Qed.

(** What [run_whole] leaves of the process at position [i]. *)
Lemma run_whole_spec {R} (push : nat -> Proc -> R -> R)
    (view : list Proc -> R -> list string) i p (st : State R) :
  (i < length (procs st))%nat ->
  let n := Z.to_nat (remaining (procs st !!! i)) in
  let st' := run_whole push view i p st in
  time st' = time st + Z.of_nat n
  /\ ready st' = ready (run_for push view n i p st)
  /\ (exists units, trace st' = trace st ++ units /\ slice_units p (time st) n units)
  /\ exists x', procs st' !! i = Some x'
                /\ remaining x' = remaining (procs st !!! i) - Z.of_nat n
                /\ completionTime x' = Some (time st').
Proof.
  intros Hi n st'. unfold st', run_whole. rewrite run_to_completion_all by exact Hi.
  fold n. destruct (run_for_units push view n i p st Hi) as (Ht & Hi' & Hr & Hu).
  cbn [time ready trace procs with_procs].
  split; [exact Ht|]. split; [reflexivity|]. split; [exact Hu|].
  destruct (lookup_lt_is_Some_2 _ i Hi') as [x1 Hx1].
  rewrite (list_lookup_total_correct _ _ _ Hx1) in Hr.
  exists (set_completion (time (run_for push view n i p st)) x1).
  split; [now rewrite list_lookup_alter_eq, Hx1|]. split; [exact Hr | reflexivity].
Qed.

(** X10. FCFS does not preempt: the process at the head of the queue, with [r > 0]
    units left, gets the next [r] units of the trace, completes at the end of
    the last of them, and the queue that is left consists of the processes
    that were waiting behind it, followed by those whose arrival time was
    reached while it ran. *)
Theorem fcfs_runs_to_completion (st : State (list string)) (p : string)
    (rest : list string) (i : nat) (x : Proc) :
  ready st = p :: rest ->
  find_index (fun y => String.eqb (pid y) p) (procs st) = Some i ->
  procs st !! i = Some x ->
  0 < remaining x ->
  exists st' units arrivals x',
    fcfs_dispatch st = Returned (Continue, st')
    /\ trace st' = trace st ++ units
    /\ slice_units p (time st) (Z.to_nat (remaining x)) units
    /\ time st' = time st + remaining x
    /\ procs st' !! i = Some x'
    /\ remaining x' = 0
    /\ completionTime x' = Some (time st + remaining x)
    /\ ready st' = rest ++ arrivals
    /\ (forall k y, k <> i -> procs st !! k = Some y ->
          arrives_within (time st) (time st + remaining x) y -> In (pid y) arrivals).
Proof.
  intros Hq Hfind Hx Hrem.
  unfold fcfs_dispatch, with_found. rewrite Hq. cbn [procs with_ready]. rewrite Hfind.
  set (st0 := with_procs (alter (set_start (time (with_ready rest st))) i (procs st))
                         (with_ready rest st)).
  assert (Hr0 : remaining (procs st0 !!! i) = remaining x).
  { unfold st0. cbn [procs with_procs].
    rewrite lookup_total_remaining_meta by reflexivity.
    now rewrite (list_lookup_total_correct _ _ _ Hx). }
  assert (Hi0 : (i < length (procs st0))%nat).
  { unfold st0. cbn [procs with_procs]. rewrite length_alter.
    eapply lookup_lt_Some, Hx. }
  destruct (run_whole_spec queue_push queue_view i p st0 Hi0)
    as (Ht & Hrd & (units & Htr & Hu) & x' & Hx' & Hrx' & Hcx').
  rewrite Hr0 in *.
  destruct (run_for_slice (Z.to_nat (remaining x)) i p st0 Hi0)
    as (_ & arrivals & _ & _ & _ & _ & _ & _ & Hq' & Hin & _).
  cbv zeta in Hq', Hin. rewrite Z2Nat.id in Ht, Hrx', Hin by lia.
  exists (run_whole queue_push queue_view i p st0), units, arrivals, x'.
  split; [reflexivity|]. split; [exact Htr|]. split; [exact Hu|].
  split; [exact Ht|]. split; [exact Hx'|]. split; [lia|].
  split; [now rewrite Hcx', Ht|]. split; [now rewrite Hrd, Hq'|].
  intros k y Hk Hy Hy'. apply (Hin k y Hk); [|exact Hy'].
  unfold st0. cbn [procs with_procs]. now rewrite list_lookup_alter_ne by congruence.
Qed.

Lemma fcfs_runs_to_completion_witness :
  exists st' units arrivals x',
    fcfs_dispatch fcfs_sample_state = Returned (Continue, st')
    /\ trace st' = trace fcfs_sample_state ++ units
    /\ slice_units "P1" (time fcfs_sample_state) (Z.to_nat 3) units
    /\ time st' = time fcfs_sample_state + 3
    /\ procs st' !! 0%nat = Some x'
    /\ remaining x' = 0
    /\ completionTime x' = Some (time fcfs_sample_state + 3)
    /\ ready st' = [] ++ arrivals
    /\ (forall k y, k <> 0%nat -> procs fcfs_sample_state !! k = Some y ->
          arrives_within (time fcfs_sample_state) (time fcfs_sample_state + 3) y ->
          In (pid y) arrivals).
Proof.
  apply (fcfs_runs_to_completion fcfs_sample_state "P1" [] 0
           (mkProc "P1" 0 3 0 3 None None true)).
  - reflexivity.
  - reflexivity.
  - reflexivity.
  - simpl. lia.
Defined.

(** The head of a sorted array goes before every element, for a comparator
    that orders. *)
Lemma js_sort_head {A} (cmp : A -> A -> Z) (l : list A) :
  (forall a, cmp a a <= 0) ->
  (forall a b, 0 < cmp a b -> cmp b a <= 0) ->
  (forall a b c, cmp a b <= 0 -> cmp b c <= 0 -> cmp a c <= 0) ->
  forall x rest, js_sort cmp l = x :: rest -> forall y, In y l -> cmp x y <= 0.
Proof.
  intros Hrefl Hanti Htrans. induction l as [|z l IH]; intros x rest Hs y Hy; [destruct Hy|].
  change (js_sort cmp (z :: l)) with (sort_insert cmp z (js_sort cmp l)) in Hs.
  destruct (js_sort cmp l) as [|h t] eqn:Hl.
  - pose proof (js_sort_perm cmp l) as Hperm. rewrite Hl in Hperm.
    apply Permutation_nil in Hperm. subst l. simpl in Hs. injection Hs as <- _.
    destruct Hy as [<-|[]]. apply Hrefl.
  - cbn [sort_insert] in Hs. destruct (Z.ltb_spec 0 (cmp z h)) as [Hlt|Hle].
    + injection Hs as <- _. destruct Hy as [<-|Hy].
      * now apply Hanti.
      * now apply (IH h t).
    + injection Hs as <- _. destruct Hy as [<-|Hy]; [apply Hrefl|].
      apply Htrans with h; [exact Hle|]. now apply (IH h t).
Qed.

Lemma by_remaining_le a b : by_remaining a b <= 0 <-> shorter_or_earlier a b.
Proof.
  unfold by_remaining, or_else, shorter_or_earlier.
  destruct (Z.eqb_spec (remaining a - remaining b) 0); lia.
Qed.

Lemma by_priority_le a b : by_priority a b <= 0 <-> more_urgent a b.
Proof.
  unfold by_priority, or_else, more_urgent.
  destruct (Z.eqb_spec (priority a - priority b) 0) as [Hp|Hp]; cbv beta iota.
  - destruct (Z.eqb_spec (arrival a - arrival b) 0); lia.
  - destruct (Z.eqb_spec (priority a - priority b) 0); lia.
Qed.

Lemma by_remaining_orders :
  (forall a, by_remaining a a <= 0)
  /\ (forall a b, 0 < by_remaining a b -> by_remaining b a <= 0)
  /\ (forall a b c, by_remaining a b <= 0 -> by_remaining b c <= 0 ->
                    by_remaining a c <= 0).
Proof.
  split; [|split].
  - intros a. apply by_remaining_le. unfold shorter_or_earlier. lia.
  - intros a b H. apply by_remaining_le.
    assert (~ shorter_or_earlier a b) by (rewrite <- by_remaining_le; lia).
    unfold shorter_or_earlier in *. lia.
  - intros a b c. rewrite !by_remaining_le. unfold shorter_or_earlier. lia.
Qed.

Lemma by_priority_orders :
  (forall a, by_priority a a <= 0)
  /\ (forall a b, 0 < by_priority a b -> by_priority b a <= 0)
  /\ (forall a b c, by_priority a b <= 0 -> by_priority b c <= 0 ->
                    by_priority a c <= 0).
Proof.
  split; [|split].
  - intros a. apply by_priority_le. unfold more_urgent. lia.
  - intros a b H. apply by_priority_le.
    assert (~ more_urgent a b) by (rewrite <- by_priority_le; lia).
    unfold more_urgent in *. lia.
  - intros a b c. rewrite !by_priority_le. unfold more_urgent. lia.
Qed.

(** What SJF and Priority do with a ready list that is not empty. *)
Lemma pick_dispatch_spec (cmp : Proc -> Proc -> Z) (st : State (list nat)) :
  (forall a, cmp a a <= 0) ->
  (forall a b, 0 < cmp a b -> cmp b a <= 0) ->
  (forall a b c, cmp a b <= 0 -> cmp b c <= 0 -> cmp a c <= 0) ->
  ready st <> [] ->
  Forall (fun j => (j < length (procs st))%nat) (ready st) ->
  exists i rest st' units x',
    pick_dispatch cmp st = Returned (Continue, st')
    /\ Permutation (i :: rest) (ready st)
    /\ (forall j, In j (ready st) -> cmp (procs st !!! i) (procs st !!! j) <= 0)
    /\ trace st' = trace st ++ units
    /\ slice_units (pid (procs st !!! i)) (time st)
                   (Z.to_nat (remaining (procs st !!! i))) units
    /\ procs st' !! i = Some x'
    /\ remaining x' = Z.min 0 (remaining (procs st !!! i))
    /\ completionTime x' = Some (time st').
Proof.
  intros Hrefl Hanti Htrans Hne Hok. unfold pick_dispatch.
  destruct (ready st) as [|i0 rest0] eqn:Hq; [congruence|]. clear Hne.
  set (cmp' := fun a b => cmp (procs st !!! a) (procs st !!! b)).
  pose proof (js_sort_perm cmp' (i0 :: rest0)) as Hperm.
  destruct (js_sort cmp' (i0 :: rest0)) as [|i rest] eqn:Hs.
  { apply Permutation_nil in Hperm. discriminate. }
  assert (Hhead : forall j, In j (i0 :: rest0) -> cmp' i j <= 0).
  { apply (js_sort_head cmp' (i0 :: rest0)) with rest; unfold cmp'; eauto. }
  assert (Hi : (i < length (procs st))%nat).
  { rewrite <- Hperm in Hok. now inversion Hok. }
  set (st1 := mkState (alter (set_start (time st)) i (procs st)) (time st) rest
                      (history st) (trace st)).
  assert (Hi1 : (i < length (procs st1))%nat).
  { unfold st1. cbn [procs]. now rewrite length_alter. }
  assert (Hr1 : remaining (procs st1 !!! i) = remaining (procs st !!! i)).
  { unfold st1. cbn [procs]. now rewrite lookup_total_remaining_meta by reflexivity. }
  destruct (run_whole_spec list_push list_view i (pid (procs st !!! i)) st1 Hi1)
    as (Ht & _ & (units & Htr & Hu) & x' & Hx' & Hrx' & Hcx').
  rewrite Hr1 in *.
  exists i, rest, (run_whole list_push list_view i (pid (procs st !!! i)) st1), units, x'.
  split; [reflexivity|]. split; [exact Hperm|]. split; [exact Hhead|].
  split; [exact Htr|]. split; [exact Hu|]. split; [exact Hx'|].
  split; [lia | exact Hcx'].
Qed.

(** X11. SJF picks, among the ready processes, one with the least remaining time
    and, among those, with the earliest arrival, and runs it to completion
    without preemption: the next units of the trace, as many as it has
    remaining, are all its own. *)
Theorem sjf_picks_shortest (st : State (list nat)) :
  ready st <> [] ->
  Forall (fun j => (j < length (procs st))%nat) (ready st) ->
  exists i rest st' units x',
    pick_dispatch by_remaining st = Returned (Continue, st')
    /\ Permutation (i :: rest) (ready st)
    /\ (forall j, In j (ready st) ->
          shorter_or_earlier (procs st !!! i) (procs st !!! j))
    /\ trace st' = trace st ++ units
    /\ slice_units (pid (procs st !!! i)) (time st)
                   (Z.to_nat (remaining (procs st !!! i))) units
    /\ procs st' !! i = Some x'
    /\ remaining x' = Z.min 0 (remaining (procs st !!! i))
    /\ completionTime x' = Some (time st').
Proof.
  intros Hne Hok. destruct by_remaining_orders as (H1 & H2 & H3).
  destruct (pick_dispatch_spec by_remaining st H1 H2 H3 Hne Hok)
    as (i & rest & st' & units & x' & Hd & Hp & Hmin & Hrest).
  exists i, rest, st', units, x'. split; [exact Hd|]. split; [exact Hp|].
  split; [|exact Hrest]. intros j Hj. apply by_remaining_le. now apply Hmin.
Qed.

Lemma sjf_picks_shortest_witness :
  exists i rest st' units x',
    pick_dispatch by_remaining pick_sample_state = Returned (Continue, st')
    /\ Permutation (i :: rest) (ready pick_sample_state)
    /\ (forall j, In j (ready pick_sample_state) ->
          shorter_or_earlier (procs pick_sample_state !!! i)
                             (procs pick_sample_state !!! j))
    /\ trace st' = trace pick_sample_state ++ units
    /\ slice_units (pid (procs pick_sample_state !!! i)) (time pick_sample_state)
                   (Z.to_nat (remaining (procs pick_sample_state !!! i))) units
    /\ procs st' !! i = Some x'
    /\ remaining x' = Z.min 0 (remaining (procs pick_sample_state !!! i))
    /\ completionTime x' = Some (time st').
Proof.
  apply (sjf_picks_shortest pick_sample_state).
  - discriminate.
  - repeat constructor.
Defined.

(** X12. Priority picks, among the ready processes, one with the lowest priority
    value, then the earliest arrival, then the shortest burst, and runs it to
    completion without preemption. *)
Theorem priority_picks_most_urgent (st : State (list nat)) :
  ready st <> [] ->
  Forall (fun j => (j < length (procs st))%nat) (ready st) ->
  exists i rest st' units x',
    pick_dispatch by_priority st = Returned (Continue, st')
    /\ Permutation (i :: rest) (ready st)
    /\ (forall j, In j (ready st) -> more_urgent (procs st !!! i) (procs st !!! j))
    /\ trace st' = trace st ++ units
    /\ slice_units (pid (procs st !!! i)) (time st)
                   (Z.to_nat (remaining (procs st !!! i))) units
    /\ procs st' !! i = Some x'
    /\ remaining x' = Z.min 0 (remaining (procs st !!! i))
    /\ completionTime x' = Some (time st').
Proof.
  intros Hne Hok. destruct by_priority_orders as (H1 & H2 & H3).
  destruct (pick_dispatch_spec by_priority st H1 H2 H3 Hne Hok)
    as (i & rest & st' & units & x' & Hd & Hp & Hmin & Hrest).
  exists i, rest, st', units, x'. split; [exact Hd|]. split; [exact Hp|].
  split; [|exact Hrest]. intros j Hj. apply by_priority_le. now apply Hmin.
Qed.

Lemma priority_picks_most_urgent_witness :
  exists i rest st' units x',
    pick_dispatch by_priority pick_sample_state = Returned (Continue, st')
    /\ Permutation (i :: rest) (ready pick_sample_state)
    /\ (forall j, In j (ready pick_sample_state) ->
          more_urgent (procs pick_sample_state !!! i) (procs pick_sample_state !!! j))
    /\ trace st' = trace pick_sample_state ++ units
    /\ slice_units (pid (procs pick_sample_state !!! i)) (time pick_sample_state)
                   (Z.to_nat (remaining (procs pick_sample_state !!! i))) units
    /\ procs st' !! i = Some x'
    /\ remaining x' = Z.min 0 (remaining (procs pick_sample_state !!! i))
    /\ completionTime x' = Some (time st').
Proof.
  apply (priority_picks_most_urgent pick_sample_state).
  - discriminate.
  - repeat constructor.
Defined.

(** * What every run leaves in its log *)

Lemma core_descriptor ps qs :
  map core ps = map core qs -> map descriptor_of ps = map descriptor_of qs.
Proof.
  revert qs. induction ps as [|p ps IH]; intros [|q qs] H; try discriminate H;
    [reflexivity|].
  simpl in H. injection H as Hpid Harr Hbur Hpri _ Htl.
  simpl. rewrite (IH qs Htl). unfold descriptor_of. now rewrite Hpid, Harr, Hbur, Hpri.
Qed.

Lemma alter_descriptors (f : Proc -> Proc) (i : nat) (ps : list Proc) :
  (forall p, descriptor_of (f p) = descriptor_of p) ->
  map descriptor_of (alter f i ps) = map descriptor_of ps.
Proof.
  intros Hf. revert i. induction ps as [|p ps IH]; intros [|i]; simpl; trivial.
  - now rewrite Hf.
  - f_equal. apply IH.
Qed.

Lemma snapshot_descriptors t cpu ps rd :
  map ps_descriptor (snap_procs (snapshotState t cpu ps rd)) = map descriptor_of ps.
Proof. simpl. unfold makeProcessState. now rewrite map_map. Qed.

Lemma descriptor_pids ps : map d_pid (map descriptor_of ps) = map pid ps.
Proof. now rewrite map_map. Qed.

Lemma prim_about ds st st' : prim st st' -> log_about ds st -> log_about ds st'.
Proof.
  intros [st0 ps H | st0 rd ev | st0 i p rd ev H] (Hd & Hh & Ht).
  - split; [|split]; cbn [procs history trace with_procs]; trivial.
    now rewrite (core_descriptor _ _ H).
  - split; [|split]; cbn [procs history trace emit]; trivial.
    + apply Forall_app. split; [exact Hh|]. constructor; [|constructor].
      rewrite snapshot_descriptors. split; [exact Hd | discriminate].
    + apply Forall_app. split; [exact Ht|]. constructor; [|constructor]. discriminate.
  - assert (Hin : In p (map d_pid ds)).
    { rewrite <- Hd, descriptor_pids. apply list_elem_of_In.
      eapply list_elem_of_lookup_2, H. }
    split; [|split]; cbn [procs history trace emit with_procs].
    + now rewrite alter_descriptors.
    + apply Forall_app. split; [exact Hh|]. constructor; [|constructor].
      rewrite snapshot_descriptors, alter_descriptors by reflexivity.
      split; [exact Hd|]. simpl. now intros q [= <-].
    + apply Forall_app. split; [exact Ht|]. constructor; [|constructor].
      simpl. now intros q [= <-].
Qed.

Lemma steps_about ds st st' : rtc prim st st' -> log_about ds st -> log_about ds st'.
Proof. induction 1 as [|a b c Hab _ IH]; eauto using prim_about. Qed.

Lemma init_descriptors (ds : list Descriptor) :
  map descriptor_of (map init_proc ds) = ds.
Proof.
  rewrite map_map. induction ds as [|[] ds IH]; simpl; [reflexivity|]. now rewrite IH.
Qed.

(** X13. Every snapshot of a run lists all the processes that were given, each
    once and with its pid, arrival, burst and priority as given, in one and
    the same order, and the CPU occupants of the snapshots and of the trace
    are pids of these processes. *)
Theorem log_lists_the_given_processes (algorithm : string) (ps : list ProcIn)
    (o : Options) :
  exists r ds,
    simulate algorithm ps o = Returned r
    /\ Permutation ds (map normalize ps)
    /\ Forall (fun s => map ps_descriptor (snap_procs s) = ds
                        /\ forall p, snap_cpu s = Some p -> In p (map in_pid ps))
              (historySnapshots r)
    /\ Forall (fun e => forall p, ev_cpu e = Some p -> In p (map in_pid ps))
              (res_trace r).
Proof.
  destruct (simulate_runs algorithm ps o) as (ps0 & Hperm & st & -> & Hsteps).
  exists (finish st), (map descriptor_of ps0). split; [reflexivity|].
  assert (Hds : Permutation (map descriptor_of ps0) (map normalize ps)).
  { rewrite Hperm. now rewrite init_descriptors. }
  split; [exact Hds|].
  assert (Hpids : forall p, In p (map d_pid (map descriptor_of ps0)) -> In p (map in_pid ps)).
  { intros p Hp. rewrite Hds, map_map in Hp. exact Hp. }
  destruct (steps_about (map descriptor_of ps0) _ _ Hsteps) as (_ & Hh & Ht).
  { split; [reflexivity|]. split; constructor. }
  cbn [historySnapshots res_trace finish]. split.
  - eapply Forall_impl; [exact Hh|]. intros s [H1 H2]. split; [exact H1|].
    intros p Hp. apply Hpids. now apply H2.
  - eapply Forall_impl; [exact Ht|]. intros e H p Hp. apply Hpids. now apply H.
Qed.

(** ** Units of the trace and work done *)

(** The remaining times after [h], one unit less per unit of [p]. *)
Lemma replays_count pids bursts (h : list Snapshot) : forall rems k p r,
  NoDup pids ->
  replays pids bursts rems h -> pids !! k = Some p -> rems !! k = Some r ->
  last_remaining rems h !! k
  = Some (r - Z.of_nat (units_of p (map snap_cpu h))).
Proof.
  induction h as [|s h IH]; intros rems k p r Hnd Hr Hk Hrk.
  - simpl. rewrite Hrk. f_equal. unfold units_of. simpl. lia.
  - destruct Hr as (_ & _ & He & Hr).
    change (last_remaining rems (s :: h)) with (last_remaining (snap_remaining s) h).
    destruct (cpu_is p (snap_cpu s)) eqn:Hc.
    + assert (Hcpu : snap_cpu s = Some p).
      { unfold cpu_is in Hc. destruct (snap_cpu s) as [q|]; [|discriminate].
        apply String.eqb_eq in Hc. now subst. }
      assert (Hsk : snap_remaining s !! k = Some (r - 1)).
      { rewrite He, Hcpu. cbn [unit_effect].
        rewrite (find_index_NoDup pids k p Hnd Hk), list_lookup_alter_eq, Hrk.
        reflexivity. }
      rewrite (IH _ k p (r - 1) Hnd Hr Hk Hsk). f_equal.
      unfold units_of. cbn [map List.filter]. rewrite Hc. simpl length. lia.
    + assert (Hcpu : snap_cpu s <> Some p).
      { intros H. rewrite H in Hc. simpl in Hc. now rewrite String.eqb_refl in Hc. }
      assert (Hsk : snap_remaining s !! k = Some r).
      { rewrite He, (unit_effect_other pids _ _ k p Hk Hcpu). exact Hrk. }
      rewrite (IH _ k p r Hnd Hr Hk Hsk). f_equal.
      unfold units_of. cbn [map List.filter]. now rewrite Hc.
Qed.

Lemma aligned_cpus tr h : aligned tr h -> map ev_cpu tr = map snap_cpu h.
Proof.
  intros [Hlen Hall]. apply list_eq. intros i. rewrite !list_lookup_fmap.
  destruct (tr !! i) as [e|] eqn:He.
  - destruct (lookup_lt_is_Some_2 h i) as [s Hs].
    { rewrite <- Hlen. eapply lookup_lt_Some, He. }
    rewrite Hs. simpl. f_equal. now destruct (Hall i e s He Hs) as (_ & _ & Hc & _).
  - apply lookup_ge_None in He. rewrite Hlen in He.
    apply lookup_ge_None in He. now rewrite He.
Qed.

(** X14. In a run over processes with distinct pids, the trace accounts for the
    work: the number of units in which a process has the CPU is its burst
    less what it has remaining at the end, so a process that completes has
    had the CPU for exactly its burst. *)
Theorem trace_accounts_for_work (algorithm : string) (ps : list ProcIn)
    (o : Options) :
  NoDup (map in_pid ps) ->
  exists r, simulate algorithm ps o = Returned r
    /\ Forall (fun f => Z.of_nat (units_of (f_pid f) (map ev_cpu (res_trace r)))
                        = f_burst f - f_remaining f)
              (processes (stats r)).
Proof.
  intros Hnd.
  destruct (simulate_runs algorithm ps o) as (ps0 & Hperm & st & -> & Hsteps).
  exists (finish st). split; [reflexivity|].
  set (pids := map pid ps0). set (bursts := map burst ps0).
  assert (Hpids : NoDup pids).
  { unfold pids. rewrite Hperm, init_pids. exact Hnd. }
  destruct (steps_replays pids bursts Hpids _ _ Hsteps (start_replays ps0 _ Hperm))
    as (Hp & Hb & Hr & Hl).
  destruct (steps_aligned _ _ Hsteps (start_aligned ps0)) as [_ Hal].
  cbn [res_trace finish stats processes computeStats].
  rewrite (aligned_cpus _ _ Hal).
  apply List.Forall_forall. intros f Hf.
  apply in_map_iff in Hf as (y & <- & Hy). cbn [f_pid f_burst f_remaining finalize_proc].
  apply list_elem_of_In, list_elem_of_lookup in Hy as [k Hk].
  assert (Hpk : pids !! k = Some (pid y)) by now rewrite <- Hp, list_lookup_fmap, Hk.
  assert (Hbk : bursts !! k = Some (burst y)) by now rewrite <- Hb, list_lookup_fmap, Hk.
  pose proof (replays_count pids bursts _ _ k (pid y) (burst y) Hpids Hr Hpk Hbk) as Hc.
  rewrite <- Hl, list_lookup_fmap, Hk in Hc. simpl in Hc. injection Hc as Hc. lia.
Qed.

Lemma trace_accounts_for_work_witness :
  exists r, simulate "RR" one_process no_options = Returned r
    /\ Forall (fun f => Z.of_nat (units_of (f_pid f) (map ev_cpu (res_trace r)))
                        = f_burst f - f_remaining f)
              (processes (stats r)).
Proof.
  apply (trace_accounts_for_work "RR" one_process no_options).
  simpl. apply NoDup_singleton.
Defined.

(** * The books of the simulators *)

Lemma proc_ok_later now now' y : now <= now' -> proc_ok now y -> proc_ok now' y.
Proof.
  intros Hle (H1 & H2 & H3 & H4 & H5). split; [exact H1|]. split; [exact H2|].
  split; [|split].
  - intros He. destruct (H3 He) as (A & B & C & D). repeat split; trivial; lia.
  - intros s Hs. destruct (H4 s Hs). lia.
  - intros c Hc. destruct (H5 c Hc) as (A & B & C). repeat split; trivial; lia.
Qed.

Lemma proc_ok_admit now y : proc_ok now y -> proc_ok now (admit_mark now y).
Proof.
  intros (H1 & H2 & H3 & H4 & H5). unfold admit_mark.
  destruct (admissible now y) eqn:Ha;
    [|exact (conj H1 (conj H2 (conj H3 (conj H4 H5))))].
  unfold admissible in Ha. apply andb_true_iff in Ha as [Ha Hr].
  apply andb_true_iff in Ha as [Hn Harr].
  apply negb_true_iff in Hn. apply Z.leb_le in Harr. apply Z.ltb_lt in Hr.
  destruct (H2 Hn) as (Hb & Hs & Hc).
  split; [exact H1|]. split; [discriminate|]. split; [|split]; cbn.
  - intros _. repeat split; trivial; lia.
  - intros s Hs'. congruence.
  - intros c Hc'. congruence.
Qed.

Lemma proc_ok_dec now y s :
  proc_ok now y -> enqueued y = true -> 0 < remaining y -> startTime y = Some s ->
  proc_ok (now + 1) (dec_remaining y).
Proof.
  intros (H1 & H2 & H3 & H4 & H5) He Hr Hs.
  destruct (H3 He) as (A & B & C & D). destruct (H4 s Hs) as [E F].
  split; [simpl; lia|]. split; [simpl; congruence|]. split; [|split]; cbn.
  - intros _. repeat split; trivial; try lia. congruence.
  - intros s' Hs'. assert (s' = s) as -> by congruence. lia.
  - intros c Hc. destruct (H5 c Hc). lia.
Qed.

Lemma proc_ok_start now y :
  proc_ok now y -> enqueued y = true -> proc_ok now (set_start now y).
Proof.
  intros (H1 & H2 & H3 & H4 & H5) He. destruct (H3 He) as (A & B & C & D).
  split; [exact H1|]. split; [simpl; congruence|]. split; [|split]; cbn.
  - intros _. repeat split; trivial. now destruct (startTime y).
  - intros s Hs. destruct (startTime y) as [s0|] eqn:Hs0.
    + apply H4. congruence.
    + injection Hs as <-.
      assert (remaining y = burst y).
      { destruct (Z_lt_ge_dec (remaining y) (burst y)) as [Hlt|Hge]; [|lia].
        now destruct (D Hlt). }
      lia.
  - intros c Hc. destruct (H5 c Hc) as (P & Q & s & Hs & Hsc).
    repeat split; trivial. exists s. rewrite Hs. auto.
Qed.

Lemma proc_ok_completion now y :
  proc_ok now y -> enqueued y = true -> remaining y <= 0 ->
  proc_ok now (set_completion now y).
Proof.
  intros (H1 & H2 & H3 & H4 & H5) He Hr. destruct (H3 He) as (A & B & C & D).
  split; [exact H1|]. split; [simpl; congruence|]. split; [|split]; cbn.
  - intros _. auto.
  - exact H4.
  - intros c [= <-]. split; [lia|]. split; [lia|].
    destruct (startTime y) as [s|] eqn:Hs.
    + exists s. split; [reflexivity|]. destruct (H4 s eq_refl). lia.
    + exfalso. apply D; [lia | reflexivity].
Qed.

Lemma Forall_alter_at {A} (P Q : A -> Prop) (f : A -> A) (i : nat) (l : list A) y :
  l !! i = Some y -> Forall P l -> (forall z, P z -> Q z) -> Q (f y) ->
  Forall Q (alter f i l).
Proof.
  revert i. induction l as [|x l IH]; intros [|i] Hy Hall HPQ Hfy; simpl in *;
    try discriminate.
  - injection Hy as ->. inversion Hall; subst. constructor; [exact Hfy|].
    eapply Forall_impl; eauto.
  - inversion Hall; subst. constructor; [auto|]. now apply IH.
Qed.

Lemma lookup_alter_cases {A} (f : A -> A) (i k : nat) (l : list A) (z' : A) :
  alter f i l !! k = Some z' ->
  (k = i /\ exists z, l !! i = Some z /\ z' = f z) \/ (k <> i /\ l !! k = Some z').
Proof.
  intros H. destruct (decide (i = k)) as [->|Hne].
  - left. split; [reflexivity|]. rewrite list_lookup_alter_eq in H.
    destruct (l !! k) as [z|]; [|discriminate]. injection H as <-. eauto.
  - right. rewrite list_lookup_alter_ne in H by exact Hne. split; [congruence | exact H].
Qed.

Section Books.
Context {R : Type}.
Variable push : nat -> Proc -> R -> R.
Variable view : list Proc -> R -> list string.
Variable idle_view : R -> list string.
Variable named : nat -> Proc -> R -> Prop.

Hypothesis named_pid : forall i y y' r, pid y' = pid y -> named i y r -> named i y' r.
Hypothesis named_push_old : forall i y j p r, named i y r -> named i y (push j p r).
Hypothesis named_push_new : forall j p r, named j p (push j p r).
Hypothesis named_push_inv : forall i y j p r,
  named i y (push j p r) -> named i y r \/ i = j \/ pid y = pid p.

Lemma enqueue_from_named now (ps : list Proc) : forall i r,
  (forall k y, named k y r -> named k y (snd (enqueue_from push now i ps r)))
  /\ (forall j p, ps !! j = Some p -> admissible now p = true ->
        named (i + j) p (snd (enqueue_from push now i ps r)))
  /\ (forall k y, named k y (snd (enqueue_from push now i ps r)) ->
        named k y r
        \/ exists j p, ps !! j = Some p /\ admissible now p = true
                       /\ (k = (i + j)%nat \/ pid y = pid p)).
Proof.
  induction ps as [|p ps IH]; intros i r.
  - simpl. split; [auto|]. split; [|auto]. intros j q H. now rewrite lookup_nil in H.
  - cbn [enqueue_from].
    change (negb (enqueued p) && (arrival p <=? now) && (0 <? remaining p))
      with (admissible now p).
    destruct (admissible now p) eqn:Hadm.
    + destruct (IH (S i) (push i p r)) as (A & B & C).
      destruct (enqueue_from push now (S i) ps (push i p r)) as [qs r'].
      cbn [snd] in *. split; [|split].
      * intros k y H. apply A. now apply named_push_old.
      * intros [|j] q Hq Hq'; simpl in Hq.
        -- injection Hq as <-. rewrite Nat.add_0_r. apply A, named_push_new.
        -- replace (i + S j)%nat with (S i + j)%nat by lia. now apply B.
      * intros k y H. destruct (C k y H) as [H1|(j & q & Hq & Hq' & Hk)].
        -- destruct (named_push_inv _ _ _ _ _ H1) as [H2|[H2|H2]]; [now left| |].
           ++ right. exists 0%nat, p. simpl. rewrite Nat.add_0_r. auto.
           ++ right. exists 0%nat, p. simpl. auto.
        -- right. exists (S j), q. simpl. split; [exact Hq|]. split; [exact Hq'|].
           destruct Hk as [->|Hk]; [left; lia | now right].
    + destruct (IH (S i) r) as (A & B & C).
      destruct (enqueue_from push now (S i) ps r) as [qs r'].
      cbn [snd] in *. split; [exact A|]. split.
      * intros [|j] q Hq Hq'; simpl in Hq.
        -- injection Hq as <-. congruence.
        -- replace (i + S j)%nat with (S i + j)%nat by lia. now apply B.
      * intros k y H. destruct (C k y H) as [H1|(j & q & Hq & Hq' & Hk)]; [now left|].
        right. exists (S j), q. simpl. split; [exact Hq|]. split; [exact Hq'|].
        destruct Hk as [->|Hk]; [left; lia | now right].
Qed.

Lemma enqueueArrivals_ready (st : State R) :
  ready (enqueueArrivals push st)
  = snd (enqueue_from push (time st) 0 (procs st) (ready st)).
Proof.
  unfold enqueueArrivals.
  now destruct (enqueue_from push (time st) 0 (procs st) (ready st)).
Qed.

Lemma NoDup_pid_index (ps : list Proc) i j y z :
  NoDup (map pid ps) -> ps !! i = Some y -> ps !! j = Some z -> pid y = pid z -> i = j.
Proof.
  intros Hnd Hi Hj Heq. eapply NoDup_lookup; [exact Hnd | |];
    rewrite list_lookup_fmap; [rewrite Hi | rewrite Hj]; simpl; [reflexivity|].
  now rewrite Heq.
Qed.

Lemma books_enqueue run (st : State R) :
  books named run st -> books named run (enqueueArrivals push st).
Proof.
  intros (Hnd & Hok & Ha & Hb).
  destruct (enqueueArrivals_fields push st) as (Ht & _ & _ & _).
  pose proof (enqueueArrivals_procs push st) as Hp.
  pose proof (enqueueArrivals_ready st) as Hr.
  destruct (enqueue_from_named (time st) (procs st) 0 (ready st)) as (A & B & C).
  unfold books. rewrite Hp, Hr, Ht. split; [now rewrite admit_mark_pids|].
  split; [|split].
  - apply Forall_map. eapply Forall_impl; [exact Hok|]. intros y. apply proc_ok_admit.
  - intros i y' Hy' Hn. rewrite list_lookup_fmap in Hy'.
    destruct (procs st !! i) as [y|] eqn:Hy; [|discriminate]. injection Hy' as <-.
    destruct (admit_mark_fields (time st) y) as [Hpid _].
    assert (Hsame : admissible (time st) y = true -> enqueued (admit_mark (time st) y) = true).
    { intros Hadm. unfold admit_mark. now rewrite Hadm. }
    destruct (C i _ Hn) as [H1|(j & p & Hj & Hadm & Hk)].
    + apply (named_pid _ _ y) in H1; [|now rewrite Hpid].
      pose proof (Ha i y Hy H1) as He. unfold admit_mark.
      now destruct (admissible (time st) y).
    + assert (i = j) as ->.
      { destruct Hk as [->|Hk]; [reflexivity|].
        apply (NoDup_pid_index (procs st) i j y p Hnd Hy Hj). congruence. }
      assert (y = p) as -> by congruence. now apply Hsame.
  - intros i y' Hy' He Hrem. rewrite list_lookup_fmap in Hy'.
    destruct (procs st !! i) as [y|] eqn:Hy; [|discriminate]. injection Hy' as <-.
    destruct (admit_mark_fields (time st) y) as [Hpid _].
    rewrite admit_mark_remaining in Hrem.
    destruct (admissible (time st) y) eqn:Hadm.
    + right. apply (named_pid _ y); [exact Hpid|]. apply (B i y Hy Hadm).
    + unfold admit_mark in He. rewrite Hadm in He.
      destruct (Hb i y Hy He Hrem) as [H|H]; [now left|].
      right. apply (named_pid _ y); [exact Hpid|]. now apply A.
Qed.

Lemma books_emit run cpu rd ev (st : State R) :
  books named run st -> books named run (emit cpu rd ev st).
Proof.
  intros (Hnd & Hok & Ha & Hb). split; [exact Hnd|]. split; [|split; assumption].
  cbn [procs time emit]. eapply Forall_impl; [exact Hok|].
  intros y. apply proc_ok_later. lia.
Qed.

(** A change of the process at position [i] that keeps its pid and its
    admission and does not add work. *)
Lemma books_alter run (f : Proc -> Proc) i y (st : State R) :
  books named run st ->
  procs st !! i = Some y ->
  (forall z, pid (f z) = pid z /\ enqueued (f z) = enqueued z
             /\ remaining (f z) <= remaining z) ->
  proc_ok (time st) (f y) ->
  books named run (with_procs (alter f i (procs st)) st).
Proof.
  intros (Hnd & Hok & Ha & Hb) Hy Hf Hfy.
  split; [|split; [|split]]; cbn [procs time ready with_procs].
  - rewrite alter_pids; [exact Hnd | intros z; apply Hf].
  - eapply Forall_alter_at; eauto.
  - intros k z' Hz' Hn.
    destruct (lookup_alter_cases _ _ _ _ _ Hz') as [(-> & z & Hz & ->)|(Hne & Hz)].
    + destruct (Hf z) as (H1 & H2 & _). rewrite H2. apply (Ha i z Hz).
      now apply (named_pid _ (f z)).
    + now apply (Ha k z').
  - intros k z' Hz' He Hrem.
    destruct (lookup_alter_cases _ _ _ _ _ Hz') as [(-> & z & Hz & ->)|(Hne & Hz)].
    + destruct (Hf z) as (H1 & H2 & H3). rewrite H2 in He.
      destruct (Hb i z Hz He) as [H|H]; [lia | now left|].
      right. now apply (named_pid _ z).
    + now apply Hb.
Qed.

(** The decrement and the log entry of a unit of the running process. *)
Lemma books_exec_step i cpu rd ev n (st : State R) :
  books named (Some i) st -> running i n st -> 0 < n ->
  books named (Some i)
        (emit cpu rd ev (with_procs (alter dec_remaining i (procs st)) st)).
Proof.
  intros Hb (y & s & Hy & He & Hs & Hn) Hpos.
  destruct Hb as (Hnd & Hok & Ha & Hbb).
  split; [|split; [|split]]; cbn [procs time ready emit with_procs].
  - now rewrite alter_pids.
  - eapply Forall_alter_at; [exact Hy | exact Hok | |].
    + intros z. apply proc_ok_later. lia.
    + apply (proc_ok_dec _ _ s); trivial; [|lia].
      rewrite List.Forall_forall in Hok.
      apply Hok. apply list_elem_of_In. eapply list_elem_of_lookup_2, Hy.
  - intros k z' Hz' Hnm.
    destruct (lookup_alter_cases _ _ _ _ _ Hz') as [(-> & z & Hz & ->)|(Hne & Hz)].
    + assert (z = y) as -> by congruence. exact He.
    + now apply (Ha k z').
  - intros k z' Hz' Hez Hrem.
    destruct (lookup_alter_cases _ _ _ _ _ Hz') as [(-> & z & Hz & ->)|(Hne & Hz)].
    + now left.
    + now apply Hbb.
Qed.

Lemma books_exec_unit i p n (st : State R) :
  books named (Some i) st -> running i n st -> 0 < n ->
  books named (Some i) (exec_unit push view i p st)
  /\ running i (n - 1) (exec_unit push view i p st).
Proof.
  intros Hb Hr Hpos. pose proof (books_exec_step i (Some p)
    (view (procs (with_procs (alter dec_remaining i (procs st)) st))
          (ready (with_procs (alter dec_remaining i (procs st)) st)))
    (exec_label p) n st Hb Hr Hpos) as H1.
  destruct Hr as (y & s & Hy & He & Hs & Hn).
  unfold exec_unit. split; [now apply books_enqueue|].
  exists (dec_remaining y), s. rewrite enqueueArrivals_procs.
  cbn [procs time emit with_procs].
  split; [|simpl; repeat split; trivial; lia].
  rewrite list_lookup_fmap, list_lookup_alter_eq, Hy. simpl. f_equal.
  unfold admit_mark, admissible. simpl. now rewrite He.
Qed.

Lemma books_run_for n : forall i p m (st : State R),
  books named (Some i) st -> running i m st -> Z.of_nat n <= m ->
  books named (Some i) (run_for push view n i p st)
  /\ running i (m - Z.of_nat n) (run_for push view n i p st).
Proof.
  induction n as [|n IH]; intros i p m st Hb Hr Hm; cbn [run_for].
  - split; [exact Hb|]. now replace (m - Z.of_nat 0) with m by lia.
  - destruct (books_exec_unit i p m st Hb Hr) as [Hb1 Hr1]; [lia|].
    destruct (IH i p (m - 1) _ Hb1 Hr1) as [Hb2 Hr2]; [lia|].
    split; [exact Hb2|]. now replace (m - Z.of_nat (S n)) with (m - 1 - Z.of_nat n) by lia.
Qed.

Lemma running_remaining i n (st : State R) :
  running i n st -> n <= remaining (procs st !!! i).
Proof.
  intros (y & s & Hy & _ & _ & Hn). now rewrite (list_lookup_total_correct _ _ _ Hy).
Qed.

Lemma running_weaken i n m (st : State R) : m <= n -> running i n st -> running i m st.
Proof. intros Hle (y & s & Hy & He & Hs & Hn). exists y, s. repeat split; trivial. lia. Qed.

Lemma books_run_to_completion fuel : forall i p (st : State R),
  books named (Some i) st -> running i 0 st ->
  books named (Some i) (run_to_completion push view fuel i p st)
  /\ running i 0 (run_to_completion push view fuel i p st).
Proof.
  induction fuel as [|n IH]; intros i p st Hb Hr; cbn [run_to_completion]; [auto|].
  destruct (Z.ltb_spec 0 (remaining (procs st !!! i))) as [Hpos|_]; [|auto].
  assert (Hr1 : running i 1 st).
  { destruct Hr as (y & s & Hy & He & Hs & Hn). exists y, s. repeat split; trivial.
    rewrite (list_lookup_total_correct _ _ _ Hy) in Hpos. lia. }
  destruct (books_exec_unit i p 1 st Hb Hr1) as [Hb1 Hr2]; [lia|].
  now apply IH.
Qed.

Lemma books_idle_until fuel : forall jumpTo (st : State R),
  books named None st -> books named None (idle_until idle_view fuel jumpTo st).
Proof.
  induction fuel as [|n IH]; intros jumpTo st Hb; cbn [idle_until]; [exact Hb|].
  destruct (time st <? jumpTo); [|exact Hb]. now apply IH, books_emit.
Qed.

Lemma books_idle_phase (st : State R) f st' :
  books named None st -> idle_phase push idle_view st = (f, st') -> books named None st'.
Proof.
  intros Hb. unfold idle_phase.
  destruct (find _ (procs st)); intros [= <- <-]; [|exact Hb].
  now apply books_enqueue, books_idle_until.
Qed.

(** The end of a slice: the process has nothing left and is completed. *)
Lemma books_complete i (st : State R) :
  books named (Some i) st -> running i 0 st -> remaining (procs st !!! i) <= 0 ->
  books named None (with_procs (alter (set_completion (time st)) i (procs st)) st).
Proof.
  intros Hb (y & s & Hy & He & Hs & Hn) Hz.
  rewrite (list_lookup_total_correct _ _ _ Hy) in Hz.
  assert (Hy_ok : proc_ok (time st) y).
  { destruct Hb as (_ & Hok & _). rewrite List.Forall_forall in Hok.
    apply Hok. apply list_elem_of_In. eapply list_elem_of_lookup_2, Hy. }
  assert (H1 : books named (Some i)
                 (with_procs (alter (set_completion (time st)) i (procs st)) st)).
  { apply (books_alter _ _ i y); trivial.
    - intros z. simpl. repeat split; trivial. lia.
    - now apply proc_ok_completion. }
  destruct H1 as (Hnd & Hok & Ha & Hbb). split; [exact Hnd|]. split; [exact Hok|].
  split; [exact Ha|]. intros k z' Hz' Hez Hrem.
  destruct (Hbb k z' Hz' Hez Hrem) as [[= ->]|H]; [|now right].
  exfalso. cbn [procs with_procs] in Hz'.
  rewrite list_lookup_alter_eq, Hy in Hz'. simpl in Hz'. injection Hz' as <-.
  simpl in Hrem. lia.
Qed.

(** The end of a slice with work left: the process goes back. *)
Lemma books_requeue i (st : State R) r' :
  books named (Some i) st -> running i 0 st ->
  (forall k z, named k z (ready st) -> named k z r') ->
  (forall z, procs st !! i = Some z -> named i z r') ->
  (forall k z, procs st !! k = Some z -> named k z r' ->
               named k z (ready st) \/ k = i) ->
  books named None (with_ready r' st).
Proof.
  intros (Hnd & Hok & Ha & Hbb) (y & s & Hy & He & Hs & Hn) Hold Hnew Hinv.
  split; [exact Hnd|]. split; [exact Hok|]. split; cbn [procs ready with_ready].
  - intros k z Hz Hnm. destruct (Hinv k z Hz Hnm) as [H| ->]; [now apply (Ha k z)|].
    congruence.
  - intros k z Hz Hez Hrem. right.
    destruct (Hbb k z Hz Hez Hrem) as [[= ->]|H]; [now apply Hnew | now apply Hold].
Qed.

(** The selection: the process at position [i] leaves the ready structure
    and is started. *)
Lemma books_select i y (st : State R) r' :
  books named None st ->
  procs st !! i = Some y -> named i y (ready st) ->
  (forall k z, named k z r' -> named k z (ready st)) ->
  (forall k z, procs st !! k = Some z -> named k z (ready st) ->
               k = i \/ named k z r') ->
  books named (Some i)
        (with_procs (alter (set_start (time st)) i (procs st)) (with_ready r' st))
  /\ running i 0
        (with_procs (alter (set_start (time st)) i (procs st)) (with_ready r' st)).
Proof.
  intros (Hnd & Hok & Ha & Hbb) Hy Hnm Hsub Hrest.
  assert (He : enqueued y = true) by now apply (Ha i y).
  assert (Hy_ok : proc_ok (time st) y).
  { rewrite List.Forall_forall in Hok.
    apply Hok. apply list_elem_of_In. eapply list_elem_of_lookup_2, Hy. }
  assert (H0 : books named (Some i) (with_ready r' st)).
  { split; [exact Hnd|]. split; [exact Hok|]. split; cbn [procs ready with_ready].
    - intros k z Hz Hn. apply (Ha k z Hz). now apply Hsub.
    - intros k z Hz Hez Hrem.
      destruct (Hbb k z Hz Hez Hrem) as [H|H]; [discriminate|].
      destruct (Hrest k z Hz H) as [->|H']; [now left | now right]. }
  split.
  - apply (books_alter (Some i) (set_start (time st)) i y (with_ready r' st)); trivial.
    + intros z. simpl. repeat split; trivial. lia.
    + now apply proc_ok_start.
  - unfold running. cbn [procs with_procs with_ready].
    destruct Hy_ok as (_ & _ & H3 & _). destruct (H3 He) as (_ & B & _).
    exists (set_start (time st) y), (match startTime y with None => time st | Some s => s end).
    rewrite list_lookup_alter_eq, Hy. simpl. repeat split; trivial.
    now destruct (startTime y).
Qed.

Lemma run_for_pids n : forall i p (st : State R),
  map pid (procs (run_for push view n i p st)) = map pid (procs st).
Proof.
  induction n as [|n IH]; intros i p st; cbn [run_for]; [reflexivity|].
  rewrite IH. unfold exec_unit. rewrite enqueueArrivals_procs, admit_mark_pids.
  cbn [procs emit with_procs]. now rewrite alter_pids.
Qed.

(** [run_slice] and [run_whole] after a selection. *)
Lemma books_run_slice requeue q i p (st : State R) :
  (forall r k z, named k z r -> named k z (requeue p r)) ->
  (forall r z, pid z = p -> named i z (requeue p r)) ->
  (forall r k z, named k z (requeue p r) -> named k z r \/ pid z = p) ->
  map pid (procs st) !! i = Some p ->
  books named (Some i) st -> running i 0 st ->
  books named None (run_slice push view requeue q i p st).
Proof.
  intros Hold Hnew Hinv Hp Hb Hr. unfold run_slice.
  set (n := Z.to_nat (Z.min q (remaining (procs st !!! i)))).
  assert (Hn : Z.of_nat n <= remaining (procs st !!! i)).
  { pose proof (running_remaining _ _ _ Hr). unfold n. lia. }
  assert (Hr' : running i (remaining (procs st !!! i)) st).
  { destruct Hr as (y & s & Hy & He & Hs & _). exists y, s.
    rewrite (list_lookup_total_correct _ _ _ Hy). repeat split; trivial. lia. }
  destruct (books_run_for n i p _ st Hb Hr' Hn) as [Hb1 Hr1].
  apply (running_weaken _ _ 0) in Hr1; [|lia].
  set (st1 := run_for push view n i p st) in *.
  destruct (Z.eqb_spec (remaining (procs st1 !!! i)) 0) as [Hz|Hnz].
  - apply books_complete; trivial. lia.
  - assert (Hp1 : map pid (procs st1) !! i = Some p).
    { unfold st1. now rewrite run_for_pids. }
    apply (books_requeue i st1); trivial.
    + intros k z. apply Hold.
    + intros z Hz. apply Hnew. rewrite list_lookup_fmap, Hz in Hp1. now injection Hp1.
    + intros k z Hz Hnm. destruct (Hinv _ _ _ Hnm) as [H|H]; [now left|]. right.
      destruct Hb1 as (Hnd & _). rewrite list_lookup_fmap in Hp1.
      destruct (procs st1 !! i) as [zi|] eqn:Hzi; [|discriminate].
      injection Hp1 as Hp1. apply (NoDup_pid_index (procs st1) k i z zi Hnd Hz Hzi).
      congruence.
Qed.

Lemma books_run_whole i p (st : State R) :
  books named (Some i) st -> running i 0 st ->
  books named None (run_whole push view i p st).
Proof.
  intros Hb Hr. unfold run_whole.
  destruct (books_run_to_completion (Z.to_nat (remaining (procs st !!! i))) i p st Hb Hr)
    as [Hb1 Hr1].
  apply books_complete; trivial.
  destruct Hr as (y & s & Hy & _). apply run_to_completion_done.
  - eapply lookup_lt_Some, Hy.
  - lia.
Qed.

End Books.

(** * The books at the end of a run *)

Section Runs.
Context {R : Type}.
Variable push : nat -> Proc -> R -> R.
Variable is_empty : R -> bool.
Variable dispatch : State R -> Outcome (Flow * State R).
Variable G : list string -> R -> Prop.
Variable named : nat -> Proc -> R -> Prop.

Hypothesis push_ok : forall pids i p r,
  pids !! i = Some (pid p) -> G pids r -> G pids (push i p r).
Hypothesis dispatch_ok : forall st,
  ready_ok G st -> exists f st', dispatch st = Returned (f, st') /\ leads G st st'.
Hypothesis named_pid : forall i y y' r, pid y' = pid y -> named i y r -> named i y' r.
Hypothesis named_push_old : forall i y j p r, named i y r -> named i y (push j p r).
Hypothesis named_push_new : forall j p r, named j p (push j p r).
Hypothesis named_push_inv : forall i y j p r,
  named i y (push j p r) -> named i y r \/ i = j \/ pid y = pid p.
Hypothesis empty_names_nobody : forall r i y, is_empty r = true -> ~ named i y r.
Hypothesis dispatch_books : forall st f st',
  ready_ok G st -> books named None st -> dispatch st = Returned (f, st') ->
  books named None st'.
Hypothesis dispatch_break : forall st st',
  dispatch st = Returned (Break, st') ->
  st' = st /\ is_empty (ready st) = true
  /\ find (fun p => negb (enqueued p) && (0 <? remaining p)) (procs st) = None.

Lemma iteration_keeps (st : State R) f st' :
  ready_ok G st -> books named None st ->
  iteration push dispatch st = Returned (f, st') ->
  ready_ok G st' /\ books named None st'
  /\ rtc prim (erase st) (erase st').
Proof.
  intros Hg Hb Hit. unfold iteration in Hit.
  destruct (enqueueArrivals_leads push G push_ok st) as [Hs1 Hg1].
  specialize (Hg1 Hg).
  assert (Hb1 : books named None (enqueueArrivals push st)) by now apply books_enqueue.
  destruct (dispatch_ok _ Hg1) as (f' & st'' & Hd & Hs2 & Hg2).
  rewrite Hd in Hit. injection Hit as -> ->.
  split; [now apply Hg2|]. split; [now apply (dispatch_books _ _ _ Hg1 Hb1 Hd)|].
  now apply rtc_trans with (erase (enqueueArrivals push st)).
Qed.

Lemma no_work_left (st : State R) :
  books named None st -> is_empty (ready st) = true ->
  find (fun p => negb (enqueued p) && (0 <? remaining p)) (procs st) = None ->
  Forall (fun y => remaining y <= 0) (procs st).
Proof.
  intros (_ & _ & _ & Hb) He Hf. apply List.Forall_forall. intros y Hy.
  destruct (Z_le_gt_dec (remaining y) 0) as [Hle|Hgt]; [exact Hle|]. exfalso.
  destruct (enqueued y) eqn:Henq.
  - apply list_elem_of_In, list_elem_of_lookup in Hy as [i Hi].
    destruct (Hb i y Hi Henq) as [H|H]; [lia | discriminate|].
    now apply (empty_names_nobody _ _ _ He H).
  - pose proof (find_none _ _ Hf y Hy) as Hn. simpl in Hn. rewrite Henq in Hn.
    simpl in Hn. apply Z.ltb_ge in Hn. lia.
Qed.

Lemma main_loop_settles fuel : forall (st st' : State R),
  ready_ok G st -> books named None st ->
  main_loop push is_empty dispatch fuel st = Returned st' ->
  books named None st'
  /\ rtc prim (erase st) (erase st')
  /\ (loop_hits_ceiling push is_empty dispatch fuel st = false ->
      Forall (fun y => remaining y <= 0) (procs st')).
Proof.
  induction fuel as [|fuel IH]; intros st st' Hg Hb; cbn [main_loop loop_hits_ceiling].
  - intros [= <-]. split; [exact Hb|]. split; [apply rtc_refl|].
    intros Hw. unfold work_left in Hw. apply orb_false_iff in Hw as [Hw _].
    apply List.Forall_forall. intros y Hy.
    pose proof (existsb_exists (fun p => 0 <? remaining p) (procs st)) as Hex.
    destruct (Z_le_gt_dec (remaining y) 0) as [Hle|Hgt]; [exact Hle|]. exfalso.
    assert (existsb (fun p => 0 <? remaining p) (procs st) = true).
    { apply Hex. exists y. split; [exact Hy | apply Z.ltb_lt; lia]. }
    congruence.
  - destruct (work_left is_empty st) eqn:Hw.
    + destruct (iteration push dispatch st) as [[[|] st1]|] eqn:Hit; [| |discriminate].
      * destruct (iteration_keeps st _ _ Hg Hb Hit) as (Hg1 & Hb1 & Hs1).
        intros Hm. destruct (IH st1 st' Hg1 Hb1 Hm) as (Hb2 & Hs2 & Hc).
        split; [exact Hb2|]. split; [now apply rtc_trans with (erase st1) | exact Hc].
      * destruct (iteration_keeps st _ _ Hg Hb Hit) as (Hg1 & Hb1 & Hs1).
        intros [= <-]. split; [exact Hb1|]. split; [exact Hs1|]. intros _.
        unfold iteration in Hit.
        destruct (dispatch_break _ _ Hit) as (Heq & He & Hf).
        apply no_work_left; [exact Hb1 | |]; rewrite Heq; assumption.
    + intros [= <-]. split; [exact Hb|]. split; [apply rtc_refl|]. intros _.
      unfold work_left in Hw. apply orb_false_iff in Hw as [Hw _].
      apply List.Forall_forall. intros y Hy.
      pose proof (existsb_exists (fun p => 0 <? remaining p) (procs st)) as Hex.
      destruct (Z_le_gt_dec (remaining y) 0) as [Hle|Hgt]; [exact Hle|]. exfalso.
      assert (existsb (fun p => 0 <? remaining p) (procs st) = true).
      { apply Hex. exists y. split; [exact Hy | apply Z.ltb_lt; lia]. }
      congruence.
Qed.

Lemma start_books (ps : list Proc) (r0 : R) :
  NoDup (map pid ps) ->
  Forall (fun p => exists d, p = init_proc d) ps ->
  is_empty r0 = true ->
  books named None (mkState ps 0 r0 [] []).
Proof.
  intros Hnd Hinit He. split; [exact Hnd|]. split; [|split]; cbn [procs time ready].
  - eapply Forall_impl; [exact Hinit|]. intros p [d ->].
    unfold proc_ok. simpl. repeat split; trivial; try lia; try discriminate.
  - intros i y _ Hn. exfalso. now apply (empty_names_nobody _ _ _ He Hn).
  - intros i y Hy Henq. exfalso.
    rewrite List.Forall_forall in Hinit. destruct (Hinit y) as [d ->]; [|discriminate].
    apply list_elem_of_In. eapply list_elem_of_lookup_2, Hy.
Qed.

Lemma run_simulator_settled (ps : list Proc) (r0 : R) :
  NoDup (map pid ps) ->
  Forall (fun p => exists d, p = init_proc d) ps ->
  is_empty r0 = true ->
  G (map pid ps) r0 ->
  settled (hits_ceiling push is_empty dispatch ps r0) ps
          (run_simulator push is_empty dispatch ps r0).
Proof.
  intros Hnd Hinit He Hg0. unfold run_simulator, hits_ceiling.
  set (st0 := mkState ps 0 r0 [] []).
  destruct (enqueueArrivals_leads push G push_ok st0) as [Hs0 Hg1].
  specialize (Hg1 Hg0).
  assert (Hb1 : books named None (enqueueArrivals push st0)).
  { apply books_enqueue; trivial. now apply start_books. }
  destruct (main_loop_leads push is_empty G push_ok dispatch dispatch_ok maxIter
              (enqueueArrivals push st0) Hg1) as (st & Hm & _).
  rewrite Hm.
  destruct (main_loop_settles maxIter _ st Hg1 Hb1 Hm) as ((_ & Hok & _) & Hs & Hc).
  exists (erase st). split; [reflexivity|]. split; [|split].
  - now apply rtc_trans with (erase (enqueueArrivals push st0)).
  - exact Hok.
  - exact Hc.
Qed.

End Runs.

(** * The books of the five simulators *)

Lemma idle_phase_break {R} (push : nat -> Proc -> R -> R) (idle_view : R -> list string)
    (st st' : State R) :
  idle_phase push idle_view st = (Break, st') ->
  st' = st
  /\ find (fun p => negb (enqueued p) && (0 <? remaining p)) (procs st) = None.
Proof.
  unfold idle_phase. destruct (find _ (procs st)); [discriminate|].
  now intros [= <-].
Qed.

Lemma with_found_continue {R} p (st : State R) k f st' :
  with_found p st k = Returned (f, st') -> f = Continue.
Proof.
  unfold with_found. destruct (find_index _ _); [|discriminate]. now intros [= <- _].
Qed.

(** ** Queues of pids: Round Robin and FCFS *)

Lemma queue_named_pid i y y' (q : list string) :
  pid y' = pid y -> queue_named i y q -> queue_named i y' q.
Proof. unfold queue_named. now intros ->. Qed.

Lemma queue_named_push_old i y j p (q : list string) :
  queue_named i y q -> queue_named i y (queue_push j p q).
Proof. unfold queue_named, queue_push. intros H. apply in_or_app. now left. Qed.

Lemma queue_named_push_new j p (q : list string) : queue_named j p (queue_push j p q).
Proof. unfold queue_named, queue_push. apply in_or_app. right. now left. Qed.

Lemma queue_named_push_inv i y j p (q : list string) :
  queue_named i y (queue_push j p q) -> queue_named i y q \/ i = j \/ pid y = pid p.
Proof.
  unfold queue_named, queue_push. intros H.
  apply in_app_or in H as [H|[H|[]]]; auto.
Qed.

Lemma queue_empty_names_nobody (q : list string) i y :
  queue_empty q = true -> ~ queue_named i y q.
Proof. destruct q; [intros _ [] | discriminate]. Qed.

(** The head of the queue is selected. *)
Lemma queue_select (st : State (list string)) p rest i :
  books queue_named None st ->
  ready st = p :: rest ->
  find_index (fun x => String.eqb (pid x) p) (procs st) = Some i ->
  let st0 := with_procs (alter (set_start (time st)) i (procs st)) (with_ready rest st) in
  books queue_named (Some i) st0 /\ running i 0 st0
  /\ map pid (procs st0) !! i = Some p.
Proof.
  intros Hb Hq Hfind st0.
  pose proof (find_index_pid _ _ _ Hfind) as Hp.
  rewrite list_lookup_fmap in Hp.
  destruct (procs st !! i) as [y|] eqn:Hy; [|discriminate]. injection Hp as Hp.
  destruct (books_select queue_named queue_named_pid i y st rest Hb Hy) as [H1 H2].
  - unfold queue_named. rewrite Hq, Hp. now left.
  - intros k z. unfold queue_named. rewrite Hq. now right.
  - intros k z Hz. unfold queue_named. rewrite Hq. intros [H|H]; [|now right].
    left. destruct Hb as (Hnd & _).
    apply (NoDup_pid_index (procs st) k i z y Hnd Hz Hy). congruence.
  - split; [exact H1|]. split; [exact H2|].
    unfold st0. cbn [procs with_procs with_ready]. rewrite alter_pids by reflexivity.
    rewrite list_lookup_fmap, Hy. cbn. now rewrite Hp.
Qed.

Lemma rr_dispatch_books quantum (st : State (list string)) f st' :
  books queue_named None st -> rr_dispatch quantum st = Returned (f, st') ->
  books queue_named None st'.
Proof.
  intros Hb. unfold rr_dispatch. destruct (ready st) as [|p rest] eqn:Hq.
  - intros [= H]. eapply (books_idle_phase queue_push (fun q => q) queue_named); eauto using
      queue_named_pid, queue_named_push_old, queue_named_push_new, queue_named_push_inv.
  - unfold with_found.
    destruct (find_index _ _) as [i|] eqn:Hfind; [|discriminate].
    intros [= <- <-].
    destruct (queue_select st p rest i Hb Hq Hfind) as (H1 & H2 & H3).
    apply (books_run_slice queue_push queue_view queue_named queue_named_pid
             queue_named_push_old queue_named_push_new queue_named_push_inv); trivial.
    + intros r k z H. unfold queue_named in *. apply in_or_app. now left.
    + intros r z Hz. unfold queue_named. apply in_or_app. right. left. now symmetry.
    + intros r k z H. unfold queue_named in *.
      apply in_app_or in H as [H|[H|[]]]; [now left | right; now symmetry].
Qed.

Lemma rr_dispatch_break quantum (st st' : State (list string)) :
  rr_dispatch quantum st = Returned (Break, st') ->
  st' = st /\ queue_empty (ready st) = true
  /\ find (fun p => negb (enqueued p) && (0 <? remaining p)) (procs st) = None.
Proof.
  unfold rr_dispatch. destruct (ready st) as [|p rest] eqn:Hq.
  - intros [= H]. destruct (idle_phase_break _ _ _ _ H). auto.
  - intros H. apply with_found_continue in H. discriminate.
Qed.

Lemma fcfs_dispatch_books (st : State (list string)) f st' :
  books queue_named None st -> fcfs_dispatch st = Returned (f, st') ->
  books queue_named None st'.
Proof.
  intros Hb. unfold fcfs_dispatch. destruct (ready st) as [|p rest] eqn:Hq.
  - intros [= H]. eapply (books_idle_phase queue_push (fun q => q) queue_named); eauto using
      queue_named_pid, queue_named_push_old, queue_named_push_new, queue_named_push_inv.
  - unfold with_found.
    destruct (find_index _ _) as [i|] eqn:Hfind; [|discriminate].
    intros [= <- <-].
    destruct (queue_select st p rest i Hb Hq Hfind) as (H1 & H2 & H3).
    apply (books_run_whole queue_push queue_view queue_named queue_named_pid
             queue_named_push_old queue_named_push_new queue_named_push_inv); trivial.
Qed.

Lemma fcfs_dispatch_break (st st' : State (list string)) :
  fcfs_dispatch st = Returned (Break, st') ->
  st' = st /\ queue_empty (ready st) = true
  /\ find (fun p => negb (enqueued p) && (0 <? remaining p)) (procs st) = None.
Proof.
  unfold fcfs_dispatch. destruct (ready st) as [|p rest] eqn:Hq.
  - intros [= H]. destruct (idle_phase_break _ _ _ _ H). auto.
  - intros H. apply with_found_continue in H. discriminate.
Qed.

(** ** Lists of references: SJF and Priority *)

Lemma list_named_pid i y y' (l : list nat) :
  pid y' = pid y -> list_named i y l -> list_named i y' l.
Proof. now unfold list_named. Qed.

Lemma list_named_push_old i y j p (l : list nat) :
  list_named i y l -> list_named i y (list_push j p l).
Proof. unfold list_named, list_push. intros H. apply in_or_app. now left. Qed.

Lemma list_named_push_new j p (l : list nat) : list_named j p (list_push j p l).
Proof. unfold list_named, list_push. apply in_or_app. right. now left. Qed.

Lemma list_named_push_inv i y j p (l : list nat) :
  list_named i y (list_push j p l) -> list_named i y l \/ i = j \/ pid y = pid p.
Proof.
  unfold list_named, list_push. intros H.
  apply in_app_or in H as [H|[H|[]]]; auto.
Qed.

Lemma list_empty_names_nobody (l : list nat) i y :
  list_empty l = true -> ~ list_named i y l.
Proof. destruct l; [intros _ [] | discriminate]. Qed.

Lemma pick_dispatch_books cmp (st : State (list nat)) f st' :
  ready_ok list_ok st ->
  books list_named None st -> pick_dispatch cmp st = Returned (f, st') ->
  books list_named None st'.
Proof.
  intros Hok Hb. unfold pick_dispatch. destruct (ready st) as [|i0 rest0] eqn:Hq.
  - intros [= H]. eapply (books_idle_phase list_push (fun _ => []) list_named); eauto using
      list_named_pid, list_named_push_old, list_named_push_new, list_named_push_inv.
  - set (cmp' := fun a b => cmp (procs st !!! a) (procs st !!! b)).
    pose proof (js_sort_perm cmp' (i0 :: rest0)) as Hperm.
    destruct (js_sort cmp' (i0 :: rest0)) as [|i rest] eqn:Hs; [discriminate|].
    intros [= <- <-].
    unfold ready_ok in Hok. rewrite Hq in Hok.
    assert (Hi : (i < length (procs st))%nat).
    { unfold list_ok in Hok. rewrite <- Hperm in Hok. inversion Hok; subst.
      now rewrite length_map in *. }
    destruct (lookup_lt_is_Some_2 _ i Hi) as [y Hy].
    destruct (books_select list_named list_named_pid i y st rest Hb Hy) as [H1 H2].
    + unfold list_named. rewrite Hq, <- Hperm. now left.
    + intros k z. unfold list_named. rewrite Hq, <- Hperm. now right.
    + intros k z _. unfold list_named. rewrite Hq, <- Hperm. intros [H|H]; auto.
    + apply (books_run_whole list_push list_view list_named list_named_pid
               list_named_push_old list_named_push_new list_named_push_inv); trivial.
Qed.

Lemma pick_dispatch_break cmp (st st' : State (list nat)) :
  pick_dispatch cmp st = Returned (Break, st') ->
  st' = st /\ list_empty (ready st) = true
  /\ find (fun p => negb (enqueued p) && (0 <? remaining p)) (procs st) = None.
Proof.
  unfold pick_dispatch. destruct (ready st) as [|i0 rest0] eqn:Hq.
  - intros [= H]. destruct (idle_phase_break _ _ _ _ H). auto.
  - destruct (js_sort _ _); discriminate.
Qed.

(** ** The two queues of the multilevel queue *)

Lemma mlq_named_pid i y y' (q : MlqQueues) :
  pid y' = pid y -> mlq_named i y q -> mlq_named i y' q.
Proof. unfold mlq_named. now intros ->. Qed.

Lemma mlq_push_queues j p (q : MlqQueues) x :
  In x (fgQueue (mlq_push j p q) ++ bgQueue (mlq_push j p q))
  <-> In x (fgQueue q ++ bgQueue q) \/ x = pid p.
Proof.
  unfold mlq_push. destruct (priority p =? 0); cbn [fgQueue bgQueue];
    rewrite !in_app_iff; simpl; intuition.
Qed.

Lemma mlq_named_push_old i y j p (q : MlqQueues) :
  mlq_named i y q -> mlq_named i y (mlq_push j p q).
Proof. unfold mlq_named. intros H. apply mlq_push_queues. now left. Qed.

Lemma mlq_named_push_new j p (q : MlqQueues) : mlq_named j p (mlq_push j p q).
Proof. unfold mlq_named. apply mlq_push_queues. now right. Qed.

Lemma mlq_named_push_inv i y j p (q : MlqQueues) :
  mlq_named i y (mlq_push j p q) -> mlq_named i y q \/ i = j \/ pid y = pid p.
Proof. unfold mlq_named. intros H. apply mlq_push_queues in H as [H|H]; auto. Qed.

Lemma mlq_empty_names_nobody (q : MlqQueues) i y :
  mlq_empty q = true -> ~ mlq_named i y q.
Proof.
  unfold mlq_empty, mlq_named. destruct (fgQueue q); [|discriminate].
  destruct (bgQueue q); [intros _ [] | discriminate].
Qed.

Lemma mlq_select (st : State MlqQueues) p r' i :
  books mlq_named None st ->
  find_index (fun x => String.eqb (pid x) p) (procs st) = Some i ->
  In p (fgQueue (ready st) ++ bgQueue (ready st)) ->
  (forall x, In x (fgQueue r' ++ bgQueue r') ->
             In x (fgQueue (ready st) ++ bgQueue (ready st))) ->
  (forall x, In x (fgQueue (ready st) ++ bgQueue (ready st)) ->
             x = p \/ In x (fgQueue r' ++ bgQueue r')) ->
  let st0 := with_procs (alter (set_start (time st)) i (procs st)) (with_ready r' st) in
  books mlq_named (Some i) st0 /\ running i 0 st0
  /\ map pid (procs st0) !! i = Some p.
Proof.
  intros Hb Hfind Hin Hsub Hrest st0.
  pose proof (find_index_pid _ _ _ Hfind) as Hp.
  rewrite list_lookup_fmap in Hp.
  destruct (procs st !! i) as [y|] eqn:Hy; [|discriminate]. injection Hp as Hp.
  destruct (books_select mlq_named mlq_named_pid i y st r' Hb Hy) as [H1 H2].
  - unfold mlq_named. now rewrite Hp.
  - intros k z. unfold mlq_named. apply Hsub.
  - intros k z Hz. unfold mlq_named. intros H.
    destruct (Hrest _ H) as [H'|H']; [|now right].
    left. destruct Hb as (Hnd & _).
    apply (NoDup_pid_index (procs st) k i z y Hnd Hz Hy). congruence.
  - split; [exact H1|]. split; [exact H2|].
    unfold st0. cbn [procs with_procs with_ready]. rewrite alter_pids by reflexivity.
    rewrite list_lookup_fmap, Hy. cbn. now rewrite Hp.
Qed.

Lemma mlq_dispatch_books fgQuantum bgQuantum (st : State MlqQueues) f st' :
  books mlq_named None st -> mlq_dispatch fgQuantum bgQuantum st = Returned (f, st') ->
  books mlq_named None st'.
Proof.
  intros Hb. unfold mlq_dispatch.
  destruct (fgQueue (ready st)) as [|p rest] eqn:Hfq.
  - destruct (bgQueue (ready st)) as [|p rest] eqn:Hbq.
    + intros [= H]. eapply (books_idle_phase mlq_push (fun _ => []) mlq_named); eauto using
        mlq_named_pid, mlq_named_push_old, mlq_named_push_new, mlq_named_push_inv.
    + unfold with_found.
      destruct (find_index _ _) as [i|] eqn:Hfind; [|discriminate].
      intros [= <- <-].
      destruct (mlq_select st p (mkMlqQueues [] rest) i Hb Hfind) as (H1 & H2 & H3).
      * rewrite Hfq, Hbq. now left.
      * rewrite Hfq, Hbq. intros x H. now right.
      * rewrite Hfq, Hbq. intros x [H|H]; [left; now symmetry | now right].
      * destruct bgQuantum as [q|].
        -- apply (books_run_slice mlq_push mlq_view mlq_named mlq_named_pid
                    mlq_named_push_old mlq_named_push_new mlq_named_push_inv); trivial.
           ++ intros r k z H. unfold mlq_named, bg_requeue in *. cbn [fgQueue bgQueue].
              rewrite !in_app_iff in *. tauto.
           ++ intros r z Hz. unfold mlq_named, bg_requeue. cbn [fgQueue bgQueue].
              rewrite !in_app_iff. right. right. left. now symmetry.
           ++ intros r k z H. unfold mlq_named, bg_requeue in *. cbn [fgQueue bgQueue] in H.
              rewrite !in_app_iff in *. simpl in H.
              destruct H as [H|[H|[H|[]]]]; auto.
        -- apply (books_run_whole mlq_push mlq_view mlq_named mlq_named_pid
                    mlq_named_push_old mlq_named_push_new mlq_named_push_inv); trivial.
  - unfold with_found.
    destruct (find_index _ _) as [i|] eqn:Hfind; [|discriminate].
    intros [= <- <-].
    destruct (mlq_select st p (mkMlqQueues rest (bgQueue (ready st))) i Hb Hfind)
      as (H1 & H2 & H3).
    + rewrite Hfq. now left.
    + rewrite Hfq. cbn [fgQueue bgQueue]. intros x H. now right.
    + rewrite Hfq. cbn [fgQueue bgQueue]. intros x [H|H]; [left; now symmetry | now right].
    + apply (books_run_slice mlq_push mlq_view mlq_named mlq_named_pid
               mlq_named_push_old mlq_named_push_new mlq_named_push_inv); trivial.
      * intros r k z H. unfold mlq_named, fg_requeue in *. cbn [fgQueue bgQueue].
        rewrite !in_app_iff in *. tauto.
      * intros r z Hz. unfold mlq_named, fg_requeue. cbn [fgQueue bgQueue].
        rewrite !in_app_iff. left. right. left. now symmetry.
      * intros r k z H. unfold mlq_named, fg_requeue in *. cbn [fgQueue bgQueue] in H.
        rewrite !in_app_iff in *. simpl in H.
        destruct H as [[H|[H|[]]]|H]; auto.
Qed.

Lemma mlq_dispatch_break fgQuantum bgQuantum (st st' : State MlqQueues) :
  mlq_dispatch fgQuantum bgQuantum st = Returned (Break, st') ->
  st' = st /\ mlq_empty (ready st) = true
  /\ find (fun p => negb (enqueued p) && (0 <? remaining p)) (procs st) = None.
Proof.
  unfold mlq_dispatch, mlq_empty.
  destruct (fgQueue (ready st)) as [|p rest] eqn:Hfq.
  - destruct (bgQueue (ready st)) as [|p rest] eqn:Hbq.
    + intros [= H]. destruct (idle_phase_break _ _ _ _ H). auto.
    + intros H. apply with_found_continue in H. discriminate.
  - intros H. apply with_found_continue in H. discriminate.
Qed.

(** * The books at the end of [simulate] *)

Lemma simulateRR_settled processes quantum :
  NoDup (map d_pid processes) ->
  settled (hits_ceiling queue_push queue_empty (rr_dispatch quantum)
             (js_sort by_arrival (map init_proc processes)) [])
          (js_sort by_arrival (map init_proc processes))
          (simulateRR processes quantum).
Proof.
  intros Hnd.
  apply (run_simulator_settled queue_push queue_empty (rr_dispatch quantum) queue_ok
           queue_named queue_push_ok (rr_dispatch_ok quantum) queue_named_pid
           queue_named_push_old queue_named_push_new queue_named_push_inv
           queue_empty_names_nobody
           (fun st f st' _ => rr_dispatch_books quantum st f st')
           (rr_dispatch_break quantum)).
  - rewrite js_sort_perm, map_map. exact Hnd.
  - rewrite js_sort_perm. apply List.Forall_forall. intros p Hp.
    apply in_map_iff in Hp as (d & <- & _). now exists d.
  - reflexivity.
  - constructor.
Qed.

Lemma simulateFCFS_settled processes :
  NoDup (map d_pid processes) ->
  settled (hits_ceiling queue_push queue_empty fcfs_dispatch
             (js_sort by_arrival (map init_proc processes)) [])
          (js_sort by_arrival (map init_proc processes))
          (simulateFCFS processes).
Proof.
  intros Hnd.
  apply (run_simulator_settled queue_push queue_empty fcfs_dispatch queue_ok
           queue_named queue_push_ok fcfs_dispatch_ok queue_named_pid
           queue_named_push_old queue_named_push_new queue_named_push_inv
           queue_empty_names_nobody
           (fun st f st' _ => fcfs_dispatch_books st f st')
           fcfs_dispatch_break).
  - rewrite js_sort_perm, map_map. exact Hnd.
  - rewrite js_sort_perm. apply List.Forall_forall. intros p Hp.
    apply in_map_iff in Hp as (d & <- & _). now exists d.
  - reflexivity.
  - constructor.
Qed.

Lemma simulate_pick_settled cmp processes :
  NoDup (map d_pid processes) ->
  settled (hits_ceiling list_push list_empty (pick_dispatch cmp)
             (map init_proc processes) [])
          (map init_proc processes)
          (run_simulator list_push list_empty (pick_dispatch cmp)
             (map init_proc processes) []).
Proof.
  intros Hnd.
  apply (run_simulator_settled list_push list_empty (pick_dispatch cmp) list_ok
           list_named list_push_ok (pick_dispatch_ok cmp) list_named_pid
           list_named_push_old list_named_push_new list_named_push_inv
           list_empty_names_nobody
           (pick_dispatch_books cmp)
           (pick_dispatch_break cmp)).
  - rewrite map_map. exact Hnd.
  - apply List.Forall_forall. intros p Hp.
    apply in_map_iff in Hp as (d & <- & _). now exists d.
  - reflexivity.
  - constructor.
Qed.

Lemma simulateMLQ_settled processes fgQuantum bgQuantum :
  NoDup (map d_pid processes) ->
  settled (hits_ceiling mlq_push mlq_empty (mlq_dispatch fgQuantum bgQuantum)
             (js_sort by_arrival (map init_proc processes)) (mkMlqQueues [] []))
          (js_sort by_arrival (map init_proc processes))
          (simulateMLQ processes fgQuantum bgQuantum).
Proof.
  intros Hnd.
  apply (run_simulator_settled mlq_push mlq_empty (mlq_dispatch fgQuantum bgQuantum)
           mlq_ok mlq_named mlq_push_ok (mlq_dispatch_ok fgQuantum bgQuantum)
           mlq_named_pid mlq_named_push_old mlq_named_push_new mlq_named_push_inv
           mlq_empty_names_nobody
           (fun st f st' _ => mlq_dispatch_books fgQuantum bgQuantum st f st')
           (mlq_dispatch_break fgQuantum bgQuantum)).
  - rewrite js_sort_perm, map_map. exact Hnd.
  - rewrite js_sort_perm. apply List.Forall_forall. intros p Hp.
    apply in_map_iff in Hp as (d & <- & _). now exists d.
  - reflexivity.
  - split; constructor.
Qed.

(** Whatever the tag, the books are in order at the end of [simulate]. *)
Lemma simulate_settled algorithm ps o :
  NoDup (map in_pid ps) ->
  exists ps0, Permutation ps0 (map init_proc (map normalize ps))
              /\ settled (ceiling_reached algorithm ps o) ps0 (simulate algorithm ps o).
Proof.
  intros Hnd.
  assert (Hnd' : NoDup (map d_pid (map normalize ps))) by now rewrite map_map.
  unfold simulate, ceiling_reached. cbv zeta.
  repeat match goal with
         | |- context [String.eqb algorithm ?s] => destruct (String.eqb algorithm s)
         end;
    eexists;
    (split;
     [| first [ apply simulateRR_settled | apply simulateFCFS_settled
              | apply simulate_pick_settled | apply simulateMLQ_settled ]; exact Hnd' ]);
    first [ apply js_sort_perm | reflexivity ].
Qed.

Lemma proc_ok_report T y : proc_ok T y -> report_ok T (finalize_proc T y).
Proof.
  intros (Hle & Hout & Hin & Hst & Hco). unfold report_ok, finalize_proc.
  cbn [f_remaining f_burst f_enqueued f_startTime f_arrival f_completionTime
       f_turnaround f_waiting].
  split; [reflexivity|]. split; [reflexivity|]. split; [exact Hle|]. split.
  - intros He. destruct (Hout He) as (Hr & -> & ->). auto.
  - intros He. destruct (Hin He) as (Hb & Hr & Ha & Hs).
    split; [exact Hb|]. split; [exact Hr|].
    destruct (startTime y) as [s|] eqn:Es.
    + destruct (Hst s eq_refl) as [[Has HsT] Hd].
      split; [exact Has|].
      destruct (completionTime y) as [c|] eqn:Ec.
      * destruct (Hco c eq_refl) as (Hz & HcT & s' & [= <-] & Hsc). lia.
      * lia.
    + assert (remaining y = burst y).
      { destruct (Z.eq_dec (remaining y) (burst y)) as [|Hne]; trivial.
        exfalso. apply Hs; [lia | reflexivity]. }
      destruct (completionTime y) as [c|] eqn:Ec.
      * destruct (Hco c eq_refl) as (_ & _ & s' & Hs' & _). discriminate.
      * lia.
Qed.

(** The report of a settled run: [T] is the number of recorded units. *)
Lemma settled_report ceiling ps0 o :
  settled ceiling ps0 o ->
  exists r, o = Returned r
    /\ stats r = computeStats (processes (stats r))
    /\ map f_descriptor (processes (stats r)) = map descriptor_of ps0
    /\ Forall (report_ok (Z.of_nat (length (historySnapshots r)))) (processes (stats r))
    /\ (ceiling = false -> Forall (fun x => f_remaining x <= 0) (processes (stats r))).
Proof.
  intros (st & -> & Hsteps & Hok & Hdone).
  exists (finish st). split; [reflexivity|].
  change (processes (stats (finish st))) with (map (finalize_proc (time st)) (procs st)).
  change (historySnapshots (finish st)) with (history st).
  destruct (steps_aligned _ _ Hsteps (start_aligned ps0)) as [Ht [Hl _]].
  rewrite <- Hl, <- Ht.
  assert (Habout : log_about (map descriptor_of ps0) st).
  { apply (steps_about _ _ _ Hsteps). split; [reflexivity|]. split; constructor. }
  split; [reflexivity|]. split; [|split].
  - rewrite map_map. destruct Habout as [<- _]. reflexivity.
  - apply List.Forall_forall. intros x Hx. apply in_map_iff in Hx as (y & <- & Hy).
    apply proc_ok_report. rewrite List.Forall_forall in Hok. now apply Hok.
  - intros Hc. specialize (Hdone Hc). apply List.Forall_forall. intros x Hx.
    apply in_map_iff in Hx as (y & <- & Hy). rewrite List.Forall_forall in Hdone.
    now apply Hdone.
Qed.

(** The report of [simulate]. *)
Lemma simulate_report algorithm ps o :
  NoDup (map in_pid ps) ->
  exists r, simulate algorithm ps o = Returned r
    /\ stats r = computeStats (processes (stats r))
    /\ Forall (report_ok (Z.of_nat (length (historySnapshots r)))) (processes (stats r))
    /\ (ceiling_reached algorithm ps o = false ->
        Forall (fun x => f_remaining x <= 0) (processes (stats r)))
    /\ Forall (fun x => exists p, In p ps /\ f_burst x = in_burst p) (processes (stats r))
    /\ length (processes (stats r)) = length ps.
Proof.
  intros Hnd. destruct (simulate_settled algorithm ps o Hnd) as (ps0 & Hperm & Hs).
  destruct (settled_report _ _ _ Hs) as (r & Hr & Hst & Hd & Hok & Hdone).
  exists r. split; [exact Hr|]. split; [exact Hst|].
  split; [exact Hok|]. split; [exact Hdone|]. split.
  2:{ rewrite <- (length_map f_descriptor), Hd, Hperm. now rewrite !length_map. }
  apply List.Forall_forall. intros x Hx.
  assert (Hin : In (f_descriptor x) (map normalize ps)).
  { rewrite <- (init_descriptors (map normalize ps)), <- Hperm, <- Hd.
    now apply in_map. }
  apply in_map_iff in Hin as (p & Hp & Hin). exists p. split; [exact Hin|].
  now injection Hp.
Qed.

(** * What the report says about every process *)

Lemma total_nonneg (l : list Z) : Forall (fun x => 0 <= x) l -> 0 <= total l.
Proof. induction 1 as [|x l Hx _ IH]; simpl; lia. Qed.

Lemma mean_nonneg (l : list Z) : Forall (fun x => 0 <= x) l -> (0 <= mean l)%Q.
Proof.
  intros H. unfold mean, Qdiv. apply Qmult_le_0_compat.
  - change 0%Q with (inject_Z 0). rewrite <- Zle_Qle. now apply total_nonneg.
  - apply Qinv_le_0_compat. change 0%Q with (inject_Z 0). rewrite <- Zle_Qle. lia.
Qed.

(** X15. When the processes have different pids and the run does not stop
    at the iteration ceiling, every process with a positive burst is reported
    as admitted and with no work left; it started no earlier than it arrived,
    it completed at least [burst] units after its start and no later than the
    last recorded unit, and its waiting time is not negative. *)
Theorem complete_run_serves_every_process (algorithm : string) (ps : list ProcIn)
    (o : Options) :
  NoDup (map in_pid ps) ->
  ceiling_reached algorithm ps o = false ->
  exists r, simulate algorithm ps o = Returned r
    /\ Forall (fun x =>
                 0 < f_burst x ->
                 f_enqueued x = true /\ f_remaining x = 0
                 /\ f_arrival x <= f_startTime x
                 /\ f_startTime x + f_burst x <= f_completionTime x
                 /\ f_completionTime x <= Z.of_nat (length (historySnapshots r))
                 /\ 0 <= f_waiting x /\ f_burst x <= f_turnaround x)
              (processes (stats r)).
Proof.
  intros Hnd Hc.
  destruct (simulate_report algorithm ps o Hnd) as (r & Hr & _ & Hok & Hdone & _).
  exists r. split; [exact Hr|]. specialize (Hdone Hc).
  rewrite List.Forall_forall in *. intros x Hx Hb.
  destruct (Hok x Hx) as (Ht & Hw & Hle & Hout & Hin). specialize (Hdone x Hx).
  destruct (f_enqueued x).
  - destruct (Hin eq_refl) as (_ & H0 & Ha & Hs & HT). repeat split; trivial; lia.
  - destruct (Hout eq_refl) as (Hrb & _). lia.
Qed.

Lemma complete_run_serves_every_process_witness :
  exists r, simulate "SJF" four_processes no_options = Returned r
    /\ Forall (fun x =>
                 0 < f_burst x ->
                 f_enqueued x = true /\ f_remaining x = 0
                 /\ f_arrival x <= f_startTime x
                 /\ f_startTime x + f_burst x <= f_completionTime x
                 /\ f_completionTime x <= Z.of_nat (length (historySnapshots r))
                 /\ 0 <= f_waiting x /\ f_burst x <= f_turnaround x)
              (processes (stats r)).
Proof.
  apply (complete_run_serves_every_process "SJF" four_processes no_options).
  - apply NoDup_ListNoDup. simpl.
    repeat (apply List.NoDup_cons; [simpl; intuition discriminate|]).
    apply List.NoDup_nil.
  - vm_compute. reflexivity.
Defined.

(** X16. When the processes have different pids, a process whose burst is
    not positive is never admitted, whatever the tag: it is reported with its
    remaining time equal to its burst, its start time equal to its arrival
    and its completion time equal to the time at which the run ended, so that
    its turnaround is negative when it arrives after the end of the run. *)
Theorem process_without_work_is_never_admitted (algorithm : string)
    (ps : list ProcIn) (o : Options) :
  NoDup (map in_pid ps) ->
  exists r, simulate algorithm ps o = Returned r
    /\ Forall (fun x =>
                 f_burst x <= 0 ->
                 f_enqueued x = false /\ f_remaining x = f_burst x
                 /\ f_startTime x = f_arrival x
                 /\ f_completionTime x = Z.of_nat (length (historySnapshots r))
                 /\ f_turnaround x
                    = Z.of_nat (length (historySnapshots r)) - f_arrival x)
              (processes (stats r)).
Proof.
  intros Hnd.
  destruct (simulate_report algorithm ps o Hnd) as (r & Hr & _ & Hok & _).
  exists r. split; [exact Hr|].
  rewrite List.Forall_forall in *. intros x Hx Hb.
  destruct (Hok x Hx) as (Ht & Hw & Hle & Hout & Hin).
  destruct (f_enqueued x).
  - destruct (Hin eq_refl) as (H0 & _). lia.
  - destruct (Hout eq_refl) as (Hrb & Hs & Hc). repeat split; trivial. lia.
Qed.

Lemma process_without_work_is_never_admitted_witness :
  exists r, simulate "RR" late_and_workless no_options = Returned r
    /\ Forall (fun x =>
                 f_burst x <= 0 ->
                 f_enqueued x = false /\ f_remaining x = f_burst x
                 /\ f_startTime x = f_arrival x
                 /\ f_completionTime x = Z.of_nat (length (historySnapshots r))
                 /\ f_turnaround x
                    = Z.of_nat (length (historySnapshots r)) - f_arrival x)
              (processes (stats r)).
Proof.
  apply (process_without_work_is_never_admitted "RR" late_and_workless no_options).
  apply NoDup_ListNoDup. simpl.
    repeat (apply List.NoDup_cons; [simpl; intuition discriminate|]).
  apply List.NoDup_nil.
Defined.

(** X17. When the processes have different pids, the report of every
    admitted process is consistent, also when the run stopped at the
    iteration ceiling: the remaining time lies between 0 and the burst, the
    start is no earlier than the arrival, and the units executed so far,
    [burst - remaining], fit between the start and the reported completion,
    which is no later than the last recorded unit.  A process that was not
    admitted has received no unit. *)
Theorem executed_units_fit_between_start_and_end (algorithm : string)
    (ps : list ProcIn) (o : Options) :
  NoDup (map in_pid ps) ->
  exists r, simulate algorithm ps o = Returned r
    /\ Forall (fun x =>
                 (f_enqueued x = true ->
                  0 <= f_remaining x <= f_burst x
                  /\ f_arrival x <= f_startTime x
                  /\ f_startTime x + (f_burst x - f_remaining x) <= f_completionTime x
                  /\ f_completionTime x <= Z.of_nat (length (historySnapshots r)))
                 /\ (f_enqueued x = false -> f_remaining x = f_burst x))
              (processes (stats r)).
Proof.
  intros Hnd.
  destruct (simulate_report algorithm ps o Hnd) as (r & Hr & _ & Hok & _).
  exists r. split; [exact Hr|].
  rewrite List.Forall_forall in *. intros x Hx.
  destruct (Hok x Hx) as (Ht & Hw & Hle & Hout & Hin). split.
  - intros He. destruct (Hin He) as (H0 & H1 & H2 & H3 & H4). repeat split; trivial.
  - intros He. now destruct (Hout He).
Qed.

Lemma executed_units_fit_between_start_and_end_witness :
  exists r, simulate "MLQ" four_processes no_options = Returned r
    /\ Forall (fun x =>
                 (f_enqueued x = true ->
                  0 <= f_remaining x <= f_burst x
                  /\ f_arrival x <= f_startTime x
                  /\ f_startTime x + (f_burst x - f_remaining x) <= f_completionTime x
                  /\ f_completionTime x <= Z.of_nat (length (historySnapshots r)))
                 /\ (f_enqueued x = false -> f_remaining x = f_burst x))
              (processes (stats r)).
Proof.
  apply (executed_units_fit_between_start_and_end "MLQ" four_processes no_options).
  apply NoDup_ListNoDup. simpl.
    repeat (apply List.NoDup_cons; [simpl; intuition discriminate|]).
  apply List.NoDup_nil.
Defined.

(** X18. When the processes have different pids and positive bursts and the
    run does not stop at the iteration ceiling, the average waiting time of
    the statistics is a number that is not negative. *)
Theorem average_waiting_is_not_negative (algorithm : string) (ps : list ProcIn)
    (o : Options) :
  ps <> [] ->
  NoDup (map in_pid ps) ->
  Forall (fun p => 0 < in_burst p) ps ->
  ceiling_reached algorithm ps o = false ->
  exists r q, simulate algorithm ps o = Returned r
    /\ avgWaiting (stats r) = Fin q /\ (0 <= q)%Q.
Proof.
  intros Hne Hnd Hpos Hc.
  destruct (simulate_report algorithm ps o Hnd) as (r & Hr & Hst & Hok & Hdone & Hb & Hlen).
  specialize (Hdone Hc).
  set (fs := processes (stats r)) in *.
  assert (Hfs : fs <> []).
  { destruct fs; [destruct ps; [congruence | discriminate] | discriminate]. }
  destruct (computeStats_spec fs Hfs) as (Hw & _).
  exists r, (mean (map (fun f => f_turnaround f - f_burst f) fs)).
  split; [exact Hr|]. split; [now rewrite Hst|].
  apply mean_nonneg. apply List.Forall_forall. intros w Hw'.
  apply in_map_iff in Hw' as (x & <- & Hx).
  rewrite List.Forall_forall in *.
  destruct (Hok x Hx) as (Ht & _ & Hle & Hout & Hin). specialize (Hdone x Hx).
  destruct (Hb x Hx) as (p & Hp & Hbp). specialize (Hpos p Hp).
  destruct (f_enqueued x).
  - destruct (Hin eq_refl) as (_ & H0 & Ha & Hs & HT). lia.
  - destruct (Hout eq_refl) as (Hrb & _). lia.
Qed.

Lemma average_waiting_is_not_negative_witness :
  exists r q, simulate "RR" four_processes no_options = Returned r
    /\ avgWaiting (stats r) = Fin q /\ (0 <= q)%Q.
Proof.
  apply (average_waiting_is_not_negative "RR" four_processes no_options).
  - discriminate.
  - apply NoDup_ListNoDup. simpl.
    repeat (apply List.NoDup_cons; [simpl; intuition discriminate|]).
    apply List.NoDup_nil.
  - repeat constructor.
  - vm_compute. reflexivity.
Defined.

(** * Invariants of the main loop *)

Section LoopInvariant.
Context {R : Type}.
Variable push : nat -> Proc -> R -> R.
Variable is_empty : R -> bool.
Variable dispatch : State R -> Outcome (Flow * State R).
Variable G : list string -> R -> Prop.
Variable named : nat -> Proc -> R -> Prop.
Variable J : State R -> Prop.

Hypothesis push_ok : forall pids i p r,
  pids !! i = Some (pid p) -> G pids r -> G pids (push i p r).
Hypothesis dispatch_ok : forall st,
  ready_ok G st -> exists f st', dispatch st = Returned (f, st') /\ leads G st st'.
Hypothesis named_pid : forall i y y' r, pid y' = pid y -> named i y r -> named i y' r.
Hypothesis named_push_old : forall i y j p r, named i y r -> named i y (push j p r).
Hypothesis named_push_new : forall j p r, named j p (push j p r).
Hypothesis named_push_inv : forall i y j p r,
  named i y (push j p r) -> named i y r \/ i = j \/ pid y = pid p.
Hypothesis empty_names_nobody : forall r i y, is_empty r = true -> ~ named i y r.
Hypothesis dispatch_books : forall st f st',
  ready_ok G st -> books named None st -> dispatch st = Returned (f, st') ->
  books named None st'.
Hypothesis enqueue_J : forall st,
  books named None st -> J st -> J (enqueueArrivals push st).
Hypothesis iteration_J : forall st f st',
  ready_ok G st -> books named None st -> J st ->
  iteration push dispatch st = Returned (f, st') -> J st'.

Lemma main_loop_keeps fuel : forall (st st' : State R),
  ready_ok G st -> books named None st -> J st ->
  main_loop push is_empty dispatch fuel st = Returned st' ->
  books named None st' /\ J st'.
Proof.
  induction fuel as [|fuel IH]; intros st st' Hg Hb Hj; cbn [main_loop].
  - now intros [= <-].
  - destruct (work_left is_empty st); [|now intros [= <-]].
    destruct (iteration push dispatch st) as [[f st1]|] eqn:Hit; [|discriminate].
    destruct (iteration_keeps push dispatch G named push_ok dispatch_ok named_pid
                named_push_old named_push_new named_push_inv dispatch_books
                st f st1 Hg Hb Hit) as (Hg1 & Hb1 & _).
    assert (Hj1 : J st1) by now apply (iteration_J st f st1).
    destruct f; [now apply IH | now intros [= <-]].
Qed.

(** A run ends in a state in which the books are in order and [J] holds,
    when [J] holds at the start. *)
Lemma run_simulator_keeps_each (ps : list Proc) (r0 : R) :
  NoDup (map pid ps) ->
  Forall (fun p => exists d, p = init_proc d) ps ->
  is_empty r0 = true ->
  G (map pid ps) r0 ->
  J (mkState ps 0 r0 [] []) ->
  exists st, run_simulator push is_empty dispatch ps r0 = Returned (finish st)
             /\ books named None st /\ J st
             /\ rtc prim (start_log ps) (erase st).
Proof.
  intros Hnd Hinit He Hg0 Hj0. unfold run_simulator.
  set (st0 := mkState ps 0 r0 [] []).
  destruct (enqueueArrivals_leads push G push_ok st0) as [Hs0 Hg1].
  specialize (Hg1 Hg0).
  assert (Hb0 : books named None st0) by now apply (start_books is_empty).
  assert (Hb1 : books named None (enqueueArrivals push st0)) by now apply books_enqueue.
  assert (Hj1 : J (enqueueArrivals push st0)) by now apply enqueue_J.
  destruct (main_loop_leads push is_empty G push_ok dispatch dispatch_ok maxIter
              (enqueueArrivals push st0) Hg1) as (st & Hm & Hs & _).
  rewrite Hm. exists st. split; [reflexivity|].
  destruct (main_loop_keeps maxIter _ st Hg1 Hb1 Hj1 Hm) as [Hb Hj].
  split; [exact Hb|]. split; [exact Hj|].
  now apply rtc_trans with (erase (enqueueArrivals push st0)).
Qed.

End LoopInvariant.

(** The same with an invariant that [enqueueArrivals] and the rest of an
    iteration keep separately. *)
Section LoopInvariantByDispatch.
Context {R : Type}.
Variable push : nat -> Proc -> R -> R.
Variable is_empty : R -> bool.
Variable dispatch : State R -> Outcome (Flow * State R).
Variable G : list string -> R -> Prop.
Variable named : nat -> Proc -> R -> Prop.
Variable J : State R -> Prop.

Hypothesis push_ok : forall pids i p r,
  pids !! i = Some (pid p) -> G pids r -> G pids (push i p r).
Hypothesis dispatch_ok : forall st,
  ready_ok G st -> exists f st', dispatch st = Returned (f, st') /\ leads G st st'.
Hypothesis named_pid : forall i y y' r, pid y' = pid y -> named i y r -> named i y' r.
Hypothesis named_push_old : forall i y j p r, named i y r -> named i y (push j p r).
Hypothesis named_push_new : forall j p r, named j p (push j p r).
Hypothesis named_push_inv : forall i y j p r,
  named i y (push j p r) -> named i y r \/ i = j \/ pid y = pid p.
Hypothesis empty_names_nobody : forall r i y, is_empty r = true -> ~ named i y r.
Hypothesis dispatch_books : forall st f st',
  ready_ok G st -> books named None st -> dispatch st = Returned (f, st') ->
  books named None st'.
Hypothesis enqueue_J : forall st,
  books named None st -> J st -> J (enqueueArrivals push st).
Hypothesis dispatch_J : forall st f st',
  ready_ok G st -> books named None st -> J st ->
  dispatch st = Returned (f, st') -> J st'.

Lemma run_simulator_keeps (ps : list Proc) (r0 : R) :
  NoDup (map pid ps) ->
  Forall (fun p => exists d, p = init_proc d) ps ->
  is_empty r0 = true ->
  G (map pid ps) r0 ->
  J (mkState ps 0 r0 [] []) ->
  exists st, run_simulator push is_empty dispatch ps r0 = Returned (finish st)
             /\ books named None st /\ J st
             /\ rtc prim (start_log ps) (erase st).
Proof.
  apply (run_simulator_keeps_each push is_empty dispatch G named J push_ok dispatch_ok
           named_pid named_push_old named_push_new named_push_inv empty_names_nobody
           dispatch_books enqueue_J).
  intros st f st' Hg Hb Hj Hit. unfold iteration in Hit.
  destruct (enqueueArrivals_leads push G push_ok st) as [_ Hg'].
  apply (dispatch_J _ _ _) with (4 := Hit).
  - now apply Hg'.
  - now apply books_enqueue.
  - now apply enqueue_J.
Qed.

End LoopInvariantByDispatch.

(** * Idle units *)

Lemma sort_insert_perm_arrival (x : Proc) (l : list Proc) :
  Permutation (sort_insert by_arrival x l) (x :: l).
Proof. apply sort_insert_perm. Qed.

Lemma sort_insert_ascending (x : Proc) (l : list Proc) :
  ascending (map arrival l) -> ascending (map arrival (sort_insert by_arrival x l)).
Proof.
  induction l as [|y l IH]; intros Hl; [simpl; auto|].
  cbn [sort_insert]. unfold by_arrival at 1.
  destruct Hl as [Hy Hl]. destruct (Z.ltb_spec 0 (arrival x - arrival y)) as [Hlt|Hle].
  - cbn [map ascending]. split; [|now apply IH].
    rewrite (sort_insert_perm_arrival x l). constructor; [lia | exact Hy].
  - cbn [map ascending]. split; [|split; [exact Hy | exact Hl]].
    constructor; [lia|]. eapply Forall_impl; [exact Hy|]. intros b Hb. simpl in Hb. lia.
Qed.

Lemma js_sort_ascending (l : list Proc) :
  ascending (map arrival (js_sort by_arrival l)).
Proof.
  induction l as [|x l IH]; [exact I|].
  change (js_sort by_arrival (x :: l)) with (sort_insert by_arrival x (js_sort by_arrival l)).
  now apply sort_insert_ascending.
Qed.

Lemma descriptor_arrivals (ps : list Proc) :
  map d_arrival (map descriptor_of ps) = map arrival ps.
Proof. now rewrite map_map. Qed.

(** In a list in the order of arrival, the first process with a property
    arrives no later than the others with it. *)
Lemma find_first_arrival (f : Proc -> bool) (ps : list Proc) x :
  ascending (map arrival ps) -> find f ps = Some x ->
  forall y, In y ps -> f y = true -> arrival x <= arrival y.
Proof.
  induction ps as [|z ps IH]; intros Hs Hf y Hy Hfy; [destruct Hy|].
  destruct Hs as [Hz Hs]. cbn [find] in Hf. destruct (f z) eqn:Hfz.
  - injection Hf as <-. destruct Hy as [<-|Hy]; [lia|].
    rewrite List.Forall_forall in Hz. apply Hz. now apply in_map.
  - destruct Hy as [<-|Hy]; [congruence|]. now apply IH.
Qed.

Lemma busy_after_refl {R} (st : State R) : busy_after st st.
Proof. split; [reflexivity|]. exists []. now rewrite app_nil_r. Qed.

Lemma busy_after_trans {R} (a b c : State R) :
  busy_after a b -> busy_after b c -> busy_after a c.
Proof.
  intros [Hd1 (u1 & Hh1 & Hu1)] [Hd2 (u2 & Hh2 & Hu2)]. split; [congruence|].
  exists (u1 ++ u2). split; [now rewrite Hh2, Hh1, app_assoc|].
  apply Forall_app. now split.
Qed.

Lemma busy_after_quiet {R} (st st' : State R) : busy_after st st' -> quiet st -> quiet st'.
Proof.
  intros [Hd (units & Hh & Hu)] [Hs Hq]. split; [now rewrite Hd|].
  rewrite Hh. apply Forall_app. split; [exact Hq|].
  eapply Forall_impl; [exact Hu|]. intros s Hs' Hn. contradiction.
Qed.

Lemma busy_after_alter {R} (f : Proc -> Proc) i (st : State R) :
  (forall p, descriptor_of (f p) = descriptor_of p) ->
  busy_after st (with_procs (alter f i (procs st)) st).
Proof.
  intros Hf. split; [now apply alter_descriptors|].
  exists []. now rewrite app_nil_r.
Qed.

Lemma busy_after_ready {R} (r : R) (st : State R) : busy_after st (with_ready r st).
Proof. split; [reflexivity|]. exists []. now rewrite app_nil_r. Qed.

Section Idle.
Context {R : Type}.
Variable push : nat -> Proc -> R -> R.
Variable view : list Proc -> R -> list string.
Variable idle_view : R -> list string.
Variable named : nat -> Proc -> R -> Prop.

Lemma busy_after_enqueue (st : State R) : busy_after st (enqueueArrivals push st).
Proof.
  destruct (enqueueArrivals_fields push st) as (_ & Hh & _ & Hc).
  split; [now apply core_descriptor|]. exists []. now rewrite app_nil_r.
Qed.

Lemma quiet_enqueue (st : State R) : quiet st -> quiet (enqueueArrivals push st).
Proof. apply busy_after_quiet, busy_after_enqueue. Qed.

Lemma busy_after_exec_unit i p (st : State R) :
  busy_after st (exec_unit push view i p st).
Proof.
  unfold exec_unit. eapply busy_after_trans; [|apply busy_after_enqueue].
  split; cbn [procs history emit with_procs].
  - now apply alter_descriptors.
  - eexists. split; [reflexivity|]. constructor; [discriminate | constructor].
Qed.

Lemma busy_after_run_for n : forall i p (st : State R),
  busy_after st (run_for push view n i p st).
Proof.
  induction n as [|n IH]; intros i p st; cbn [run_for]; [apply busy_after_refl|].
  eapply busy_after_trans; [apply busy_after_exec_unit | apply IH].
Qed.

Lemma busy_after_run_to_completion n : forall i p (st : State R),
  busy_after st (run_to_completion push view n i p st).
Proof.
  induction n as [|n IH]; intros i p st; cbn [run_to_completion];
    [apply busy_after_refl|].
  destruct (0 <? remaining (procs st !!! i)); [|apply busy_after_refl].
  eapply busy_after_trans; [apply busy_after_exec_unit | apply IH].
Qed.

Lemma busy_after_run_slice requeue q i p (st : State R) :
  busy_after st (run_slice push view requeue q i p st).
Proof.
  unfold run_slice.
  eapply busy_after_trans; [apply busy_after_run_for|].
  match goal with |- context [if ?c then _ else _] => destruct c end.
  - now apply busy_after_alter.
  - apply busy_after_ready.
Qed.

Lemma busy_after_run_whole i p (st : State R) :
  busy_after st (run_whole push view i p st).
Proof.
  unfold run_whole.
  eapply busy_after_trans; [apply busy_after_run_to_completion|].
  now apply busy_after_alter.
Qed.

Lemma with_found_busy p (st : State R) k f st' :
  (forall i s, busy_after s (k i s)) ->
  with_found p st k = Returned (f, st') -> busy_after st st'.
Proof.
  intros Hk. unfold with_found. destruct (find_index _ _) as [i|]; [|discriminate].
  intros [= _ <-]. eapply busy_after_trans; [|apply Hk].
  apply busy_after_alter. intros y. unfold set_start, descriptor_of. reflexivity.
Qed.

(** The idle stretch before [jumpTo], when every process with work arrives
    at [jumpTo] or later. *)
Lemma idle_until_quiet fuel : forall jumpTo (st : State R),
  Forall (fun y => 0 < remaining y -> jumpTo <= arrival y) (procs st) ->
  quiet st -> quiet (idle_until idle_view fuel jumpTo st).
Proof.
  induction fuel as [|fuel IH]; intros jumpTo st Hlate Hq; cbn [idle_until];
    [exact Hq|].
  destruct (Z.ltb_spec (time st) jumpTo) as [Hlt|_]; [|exact Hq].
  apply IH; [exact Hlate|]. destruct Hq as [Hs Hh].
  split; cbn [procs history emit]; [exact Hs|].
  apply Forall_app. split; [exact Hh|]. constructor; [|constructor].
  intros _. cbn [snap_procs snap_time snapshotState]. unfold makeProcessState.
  apply Forall_map. eapply Forall_impl; [exact Hlate|].
  intros y Hy. cbn [ps_remaining ps_arrival]. intros Hr. specialize (Hy Hr). lia.
Qed.

(** The idle branch, taken when the ready structure names nobody. *)
Lemma idle_phase_quiet (st : State R) f st' :
  books named None st -> (forall i y, ~ named i y (ready st)) ->
  quiet st -> idle_phase push idle_view st = (f, st') -> quiet st'.
Proof.
  intros (_ & _ & _ & Hb) Hnobody Hq. unfold idle_phase.
  destruct (find _ (procs st)) as [next|] eqn:Hfind; intros [= _ <-]; [|exact Hq].
  apply quiet_enqueue, idle_until_quiet; [|exact Hq].
  apply List.Forall_forall. intros y Hy Hr.
  destruct Hq as [Hs _]. rewrite descriptor_arrivals in Hs.
  apply (find_first_arrival _ _ _ Hs Hfind y Hy).
  destruct (enqueued y) eqn:He.
  - exfalso. apply list_elem_of_In, list_elem_of_lookup in Hy as [i Hi].
    destruct (Hb i y Hi He Hr) as [H|H]; [discriminate|]. now apply (Hnobody i y).
  - simpl. now apply Z.ltb_lt.
Qed.

End Idle.

Lemma rr_dispatch_quiet quantum (st : State (list string)) f st' :
  books queue_named None st -> quiet st ->
  rr_dispatch quantum st = Returned (f, st') -> quiet st'.
Proof.
  intros Hb Hq. unfold rr_dispatch. destruct (ready st) as [|p rest] eqn:Hr.
  - intros [= H]. apply (idle_phase_quiet queue_push (fun q => q) queue_named st f st');
      trivial. intros i y. rewrite Hr. intros [].
  - intros H. apply with_found_busy in H.
    + eapply busy_after_quiet; [|exact Hq].
      eapply busy_after_trans; [apply busy_after_ready | exact H].
    + intros i s. apply busy_after_run_slice.
Qed.

Lemma fcfs_dispatch_quiet (st : State (list string)) f st' :
  books queue_named None st -> quiet st ->
  fcfs_dispatch st = Returned (f, st') -> quiet st'.
Proof.
  intros Hb Hq. unfold fcfs_dispatch. destruct (ready st) as [|p rest] eqn:Hr.
  - intros [= H]. apply (idle_phase_quiet queue_push (fun q => q) queue_named st f st');
      trivial. intros i y. rewrite Hr. intros [].
  - intros H. apply with_found_busy in H.
    + eapply busy_after_quiet; [|exact Hq].
      eapply busy_after_trans; [apply busy_after_ready | exact H].
    + intros i s. apply busy_after_run_whole.
Qed.

Lemma pick_dispatch_quiet cmp (st : State (list nat)) f st' :
  books list_named None st -> quiet st ->
  pick_dispatch cmp st = Returned (f, st') -> quiet st'.
Proof.
  intros Hb Hq. unfold pick_dispatch. destruct (ready st) as [|i0 rest0] eqn:Hr.
  - intros [= H]. apply (idle_phase_quiet list_push (fun _ => []) list_named st f st');
      trivial. intros i y. rewrite Hr. intros [].
  - destruct (js_sort _ _) as [|i rest]; [discriminate|]. intros [= _ <-].
    eapply busy_after_quiet; [|exact Hq].
    eapply busy_after_trans; [|apply busy_after_run_whole].
    split; cbn [procs history]; [|exists []; now rewrite app_nil_r].
    now apply alter_descriptors.
Qed.

Lemma mlq_dispatch_quiet fgQuantum bgQuantum (st : State MlqQueues) f st' :
  books mlq_named None st -> quiet st ->
  mlq_dispatch fgQuantum bgQuantum st = Returned (f, st') -> quiet st'.
Proof.
  intros Hb Hq. unfold mlq_dispatch.
  destruct (fgQueue (ready st)) as [|p rest] eqn:Hfq.
  - destruct (bgQueue (ready st)) as [|p rest] eqn:Hbq.
    + intros [= H]. apply (idle_phase_quiet mlq_push (fun _ => []) mlq_named st f st');
        trivial. intros i y. unfold mlq_named. rewrite Hfq, Hbq. intros [].
    + intros H. apply with_found_busy in H.
      * eapply busy_after_quiet; [|exact Hq].
        eapply busy_after_trans; [apply busy_after_ready | exact H].
      * intros i s. destruct bgQuantum;
          [apply busy_after_run_slice | apply busy_after_run_whole].
  - intros H. apply with_found_busy in H.
    + eapply busy_after_quiet; [|exact Hq].
      eapply busy_after_trans; [apply busy_after_ready | exact H].
    + intros i s. apply busy_after_run_slice.
Qed.

Lemma quiet_start {R} (ps : list Proc) (r0 : R) :
  ascending (map arrival ps) -> quiet (mkState ps 0 r0 [] []).
Proof.
  intros Hs. split; cbn [procs history]; [|constructor]. now rewrite descriptor_arrivals.
Qed.

Lemma init_procs_ok (ds : list Descriptor) :
  Forall (fun p => exists d, p = init_proc d) (map init_proc ds).
Proof.
  apply List.Forall_forall. intros p Hp. apply in_map_iff in Hp as (d & <- & _).
  now exists d.
Qed.

Lemma sorted_procs_ok (ds : list Descriptor) :
  NoDup (map d_pid ds) ->
  NoDup (map pid (js_sort by_arrival (map init_proc ds)))
  /\ Forall (fun p => exists d, p = init_proc d) (js_sort by_arrival (map init_proc ds))
  /\ ascending (map arrival (js_sort by_arrival (map init_proc ds))).
Proof.
  intros Hnd. split; [|split].
  - rewrite js_sort_perm, map_map. exact Hnd.
  - rewrite js_sort_perm. apply init_procs_ok.
  - apply js_sort_ascending.
Qed.

Lemma simulateRR_quiet processes quantum :
  NoDup (map d_pid processes) ->
  exists r, simulateRR processes quantum = Returned r
            /\ Forall nobody_waits (historySnapshots r).
Proof.
  intros Hnd. destruct (sorted_procs_ok processes Hnd) as (H1 & H2 & H3).
  destruct (run_simulator_keeps queue_push queue_empty (rr_dispatch quantum) queue_ok
              queue_named quiet queue_push_ok (rr_dispatch_ok quantum) queue_named_pid
              queue_named_push_old queue_named_push_new queue_named_push_inv
              queue_empty_names_nobody
              (fun st f st' _ => rr_dispatch_books quantum st f st')
              (fun st _ => quiet_enqueue queue_push st)
              (fun st f st' _ => rr_dispatch_quiet quantum st f st')
              (js_sort by_arrival (map init_proc processes)) [] H1 H2 eq_refl
              (List.Forall_nil _) (quiet_start _ _ H3))
    as (st & Hr & _ & [_ Hq] & _).
  exists (finish st). now split.
Qed.

Lemma simulateFCFS_quiet processes :
  NoDup (map d_pid processes) ->
  exists r, simulateFCFS processes = Returned r
            /\ Forall nobody_waits (historySnapshots r).
Proof.
  intros Hnd. destruct (sorted_procs_ok processes Hnd) as (H1 & H2 & H3).
  destruct (run_simulator_keeps queue_push queue_empty fcfs_dispatch queue_ok
              queue_named quiet queue_push_ok fcfs_dispatch_ok queue_named_pid
              queue_named_push_old queue_named_push_new queue_named_push_inv
              queue_empty_names_nobody
              (fun st f st' _ => fcfs_dispatch_books st f st')
              (fun st _ => quiet_enqueue queue_push st)
              (fun st f st' _ => fcfs_dispatch_quiet st f st')
              (js_sort by_arrival (map init_proc processes)) [] H1 H2 eq_refl
              (List.Forall_nil _) (quiet_start _ _ H3))
    as (st & Hr & _ & [_ Hq] & _).
  exists (finish st). now split.
Qed.

Lemma simulateMLQ_quiet processes fgQuantum bgQuantum :
  NoDup (map d_pid processes) ->
  exists r, simulateMLQ processes fgQuantum bgQuantum = Returned r
            /\ Forall nobody_waits (historySnapshots r).
Proof.
  intros Hnd. destruct (sorted_procs_ok processes Hnd) as (H1 & H2 & H3).
  destruct (run_simulator_keeps mlq_push mlq_empty (mlq_dispatch fgQuantum bgQuantum)
              mlq_ok mlq_named quiet mlq_push_ok (mlq_dispatch_ok fgQuantum bgQuantum)
              mlq_named_pid mlq_named_push_old mlq_named_push_new mlq_named_push_inv
              mlq_empty_names_nobody
              (fun st f st' _ => mlq_dispatch_books fgQuantum bgQuantum st f st')
              (fun st _ => quiet_enqueue mlq_push st)
              (fun st f st' _ => mlq_dispatch_quiet fgQuantum bgQuantum st f st')
              (js_sort by_arrival (map init_proc processes)) (mkMlqQueues [] [])
              H1 H2 eq_refl (conj (List.Forall_nil _) (List.Forall_nil _)) (quiet_start _ _ H3))
    as (st & Hr & _ & [_ Hq] & _).
  exists (finish st). now split.
Qed.

Lemma simulate_pick_quiet cmp processes :
  NoDup (map d_pid processes) ->
  ascending (map d_arrival processes) ->
  exists r, run_simulator list_push list_empty (pick_dispatch cmp)
              (map init_proc processes) [] = Returned r
            /\ Forall nobody_waits (historySnapshots r).
Proof.
  intros Hnd Hs.
  assert (H1 : NoDup (map pid (map init_proc processes))) by now rewrite map_map.
  assert (H3 : ascending (map arrival (map init_proc processes))) by now rewrite map_map.
  destruct (run_simulator_keeps list_push list_empty (pick_dispatch cmp) list_ok
              list_named quiet list_push_ok (pick_dispatch_ok cmp) list_named_pid
              list_named_push_old list_named_push_new list_named_push_inv
              list_empty_names_nobody
              (pick_dispatch_books cmp)
              (fun st _ => quiet_enqueue list_push st)
              (fun st f st' _ => pick_dispatch_quiet cmp st f st')
              (map init_proc processes) [] H1 (init_procs_ok processes) eq_refl
              (List.Forall_nil _) (quiet_start _ _ H3))
    as (st & Hr & _ & [_ Hq] & _).
  exists (finish st). now split.
Qed.

(** X19. When the processes have different pids, Round Robin, FCFS and the
    multilevel queue never leave the CPU idle while a process waits: in every
    snapshot without a process on the CPU, each process that still has work
    arrives after the time of the snapshot.  SJF and Priority keep [procs] in
    the order of the input and wait for its first process that is not yet
    admitted, so the same holds for them when the input is in the order of
    arrival. *)
Theorem idle_only_when_nobody_waits (algorithm : string) (ps : list ProcIn)
    (o : Options) :
  NoDup (map in_pid ps) ->
  (algorithm = "SJF"%string \/ algorithm = "PRIORITY"%string ->
   ascending (map in_arrival ps)) ->
  exists r, simulate algorithm ps o = Returned r
            /\ Forall nobody_waits (historySnapshots r).
Proof.
  intros Hnd Hs.
  assert (Hnd' : NoDup (map d_pid (map normalize ps))) by now rewrite map_map.
  assert (Harr : map d_arrival (map normalize ps) = map in_arrival ps)
    by now rewrite map_map.
  unfold simulate. cbv zeta.
  destruct (String.eqb algorithm "RR"); [now apply simulateRR_quiet|].
  destruct (String.eqb algorithm "FCFS"); [now apply simulateFCFS_quiet|].
  destruct (String.eqb_spec algorithm "SJF") as [E|_].
  { apply simulate_pick_quiet; [exact Hnd'|]. rewrite Harr. apply Hs. now left. }
  destruct (String.eqb_spec algorithm "PRIORITY") as [E|_].
  { apply simulate_pick_quiet; [exact Hnd'|]. rewrite Harr. apply Hs. now right. }
  destruct (String.eqb algorithm "MLQ"); [now apply simulateMLQ_quiet|].
  now apply simulateRR_quiet.
Qed.

Lemma idle_only_when_nobody_waits_witness :
  exists r, simulate "SJF" with_a_gap no_options = Returned r
            /\ Forall nobody_waits (historySnapshots r).
Proof.
  apply (idle_only_when_nobody_waits "SJF" with_a_gap no_options).
  - apply NoDup_ListNoDup. simpl.
    repeat (apply List.NoDup_cons; [simpl; intuition discriminate|]).
    apply List.NoDup_nil.
  - intros _. simpl. repeat constructor; lia.
Defined.

(** * Runs without preemption: FCFS, SJF and Priority *)

Section NonPreemptive.
Context {R : Type}.
Variable push : nat -> Proc -> R -> R.
Variable view : list Proc -> R -> list string.
Variable idle_view : R -> list string.
Variable named : nat -> Proc -> R -> Prop.
Variable distinct : R -> Prop.

Hypothesis named_pid : forall i y y' r, pid y' = pid y -> named i y r -> named i y' r.
Hypothesis named_push_old : forall i y j p r, named i y r -> named i y (push j p r).
Hypothesis named_push_new : forall j p r, named j p (push j p r).
Hypothesis named_push_inv : forall i y j p r,
  named i y (push j p r) -> named i y r \/ i = j \/ pid y = pid p.
Hypothesis distinct_push : forall j p r,
  distinct r -> ~ named j p r -> distinct (push j p r).

Lemma enqueue_from_distinct now (ps : list Proc) : forall i r,
  NoDup (map pid ps) -> distinct r ->
  (forall j p, ps !! j = Some p -> admissible now p = true -> ~ named (i + j) p r) ->
  distinct (snd (enqueue_from push now i ps r)).
Proof.
  induction ps as [|p ps IH]; intros i r Hnd Hd Hnew; [exact Hd|].
  cbn [enqueue_from].
  change (negb (enqueued p) && (arrival p <=? now) && (0 <? remaining p))
    with (admissible now p).
  cbn [map] in Hnd. apply NoDup_cons in Hnd as [Hp Hnd].
  destruct (admissible now p) eqn:Hadm.
  - specialize (IH (S i) (push i p r) Hnd).
    destruct (enqueue_from push now (S i) ps (push i p r)) as [qs r'].
    cbn [snd] in *. apply IH.
    + apply distinct_push; [exact Hd|].
      specialize (Hnew 0%nat p eq_refl Hadm). now rewrite Nat.add_0_r in Hnew.
    + intros j q Hq Hq' Hn.
      destruct (named_push_inv _ _ _ _ _ Hn) as [H|[H|H]].
      * apply (Hnew (S j) q); [exact Hq | exact Hq'|].
        now replace (i + S j)%nat with (S i + j)%nat by lia.
      * lia.
      * apply Hp. rewrite <- H. apply list_elem_of_In, in_map, list_elem_of_In.
        eapply list_elem_of_lookup_2, Hq.
  - specialize (IH (S i) r Hnd).
    destruct (enqueue_from push now (S i) ps r) as [qs r'].
    cbn [snd] in *. apply IH; [exact Hd|].
    intros j q Hq Hq'. replace (S i + j)%nat with (i + S j)%nat by lia.
    now apply Hnew.
Qed.

Lemma admit_mark_times now y :
  startTime (admit_mark now y) = startTime y
  /\ completionTime (admit_mark now y) = completionTime y
  /\ burst (admit_mark now y) = burst y.
Proof. unfold admit_mark. now destruct (admissible now y). Qed.

Lemma nonpreemptive_enqueue run (st : State R) :
  books named run st -> nonpreemptive named distinct run st ->
  nonpreemptive named distinct run (enqueueArrivals push st).
Proof.
  intros (Hnd & Hok & Ha & _) (Hd & Hw & Hu1 & Hu2).
  destruct (enqueueArrivals_fields push st) as (Ht & _ & _ & _).
  pose proof (enqueueArrivals_procs push st) as Hp.
  pose proof (enqueueArrivals_ready push st) as Hr.
  destruct (enqueue_from_named push named named_push_old named_push_new named_push_inv
              (time st) (procs st) 0 (ready st)) as (_ & _ & C).
  assert (Hfresh : forall j p, procs st !! j = Some p -> admissible (time st) p = true ->
                               enqueued p = false).
  { intros j p _ Hadm. unfold admissible in Hadm. now destruct (enqueued p). }
  split; [|split; [|split]].
  - rewrite Hr. apply enqueue_from_distinct; trivial.
    intros j p Hj Hadm Hn. simpl in Hn.
    pose proof (Ha j p Hj Hn). rewrite (Hfresh j p Hj Hadm) in *. discriminate.
  - intros k y' Hy' Hn. rewrite Hp, list_lookup_fmap in Hy'. rewrite Hr in Hn.
    destruct (procs st !! k) as [y|] eqn:Hy; [|discriminate]. injection Hy' as <-.
    destruct (admit_mark_times (time st) y) as (-> & _).
    destruct (admit_mark_fields (time st) y) as [Hpid _].
    destruct (C k _ Hn) as [H1|(j & p & Hj & Hadm & Hk)].
    + apply (Hw k y Hy). now apply (named_pid _ (admit_mark (time st) y)).
    + assert (k = j) as ->.
      { destruct Hk as [->|Hk]; [reflexivity|].
        apply (NoDup_pid_index (procs st) k j y p Hnd Hy Hj). congruence. }
      assert (y = p) as -> by congruence.
      rewrite List.Forall_forall in Hok.
      destruct (Hok p) as (_ & Hout & _).
      { apply list_elem_of_In. eapply list_elem_of_lookup_2, Hj. }
      now destruct (Hout (Hfresh j p Hj Hadm)) as (_ & ? & _).
  - intros k y' s Hrun Hy' Hs. rewrite Hp, list_lookup_fmap in Hy'.
    destruct (procs st !! k) as [y|] eqn:Hy; [|discriminate]. injection Hy' as <-.
    destruct (admit_mark_times (time st) y) as (E1 & E2 & E3).
    rewrite E1 in Hs. rewrite E2, E3. now apply (Hu1 k y s).
  - intros i Hi. destruct (Hu2 i Hi) as (y & s & Hy & Hs & Hc & Hrem).
    exists (admit_mark (time st) y), s. rewrite Hp, list_lookup_fmap, Hy, Ht.
    destruct (admit_mark_times (time st) y) as (E1 & E2 & E3).
    rewrite E1, E2, E3, admit_mark_remaining. auto.
Qed.

Lemma nonpreemptive_idle_until fuel : forall jumpTo (st : State R),
  nonpreemptive named distinct None st ->
  nonpreemptive named distinct None (idle_until idle_view fuel jumpTo st).
Proof.
  induction fuel as [|fuel IH]; intros jumpTo st Hn; cbn [idle_until]; [exact Hn|].
  destruct (time st <? jumpTo); [|exact Hn]. apply IH.
  destruct Hn as (Hd & Hw & Hu1 & Hu2). split; [exact Hd|]. split; [exact Hw|].
  split; [exact Hu1|]. intros i Hi. discriminate.
Qed.

Lemma nonpreemptive_idle_phase (st : State R) f st' :
  books named None st -> nonpreemptive named distinct None st ->
  idle_phase push idle_view st = (f, st') -> nonpreemptive named distinct None st'.
Proof.
  intros Hb Hn. unfold idle_phase.
  destruct (find _ (procs st)); intros [= _ <-]; [|exact Hn].
  apply nonpreemptive_enqueue.
  - now apply (books_idle_until idle_view named).
  - now apply nonpreemptive_idle_until.
Qed.

Lemma nonpreemptive_exec_unit i p (st : State R) :
  books named (Some i) st -> running i 1 st ->
  nonpreemptive named distinct (Some i) st ->
  nonpreemptive named distinct (Some i) (exec_unit push view i p st).
Proof.
  intros Hb Hr (Hd & Hw & Hu1 & Hu2). unfold exec_unit.
  apply nonpreemptive_enqueue.
  - apply (books_exec_step named i _ _ _ 1 st Hb Hr). lia.
  - split; [exact Hd|]. split; [|split]; cbn [procs time ready emit with_procs].
    + intros k z' Hz' Hn.
      destruct (lookup_alter_cases _ _ _ _ _ Hz') as [(-> & z & Hz & ->)|(Hne & Hz)].
      * cbn [startTime dec_remaining]. apply (Hw i z Hz).
        now apply (named_pid _ (dec_remaining z)).
      * now apply (Hw k z').
    + intros k z' s Hrun Hz' Hs.
      destruct (lookup_alter_cases _ _ _ _ _ Hz') as [(-> & z & Hz & ->)|(Hne & Hz)];
        [congruence|]. now apply (Hu1 k z' s).
    + intros j [= <-]. destruct (Hu2 i eq_refl) as (y & s & Hy & Hs & Hc & Hrem).
      exists (dec_remaining y), s. rewrite list_lookup_alter_eq, Hy.
      cbn [startTime completionTime burst remaining dec_remaining].
      repeat split; trivial. lia.
Qed.

Lemma nonpreemptive_run_to_completion fuel : forall i p (st : State R),
  books named (Some i) st -> running i 0 st ->
  nonpreemptive named distinct (Some i) st ->
  nonpreemptive named distinct (Some i) (run_to_completion push view fuel i p st).
Proof.
  induction fuel as [|n IH]; intros i p st Hb Hr Hn; cbn [run_to_completion]; [auto|].
  destruct (Z.ltb_spec 0 (remaining (procs st !!! i))) as [Hpos|_]; [|auto].
  assert (Hr1 : running i 1 st).
  { destruct Hr as (y & s & Hy & He & Hs & _). exists y, s. repeat split; trivial.
    rewrite (list_lookup_total_correct _ _ _ Hy) in Hpos. lia. }
  destruct (books_exec_unit push view named named_pid named_push_old named_push_new
              named_push_inv i p 1 st Hb Hr1) as [Hb1 Hr2]; [lia|].
  apply IH; trivial. now apply nonpreemptive_exec_unit.
Qed.

(** The process at position [i], which the ready structure named, is taken
    out of it and started. *)
Lemma nonpreemptive_select i y (st : State R) r' :
  books named None st -> nonpreemptive named distinct None st ->
  procs st !! i = Some y -> named i y (ready st) ->
  distinct r' ->
  (forall k z, named k z r' -> named k z (ready st)) ->
  (forall z, pid z = pid y -> ~ named i z r') ->
  nonpreemptive named distinct (Some i)
    (with_procs (alter (set_start (time st)) i (procs st)) (with_ready r' st)).
Proof.
  intros (_ & Hok & Ha & _) (_ & Hw & Hu1 & _) Hy Hn Hd Hsub Hout.
  pose proof (Hw i y Hy Hn) as Hs. pose proof (Ha i y Hy Hn) as He.
  rewrite List.Forall_forall in Hok.
  destruct (Hok y) as (Hle & _ & Hin & _ & Hco).
  { apply list_elem_of_In. eapply list_elem_of_lookup_2, Hy. }
  destruct (Hin He) as (_ & _ & _ & Hstarted).
  split; [exact Hd|]. split; [|split]; cbn [procs time ready with_procs with_ready].
  - intros k z' Hz' Hnm.
    destruct (lookup_alter_cases _ _ _ _ _ Hz') as [(-> & z & Hz & ->)|(Hne & Hz)].
    + exfalso. assert (z = y) as -> by congruence.
      apply (Hout (set_start (time st) y)); [reflexivity | exact Hnm].
    + apply (Hw k z' Hz). now apply Hsub.
  - intros k z' s Hrun Hz' Hs'.
    destruct (lookup_alter_cases _ _ _ _ _ Hz') as [(-> & z & Hz & ->)|(Hne & Hz)];
      [congruence|]. now apply (Hu1 k z' s).
  - intros j [= <-]. exists (set_start (time st) y), (time st).
    split; [now rewrite list_lookup_alter_eq, Hy|].
    unfold set_start. rewrite Hs.
    cbn [startTime completionTime burst remaining]. split; [reflexivity|]. split.
    + destruct (completionTime y) as [c|] eqn:Hc; [|reflexivity].
      destruct (Hco c eq_refl) as (_ & _ & s' & Hs' & _). congruence.
    + destruct (Z.eq_dec (remaining y) (burst y)) as [->|Hne]; [lia|].
      exfalso. apply Hstarted; [lia | exact Hs].
Qed.

Lemma nonpreemptive_run_whole i p (st : State R) :
  books named (Some i) st -> running i 0 st ->
  nonpreemptive named distinct (Some i) st ->
  nonpreemptive named distinct None (run_whole push view i p st).
Proof.
  intros Hb Hr Hn. unfold run_whole.
  set (fuel := Z.to_nat (remaining (procs st !!! i))).
  pose proof (nonpreemptive_run_to_completion fuel i p st Hb Hr Hn) as (Hd & Hw & Hu1 & Hu2).
  assert (Hdone : remaining (procs (run_to_completion push view fuel i p st) !!! i) <= 0).
  { destruct Hr as (y & s & Hy & _). apply run_to_completion_done.
    - eapply lookup_lt_Some, Hy.
    - unfold fuel. lia. }
  set (st1 := run_to_completion push view fuel i p st) in *.
  destruct (Hu2 i eq_refl) as (y & s & Hy & Hs & Hc & Hrem).
  rewrite (list_lookup_total_correct _ _ _ Hy) in Hdone.
  destruct (books_run_to_completion push view named named_pid named_push_old
              named_push_new named_push_inv fuel i p st Hb Hr) as [Hb1 Hr1].
  fold st1 in Hb1, Hr1.
  assert (Hz : remaining y = 0).
  { destruct Hr1 as (y' & _ & Hy' & _ & _ & H0). assert (y' = y) as -> by congruence. lia. }
  split; [exact Hd|]. split; [|split]; cbn [procs time ready with_procs].
  - intros k z' Hz' Hnm.
    destruct (lookup_alter_cases _ _ _ _ _ Hz') as [(-> & z & Hz1 & ->)|(Hne & Hz1)].
    + cbn [startTime set_completion]. apply (Hw i z Hz1).
      now apply (named_pid _ (set_completion (time st1) z)).
    + now apply (Hw k z').
  - intros k z' s' _ Hz' Hs'.
    destruct (lookup_alter_cases _ _ _ _ _ Hz') as [(-> & z & Hz1 & ->)|(Hne & Hz1)].
    + assert (z = y) as -> by congruence.
      cbn [startTime completionTime burst set_completion] in *.
      assert (s' = s) as -> by congruence. f_equal. lia.
    + apply (Hu1 k z' s'); trivial. congruence.
  - intros j Hj. discriminate.
Qed.

End NonPreemptive.

Lemma queue_distinct_push j p (q : list string) :
  NoDup q -> ~ queue_named j p q -> NoDup (queue_push j p q).
Proof.
  unfold queue_named, queue_push. intros Hnd Hn.
  apply NoDup_app. split; [exact Hnd|]. split; [|apply NoDup_singleton].
  intros x Hx Hx'. apply list_elem_of_In in Hx. apply list_elem_of_In in Hx'.
  destruct Hx' as [<-|[]]. contradiction.
Qed.

Lemma list_distinct_push j p (l : list nat) :
  NoDup l -> ~ list_named j p l -> NoDup (list_push j p l).
Proof.
  unfold list_named, list_push. intros Hnd Hn.
  apply NoDup_app. split; [exact Hnd|]. split; [|apply NoDup_singleton].
  intros x Hx Hx'. apply list_elem_of_In in Hx. apply list_elem_of_In in Hx'.
  destruct Hx' as [<-|[]]. contradiction.
Qed.

Lemma fcfs_dispatch_nonpreemptive (st : State (list string)) f st' :
  books queue_named None st -> nonpreemptive queue_named NoDup None st ->
  fcfs_dispatch st = Returned (f, st') ->
  nonpreemptive queue_named NoDup None st'.
Proof.
  intros Hb Hn. unfold fcfs_dispatch. destruct (ready st) as [|p rest] eqn:Hq.
  - intros [= H].
    apply (nonpreemptive_idle_phase queue_push (fun q => q) queue_named NoDup
             queue_named_pid queue_named_push_old queue_named_push_new
             queue_named_push_inv queue_distinct_push st f st'); trivial.
  - unfold with_found.
    destruct (find_index _ _) as [i|] eqn:Hfind; [|discriminate].
    intros [= _ <-]. cbn [procs with_ready] in Hfind.
    destruct (queue_select st p rest i Hb Hq Hfind) as (H1 & H2 & _).
    pose proof (find_index_pid _ _ _ Hfind) as Hp. rewrite list_lookup_fmap in Hp.
    destruct (procs st !! i) as [y|] eqn:Hy; [|discriminate]. injection Hp as Hp.
    assert (Hnd : NoDup (p :: rest)) by (rewrite <- Hq; apply Hn).
    apply NoDup_cons in Hnd as [Hp' Hrest].
    apply (nonpreemptive_run_whole queue_push queue_view queue_named NoDup
             queue_named_pid queue_named_push_old queue_named_push_new
             queue_named_push_inv queue_distinct_push); trivial.
    apply (nonpreemptive_select queue_named NoDup i y st rest); trivial.
    + unfold queue_named. rewrite Hq, Hp. now left.
    + intros k z. unfold queue_named. rewrite Hq. now right.
    + intros z Hz. unfold queue_named. rewrite Hz, Hp. intros H.
      apply Hp'. now apply list_elem_of_In.
Qed.

Lemma pick_dispatch_nonpreemptive cmp (st : State (list nat)) f st' :
  ready_ok list_ok st ->
  books list_named None st -> nonpreemptive list_named NoDup None st ->
  pick_dispatch cmp st = Returned (f, st') ->
  nonpreemptive list_named NoDup None st'.
Proof.
  intros Hok Hb Hn. unfold pick_dispatch. destruct (ready st) as [|i0 rest0] eqn:Hq.
  - intros [= H].
    apply (nonpreemptive_idle_phase list_push (fun _ => []) list_named NoDup
             list_named_pid list_named_push_old list_named_push_new
             list_named_push_inv list_distinct_push st f st'); trivial.
  - set (cmp' := fun a b => cmp (procs st !!! a) (procs st !!! b)).
    pose proof (js_sort_perm cmp' (i0 :: rest0)) as Hperm.
    destruct (js_sort cmp' (i0 :: rest0)) as [|i rest] eqn:Hs; [discriminate|].
    intros [= _ <-].
    unfold ready_ok in Hok. rewrite Hq in Hok.
    assert (Hi : (i < length (procs st))%nat).
    { unfold list_ok in Hok. rewrite <- Hperm in Hok. inversion Hok; subst.
      now rewrite length_map in *. }
    destruct (lookup_lt_is_Some_2 _ i Hi) as [y Hy].
    assert (Hnd : NoDup (i :: rest)).
    { rewrite Hperm, <- Hq. apply Hn. }
    apply NoDup_cons in Hnd as [Hi' Hrest].
    destruct (books_select list_named list_named_pid i y st rest Hb Hy) as [H1 H2].
    + unfold list_named. rewrite Hq, <- Hperm. now left.
    + intros k z. unfold list_named. rewrite Hq, <- Hperm. now right.
    + intros k z _. unfold list_named. rewrite Hq, <- Hperm. intros [H|H]; auto.
    + apply (nonpreemptive_run_whole list_push list_view list_named NoDup
               list_named_pid list_named_push_old list_named_push_new
               list_named_push_inv list_distinct_push); trivial.
      apply (nonpreemptive_select list_named NoDup i y st rest); trivial.
      * unfold list_named. rewrite Hq, <- Hperm. now left.
      * intros k z. unfold list_named. rewrite Hq, <- Hperm. now right.
      * intros z _. unfold list_named. intros H. apply Hi'. now apply list_elem_of_In.
Qed.

Lemma nonpreemptive_start {R} (named : nat -> Proc -> R -> Prop) (distinct : R -> Prop)
    ps (r0 : R) :
  Forall (fun p => exists d, p = init_proc d) ps ->
  distinct r0 -> (forall i y, ~ named i y r0) ->
  nonpreemptive named distinct None (mkState ps 0 r0 [] []).
Proof.
  intros Hinit Hd Hnobody. split; [exact Hd|]. split; [|split]; cbn [procs ready].
  - intros k y _ Hn. exfalso. now apply (Hnobody k y).
  - intros k y s _ Hy Hs. exfalso. rewrite List.Forall_forall in Hinit.
    destruct (Hinit y) as [d ->]; [|discriminate].
    apply list_elem_of_In. eapply list_elem_of_lookup_2, Hy.
  - intros i Hi. discriminate.
Qed.

(** What the final books and the absence of preemption give in the report. *)
Lemma nonpreemptive_report {R} (named : nat -> Proc -> R -> Prop) (distinct : R -> Prop)
    (st : State R) :
  books named None st -> nonpreemptive named distinct None st ->
  Forall (fun x => f_remaining x < f_burst x ->
                   f_remaining x = 0
                   /\ f_completionTime x = f_startTime x + f_burst x
                   /\ f_waiting x = f_startTime x - f_arrival x)
         (map (finalize_proc (time st)) (procs st)).
Proof.
  intros (_ & Hok & _) (_ & _ & Hu1 & _). apply Forall_map.
  apply List.Forall_forall. intros y Hy.
  rewrite List.Forall_forall in Hok. destruct (Hok y Hy) as (Hle & Hout & Hin & _ & Hco).
  apply list_elem_of_In, list_elem_of_lookup in Hy as [k Hk].
  unfold finalize_proc.
  cbn [f_remaining f_burst f_completionTime f_startTime f_waiting f_arrival].
  intros Hlt. destruct (enqueued y) eqn:He.
  - destruct (Hin eq_refl) as (_ & _ & _ & Hst).
    destruct (startTime y) as [s|] eqn:Hs; [|now destruct (Hst Hlt)].
    assert (Hc : completionTime y = Some (s + burst y)) by now apply (Hu1 k y s).
    rewrite Hc. destruct (Hco _ Hc) as (Hz & _). split; [exact Hz|]. lia.
  - destruct (Hout eq_refl) as (Hrb & _). lia.
Qed.

Lemma simulateFCFS_unbroken ds :
  NoDup (map d_pid ds) ->
  exists r, simulateFCFS ds = Returned r
    /\ Forall (fun x => f_remaining x < f_burst x ->
                        f_remaining x = 0
                        /\ f_completionTime x = f_startTime x + f_burst x
                        /\ f_waiting x = f_startTime x - f_arrival x)
              (processes (stats r)).
Proof.
  intros Hnd. destruct (sorted_procs_ok ds Hnd) as (H1 & H2 & _).
  destruct (run_simulator_keeps queue_push queue_empty fcfs_dispatch queue_ok
              queue_named (nonpreemptive queue_named NoDup None)
              queue_push_ok fcfs_dispatch_ok queue_named_pid
              queue_named_push_old queue_named_push_new queue_named_push_inv
              queue_empty_names_nobody
              (fun st f st' _ => fcfs_dispatch_books st f st')
              (nonpreemptive_enqueue queue_push queue_named NoDup queue_named_pid
                 queue_named_push_old queue_named_push_new queue_named_push_inv
                 queue_distinct_push None)
              (fun st f st' _ => fcfs_dispatch_nonpreemptive st f st')
              (js_sort by_arrival (map init_proc ds)) [] H1 H2 eq_refl
              (List.Forall_nil _))
    as (st & Hr & Hb & Hn & _).
  { apply nonpreemptive_start; [exact H2 | apply NoDup_nil_2 | intros i y []]. }
  exists (finish st). split; [exact Hr|]. now apply (nonpreemptive_report queue_named NoDup).
Qed.

Lemma simulate_pick_unbroken cmp ds :
  NoDup (map d_pid ds) ->
  exists r, run_simulator list_push list_empty (pick_dispatch cmp)
              (map init_proc ds) [] = Returned r
    /\ Forall (fun x => f_remaining x < f_burst x ->
                        f_remaining x = 0
                        /\ f_completionTime x = f_startTime x + f_burst x
                        /\ f_waiting x = f_startTime x - f_arrival x)
              (processes (stats r)).
Proof.
  intros Hnd.
  assert (H1 : NoDup (map pid (map init_proc ds))) by now rewrite map_map.
  destruct (run_simulator_keeps list_push list_empty (pick_dispatch cmp) list_ok
              list_named (nonpreemptive list_named NoDup None)
              list_push_ok (pick_dispatch_ok cmp) list_named_pid
              list_named_push_old list_named_push_new list_named_push_inv
              list_empty_names_nobody
              (pick_dispatch_books cmp)
              (nonpreemptive_enqueue list_push list_named NoDup list_named_pid
                 list_named_push_old list_named_push_new list_named_push_inv
                 list_distinct_push None)
              (pick_dispatch_nonpreemptive cmp)
              (map init_proc ds) [] H1 (init_procs_ok ds) eq_refl
              (List.Forall_nil _))
    as (st & Hr & Hb & Hn & _).
  { apply nonpreemptive_start; [apply init_procs_ok | apply NoDup_nil_2 | intros i y []]. }
  exists (finish st). split; [exact Hr|]. now apply (nonpreemptive_report list_named NoDup).
Qed.

(** X20. FCFS, SJF and Priority do not preempt.  When the processes have
    different pids, a process that has received a unit has received its whole
    burst in a row: in the report it has no work left, it completed exactly
    [burst] units after it started, and its waiting time is the time between
    its arrival and its start. *)
Theorem nonpreemptive_runs_are_unbroken (algorithm : string) (ps : list ProcIn)
    (o : Options) :
  NoDup (map in_pid ps) ->
  algorithm = "FCFS"%string \/ algorithm = "SJF"%string
  \/ algorithm = "PRIORITY"%string ->
  exists r, simulate algorithm ps o = Returned r
    /\ Forall (fun x => f_remaining x < f_burst x ->
                        f_remaining x = 0
                        /\ f_completionTime x = f_startTime x + f_burst x
                        /\ f_waiting x = f_startTime x - f_arrival x)
              (processes (stats r)).
Proof.
  intros Hnd Halg.
  assert (Hnd' : NoDup (map d_pid (map normalize ps))) by now rewrite map_map.
  destruct Halg as [-> | [-> | ->]].
  - change (simulate "FCFS" ps o) with (simulateFCFS (map normalize ps)).
    now apply simulateFCFS_unbroken.
  - change (simulate "SJF" ps o) with (simulateSJF (map normalize ps)).
    now apply simulate_pick_unbroken.
  - change (simulate "PRIORITY" ps o) with (simulatePriority (map normalize ps)).
    now apply simulate_pick_unbroken.
Qed.

Lemma nonpreemptive_runs_are_unbroken_witness :
  exists r, simulate "PRIORITY" four_processes no_options = Returned r
    /\ Forall (fun x => f_remaining x < f_burst x ->
                        f_remaining x = 0
                        /\ f_completionTime x = f_startTime x + f_burst x
                        /\ f_waiting x = f_startTime x - f_arrival x)
              (processes (stats r)).
Proof.
  apply (nonpreemptive_runs_are_unbroken "PRIORITY" four_processes no_options).
  - apply NoDup_ListNoDup. simpl.
    repeat (apply List.NoDup_cons; [simpl; intuition discriminate|]).
    apply List.NoDup_nil.
  - right. right. reflexivity.
Defined.

(** * Round Robin with a quantum that is not positive *)

Lemma starved_enqueue {R} (push : nat -> Proc -> R -> R) (st : State R) :
  starved st -> starved (enqueueArrivals push st).
Proof.
  intros [Ht Hp]. destruct (enqueueArrivals_fields push st) as (_ & _ & Htr & _).
  split; [now rewrite Htr|]. rewrite enqueueArrivals_procs. apply Forall_map.
  eapply Forall_impl; [exact Hp|]. intros y Hy. cbn.
  rewrite admit_mark_remaining. unfold admit_mark. now destruct (admissible (time st) y).
Qed.

Lemma starved_idle_until {R} (idle_view : R -> list string) fuel :
  forall jumpTo (st : State R),
    starved st -> starved (idle_until idle_view fuel jumpTo st).
Proof.
  induction fuel as [|fuel IH]; intros jumpTo st Hs; cbn [idle_until]; [exact Hs|].
  destruct (time st <? jumpTo); [|exact Hs]. apply IH. destruct Hs as [Ht Hp].
  split; cbn [trace procs emit]; [|exact Hp].
  apply Forall_app. split; [exact Ht|]. now repeat constructor.
Qed.

Lemma starved_alter {R} (f : Proc -> Proc) i (st : State R) :
  (forall y, remaining (f y) = remaining y /\ burst (f y) = burst y) ->
  starved st -> starved (with_procs (alter f i (procs st)) st).
Proof.
  intros Hf [Ht Hp]. split; cbn [trace procs with_procs]; [exact Ht|].
  apply List.Forall_forall. intros z' Hz'.
  apply list_elem_of_In, list_elem_of_lookup in Hz' as [k Hk].
  rewrite List.Forall_forall in Hp.
  destruct (lookup_alter_cases _ _ _ _ _ Hk) as [(-> & z & Hz & ->)|(Hne & Hz)].
  - destruct (Hf z) as [-> ->]. apply Hp, list_elem_of_In. eapply list_elem_of_lookup_2, Hz.
  - apply Hp, list_elem_of_In. eapply list_elem_of_lookup_2, Hz.
Qed.

(** A slice of no unit. *)
Lemma rr_dispatch_starved quantum (st : State (list string)) f st' :
  quantum <= 0 -> starved st -> rr_dispatch quantum st = Returned (f, st') ->
  starved st'.
Proof.
  intros Hq Hs. unfold rr_dispatch. destruct (ready st) as [|p rest].
  - unfold idle_phase. destruct (find _ (procs st)); intros [= _ <-]; [|exact Hs].
    now apply starved_enqueue, starved_idle_until.
  - unfold with_found. destruct (find_index _ _) as [i|]; [|discriminate].
    intros [= _ <-]. unfold run_slice.
    match goal with |- context [run_for _ _ (Z.to_nat ?n) _ _ ?s] =>
      replace (Z.to_nat n) with 0%nat by lia; set (st0 := s) end.
    cbn [run_for].
    assert (Hs0 : starved st0).
    { unfold st0. apply (starved_alter (set_start (time st)) i (with_ready rest st)).
      - intros y. now split.
      - exact Hs. }
    destruct (remaining (procs st0 !!! i) =? 0).
    + apply starved_alter; [|exact Hs0]. intros y. now split.
    + exact Hs0.
Qed.

Lemma simulateRR_starved ds quantum :
  quantum <= 0 ->
  NoDup (map d_pid ds) ->
  exists st : State (list string),
    simulateRR ds quantum = Returned (finish st) /\ starved st.
Proof.
  intros Hq Hnd. destruct (sorted_procs_ok ds Hnd) as (H1 & H2 & _).
  destruct (run_simulator_keeps queue_push queue_empty (rr_dispatch quantum) queue_ok
              queue_named starved queue_push_ok (rr_dispatch_ok quantum) queue_named_pid
              queue_named_push_old queue_named_push_new queue_named_push_inv
              queue_empty_names_nobody
              (fun st f st' _ => rr_dispatch_books quantum st f st')
              (fun st _ => starved_enqueue queue_push st)
              (fun st f st' _ _ => rr_dispatch_starved quantum st f st' Hq)
              (js_sort by_arrival (map init_proc ds)) [] H1 H2 eq_refl
              (List.Forall_nil _))
    as (st & Hr & _ & Hs & _).
  { split; cbn [trace procs]; [constructor|].
    eapply Forall_impl; [exact H2|]. now intros y [d ->]. }
  now exists st.
Qed.

(** X21. Round Robin with a quantum that is not positive executes nothing:
    for processes with different pids the trace has idle entries only and
    every process is reported with its whole burst left; and when some
    process has a positive burst the run goes on until the iteration ceiling
    stops it. *)
Theorem rr_needs_a_positive_quantum (ps : list ProcIn) (o : Options) (q : Z) :
  NoDup (map in_pid ps) ->
  quantum o = Some q -> q <= 0 ->
  exists r, simulate "RR" ps o = Returned r
    /\ Forall (fun e => ev_cpu e = None) (res_trace r)
    /\ Forall (fun x => f_remaining x = f_burst x) (processes (stats r))
    /\ (Exists (fun p => 0 < in_burst p) ps -> ceiling_reached "RR" ps o = true).
Proof.
  intros Hnd Hqo Hq.
  assert (Hnd' : NoDup (map d_pid (map normalize ps))) by now rewrite map_map.
  destruct (simulate_settled "RR" ps o Hnd) as (ps0 & Hperm & Hset).
  destruct (settled_report _ _ _ Hset) as (r & Hr & _ & Hd & _ & Hdone).
  change (simulate "RR" ps o)
    with (simulateRR (map normalize ps) (nullish (quantum o) 4)) in *.
  rewrite Hqo in *. cbn [nullish] in *.
  destruct (simulateRR_starved (map normalize ps) q Hq Hnd') as (st & Hst & Htr & Hp).
  rewrite Hst in Hr. injection Hr as <-.
  exists (finish st). split; [exact Hst|]. split; [exact Htr|].
  assert (Hall : Forall (fun x => f_remaining x = f_burst x) (processes (stats (finish st)))).
  { change (processes (stats (finish st))) with (map (finalize_proc (time st)) (procs st)).
    apply Forall_map. eapply Forall_impl; [exact Hp|]. now intros y Hy. }
  split; [exact Hall|].
  intros Hex. destruct (ceiling_reached "RR" ps o) eqn:Hc; [reflexivity|]. exfalso.
  specialize (Hdone eq_refl).
  apply List.Exists_exists in Hex as (p & Hin & Hpos).
  assert (Hx : In (normalize p) (map f_descriptor (processes (stats (finish st))))).
  { rewrite Hd, Hperm, init_descriptors. now apply in_map. }
  apply in_map_iff in Hx as (x & Hxd & Hx).
  rewrite List.Forall_forall in Hall, Hdone.
  pose proof (Hall x Hx). pose proof (Hdone x Hx).
  assert (f_burst x = in_burst p) by (unfold f_descriptor, normalize in Hxd; congruence).
  lia.
Qed.

Lemma rr_needs_a_positive_quantum_witness :
  exists r, simulate "RR" one_process no_quantum = Returned r
    /\ Forall (fun e => ev_cpu e = None) (res_trace r)
    /\ Forall (fun x => f_remaining x = f_burst x) (processes (stats r))
    /\ (Exists (fun p => 0 < in_burst p) one_process ->
        ceiling_reached "RR" one_process no_quantum = true).
Proof.
  apply (rr_needs_a_positive_quantum one_process no_quantum 0).
  - simpl. apply NoDup_singleton.
  - reflexivity.
  - lia.
Defined.

(** * The order of the processes in the report *)

Lemma sort_insert_arrivals a (x : Proc) (l : list Proc) :
  List.filter (fun p => arrival p =? a) (sort_insert by_arrival x l)
  = List.filter (fun p => arrival p =? a) (x :: l).
Proof.
  induction l as [|y l IH]; [reflexivity|].
  cbn [sort_insert]. unfold by_arrival at 1.
  destruct (Z.ltb_spec 0 (arrival x - arrival y)) as [Hlt|Hle]; [|reflexivity].
  cbn [List.filter] in *. rewrite IH.
  destruct (Z.eqb_spec (arrival x) a) as [Hx|Hx];
    destruct (Z.eqb_spec (arrival y) a) as [Hy|Hy]; trivial. lia.
Qed.

Lemma js_sort_arrivals a (l : list Proc) :
  List.filter (fun p => arrival p =? a) (js_sort by_arrival l)
  = List.filter (fun p => arrival p =? a) l.
Proof.
  induction l as [|x l IH]; [reflexivity|].
  change (js_sort by_arrival (x :: l)) with (sort_insert by_arrival x (js_sort by_arrival l)).
  rewrite sort_insert_arrivals. cbn [List.filter]. now rewrite IH.
Qed.

Lemma filter_descriptors a (l : list Proc) :
  List.filter (arrives_at a) (map descriptor_of l)
  = map descriptor_of (List.filter (fun p => arrival p =? a) l).
Proof.
  induction l as [|x l IH]; [reflexivity|]. cbn [map List.filter].
  unfold arrives_at at 1. cbn [d_arrival descriptor_of].
  destruct (arrival x =? a); cbn [map]; now rewrite IH.
Qed.

Lemma js_sort_by_arrival (ds : list Descriptor) :
  sorted_by_arrival ds (map descriptor_of (js_sort by_arrival (map init_proc ds))).
Proof.
  split; [|split].
  - rewrite js_sort_perm. now rewrite init_descriptors.
  - rewrite descriptor_arrivals. apply js_sort_ascending.
  - intros a. rewrite filter_descriptors, js_sort_arrivals, <- filter_descriptors.
    now rewrite init_descriptors.
Qed.

Lemma runs_from_descriptors ps0 o :
  runs_from ps0 o ->
  exists r, o = Returned r
            /\ map f_descriptor (processes (stats r)) = map descriptor_of ps0.
Proof.
  intros (st & -> & Hsteps). exists (finish st). split; [reflexivity|].
  assert (Habout : log_about (map descriptor_of ps0) st).
  { apply (steps_about _ _ _ Hsteps). split; [reflexivity|]. split; constructor. }
  change (processes (stats (finish st))) with (map (finalize_proc (time st)) (procs st)).
  rewrite map_map. destruct Habout as [<- _]. reflexivity.
Qed.

(** X22. The report lists the processes that were given, each with its pid,
    arrival, burst and priority.  SJF and Priority list them in the order of
    the input; Round Robin, FCFS, the multilevel queue and every unknown tag
    list them by arrival, those that arrive together in the order of the
    input. *)
Theorem report_order (algorithm : string) (ps : list ProcIn) (o : Options) :
  exists r, simulate algorithm ps o = Returned r
    /\ if String.eqb algorithm "SJF" || String.eqb algorithm "PRIORITY"
       then map f_descriptor (processes (stats r)) = map normalize ps
       else sorted_by_arrival (map normalize ps)
                              (map f_descriptor (processes (stats r))).
Proof.
  unfold simulate.
  destruct (String.eqb algorithm "RR") eqn:E1.
  { apply String.eqb_eq in E1 as ->.
    destruct (runs_from_descriptors _ _ (simulateRR_runs (map normalize ps)
                (nullish (quantum o) 4))) as (r & Hr & Hd).
    exists r. split; [exact Hr|]. cbn. rewrite Hd. apply js_sort_by_arrival. }
  destruct (String.eqb algorithm "FCFS") eqn:E2.
  { apply String.eqb_eq in E2 as ->.
    destruct (runs_from_descriptors _ _ (simulateFCFS_runs (map normalize ps)))
      as (r & Hr & Hd).
    exists r. split; [exact Hr|]. cbn. rewrite Hd. apply js_sort_by_arrival. }
  destruct (String.eqb algorithm "SJF") eqn:E3.
  { destruct (runs_from_descriptors _ _ (simulate_pick_runs by_remaining (map normalize ps)))
      as (r & Hr & Hd).
    exists r. split; [exact Hr|]. cbn. rewrite Hd. apply init_descriptors. }
  destruct (String.eqb algorithm "PRIORITY") eqn:E4.
  { destruct (runs_from_descriptors _ _ (simulate_pick_runs by_priority (map normalize ps)))
      as (r & Hr & Hd).
    exists r. split; [exact Hr|]. cbn. rewrite Hd. apply init_descriptors. }
  destruct (String.eqb algorithm "MLQ") eqn:E5.
  { destruct (runs_from_descriptors _ _ (simulateMLQ_runs (map normalize ps)
                (nullish (mlqFgQuantum o) 2) (Some (nullish (mlqBgQuantum o) 4))))
      as (r & Hr & Hd).
    exists r. split; [exact Hr|]. cbn. rewrite Hd. apply js_sort_by_arrival. }
  destruct (runs_from_descriptors _ _ (simulateRR_runs (map normalize ps)
              (nullish (quantum o) 4))) as (r & Hr & Hd).
  exists r. split; [exact Hr|]. cbn. rewrite Hd. apply js_sort_by_arrival.
Qed.

(** * The panels of a frame *)

Lemma process_boxes_lookup cpu (l : list ProcState) : forall i k,
  process_boxes cpu i l !! k = process_box cpu (i + k) <$> l !! k.
Proof.
  induction l as [|p l IH]; intros i k; [reflexivity|].
  destruct k as [|k]; cbn [process_boxes].
  - simpl. now rewrite Nat.add_0_r.
  - simpl. rewrite IH. now replace (S i + k)%nat with (i + S k)%nat by lia.
Qed.

Lemma ready_items_lookup (l : list string) : forall i k,
  ready_items i l !! k = ready_item (i + k) <$> l !! k.
Proof.
  induction l as [|p l IH]; intros i k; [reflexivity|].
  destruct k as [|k]; cbn [ready_items].
  - simpl. now rewrite Nat.add_0_r.
  - simpl. rewrite IH. now replace (S i + k)%nat with (i + S k)%nat by lia.
Qed.

Lemma process_box_rect cpu i p :
  box_rect (process_box cpu i p)
  = mkRect (532 + Z.of_nat (i mod 3) * 140) (148 + Z.of_nat (i / 3) * 72) 122 60.
Proof. reflexivity. Qed.

(** X23. The boxes that [_drawProcesses] draws for the processes of a
    snapshot do not overlap, whatever their number.  The box of the process
    at index [i] lies within the panel exactly when [i < 9], and within the
    canvas exactly when [i < 12]: further processes are drawn below the
    panel, and from the thirteenth on not within the canvas. *)
Theorem process_boxes_layout (snap : Snapshot) (i : nat) (b : ProcessBox) :
  drawProcesses snap !! i = Some b ->
  (forall j b', j <> i -> drawProcesses snap !! j = Some b' ->
                ~ overlap (box_rect b) (box_rect b'))
  /\ (within (box_rect b) processes_panel <-> (i < 9)%nat)
  /\ (within (box_rect b) canvas_area <-> (i < 12)%nat).
Proof.
  unfold drawProcesses. rewrite process_boxes_lookup. cbn [Nat.add].
  destruct (snap_procs snap !! i) as [p|] eqn:Hp; [|discriminate].
  intros [= <-]. rewrite process_box_rect.
  pose proof (Nat.div_mod_eq i 3) as Hi. pose proof (Nat.mod_upper_bound i 3) as Hi'.
  split; [|split].
  - intros j b' Hne. rewrite process_boxes_lookup. cbn [Nat.add].
    destruct (snap_procs snap !! j) as [q|]; [|discriminate].
    intros [= <-]. rewrite process_box_rect.
    pose proof (Nat.div_mod_eq j 3) as Hj. pose proof (Nat.mod_upper_bound j 3) as Hj'.
    unfold overlap. cbn [r_x r_y r_w r_h]. lia.
  - unfold within, processes_panel. cbn [r_x r_y r_w r_h]. lia.
  - unfold within, canvas_area. cbn [r_x r_y r_w r_h]. lia.
Qed.

Lemma process_boxes_layout_witness :
  (forall j b', j <> 1%nat -> drawProcesses sample_snapshot !! j = Some b' ->
                ~ overlap (box_rect (process_box (Some "B"%string) 1
                                       (mkProcState "B" 1 4 2 (Some 1) None 0)))
                          (box_rect b'))
  /\ (within (box_rect (process_box (Some "B"%string) 1
                          (mkProcState "B" 1 4 2 (Some 1) None 0)))
             processes_panel <-> (1 < 9)%nat)
  /\ (within (box_rect (process_box (Some "B"%string) 1
                          (mkProcState "B" 1 4 2 (Some 1) None 0)))
             canvas_area <-> (1 < 12)%nat).
Proof.
  apply (process_boxes_layout sample_snapshot 1). reflexivity.
Defined.

(** X24. [_drawReadyQueue] draws the pids of the ready list of a snapshot in
    their order, one item each, and the items do not overlap.  The item at
    index [i] lies within the panel exactly when [i < 7], and within the
    canvas exactly when [i < 9]. *)
Theorem ready_items_layout (snap : Snapshot) (i : nat) (r : Rect) (p : string) :
  drawReadyQueue snap !! i = Some (r, p) ->
  snap_ready snap !! i = Some p
  /\ (forall j r' p', j <> i -> drawReadyQueue snap !! j = Some (r', p') ->
                      ~ overlap r r')
  /\ (within r ready_panel <-> (i < 7)%nat)
  /\ (within r canvas_area <-> (i < 9)%nat).
Proof.
  unfold drawReadyQueue. rewrite ready_items_lookup. cbn [Nat.add].
  destruct (snap_ready snap !! i) as [q|] eqn:Hq; [|discriminate].
  intros [= <- <-]. split; [reflexivity|]. split; [|split].
  - intros j r' p' Hne. rewrite ready_items_lookup. cbn [Nat.add].
    destruct (snap_ready snap !! j) as [q'|]; [|discriminate].
    intros [= <- <-]. unfold overlap. cbn [r_x r_y r_w r_h]. lia.
  - unfold within, ready_panel. cbn [r_x r_y r_w r_h]. lia.
  - unfold within, canvas_area. cbn [r_x r_y r_w r_h]. lia.
Qed.

Lemma ready_items_layout_witness :
  snap_ready sample_snapshot !! 0%nat = Some "A"%string
  /\ (forall j r' p', j <> 0%nat -> drawReadyQueue sample_snapshot !! j = Some (r', p') ->
                      ~ overlap (mkRect 28 156 136 28) r')
  /\ (within (mkRect 28 156 136 28) ready_panel <-> (0 < 7)%nat)
  /\ (within (mkRect 28 156 136 28) canvas_area <-> (0 < 9)%nat).
Proof.
  apply (ready_items_layout sample_snapshot 0 (mkRect 28 156 136 28) "A").
  reflexivity.
Defined.

Lemma highlighted_on_cpu cpu i e : highlighted (process_box cpu i e) = on_cpu cpu e.
Proof. unfold highlighted, process_box. cbn [box_stroke]. now destruct (on_cpu cpu e). Qed.

Lemma no_box_highlighted p (l : list ProcState) : forall i,
  ~ In p (map ps_pid l) ->
  List.filter highlighted (process_boxes (Some p) i l) = [].
Proof.
  induction l as [|e l IH]; intros i Hp; [reflexivity|].
  cbn [process_boxes List.filter]. rewrite highlighted_on_cpu. cbn [on_cpu].
  destruct (String.eqb_spec (ps_pid e) p) as [He|He].
  - exfalso. apply Hp. now left.
  - apply IH. intros H. apply Hp. now right.
Qed.

Lemma one_box_highlighted p (l : list ProcState) : forall i,
  NoDup (map ps_pid l) -> In p (map ps_pid l) ->
  map box_pid (List.filter highlighted (process_boxes (Some p) i l)) = [p].
Proof.
  induction l as [|e l IH]; intros i Hnd Hp; [destruct Hp|].
  cbn [map] in Hnd. apply NoDup_cons in Hnd as [He Hnd].
  cbn [process_boxes List.filter]. rewrite highlighted_on_cpu. cbn [on_cpu].
  destruct (String.eqb_spec (ps_pid e) p) as [Heq|Hne].
  - cbn [map box_pid process_box]. rewrite no_box_highlighted; [now rewrite Heq|].
    rewrite <- Heq. intros H. apply He. now apply list_elem_of_In.
  - apply IH; [exact Hnd|]. destruct Hp as [H|H]; [contradiction | exact H].
Qed.

Lemma idle_box_highlighted (l : list ProcState) : forall i,
  List.filter highlighted (process_boxes None i l) = [].
Proof.
  induction l as [|e l IH]; intros i; [reflexivity|].
  cbn [process_boxes List.filter]. rewrite highlighted_on_cpu. cbn [on_cpu]. apply IH.
Qed.

(** X25. In the frames of a run over processes with different pids, the
    processes panel highlights the box of the process on the CPU and no
    other box, and no box at all when the CPU is idle. *)
Theorem frame_highlights_the_running_process (algorithm : string)
    (ps : list ProcIn) (o : Options) :
  NoDup (map in_pid ps) ->
  exists r, simulate algorithm ps o = Returned r
    /\ Forall (fun s => map box_pid (List.filter highlighted (drawProcesses s))
                        = match snap_cpu s with Some p => [p] | None => [] end)
              (historySnapshots r).
Proof.
  intros Hnd.
  destruct (simulate_runs algorithm ps o) as (ps0 & Hperm & st & -> & Hsteps).
  exists (finish st). split; [reflexivity|].
  assert (Habout : log_about (map descriptor_of ps0) st).
  { apply (steps_about _ _ _ Hsteps). split; [reflexivity|]. split; constructor. }
  assert (Hpids : Permutation (map d_pid (map descriptor_of ps0)) (map in_pid ps)).
  { rewrite Hperm, init_descriptors. now rewrite map_map. }
  destruct Habout as (_ & Hh & _). change (historySnapshots (finish st)) with (history st).
  eapply Forall_impl; [exact Hh|]. intros s [Hd Hc]. cbv beta in *.
  assert (Hps : map ps_pid (snap_procs s) = map d_pid (map descriptor_of ps0)).
  { rewrite <- Hd. now rewrite map_map. }
  unfold drawProcesses. destruct (snap_cpu s) as [p|].
  - apply one_box_highlighted.
    + rewrite Hps, Hpids. exact Hnd.
    + rewrite Hps. now apply Hc.
  - now rewrite idle_box_highlighted.
Qed.

Lemma frame_highlights_the_running_process_witness :
  exists r, simulate "RR" four_processes no_options = Returned r
    /\ Forall (fun s => map box_pid (List.filter highlighted (drawProcesses s))
                        = match snap_cpu s with Some p => [p] | None => [] end)
              (historySnapshots r).
Proof.
  apply (frame_highlights_the_running_process "RR" four_processes no_options).
  apply NoDup_ListNoDup. simpl.
  repeat (apply List.NoDup_cons; [simpl; intuition discriminate|]).
  apply List.NoDup_nil.
Defined.

(** * The order of service of FCFS *)

Lemma ascending_lookup (l : list Z) :
  ascending l ->
  forall i j a b, (i < j)%nat -> l !! i = Some a -> l !! j = Some b -> a <= b.
Proof.
  induction l as [|x l IH]; intros Hl i j a b Hij Hi Hj; [discriminate|].
  destruct Hl as [Hx Hl]. destruct j as [|j]; [lia|]. simpl in Hj.
  destruct i as [|i]; simpl in Hi.
  - injection Hi as <-. rewrite List.Forall_forall in Hx. apply Hx.
    apply list_elem_of_In. eapply list_elem_of_lookup_2, Hj.
  - apply (IH Hl i j); trivial. lia.
Qed.

(** The first element that a filter keeps. *)
Lemma filter_first {A} (f : A -> bool) (l : list A) y tl :
  List.filter f l = y :: tl ->
  exists i0, l !! i0 = Some y /\ f y = true
             /\ (forall k x, (k < i0)%nat -> l !! k = Some x -> f x = false)
             /\ forall g, f (g y) = false -> List.filter f (alter g i0 l) = tl.
Proof.
  induction l as [|x l IH]; intros H; [discriminate|].
  cbn [List.filter] in H. destruct (f x) eqn:Hx.
  - injection H as -> <-. exists 0%nat. split; [reflexivity|]. split; [exact Hx|].
    split; [intros k x' Hk; lia|]. intros g Hg. simpl. now rewrite Hg.
  - destruct (IH H) as (i0 & Hi0 & Hy & Hbefore & Halter).
    exists (S i0). split; [exact Hi0|]. split; [exact Hy|]. split.
    + intros [|k] x' Hk Hx'; simpl in Hx'; [congruence|]. apply (Hbefore k); [lia | exact Hx'].
    + intros g Hg. simpl. rewrite Hx. now apply Halter.
Qed.

(** A filter by either of two properties, when in the list the elements with
    the first come before those with the second. *)
Lemma filter_or_app {A} (f g : A -> bool) (l : list A) :
  (forall x, f x = true -> g x = false) ->
  (forall i j x y, (i < j)%nat -> l !! i = Some x -> l !! j = Some y ->
                   g x = true -> f y = true -> False) ->
  List.filter (fun x => f x || g x) l = List.filter f l ++ List.filter g l.
Proof.
  intros Hfg. induction l as [|x l IH]; intros Hord; [reflexivity|].
  assert (Hord' : forall i j x' y, (i < j)%nat -> l !! i = Some x' -> l !! j = Some y ->
                                   g x' = true -> f y = true -> False).
  { intros i j x' y Hij Hi Hj. apply (Hord (S i) (S j)); [lia | exact Hi | exact Hj]. }
  cbn [List.filter]. destruct (f x) eqn:Hf.
  - rewrite (Hfg x Hf). cbn [orb app]. now rewrite IH.
  - destruct (g x) eqn:Hg; cbn [orb]; [|now apply IH].
    assert (Hnone : List.filter f l = []).
    { destruct (List.filter f l) as [|y tl] eqn:Hfl; [reflexivity|]. exfalso.
      destruct (filter_first f l y tl Hfl) as (i0 & Hi0 & Hy & _).
      apply (Hord 0%nat (S i0) x y); trivial. lia. }
    rewrite IH by exact Hord'. now rewrite Hnone.
Qed.

Lemma filter_map_swap' {A B} (f : B -> bool) (g : A -> B) (l : list A) :
  List.filter f (map g l) = map g (List.filter (fun x => f (g x)) l).
Proof.
  induction l as [|x l IH]; [reflexivity|]. cbn [map List.filter].
  destruct (f (g x)); cbn [map]; now rewrite IH.
Qed.

Lemma filter_ext_elems {A} (f g : A -> bool) (l : list A) :
  (forall x, In x l -> f x = g x) -> List.filter f l = List.filter g l.
Proof.
  induction l as [|x l IH]; intros H; [reflexivity|]. cbn [List.filter].
  rewrite (H x) by now left. rewrite IH; [reflexivity|]. intros y Hy. apply H. now right.
Qed.

Lemma waiting_same_keys y y' : same_keys y y' -> waiting y' = waiting y.
Proof. intros (_ & He & Hs & _). unfold waiting. now rewrite He, Hs. Qed.

Lemma same_keys_waiting_pids (ps ps' : list Proc) :
  Forall2 same_keys ps ps' ->
  map pid (List.filter waiting ps') = map pid (List.filter waiting ps).
Proof.
  induction 1 as [|y y' ps ps' Hk _ IH]; [reflexivity|]. cbn [List.filter].
  rewrite (waiting_same_keys _ _ Hk). destruct (waiting y); cbn [map]; [|exact IH].
  destruct Hk as (-> & _). now rewrite IH.
Qed.

Lemma same_keys_alter (g : Proc -> Proc) i (ps : list Proc) :
  (forall y, same_keys y (g y)) -> Forall2 same_keys ps (alter g i ps).
Proof.
  intros Hg. revert i. induction ps as [|y ps IH]; intros i; [constructor|].
  assert (Hrefl : forall l : list Proc, Forall2 same_keys l l).
  { induction l; constructor; trivial. unfold same_keys. repeat split; lia. }
  destruct i as [|i]; simpl.
  - constructor; [apply Hg | apply Hrefl].
  - constructor; [|apply IH]. unfold same_keys. repeat split; lia.
Qed.

(** The order is kept by changes that are neither admissions nor starts. *)
Lemma fcfs_order_same (st : State (list string)) (ps' : list Proc) :
  Forall2 same_keys (procs st) ps' -> fcfs_order st -> fcfs_order (with_procs ps' st).
Proof.
  intros Hk (Q & Z1 & Z2 & S). split; [|split; [|split]];
    cbn [procs ready with_procs].
  - now rewrite (same_keys_waiting_pids _ _ Hk).
  - intros i j y' z' Hij Hi Hj Hz He.
    destruct (Forall2_lookup_r _ _ _ _ _ Hk Hi) as (y & Hy & _ & Hye & Hys & _).
    destruct (Forall2_lookup_r _ _ _ _ _ Hk Hj) as (z & Hz' & _ & _ & Hzs & _).
    unfold started in *. rewrite Hys. rewrite Hzs in Hz. rewrite Hye in He.
    now apply (Z1 i j y z).
  - intros i j y' z' Hij Hi Hj Hz He.
    destruct (Forall2_lookup_r _ _ _ _ _ Hk Hi) as (y & Hy & _ & Hye & _ & _ & Hyr).
    destruct (Forall2_lookup_r _ _ _ _ _ Hk Hj) as (z & Hz' & _ & Hze & _).
    rewrite Hze in Hz. rewrite Hye in He.
    pose proof (Z2 i j y z Hij Hy Hz' Hz He). lia.
  - intros i j y' z' s s' Hij Hi Hj Hs Hs'.
    destruct (Forall2_lookup_r _ _ _ _ _ Hk Hi) as (y & Hy & _ & _ & Hys & Hyb & _).
    destruct (Forall2_lookup_r _ _ _ _ _ Hk Hj) as (z & Hz' & _ & _ & Hzs & _).
    rewrite Hys in Hs. rewrite Hzs in Hs'. rewrite Hyb. now apply (S i j y z).
Qed.

Lemma fcfs_order_emit cpu rd ev (st : State (list string)) :
  fcfs_order st -> fcfs_order (emit cpu rd ev st).
Proof. intros H. exact H. Qed.

Lemma fcfs_order_idle_until fuel : forall jumpTo (st : State (list string)),
  fcfs_order st -> fcfs_order (idle_until (fun q => q) fuel jumpTo st).
Proof.
  induction fuel as [|fuel IH]; intros jumpTo st H; cbn [idle_until]; [exact H|].
  destruct (time st <? jumpTo); [|exact H]. now apply IH, fcfs_order_emit.
Qed.

Lemma unadmitted_fresh now y : proc_ok now y -> enqueued y = false -> startTime y = None.
Proof. intros (_ & Hout & _) He. now destruct (Hout He) as (_ & ? & _). Qed.

Lemma admissible_facts now y :
  admissible now y = true -> enqueued y = false /\ arrival y <= now /\ 0 < remaining y.
Proof.
  unfold admissible. intros H. apply andb_true_iff in H as [H Hr].
  apply andb_true_iff in H as [He Ha]. apply Z.leb_le in Ha. apply Z.ltb_lt in Hr.
  now destruct (enqueued y).
Qed.

(** Admission keeps the order, when [procs] is in the order of arrival. *)
Lemma fcfs_order_enqueue run (st : State (list string)) :
  books queue_named run st ->
  ascending (map arrival (procs st)) ->
  fcfs_order st -> fcfs_order (enqueueArrivals queue_push st).
Proof.
  intros (_ & Hok & _) Hasc (Q & Z1 & Z2 & S).
  rewrite List.Forall_forall in Hok.
  assert (Hfresh : forall k y, procs st !! k = Some y -> enqueued y = false ->
                               startTime y = None).
  { intros k y Hy. apply (unadmitted_fresh (time st)), Hok, list_elem_of_In.
    eapply list_elem_of_lookup_2, Hy. }
  rewrite enqueueArrivals_queue.
  split; [|split; [|split]]; cbn [procs ready].
  - rewrite Q. unfold admitted_pids. rewrite <- map_app, filter_map_swap', map_map.
    rewrite (map_ext (fun x => pid (admit_mark (time st) x)) pid)
      by (intros y; apply admit_mark_fields).
    f_equal. symmetry.
    rewrite (filter_ext_elems (fun x => waiting (admit_mark (time st) x))
                              (fun y => waiting y || admissible (time st) y)).
    + apply filter_or_app.
      * intros y Hw. unfold waiting in Hw. apply andb_true_iff in Hw as [He _].
        unfold admissible. now rewrite He.
      * intros i j x y Hij Hi Hj Hx Hy.
        apply admissible_facts in Hx as (Hxe & _ & Hxr).
        unfold waiting in Hy. apply andb_true_iff in Hy as [Hye _].
        pose proof (Z2 i j x y Hij Hi Hj Hye Hxe). lia.
    + intros y Hy. apply list_elem_of_In, list_elem_of_lookup in Hy as [k Hk].
      unfold admit_mark. destruct (admissible (time st) y) eqn:Hadm.
      * apply admissible_facts in Hadm as (He & _).
        unfold waiting. cbn [enqueued startTime set_enqueued].
        rewrite (Hfresh k y Hk He). now rewrite orb_true_r.
      * now rewrite orb_false_r.
  - intros i j y' z' Hij Hi Hj Hz He.
    rewrite list_lookup_fmap in Hi, Hj.
    destruct (procs st !! i) as [y|] eqn:Hy; [|discriminate]. injection Hi as <-.
    destruct (procs st !! j) as [z|] eqn:Hz'; [|discriminate]. injection Hj as <-.
    unfold started in *.
    destruct (admit_mark_times (time st) y) as (-> & _).
    destruct (admit_mark_times (time st) z) as (Ezs & _). rewrite Ezs in Hz.
    assert (Hze : enqueued z = true).
    { destruct (enqueued z) eqn:E; [reflexivity|].
      rewrite (Hfresh j z Hz' E) in Hz. discriminate. }
    destruct (enqueued y) eqn:Hye.
    + apply (Z1 i j y z); trivial.
    + exfalso. unfold admit_mark in He. destruct (admissible (time st) y) eqn:Hadm.
      * apply admissible_facts in Hadm as (_ & _ & Hr).
        pose proof (Z2 i j y z Hij Hy Hz' Hze Hye). lia.
      * congruence.
  - intros i j y' z' Hij Hi Hj Hz He.
    rewrite list_lookup_fmap in Hi, Hj.
    destruct (procs st !! i) as [y|] eqn:Hy; [|discriminate]. injection Hi as <-.
    destruct (procs st !! j) as [z|] eqn:Hz'; [|discriminate]. injection Hj as <-.
    rewrite admit_mark_remaining.
    assert (Hye : enqueued y = false /\ admissible (time st) y = false).
    { unfold admit_mark in He. destruct (admissible (time st) y) eqn:Hadm;
        [discriminate | now split]. }
    destruct Hye as [Hye Hadm].
    destruct (enqueued z) eqn:Hze.
    + apply (Z2 i j y z); trivial.
    + unfold admit_mark in Hz. destruct (admissible (time st) z) eqn:Hadmz; [|congruence].
      apply admissible_facts in Hadmz as (_ & Hza & _).
      assert (Hle : arrival y <= arrival z).
      { apply (ascending_lookup _ Hasc i j); trivial;
          rewrite list_lookup_fmap; [now rewrite Hy | now rewrite Hz']. }
      unfold admissible in Hadm. rewrite Hye in Hadm. cbn [negb andb] in Hadm.
      apply andb_false_iff in Hadm as [H|H];
        [apply Z.leb_gt in H | apply Z.ltb_ge in H]; lia.
  - intros i j y' z' s s' Hij Hi Hj Hs Hs'.
    rewrite list_lookup_fmap in Hi, Hj.
    destruct (procs st !! i) as [y|] eqn:Hy; [|discriminate]. injection Hi as <-.
    destruct (procs st !! j) as [z|] eqn:Hz'; [|discriminate]. injection Hj as <-.
    destruct (admit_mark_times (time st) y) as (Eys & _ & Eyb).
    destruct (admit_mark_times (time st) z) as (Ezs & _).
    rewrite Eys in Hs. rewrite Ezs in Hs'. rewrite Eyb. now apply (S i j y z).
Qed.

(** The head of the queue is the first process that waits; it is started. *)
Lemma fcfs_order_select (st : State (list string)) p rest i :
  books queue_named None st -> unbroken None st -> fcfs_order st ->
  ready st = p :: rest ->
  find_index (fun x => String.eqb (pid x) p) (procs st) = Some i ->
  fcfs_order (with_procs (alter (set_start (time st)) i (procs st)) (with_ready rest st)).
Proof.
  intros (Hnd & Hok & _) (Hu & _) (Q & Z1 & Z2 & S) Hq Hfind.
  rewrite List.Forall_forall in Hok.
  rewrite Hq in Q.
  destruct (List.filter waiting (procs st)) as [|y tl] eqn:Hfl; [discriminate|].
  cbn [map] in Q. injection Q as Hp Hrest.
  destruct (filter_first waiting (procs st) y tl Hfl) as (i0 & Hi0 & Hw & Hbefore & Halter).
  assert (i = i0) as ->.
  { pose proof (find_index_pid _ _ _ Hfind) as Hi.
    eapply NoDup_lookup; [exact Hnd | exact Hi|].
    now rewrite list_lookup_fmap, Hi0, Hp. }
  unfold waiting in Hw. apply andb_true_iff in Hw as [Hye Hys].
  destruct (startTime y) eqn:Hys'; [discriminate|]. clear Hys.
  assert (Hlook : forall k z', alter (set_start (time st)) i0 (procs st) !! k = Some z' ->
            (k = i0 /\ z' = set_start (time st) y)
            \/ (k <> i0 /\ procs st !! k = Some z')).
  { intros k z' Hz'.
    destruct (lookup_alter_cases _ _ _ _ _ Hz') as [(-> & z & Hz & ->)|(Hne & Hz)];
      [left | now right]. split; [reflexivity|]. congruence. }
  assert (Hsy : startTime (set_start (time st) y) = Some (time st)).
  { unfold set_start. now rewrite Hys'. }
  split; [|split; [|split]]; cbn [procs ready with_procs with_ready].
  - rewrite Halter; [congruence|]. unfold waiting. rewrite Hsy. apply andb_false_r.
  - intros a b ya zb Hab Ha Hb Hzb Hea.
    destruct (Hlook a ya Ha) as [[-> ->]|[Hna Ha']]; [unfold started; now rewrite Hsy|].
    destruct (Hlook b zb Hb) as [[-> ->]|[Hnb Hb']].
    + pose proof (Hbefore a ya Hab Ha') as Hnw. unfold waiting in Hnw.
      rewrite Hea in Hnw. cbn [andb] in Hnw. unfold started.
      now destruct (startTime ya).
    + now apply (Z1 a b ya zb).
  - intros a b ya zb Hab Ha Hb Hzb Hea.
    assert (Hold : forall k z', alter (set_start (time st)) i0 (procs st) !! k = Some z' ->
              exists z, procs st !! k = Some z /\ enqueued z' = enqueued z
                        /\ remaining z' = remaining z).
    { intros k z' Hz'. destruct (Hlook k z' Hz') as [[-> ->]|[_ Hz]]; eauto. }
    destruct (Hold a ya Ha) as (y0 & Hy0 & E1 & E2).
    destruct (Hold b zb Hb) as (z0 & Hz0 & E3 & _).
    rewrite E2. apply (Z2 a b y0 z0); congruence.
  - intros a b ya zb s s' Hab Ha Hb Hsa Hsb.
    destruct (Hlook b zb Hb) as [[-> ->]|[Hnb Hb']].
    + destruct (Hlook a ya Ha) as [[-> ->]|[Hna Ha']]; [lia|].
      rewrite Hsy in Hsb. injection Hsb as <-.
      assert (Hc : completionTime ya = Some (s + burst ya)).
      { apply (Hu a ya s); trivial. discriminate. }
      destruct (Hok ya) as (_ & _ & _ & _ & Hco).
      { apply list_elem_of_In. eapply list_elem_of_lookup_2, Ha'. }
      destruct (Hco _ Hc) as (_ & Hle & _). exact Hle.
    + destruct (Hlook a ya Ha) as [[-> ->]|[Hna Ha']].
      * exfalso. assert (Hst : started y = true).
        { apply (Z1 i0 b y zb); trivial. unfold started. now rewrite Hsb. }
        unfold started in Hst. rewrite Hys' in Hst. discriminate.
      * now apply (S a b ya zb).
Qed.

Lemma exec_unit_arrivals i p (st : State (list string)) :
  map arrival (procs (exec_unit queue_push queue_view i p st)) = map arrival (procs st).
Proof.
  destruct (busy_after_exec_unit queue_push queue_view i p st) as [Hd _].
  now rewrite <- !descriptor_arrivals, Hd.
Qed.

Lemma same_keys_dec y : same_keys y (dec_remaining y).
Proof. unfold same_keys. simpl. repeat split; lia. Qed.

Lemma same_keys_completion t y : same_keys y (set_completion t y).
Proof. unfold same_keys. simpl. repeat split; lia. Qed.

Lemma fcfs_order_exec_unit i p (st : State (list string)) :
  books queue_named (Some i) st -> running i 1 st ->
  ascending (map arrival (procs st)) ->
  fcfs_order st -> fcfs_order (exec_unit queue_push queue_view i p st).
Proof.
  intros Hb Hr Hasc Ho. unfold exec_unit. apply (fcfs_order_enqueue (Some i)).
  - apply (books_exec_step queue_named i _ _ _ 1 st Hb Hr). lia.
  - cbn [procs emit with_procs].
    pose proof (alter_descriptors dec_remaining i (procs st)) as Hd.
    rewrite <- descriptor_arrivals, Hd by reflexivity. now rewrite descriptor_arrivals.
  - apply fcfs_order_emit, fcfs_order_same; [|exact Ho].
    apply same_keys_alter, same_keys_dec.
Qed.

Lemma fcfs_order_run_to_completion fuel : forall i p (st : State (list string)),
  books queue_named (Some i) st -> running i 0 st ->
  ascending (map arrival (procs st)) ->
  fcfs_order st ->
  fcfs_order (run_to_completion queue_push queue_view fuel i p st).
Proof.
  induction fuel as [|n IH]; intros i p st Hb Hr Hasc Ho; cbn [run_to_completion]; [auto|].
  destruct (Z.ltb_spec 0 (remaining (procs st !!! i))) as [Hpos|_]; [|auto].
  assert (Hr1 : running i 1 st).
  { destruct Hr as (y & s & Hy & He & Hs & _). exists y, s. repeat split; trivial.
    rewrite (list_lookup_total_correct _ _ _ Hy) in Hpos. lia. }
  destruct (books_exec_unit queue_push queue_view queue_named queue_named_pid
              queue_named_push_old queue_named_push_new queue_named_push_inv
              i p 1 st Hb Hr1) as [Hb1 Hr2]; [lia|].
  apply IH; trivial.
  - now rewrite exec_unit_arrivals.
  - now apply fcfs_order_exec_unit.
Qed.

Lemma fcfs_dispatch_order (st : State (list string)) f st' :
  books queue_named None st -> quiet st ->
  nonpreemptive queue_named NoDup None st -> fcfs_order st ->
  fcfs_dispatch st = Returned (f, st') -> fcfs_order st'.
Proof.
  intros Hb [Hasc _] (_ & _ & Hu) Ho. rewrite descriptor_arrivals in Hasc.
  unfold fcfs_dispatch. destruct (ready st) as [|p rest] eqn:Hq.
  - unfold idle_phase. destruct (find _ (procs st)) as [next|]; intros [= _ <-];
      [|exact Ho].
    apply (fcfs_order_enqueue None).
    + now apply (books_idle_until (fun q => q) queue_named).
    + assert (Hp : forall fuel jumpTo (s : State (list string)),
                procs (idle_until (fun q => q) fuel jumpTo s) = procs s).
      { induction fuel as [|fuel IH]; intros jumpTo s; cbn [idle_until]; [reflexivity|].
        destruct (time s <? jumpTo); [|reflexivity]. now rewrite IH. }
      now rewrite Hp.
    + now apply fcfs_order_idle_until.
  - unfold with_found.
    destruct (find_index _ _) as [i|] eqn:Hfind; [|discriminate].
    intros [= _ <-]. cbn [procs with_ready] in Hfind.
    destruct (queue_select st p rest i Hb Hq Hfind) as (H1 & H2 & _).
    pose proof (fcfs_order_select st p rest i Hb Hu Ho Hq Hfind) as Ho1.
    set (st0 := with_procs (alter (set_start (time st)) i (procs st))
                           (with_ready rest st)) in *.
    assert (Hasc0 : ascending (map arrival (procs st0))).
    { unfold st0. cbn [procs with_procs].
      pose proof (alter_descriptors (set_start (time st)) i (procs st)) as Hd.
      rewrite <- descriptor_arrivals, Hd by reflexivity. now rewrite descriptor_arrivals. }
    unfold run_whole.
    apply fcfs_order_same; [apply same_keys_alter, same_keys_completion|].
    now apply fcfs_order_run_to_completion.
Qed.

Lemma fcfs_order_start (ps : list Proc) :
  Forall (fun p => exists d, p = init_proc d) ps ->
  fcfs_order (mkState ps 0 [] [] []).
Proof.
  intros Hinit. rewrite List.Forall_forall in Hinit.
  assert (Hin : forall k y, ps !! k = Some y -> exists d, y = init_proc d).
  { intros k y Hy. apply Hinit, list_elem_of_In. eapply list_elem_of_lookup_2, Hy. }
  split; [|split; [|split]]; cbn [procs ready].
  - rewrite (filter_ext_elems waiting (fun _ => false)).
    + clear Hinit Hin. induction ps as [|y ps IH]; [reflexivity | exact IH].
    + intros y Hy. now destruct (Hinit y Hy) as [d ->].
  - intros i j y z _ _ Hz Hs. destruct (Hin j z Hz) as [d ->]. discriminate.
  - intros i j y z _ _ Hz He. destruct (Hin j z Hz) as [d ->]. discriminate.
  - intros i j y z s s' _ Hy _ Hs. destruct (Hin i y Hy) as [d ->]. discriminate.
Qed.

(** The state in which FCFS ends. *)
Lemma simulateFCFS_order ds :
  NoDup (map d_pid ds) ->
  exists st : State (list string),
    simulateFCFS ds = Returned (finish st)
    /\ books queue_named None st
    /\ unbroken None st /\ fcfs_order st.
Proof.
  intros Hnd. destruct (sorted_procs_ok ds Hnd) as (H1 & H2 & H3).
  destruct (run_simulator_keeps queue_push queue_empty fcfs_dispatch queue_ok
              queue_named
              (fun st => quiet st /\ nonpreemptive queue_named NoDup None st
                         /\ fcfs_order st)
              queue_push_ok fcfs_dispatch_ok queue_named_pid
              queue_named_push_old queue_named_push_new queue_named_push_inv
              queue_empty_names_nobody
              (fun st f st' _ => fcfs_dispatch_books st f st'))
    with (ps := js_sort by_arrival (map init_proc ds)) (r0 := @nil string)
    as (st & Hr & Hb & (_ & (_ & _ & Hu) & Ho) & _); trivial.
  - intros st Hb (Hq & Hn & Ho). split; [now apply quiet_enqueue|]. split.
    + now apply (nonpreemptive_enqueue queue_push queue_named NoDup queue_named_pid
                   queue_named_push_old queue_named_push_new queue_named_push_inv
                   queue_distinct_push None).
    + apply (fcfs_order_enqueue None); trivial.
      destruct Hq as [Hasc _]. now rewrite descriptor_arrivals in Hasc.
  - intros st f st' _ Hb (Hq & Hn & Ho) Hd. split; [|split].
    + now apply (fcfs_dispatch_quiet st f st').
    + now apply (fcfs_dispatch_nonpreemptive st f st').
    + now apply (fcfs_dispatch_order st f st').
  - constructor.
  - split; [now apply quiet_start|]. split; [|now apply fcfs_order_start].
    apply nonpreemptive_start; [exact H2 | apply NoDup_nil_2 | intros i y []].
  - now exists st.
Qed.

(** X27. FCFS serves the processes one after the other in the order of
    [procs], which is the order of the report.  When the pids differ, for a
    process that has been served, every process with a positive burst that
    the report lists before it has no work left and completed before that
    process started. *)
Theorem fcfs_serves_in_order_of_arrival (ps : list ProcIn) (o : Options) :
  NoDup (map in_pid ps) ->
  exists r, simulate "FCFS" ps o = Returned r
    /\ forall i j x x',
         (i < j)%nat ->
         processes (stats r) !! i = Some x ->
         processes (stats r) !! j = Some x' ->
         f_remaining x' < f_burst x' ->
         0 < f_burst x ->
         f_remaining x = 0 /\ f_completionTime x <= f_startTime x'.
Proof.
  intros Hnd.
  assert (Hnd' : NoDup (map d_pid (map normalize ps))) by now rewrite map_map.
  change (simulate "FCFS" ps o) with (simulateFCFS (map normalize ps)).
  destruct (simulateFCFS_order (map normalize ps) Hnd')
    as (st & Hr & (_ & Hok & _) & (Hu & _) & (_ & Z1 & Z2 & S)).
  exists (finish st). split; [exact Hr|].
  change (processes (stats (finish st))) with (map (finalize_proc (time st)) (procs st)).
  intros i j x x' Hij Hi Hj Hserved Hwork.
  rewrite list_lookup_fmap in Hi, Hj.
  destruct (procs st !! i) as [y|] eqn:Hy; [|discriminate]. injection Hi as <-.
  destruct (procs st !! j) as [z|] eqn:Hz; [|discriminate]. injection Hj as <-.
  unfold finalize_proc in *.
  cbn [f_remaining f_burst f_completionTime f_startTime] in *.
  rewrite List.Forall_forall in Hok.
  destruct (Hok y) as (_ & Hyout & Hyin & _ & Hyco).
  { apply list_elem_of_In. eapply list_elem_of_lookup_2, Hy. }
  destruct (Hok z) as (_ & Hzout & Hzin & _ & _).
  { apply list_elem_of_In. eapply list_elem_of_lookup_2, Hz. }
  assert (Hze : enqueued z = true).
  { destruct (enqueued z); [reflexivity|]. destruct (Hzout eq_refl). lia. }
  destruct (Hzin Hze) as (_ & _ & _ & Hzs).
  destruct (startTime z) as [s'|] eqn:Hzs'; [|now destruct (Hzs Hserved)].
  assert (Hye : enqueued y = true).
  { destruct (enqueued y) eqn:E; [reflexivity|]. destruct (Hyout eq_refl) as (Hrb & _).
    pose proof (Z2 i j y z Hij Hy Hz Hze E). lia. }
  assert (Hys : started y = true).
  { apply (Z1 i j y z); trivial. unfold started. now rewrite Hzs'. }
  unfold started in Hys. destruct (startTime y) as [s|] eqn:Hys'; [|discriminate].
  assert (Hc : completionTime y = Some (s + burst y)).
  { apply (Hu i y s); trivial. discriminate. }
  rewrite Hc. destruct (Hyco _ Hc) as (Hz0 & _). split; [exact Hz0|].
  now apply (S i j y z).
Qed.

Lemma fcfs_serves_in_order_of_arrival_witness :
  exists r, simulate "FCFS" four_processes no_options = Returned r
    /\ forall i j x x',
         (i < j)%nat ->
         processes (stats r) !! i = Some x ->
         processes (stats r) !! j = Some x' ->
         f_remaining x' < f_burst x' ->
         0 < f_burst x ->
         f_remaining x = 0 /\ f_completionTime x <= f_startTime x'.
Proof.
  apply (fcfs_serves_in_order_of_arrival four_processes no_options).
  apply NoDup_ListNoDup. simpl.
  repeat (apply List.NoDup_cons; [simpl; intuition discriminate|]).
  apply List.NoDup_nil.
Defined.

(** * The order of service of SJF and Priority *)

Lemma start_table_lookup {R} (st st' : State R) k y' :
  start_table st' = start_table st -> procs st' !! k = Some y' ->
  exists y, procs st !! k = Some y /\ descriptor_of y' = descriptor_of y
            /\ startTime y' = startTime y.
Proof.
  intros Ht Hy'. unfold start_table in Ht.
  assert (H : map (fun y => (descriptor_of y, startTime y)) (procs st') !! k
              = Some (descriptor_of y', startTime y')).
  { now rewrite list_lookup_fmap, Hy'. }
  rewrite Ht, list_lookup_fmap in H.
  destruct (procs st !! k) as [y|]; [|discriminate].
  injection H as H1 H2 H3 H4 H5.
  exists y. split; [reflexivity|]. split; [|now symmetry].
  unfold descriptor_of. now rewrite H1, H2, H3, H4.
Qed.

Lemma descriptor_fields y y' :
  descriptor_of y' = descriptor_of y ->
  arrival y' = arrival y /\ burst y' = burst y /\ fresh y' = fresh y.
Proof. intros H. unfold fresh. rewrite H. now injection H. Qed.

Lemma picked_in_order_table {R} cmp (st st' : State R) :
  start_table st' = start_table st -> picked_in_order cmp st -> picked_in_order cmp st'.
Proof.
  intros Ht Hp i j y' z' s Hy' Hz' Hs Ha Hb.
  destruct (start_table_lookup st st' i y' Ht Hy') as (y & Hy & Hyd & Hys).
  destruct (start_table_lookup st st' j z' Ht Hz') as (z & Hz & Hzd & Hzs).
  destruct (descriptor_fields _ _ Hyd) as (_ & _ & ->).
  destruct (descriptor_fields _ _ Hzd) as (Ea & Eb & ->).
  rewrite Hzs. apply (Hp i j y z s); congruence.
Qed.

Lemma start_table_alter {R} (f : Proc -> Proc) i (st : State R) :
  (forall y, descriptor_of (f y) = descriptor_of y /\ startTime (f y) = startTime y) ->
  start_table (with_procs (alter f i (procs st)) st) = start_table st.
Proof.
  intros Hf. unfold start_table. cbn [procs with_procs]. generalize (procs st).
  intros l. revert i. induction l as [|y l IH]; intros [|i]; simpl; trivial.
  - destruct (Hf y) as [-> ->]. reflexivity.
  - f_equal. apply IH.
Qed.

Lemma start_table_enqueue {R} (push : nat -> Proc -> R -> R) (st : State R) :
  start_table (enqueueArrivals push st) = start_table st.
Proof.
  unfold start_table. rewrite enqueueArrivals_procs, map_map. apply map_ext.
  intros y. unfold admit_mark. now destruct (admissible (time st) y).
Qed.

Lemma start_table_exec_unit {R} (push : nat -> Proc -> R -> R)
    (view : list Proc -> R -> list string) i p (st : State R) :
  start_table (exec_unit push view i p st) = start_table st.
Proof.
  unfold exec_unit. rewrite start_table_enqueue.
  apply (start_table_alter dec_remaining i st). now intros y.
Qed.

Section Picked.
Context {R : Type}.
Variable push : nat -> Proc -> R -> R.
Variable view : list Proc -> R -> list string.
Variable idle_view : R -> list string.

Lemma idle_until_procs fuel : forall jumpTo (st : State R),
  procs (idle_until idle_view fuel jumpTo st) = procs st.
Proof.
  induction fuel as [|fuel IH]; intros jumpTo st; cbn [idle_until]; [reflexivity|].
  destruct (time st <? jumpTo); [|reflexivity]. now rewrite IH.
Qed.

Lemma start_table_run_to_completion fuel : forall i p (st : State R),
  start_table (run_to_completion push view fuel i p st) = start_table st.
Proof.
  induction fuel as [|n IH]; intros i p st; cbn [run_to_completion]; [reflexivity|].
  destruct (0 <? remaining (procs st !!! i)); [|reflexivity].
  now rewrite IH, start_table_exec_unit.
Qed.

Lemma start_table_run_whole i p (st : State R) :
  start_table (run_whole push view i p st) = start_table st.
Proof.
  unfold run_whole.
  set (st1 := run_to_completion push view _ i p st).
  rewrite (start_table_alter (set_completion (time st1)) i st1) by now intros y.
  apply start_table_run_to_completion.
Qed.

Lemma start_table_idle_phase (st : State R) f st' :
  idle_phase push idle_view st = (f, st') -> start_table st' = start_table st.
Proof.
  unfold idle_phase. destruct (find _ (procs st)) as [next|]; intros [= _ <-];
    [|reflexivity].
  rewrite start_table_enqueue. unfold start_table. now rewrite idle_until_procs.
Qed.

End Picked.

(** The selection of SJF and Priority, after the admission at the start of
    the iteration. *)
Lemma pick_dispatch_picked cmp (st : State (list nat)) f st' :
  (forall a, cmp a a <= 0) ->
  (forall a b, 0 < cmp a b -> cmp b a <= 0) ->
  (forall a b c, cmp a b <= 0 -> cmp b c <= 0 -> cmp a c <= 0) ->
  (forall a b, remaining a = burst a -> remaining b = burst b ->
               cmp a b = cmp (fresh a) (fresh b)) ->
  ready_ok list_ok st -> books list_named None st ->
  nonpreemptive list_named NoDup None st ->
  all_admitted (time st) (procs st) ->
  picked_in_order cmp st ->
  pick_dispatch cmp st = Returned (f, st') ->
  picked_in_order cmp st'.
Proof.
  intros Hrefl Hanti Htrans Hreads Hok (_ & Hpok & Hnamed & Hqueued) (_ & Hw & Hu & _)
         Hall Hp.
  unfold pick_dispatch. destruct (ready st) as [|i0 rest0] eqn:Hq.
  - intros [= H]. eapply picked_in_order_table; [|exact Hp].
    apply (start_table_idle_phase list_push (fun _ => []) st f st' H).
  - set (cmp' := fun a b => cmp (procs st !!! a) (procs st !!! b)).
    pose proof (js_sort_perm cmp' (i0 :: rest0)) as Hperm.
    destruct (js_sort cmp' (i0 :: rest0)) as [|i rest] eqn:Hs; [discriminate|].
    intros [= _ <-].
    assert (Hhead : forall j, In j (i0 :: rest0) -> cmp' i j <= 0).
    { apply (js_sort_head cmp' (i0 :: rest0)) with rest; unfold cmp'; eauto. }
    unfold ready_ok in Hok. rewrite Hq in Hok.
    assert (Hi : (i < length (procs st))%nat).
    { unfold list_ok in Hok. rewrite <- Hperm in Hok. inversion Hok; subst.
      now rewrite length_map in *. }
    destruct (lookup_lt_is_Some_2 _ i Hi) as [y Hy].
    assert (Hin : In i (i0 :: rest0)) by (rewrite <- Hperm; now left).
    assert (Hys : startTime y = None).
    { apply (Hw i y Hy). unfold list_named. now rewrite Hq. }
    pose proof (Hnamed i y Hy Hin) as Hye.
    rewrite List.Forall_forall in Hpok.
    assert (Hproc : forall k z, procs st !! k = Some z -> proc_ok (time st) z).
    { intros k z Hz. apply Hpok, list_elem_of_In. eapply list_elem_of_lookup_2, Hz. }
    assert (Hrem : forall k z, procs st !! k = Some z -> startTime z = None ->
                               remaining z = burst z).
    { intros k z Hz Hzs. destruct (Hproc k z Hz) as (Hle & Hout & Hin' & _).
      destruct (enqueued z) eqn:E; [|now destruct (Hout eq_refl)].
      destruct (Hin' eq_refl) as (_ & _ & _ & Hst).
      destruct (Z.eq_dec (remaining z) (burst z)) as [|Hne]; [assumption|].
      exfalso. apply Hst; [lia | exact Hzs]. }
    eapply picked_in_order_table; [apply start_table_run_whole|].
    intros a b ya' zb' s Ha Hb Hs' Harr Hwork. cbn [procs] in Ha, Hb.
    assert (Hlook : forall k z', alter (set_start (time st)) i (procs st) !! k = Some z' ->
              (k = i /\ z' = set_start (time st) y) \/ (k <> i /\ procs st !! k = Some z')).
    { intros k z' Hz'.
      destruct (lookup_alter_cases _ _ _ _ _ Hz') as [(-> & z & Hz & ->)|(Hne & Hz)];
        [left | now right]. split; [reflexivity|]. congruence. }
    assert (Hfy : fresh (set_start (time st) y) = fresh y) by reflexivity.
    destruct (Hlook a ya' Ha) as [[-> ->]|[Hna Ha']].
    + assert (s = time st) as ->.
      { unfold set_start in Hs'. rewrite Hys in Hs'. simpl in Hs'. congruence. }
      rewrite Hfy. destruct (Hlook b zb' Hb) as [[-> ->]|[Hnb Hb']].
      * right. rewrite Hfy. apply Hrefl.
      * assert (Hze : enqueued zb' = true).
        { destruct (enqueued zb') eqn:E; [reflexivity|].
          destruct (Hproc b zb' Hb') as (_ & Hout & _).
          destruct (Hout E) as (Hr & _).
          unfold all_admitted in Hall. rewrite List.Forall_forall in Hall.
          rewrite <- E. apply Hall; [|exact Harr | lia].
          apply list_elem_of_In. eapply list_elem_of_lookup_2, Hb'. }
        destruct (startTime zb') as [s'|] eqn:Hzs.
        -- left. exists s'. split; [reflexivity|].
           assert (Hc : completionTime zb' = Some (s' + burst zb')).
           { apply (Hu b zb' s'); trivial. discriminate. }
           destruct (Hproc b zb' Hb') as (_ & _ & _ & _ & Hco).
           destruct (Hco _ Hc) as (_ & Hle & _). lia.
        -- right. pose proof (Hrem b zb' Hb' Hzs) as Hrz.
           pose proof (Hrem i y Hy Hys) as Hry.
           destruct (Hqueued b zb' Hb' Hze) as [H|H]; [lia | discriminate|].
           rewrite <- (Hreads y zb' Hry Hrz).
           assert (Hc : cmp' i b <= 0) by (apply Hhead; exact H).
           unfold cmp' in Hc.
           now rewrite (list_lookup_total_correct _ _ _ Hy),
                       (list_lookup_total_correct _ _ _ Hb') in Hc.
    + destruct (Hlook b zb' Hb) as [[-> ->]|[Hnb Hb']].
      * rewrite Hfy. right.
        destruct (Hp a i ya' y s Ha' Hy Hs' Harr Hwork) as [(s' & Hs'' & _)|H];
          [congruence | exact H].
      * now apply (Hp a b ya' zb' s).
Qed.

Lemma by_remaining_reads a b :
  remaining a = burst a -> remaining b = burst b ->
  by_remaining a b = by_remaining (fresh a) (fresh b).
Proof. intros Ha Hb. unfold by_remaining, fresh. simpl. now rewrite Ha, Hb. Qed.

Lemma by_priority_reads a b :
  remaining a = burst a -> remaining b = burst b ->
  by_priority a b = by_priority (fresh a) (fresh b).
Proof. reflexivity. Qed.

Lemma picked_start {R} cmp ps (r0 : R) :
  Forall (fun p => exists d, p = init_proc d) ps ->
  picked_in_order cmp (mkState ps 0 r0 [] []).
Proof.
  intros Hinit i j y z s Hy _ Hs. exfalso. rewrite List.Forall_forall in Hinit.
  destruct (Hinit y) as [d ->]; [|discriminate].
  apply list_elem_of_In. eapply list_elem_of_lookup_2, Hy.
Qed.

(** The state in which SJF and Priority end. *)
Lemma simulate_pick_order cmp ds :
  (forall a, cmp a a <= 0) ->
  (forall a b, 0 < cmp a b -> cmp b a <= 0) ->
  (forall a b c, cmp a b <= 0 -> cmp b c <= 0 -> cmp a c <= 0) ->
  (forall a b, remaining a = burst a -> remaining b = burst b ->
               cmp a b = cmp (fresh a) (fresh b)) ->
  NoDup (map d_pid ds) ->
  exists st : State (list nat),
    run_simulator list_push list_empty (pick_dispatch cmp) (map init_proc ds) []
    = Returned (finish st)
    /\ books list_named None st /\ unbroken None st /\ picked_in_order cmp st.
Proof.
  intros Hrefl Hanti Htrans Hreads Hnd.
  assert (H1 : NoDup (map pid (map init_proc ds))) by now rewrite map_map.
  destruct (run_simulator_keeps_each list_push list_empty (pick_dispatch cmp) list_ok
              list_named
              (fun st => nonpreemptive list_named NoDup None st /\ picked_in_order cmp st)
              list_push_ok (pick_dispatch_ok cmp) list_named_pid
              list_named_push_old list_named_push_new list_named_push_inv
              list_empty_names_nobody (pick_dispatch_books cmp))
    with (ps := map init_proc ds) (r0 := @nil nat)
    as (st & Hr & Hb & ((_ & _ & Hu) & Hp) & _); trivial.
  - intros st Hb [Hn Hp]. split.
    + now apply (nonpreemptive_enqueue list_push list_named NoDup list_named_pid
                   list_named_push_old list_named_push_new list_named_push_inv
                   list_distinct_push None).
    + eapply picked_in_order_table; [apply start_table_enqueue | exact Hp].
  - intros st f st' Hg Hb [Hn Hp] Hit. unfold iteration in Hit.
    destruct (enqueueArrivals_leads list_push list_ok list_push_ok st) as [_ Hg'].
    specialize (Hg' Hg).
    assert (Hb1 : books list_named None (enqueueArrivals list_push st)).
    { now apply (books_enqueue list_push list_named list_named_pid list_named_push_old
                   list_named_push_new list_named_push_inv). }
    assert (Hn1 : nonpreemptive list_named NoDup None (enqueueArrivals list_push st)).
    { now apply (nonpreemptive_enqueue list_push list_named NoDup list_named_pid
                   list_named_push_old list_named_push_new list_named_push_inv
                   list_distinct_push None). }
    split.
    + now apply (pick_dispatch_nonpreemptive cmp (enqueueArrivals list_push st) f st').
    + apply (pick_dispatch_picked cmp (enqueueArrivals list_push st) f st'); trivial.
      * destruct (enqueueArrivals_fields list_push st) as (-> & _).
        apply enqueueArrivals_all_admitted.
      * eapply picked_in_order_table; [apply start_table_enqueue | exact Hp].
  - apply init_procs_ok.
  - constructor.
  - split; [|apply picked_start, init_procs_ok].
    apply nonpreemptive_start; [apply init_procs_ok | apply NoDup_nil_2 | intros i y []].
  - now exists st.
Qed.

(** What the final state gives for two processes of the report. *)
Lemma picked_report cmp (st : State (list nat)) (x x' : FinalProc) :
  books list_named None st -> unbroken None st -> picked_in_order cmp st ->
  In x (map (finalize_proc (time st)) (procs st)) ->
  In x' (map (finalize_proc (time st)) (procs st)) ->
  f_remaining x < f_burst x ->
  0 < f_burst x' -> f_arrival x' <= f_startTime x ->
  exists y z, x = finalize_proc (time st) y /\ x' = finalize_proc (time st) z
    /\ ((f_remaining x' = 0 /\ f_startTime x' < f_startTime x)
        \/ cmp (fresh y) (fresh z) <= 0).
Proof.
  intros (_ & Hok & _) (Hu & _) Hp Hx Hx' Hserved Hwork Harr.
  apply in_map_iff in Hx as (y & <- & Hy). apply in_map_iff in Hx' as (z & <- & Hz).
  exists y, z. split; [reflexivity|]. split; [reflexivity|].
  rewrite List.Forall_forall in Hok.
  destruct (Hok y Hy) as (_ & Hyout & Hyin & _). destruct (Hok z Hz) as (_ & _ & _ & _ & Hzco).
  apply list_elem_of_In, list_elem_of_lookup in Hy as [i Hi].
  apply list_elem_of_In, list_elem_of_lookup in Hz as [j Hj].
  unfold finalize_proc in *.
  cbn [f_remaining f_burst f_startTime f_arrival] in *.
  assert (Hye : enqueued y = true).
  { destruct (enqueued y); [reflexivity|]. destruct (Hyout eq_refl). lia. }
  destruct (Hyin Hye) as (_ & _ & _ & Hys).
  destruct (startTime y) as [s|] eqn:Hys'; [|now destruct (Hys Hserved)].
  destruct (Hp i j y z s Hi Hj Hys' Harr Hwork) as [(s' & Hs' & Hlt)|H]; [|now right].
  left. rewrite Hs'. split; [|exact Hlt].
  assert (Hc : completionTime z = Some (s' + burst z)).
  { apply (Hu j z s'); trivial. discriminate. }
  now destruct (Hzco _ Hc).
Qed.

(** X28. SJF serves the shortest job first.  When the pids differ, a process
    that has been served was, at its start, the shortest of the processes with
    work that had arrived and had not been served before: each such process
    has a longer burst, or the same burst and an arrival that is not
    earlier. *)
Theorem sjf_serves_shortest_first (ps : list ProcIn) (o : Options) :
  NoDup (map in_pid ps) ->
  exists r, simulate "SJF" ps o = Returned r
    /\ forall x x',
         In x (processes (stats r)) -> In x' (processes (stats r)) ->
         f_remaining x < f_burst x ->
         0 < f_burst x' -> f_arrival x' <= f_startTime x ->
         (f_remaining x' = 0 /\ f_startTime x' < f_startTime x)
         \/ f_burst x < f_burst x'
         \/ (f_burst x = f_burst x' /\ f_arrival x <= f_arrival x').
Proof.
  intros Hnd.
  assert (Hnd' : NoDup (map d_pid (map normalize ps))) by now rewrite map_map.
  change (simulate "SJF" ps o) with (simulateSJF (map normalize ps)).
  destruct by_remaining_orders as (O1 & O2 & O3).
  destruct (simulate_pick_order by_remaining (map normalize ps) O1 O2 O3
              by_remaining_reads Hnd') as (st & Hr & Hb & Hu & Hp).
  exists (finish st). split; [exact Hr|].
  change (processes (stats (finish st))) with (map (finalize_proc (time st)) (procs st)).
  intros x x' Hx Hx' Hserved Hwork Harr.
  destruct (picked_report by_remaining st x x' Hb Hu Hp Hx Hx' Hserved Hwork Harr)
    as (y & z & -> & -> & [H|H]); [now left|]. right.
  apply by_remaining_le in H. unfold shorter_or_earlier, fresh in H. simpl in H.
  exact H.
Qed.

Lemma sjf_serves_shortest_first_witness :
  exists r, simulate "SJF" short_comes_last no_options = Returned r
    /\ forall x x',
         In x (processes (stats r)) -> In x' (processes (stats r)) ->
         f_remaining x < f_burst x ->
         0 < f_burst x' -> f_arrival x' <= f_startTime x ->
         (f_remaining x' = 0 /\ f_startTime x' < f_startTime x)
         \/ f_burst x < f_burst x'
         \/ (f_burst x = f_burst x' /\ f_arrival x <= f_arrival x').
Proof.
  apply (sjf_serves_shortest_first short_comes_last no_options).
  apply NoDup_ListNoDup. simpl.
  repeat (apply List.NoDup_cons; [simpl; intuition discriminate|]).
  apply List.NoDup_nil.
Defined.

(** X29. Priority serves the most urgent process first.  When the pids
    differ, a process that has been served was, at its start, the first of
    the processes with work that had arrived and had not been served before:
    each such process has a higher priority value, or the same and a later
    arrival, or the same priority and arrival and a burst that is not
    shorter. *)
Theorem priority_serves_most_urgent_first (ps : list ProcIn) (o : Options) :
  NoDup (map in_pid ps) ->
  exists r, simulate "PRIORITY" ps o = Returned r
    /\ forall x x',
         In x (processes (stats r)) -> In x' (processes (stats r)) ->
         f_remaining x < f_burst x ->
         0 < f_burst x' -> f_arrival x' <= f_startTime x ->
         (f_remaining x' = 0 /\ f_startTime x' < f_startTime x)
         \/ f_priority x < f_priority x'
         \/ (f_priority x = f_priority x'
             /\ (f_arrival x < f_arrival x'
                 \/ (f_arrival x = f_arrival x' /\ f_burst x <= f_burst x'))).
Proof.
  intros Hnd.
  assert (Hnd' : NoDup (map d_pid (map normalize ps))) by now rewrite map_map.
  change (simulate "PRIORITY" ps o) with (simulatePriority (map normalize ps)).
  destruct by_priority_orders as (O1 & O2 & O3).
  destruct (simulate_pick_order by_priority (map normalize ps) O1 O2 O3
              by_priority_reads Hnd') as (st & Hr & Hb & Hu & Hp).
  exists (finish st). split; [exact Hr|].
  change (processes (stats (finish st))) with (map (finalize_proc (time st)) (procs st)).
  intros x x' Hx Hx' Hserved Hwork Harr.
  destruct (picked_report by_priority st x x' Hb Hu Hp Hx Hx' Hserved Hwork Harr)
    as (y & z & -> & -> & [H|H]); [now left|]. right.
  apply by_priority_le in H. unfold more_urgent, fresh in H. simpl in H.
  exact H.
Qed.

Lemma priority_serves_most_urgent_first_witness :
  exists r, simulate "PRIORITY" short_comes_last no_options = Returned r
    /\ forall x x',
         In x (processes (stats r)) -> In x' (processes (stats r)) ->
         f_remaining x < f_burst x ->
         0 < f_burst x' -> f_arrival x' <= f_startTime x ->
         (f_remaining x' = 0 /\ f_startTime x' < f_startTime x)
         \/ f_priority x < f_priority x'
         \/ (f_priority x = f_priority x'
             /\ (f_arrival x < f_arrival x'
                 \/ (f_arrival x = f_arrival x' /\ f_burst x <= f_burst x'))).
Proof.
  apply (priority_serves_most_urgent_first short_comes_last no_options).
  apply NoDup_ListNoDup. simpl.
  repeat (apply List.NoDup_cons; [simpl; intuition discriminate|]).
  apply List.NoDup_nil.
Defined.

(** * The iterations that a run needs *)

Lemma total_app (l l' : list Z) : total (l ++ l') = total l + total l'.
Proof. induction l as [|x l IH]; simpl; lia. Qed.

Lemma total_perm (l l' : list Z) : Permutation l l' -> total l = total l'.
Proof. induction 1; simpl; lia. Qed.

Lemma cost_nonneg y : 0 <= cost y.
Proof. unfold cost. destruct (negb (enqueued y) && (0 <? remaining y)); lia. Qed.

Lemma total_cost_nonneg (ps : list Proc) : 0 <= total (map cost ps).
Proof. induction ps as [|y ps IH]; simpl; [lia|]. pose proof (cost_nonneg y). lia. Qed.

Lemma total_cost_alter (f : Proc -> Proc) i (ps : list Proc) y :
  ps !! i = Some y ->
  total (map cost (alter f i ps)) = total (map cost ps) - cost y + cost (f y).
Proof.
  unfold total. revert i.
  induction ps as [|z ps IH]; intros [|i] H; try discriminate H; simpl in *.
  - injection H as ->. lia.
  - change (list_alter f i ps) with (alter f i ps). rewrite (IH i H). lia.
Qed.

Lemma total_cost_alter_same (f : Proc -> Proc) i (ps : list Proc) :
  (forall y, cost (f y) = cost y) ->
  total (map cost (alter f i ps)) = total (map cost ps).
Proof.
  intros Hf. unfold total. revert i.
  induction ps as [|y l IH]; intros [|i]; simpl; trivial.
  - now rewrite Hf.
  - f_equal. apply IH.
Qed.

Lemma cost_admitted now y :
  admissible now y = true -> cost (admit_mark now y) = cost y - 2.
Proof.
  intros H. unfold admit_mark. rewrite H.
  apply admissible_facts in H as (He & _ & Hr). unfold cost. simpl. rewrite He. simpl.
  destruct (Z.ltb_spec 0 (remaining y)); lia.
Qed.

Section Load.
Context {R : Type}.
Variable push : nat -> Proc -> R -> R.
Variable view : list Proc -> R -> list string.
Variable idle_view : R -> list string.
Variable named : nat -> Proc -> R -> Prop.
Variable size : R -> Z.

Hypothesis named_pid : forall i y y' r, pid y' = pid y -> named i y r -> named i y' r.
Hypothesis named_push_old : forall i y j p r, named i y r -> named i y (push j p r).
Hypothesis named_push_new : forall j p r, named j p (push j p r).
Hypothesis named_push_inv : forall i y j p r,
  named i y (push j p r) -> named i y r \/ i = j \/ pid y = pid p.
Hypothesis size_push : forall i p r, size (push i p r) = size r + 1.
Hypothesis size_nonneg : forall r, 0 <= size r.

Lemma load_nonneg (st : State R) : 0 <= load size st.
Proof.
  unfold load. pose proof (total_cost_nonneg (procs st)).
  pose proof (size_nonneg (ready st)). lia.
Qed.

(** Each admission takes two from the cost and adds an entry. *)
Lemma enqueue_from_load now (ps : list Proc) : forall i r,
  total (map cost (fst (enqueue_from push now i ps r)))
  + size (snd (enqueue_from push now i ps r))
  = total (map cost ps) + size r
    - Z.of_nat (length (List.filter (admissible now) ps)).
Proof.
  induction ps as [|p ps IH]; intros i r; [simpl; lia|].
  cbn [enqueue_from List.filter].
  change (negb (enqueued p) && (arrival p <=? now) && (0 <? remaining p))
    with (admissible now p).
  destruct (admissible now p) eqn:Hadm.
  - specialize (IH (S i) (push i p r)).
    destruct (enqueue_from push now (S i) ps (push i p r)) as [qs r'].
    cbn [fst snd map total fold_right length] in *. rewrite size_push in IH.
    pose proof (cost_admitted now p Hadm) as Hc. unfold admit_mark in Hc.
    rewrite Hadm in Hc. unfold total in *. lia.
  - specialize (IH (S i) r).
    destruct (enqueue_from push now (S i) ps r) as [qs r'].
    cbn [fst snd map total fold_right] in *. unfold total in *. lia.
Qed.

Lemma load_enqueue (st : State R) :
  load size (enqueueArrivals push st)
  = load size st - Z.of_nat (length (List.filter (admissible (time st)) (procs st))).
Proof.
  unfold load, enqueueArrivals.
  pose proof (enqueue_from_load (time st) (procs st) 0 (ready st)) as H.
  destruct (enqueue_from push (time st) 0 (procs st) (ready st)) as [qs r'].
  exact H.
Qed.

Lemma load_enqueue_le (st : State R) :
  load size (enqueueArrivals push st) <= load size st.
Proof. rewrite load_enqueue. lia. Qed.

Lemma load_exec_unit i p n (st : State R) :
  running i n st -> 0 < n ->
  load size (exec_unit push view i p st) <= load size st - 2.
Proof.
  intros (y & s & Hy & He & _ & Hn) Hpos. unfold exec_unit.
  eapply Z.le_trans; [apply load_enqueue_le|].
  unfold load. cbn [procs ready emit with_procs].
  rewrite (total_cost_alter dec_remaining i (procs st) y Hy).
  unfold cost. simpl. rewrite He. simpl. lia.
Qed.

Lemma load_run_for n : forall i p m (st : State R),
  books named (Some i) st -> running i m st -> Z.of_nat n <= m ->
  load size (run_for push view n i p st) <= load size st - 2 * Z.of_nat n.
Proof.
  induction n as [|n IH]; intros i p m st Hb Hr Hm; cbn [run_for]; [lia|].
  destruct (books_exec_unit push view named named_pid named_push_old named_push_new
              named_push_inv i p m st Hb Hr) as [Hb1 Hr1]; [lia|].
  pose proof (load_exec_unit i p m st Hr) as H1.
  pose proof (IH i p (m - 1) _ Hb1 Hr1) as H2. lia.
Qed.

Lemma load_run_to_completion fuel : forall i p (st : State R),
  books named (Some i) st -> running i 0 st ->
  load size (run_to_completion push view fuel i p st) <= load size st.
Proof.
  induction fuel as [|n IH]; intros i p st Hb Hr; cbn [run_to_completion]; [lia|].
  destruct (Z.ltb_spec 0 (remaining (procs st !!! i))) as [Hpos|_]; [|lia].
  assert (Hr1 : running i 1 st).
  { destruct Hr as (y & s & Hy & He & Hs & _). exists y, s. repeat split; trivial.
    rewrite (list_lookup_total_correct _ _ _ Hy) in Hpos. lia. }
  destruct (books_exec_unit push view named named_pid named_push_old named_push_new
              named_push_inv i p 1 st Hb Hr1) as [Hb1 Hr2]; [lia|].
  pose proof (load_exec_unit i p 1 st Hr1). pose proof (IH i p _ Hb1 Hr2). lia.
Qed.

Lemma load_alter_same (f : Proc -> Proc) i (st : State R) :
  (forall y, cost (f y) = cost y) ->
  load size (with_procs (alter f i (procs st)) st) = load size st.
Proof.
  intros Hf. unfold load. cbn [procs ready with_procs].
  now rewrite total_cost_alter_same.
Qed.

Lemma load_run_whole i p (st : State R) :
  books named (Some i) st -> running i 0 st ->
  load size (run_whole push view i p st) <= load size st.
Proof.
  intros Hb Hr. unfold run_whole. rewrite load_alter_same by reflexivity.
  now apply load_run_to_completion.
Qed.

Lemma load_run_slice requeue q i p (st : State R) :
  (forall r, size (requeue p r) = size r + 1) ->
  0 < q ->
  books named (Some i) st -> running i 0 st ->
  load size (run_slice push view requeue q i p st) <= load size st.
Proof.
  intros Hreq Hq Hb Hr. unfold run_slice.
  set (n := Z.to_nat (Z.min q (remaining (procs st !!! i)))).
  pose proof (running_remaining _ _ _ Hr) as Hrem.
  assert (Hr' : running i (remaining (procs st !!! i)) st).
  { destruct Hr as (y & s & Hy & He & Hs & _). exists y, s.
    rewrite (list_lookup_total_correct _ _ _ Hy). repeat split; trivial. lia. }
  assert (Hn : Z.of_nat n <= remaining (procs st !!! i)) by (unfold n; lia).
  pose proof (load_run_for n i p _ st Hb Hr' Hn) as Hload.
  destruct (books_run_for push view named named_pid named_push_old named_push_new
              named_push_inv n i p _ st Hb Hr' Hn) as [_ Hr1].
  set (st1 := run_for push view n i p st) in *.
  destruct (Z.eqb_spec (remaining (procs st1 !!! i)) 0) as [Hz|Hnz].
  - rewrite load_alter_same by reflexivity. lia.
  - unfold load in *. cbn [procs ready with_ready]. rewrite Hreq.
    assert (Hi : (i < length (procs st))%nat).
    { destruct Hr as (y & s & Hy & _). eapply lookup_lt_Some, Hy. }
    destruct (run_for_units push view n i p st Hi) as (_ & _ & Hexact & _).
    fold st1 in Hexact.
    assert (Z.of_nat n <> remaining (procs st !!! i)) by lia.
    assert (1 <= Z.of_nat n) by (unfold n in *; lia). lia.
Qed.

Lemma load_idle_until fuel : forall jumpTo (st : State R),
  load size (idle_until idle_view fuel jumpTo st) = load size st.
Proof.
  induction fuel as [|fuel IH]; intros jumpTo st; cbn [idle_until]; [reflexivity|].
  destruct (time st <? jumpTo); [|reflexivity]. now rewrite IH.
Qed.

(** An idle stretch ends with an admission. *)
Lemma load_idle_phase (st st' : State R) :
  idle_phase push idle_view st = (Continue, st') -> load size st' < load size st.
Proof.
  unfold idle_phase. destruct (find _ (procs st)) as [next|] eqn:Hfind; [|discriminate].
  intros [= <-]. apply find_some in Hfind as [Hin Hnext].
  apply andb_true_iff in Hnext as [He Hr].
  set (fuel := Z.to_nat (arrival next - time st)).
  destruct (idle_until_units idle_view fuel (arrival next) st) as (Ht & Hp & _);
    [unfold fuel; lia|].
  rewrite load_enqueue, load_idle_until, Hp, Ht.
  assert (Hadm : admissible (Z.max (time st) (arrival next)) next = true).
  { unfold admissible. rewrite He, Hr. simpl. rewrite andb_true_r. apply Z.leb_le. lia. }
  assert (In next (List.filter (admissible (Z.max (time st) (arrival next))) (procs st))).
  { apply filter_In. now split. }
  destruct (List.filter _ (procs st)); [contradiction | simpl; lia].
Qed.

(** The selection takes an entry. *)
Lemma load_select i (st : State R) r' :
  size r' = size (ready st) - 1 ->
  load size (with_procs (alter (set_start (time st)) i (procs st)) (with_ready r' st))
  = load size st - 1.
Proof.
  intros Hs. unfold load. cbn [procs ready with_procs with_ready].
  rewrite total_cost_alter_same by reflexivity. lia.
Qed.

End Load.

Section LoadLoop.
Context {R : Type}.
Variable push : nat -> Proc -> R -> R.
Variable is_empty : R -> bool.
Variable dispatch : State R -> Outcome (Flow * State R).
Variable G : list string -> R -> Prop.
Variable named : nat -> Proc -> R -> Prop.
Variable size : R -> Z.

Hypothesis push_ok : forall pids i p r,
  pids !! i = Some (pid p) -> G pids r -> G pids (push i p r).
Hypothesis dispatch_ok : forall st,
  ready_ok G st -> exists f st', dispatch st = Returned (f, st') /\ leads G st st'.
Hypothesis named_pid : forall i y y' r, pid y' = pid y -> named i y r -> named i y' r.
Hypothesis named_push_old : forall i y j p r, named i y r -> named i y (push j p r).
Hypothesis named_push_new : forall j p r, named j p (push j p r).
Hypothesis named_push_inv : forall i y j p r,
  named i y (push j p r) -> named i y r \/ i = j \/ pid y = pid p.
Hypothesis empty_names_nobody : forall r i y, is_empty r = true -> ~ named i y r.
Hypothesis dispatch_books : forall st f st',
  ready_ok G st -> books named None st -> dispatch st = Returned (f, st') ->
  books named None st'.
Hypothesis size_push : forall i p r, size (push i p r) = size r + 1.
Hypothesis size_nonneg : forall r, 0 <= size r.
Hypothesis dispatch_load : forall st st',
  ready_ok G st -> books named None st ->
  dispatch st = Returned (Continue, st') -> load size st' < load size st.

(** With more iterations left than the load, the loop ends by itself. *)
Lemma loop_below fuel : forall (st : State R),
  ready_ok G st -> books named None st ->
  load size st < Z.of_nat fuel ->
  loop_hits_ceiling push is_empty dispatch fuel st = false.
Proof.
  induction fuel as [|fuel IH]; intros st Hg Hb Hl; cbn [loop_hits_ceiling].
  - pose proof (load_nonneg size size_nonneg st). lia.
  - destruct (work_left is_empty st); [|reflexivity].
    destruct (iteration push dispatch st) as [[[|] st1]|] eqn:Hit; trivial.
    destruct (iteration_keeps push dispatch G named push_ok dispatch_ok named_pid
                named_push_old named_push_new named_push_inv dispatch_books
                st _ st1 Hg Hb Hit) as (Hg1 & Hb1 & _).
    apply IH; trivial. unfold iteration in Hit.
    destruct (enqueueArrivals_leads push G push_ok st) as [_ Hg'].
    assert (Hb' : books named None (enqueueArrivals push st)) by now apply books_enqueue.
    pose proof (dispatch_load _ _ (Hg' Hg) Hb' Hit).
    pose proof (load_enqueue_le push size size_push st). lia.
Qed.

Lemma hits_ceiling_below (ps : list Proc) (r0 : R) :
  NoDup (map pid ps) ->
  Forall (fun p => exists d, p = init_proc d) ps ->
  is_empty r0 = true ->
  G (map pid ps) r0 ->
  total (map cost ps) + size r0 < 200000 ->
  hits_ceiling push is_empty dispatch ps r0 = false.
Proof.
  intros Hnd Hinit He Hg0 Hl. unfold hits_ceiling.
  set (st0 := mkState ps 0 r0 [] []).
  destruct (enqueueArrivals_leads push G push_ok st0) as [_ Hg1].
  apply loop_below.
  - now apply Hg1.
  - apply books_enqueue; trivial. now apply (start_books is_empty).
  - pose proof (load_enqueue_le push size size_push st0) as H.
    unfold maxIter. rewrite Z2Nat.id by lia. unfold load at 2 in H.
    cbn [procs ready st0] in H. lia.
Qed.

End LoadLoop.

Lemma queue_size_push i p q : queue_size (queue_push i p q) = queue_size q + 1.
Proof. unfold queue_size, queue_push. rewrite length_app. simpl. lia. Qed.

Lemma queue_size_nonneg q : 0 <= queue_size q.
Proof. unfold queue_size. lia. Qed.

Lemma list_size_push i p l : list_size (list_push i p l) = list_size l + 1.
Proof. unfold list_size, list_push. rewrite length_app. simpl. lia. Qed.

Lemma list_size_nonneg l : 0 <= list_size l.
Proof. unfold list_size. lia. Qed.

Lemma mlq_size_push i p q : mlq_size (mlq_push i p q) = mlq_size q + 1.
Proof.
  unfold mlq_size, mlq_push. destruct (priority p =? 0); cbn [fgQueue bgQueue];
    rewrite length_app; simpl; lia.
Qed.

Lemma mlq_size_nonneg q : 0 <= mlq_size q.
Proof. unfold mlq_size. lia. Qed.

Lemma rr_dispatch_load quantum (st st' : State (list string)) :
  0 < quantum -> books queue_named None st ->
  rr_dispatch quantum st = Returned (Continue, st') ->
  load queue_size st' < load queue_size st.
Proof.
  intros Hq Hb. unfold rr_dispatch. destruct (ready st) as [|p rest] eqn:Hr.
  - intros [= H]. now apply (load_idle_phase queue_push (fun q => q) queue_size
                               queue_size_push st st').
  - unfold with_found.
    destruct (find_index _ _) as [i|] eqn:Hfind; [|discriminate].
    intros [= <-]. cbn [procs with_ready] in Hfind.
    destruct (queue_select st p rest i Hb Hr Hfind) as (H1 & H2 & _).
    pose proof (load_select queue_size i st rest) as Hsel.
    rewrite Hr in Hsel. unfold queue_size at 1 2 in Hsel. cbn [length] in Hsel.
    specialize (Hsel ltac:(lia)).
    pose proof (load_run_slice queue_push queue_view queue_named queue_size
                  queue_named_pid queue_named_push_old queue_named_push_new
                  queue_named_push_inv queue_size_push
                  (fun x q => q ++ [x]) quantum i p _
                  (fun r => queue_size_push 0%nat (mkProc p 0 0 0 0 None None false) r)
                  Hq H1 H2) as Hslice.
    cbn [time with_ready] in *. lia.
Qed.

Lemma fcfs_dispatch_load (st st' : State (list string)) :
  books queue_named None st ->
  fcfs_dispatch st = Returned (Continue, st') ->
  load queue_size st' < load queue_size st.
Proof.
  intros Hb. unfold fcfs_dispatch. destruct (ready st) as [|p rest] eqn:Hr.
  - intros [= H]. now apply (load_idle_phase queue_push (fun q => q) queue_size
                               queue_size_push st st').
  - unfold with_found.
    destruct (find_index _ _) as [i|] eqn:Hfind; [|discriminate].
    intros [= <-]. cbn [procs with_ready] in Hfind.
    destruct (queue_select st p rest i Hb Hr Hfind) as (H1 & H2 & _).
    pose proof (load_select queue_size i st rest) as Hsel.
    rewrite Hr in Hsel. unfold queue_size at 1 2 in Hsel. cbn [length] in Hsel.
    specialize (Hsel ltac:(lia)).
    pose proof (load_run_whole queue_push queue_view queue_named queue_size
                  queue_named_pid queue_named_push_old queue_named_push_new
                  queue_named_push_inv queue_size_push i p _ H1 H2) as Hrun.
    cbn [time with_ready] in *. lia.
Qed.

Lemma pick_dispatch_load cmp (st st' : State (list nat)) :
  ready_ok list_ok st -> books list_named None st ->
  pick_dispatch cmp st = Returned (Continue, st') ->
  load list_size st' < load list_size st.
Proof.
  intros Hok Hb. unfold pick_dispatch. destruct (ready st) as [|i0 rest0] eqn:Hq.
  - intros [= H]. now apply (load_idle_phase list_push (fun _ => []) list_size
                               list_size_push st st').
  - set (cmp' := fun a b => cmp (procs st !!! a) (procs st !!! b)).
    pose proof (js_sort_perm cmp' (i0 :: rest0)) as Hperm.
    destruct (js_sort cmp' (i0 :: rest0)) as [|i rest] eqn:Hs; [discriminate|].
    intros [= <-].
    unfold ready_ok in Hok. rewrite Hq in Hok.
    assert (Hi : (i < length (procs st))%nat).
    { unfold list_ok in Hok. rewrite <- Hperm in Hok. inversion Hok; subst.
      now rewrite length_map in *. }
    destruct (lookup_lt_is_Some_2 _ i Hi) as [y Hy].
    destruct (books_select list_named list_named_pid i y st rest Hb Hy) as [H1 H2].
    + unfold list_named. rewrite Hq, <- Hperm. now left.
    + intros k z. unfold list_named. rewrite Hq, <- Hperm. now right.
    + intros k z _. unfold list_named. rewrite Hq, <- Hperm. intros [H|H]; auto.
    + pose proof (load_select list_size i st rest) as Hsel.
      rewrite Hq in Hsel. unfold list_size at 1 2 in Hsel.
      apply Permutation_length in Hperm. cbn [length] in Hperm, Hsel.
      specialize (Hsel ltac:(lia)).
      pose proof (load_run_whole list_push list_view list_named list_size
                    list_named_pid list_named_push_old list_named_push_new
                    list_named_push_inv list_size_push i (pid (procs st !!! i)) _ H1 H2)
        as Hrun.
      unfold with_procs, with_ready in *. cbn [procs time ready history trace] in *. lia.
Qed.

Lemma mlq_dispatch_load fgQuantum bgQuantum (st st' : State MlqQueues) :
  0 < fgQuantum -> (forall q, bgQuantum = Some q -> 0 < q) ->
  books mlq_named None st ->
  mlq_dispatch fgQuantum bgQuantum st = Returned (Continue, st') ->
  load mlq_size st' < load mlq_size st.
Proof.
  intros Hfg Hbg Hb. unfold mlq_dispatch.
  destruct (fgQueue (ready st)) as [|p rest] eqn:Hfq.
  - destruct (bgQueue (ready st)) as [|p rest] eqn:Hbq.
    + intros [= H]. now apply (load_idle_phase mlq_push (fun _ => []) mlq_size
                                 mlq_size_push st st').
    + unfold with_found.
      destruct (find_index _ _) as [i|] eqn:Hfind; [|discriminate].
      intros [= <-]. cbn [procs with_ready] in Hfind.
      destruct (mlq_select st p (mkMlqQueues [] rest) i Hb Hfind) as (H1 & H2 & _).
      * rewrite Hfq, Hbq. now left.
      * rewrite Hfq, Hbq. intros x H. now right.
      * rewrite Hfq, Hbq. intros x [H|H]; [left; now symmetry | now right].
      * pose proof (load_select mlq_size i st (mkMlqQueues [] rest)) as Hsel.
        unfold mlq_size at 1 2 in Hsel. rewrite Hfq, Hbq in Hsel.
        cbn [fgQueue bgQueue length] in Hsel. specialize (Hsel ltac:(lia)).
        destruct bgQuantum as [q|].
        -- assert (Hsize : forall r, mlq_size (bg_requeue p r) = mlq_size r + 1).
           { intros r. unfold mlq_size, bg_requeue. cbn [fgQueue bgQueue].
             rewrite length_app. simpl. lia. }
           pose proof (load_run_slice mlq_push mlq_view mlq_named mlq_size
                         mlq_named_pid mlq_named_push_old mlq_named_push_new
                         mlq_named_push_inv mlq_size_push bg_requeue q i p _
                         Hsize (Hbg q eq_refl) H1 H2) as Hslice.
           cbn [time with_ready] in *. lia.
        -- pose proof (load_run_whole mlq_push mlq_view mlq_named mlq_size
                         mlq_named_pid mlq_named_push_old mlq_named_push_new
                         mlq_named_push_inv mlq_size_push i p _ H1 H2) as Hrun.
           cbn [time with_ready] in *. lia.
  - unfold with_found.
    destruct (find_index _ _) as [i|] eqn:Hfind; [|discriminate].
    intros [= <-]. cbn [procs with_ready] in Hfind.
    destruct (mlq_select st p (mkMlqQueues rest (bgQueue (ready st))) i Hb Hfind)
      as (H1 & H2 & _).
    + rewrite Hfq. now left.
    + rewrite Hfq. cbn [fgQueue bgQueue]. intros x H. now right.
    + rewrite Hfq. cbn [fgQueue bgQueue]. intros x [H|H]; [left; now symmetry | now right].
    + pose proof (load_select mlq_size i st (mkMlqQueues rest (bgQueue (ready st)))) as Hsel.
      unfold mlq_size at 1 2 in Hsel. rewrite Hfq in Hsel.
      cbn [fgQueue bgQueue length] in Hsel. specialize (Hsel ltac:(lia)).
      assert (Hsize : forall r, mlq_size (fg_requeue p r) = mlq_size r + 1).
      { intros r. unfold mlq_size, fg_requeue. cbn [fgQueue bgQueue].
        rewrite length_app. simpl. lia. }
      pose proof (load_run_slice mlq_push mlq_view mlq_named mlq_size
                    mlq_named_pid mlq_named_push_old mlq_named_push_new
                    mlq_named_push_inv mlq_size_push fg_requeue fgQuantum i p _
                    Hsize Hfg H1 H2) as Hslice.
      cbn [time with_ready] in *. lia.
Qed.

Lemma some_positive (v q : Z) : 0 < v -> Some v = Some q -> 0 < q.
Proof. intros H [= <-]. exact H. Qed.

Lemma total_cost_init (ds : list Descriptor) :
  total (map cost (map init_proc ds))
  = 2 * total (map (fun d => if 0 <? d_burst d then d_burst d + 1 else 0) ds).
Proof.
  unfold total. induction ds as [|d ds IH]; [reflexivity|].
  cbn [map fold_right]. rewrite IH. unfold cost at 1. cbn [init_proc remaining enqueued negb].
  destruct (Z.ltb_spec 0 (d_burst d)); cbn [andb]; lia.
Qed.

Lemma demand_normalize (ps : list ProcIn) :
  total (map (fun d => if 0 <? d_burst d then d_burst d + 1 else 0) (map normalize ps))
  = demand ps.
Proof. unfold demand. now rewrite map_map. Qed.

Lemma sorted_cost (ds : list Descriptor) :
  total (map cost (js_sort by_arrival (map init_proc ds)))
  = total (map cost (map init_proc ds)).
Proof. apply total_perm, Permutation_map, js_sort_perm. Qed.

(** X30. A run ends by itself when the load is light.  With processes of
    different pids and quanta that are positive, the iteration ceiling is not
    reached when the bursts of the processes with work, plus one for each of
    them, add up to less than 100000. *)
Theorem light_load_ends_before_the_ceiling (algorithm : string) (ps : list ProcIn)
    (o : Options) :
  NoDup (map in_pid ps) ->
  0 < nullish (quantum o) 4 ->
  0 < nullish (mlqFgQuantum o) 2 ->
  0 < nullish (mlqBgQuantum o) 4 ->
  demand ps < 100000 ->
  ceiling_reached algorithm ps o = false.
Proof.
  intros Hnd Hq Hfg Hbg Hd.
  assert (Hnd' : NoDup (map d_pid (map normalize ps))) by now rewrite map_map.
  destruct (sorted_procs_ok (map normalize ps) Hnd') as (H1 & H2 & _).
  assert (H1' : NoDup (map pid (map init_proc (map normalize ps))))
    by now rewrite map_map.
  pose proof (total_cost_init (map normalize ps)) as Hc.
  rewrite demand_normalize in Hc.
  pose proof (sorted_cost (map normalize ps)) as Hs.
  assert (Hrr : hits_ceiling queue_push queue_empty
                  (rr_dispatch (nullish (quantum o) 4))
                  (js_sort by_arrival (map init_proc (map normalize ps))) [] = false).
  { apply (hits_ceiling_below queue_push queue_empty _ queue_ok queue_named queue_size
             queue_push_ok (rr_dispatch_ok _) queue_named_pid
             queue_named_push_old queue_named_push_new queue_named_push_inv
             queue_empty_names_nobody
             (fun st f st' _ => rr_dispatch_books _ st f st')
             queue_size_push queue_size_nonneg
             (fun st st' _ => rr_dispatch_load _ st st' Hq)); trivial.
    - constructor.
    - unfold queue_size. simpl. lia. }
  unfold ceiling_reached. cbv zeta.
  destruct (String.eqb algorithm "RR"); [exact Hrr|].
  destruct (String.eqb algorithm "FCFS").
  { apply (hits_ceiling_below queue_push queue_empty _ queue_ok queue_named queue_size
             queue_push_ok fcfs_dispatch_ok queue_named_pid
             queue_named_push_old queue_named_push_new queue_named_push_inv
             queue_empty_names_nobody
             (fun st f st' _ => fcfs_dispatch_books st f st')
             queue_size_push queue_size_nonneg
             (fun st st' _ => fcfs_dispatch_load st st')); trivial.
    - constructor.
    - unfold queue_size. simpl. lia. }
  destruct (String.eqb algorithm "SJF").
  { apply (hits_ceiling_below list_push list_empty _ list_ok list_named list_size
             list_push_ok (pick_dispatch_ok _) list_named_pid
             list_named_push_old list_named_push_new list_named_push_inv
             list_empty_names_nobody (pick_dispatch_books _)
             list_size_push list_size_nonneg (pick_dispatch_load _)); trivial.
    - apply init_procs_ok.
    - constructor.
    - unfold list_size. simpl. lia. }
  destruct (String.eqb algorithm "PRIORITY").
  { apply (hits_ceiling_below list_push list_empty _ list_ok list_named list_size
             list_push_ok (pick_dispatch_ok _) list_named_pid
             list_named_push_old list_named_push_new list_named_push_inv
             list_empty_names_nobody (pick_dispatch_books _)
             list_size_push list_size_nonneg (pick_dispatch_load _)); trivial.
    - apply init_procs_ok.
    - constructor.
    - unfold list_size. simpl. lia. }
  destruct (String.eqb algorithm "MLQ"); [|exact Hrr].
  apply (hits_ceiling_below mlq_push mlq_empty _ mlq_ok mlq_named mlq_size
           mlq_push_ok (mlq_dispatch_ok _ _) mlq_named_pid
           mlq_named_push_old mlq_named_push_new mlq_named_push_inv
           mlq_empty_names_nobody
           (fun st f st' _ => mlq_dispatch_books _ _ st f st')
           mlq_size_push mlq_size_nonneg
             (fun st st' _ => mlq_dispatch_load _ _ st st' Hfg
                                (fun q => some_positive _ q Hbg))); trivial.
  - split; constructor.
  - unfold mlq_size. simpl. lia.
Qed.

Lemma light_load_ends_before_the_ceiling_witness :
  ceiling_reached "MLQ" four_processes no_options = false.
Proof.
  apply (light_load_ends_before_the_ceiling "MLQ" four_processes no_options).
  - apply NoDup_ListNoDup. simpl.
    repeat (apply List.NoDup_cons; [simpl; intuition discriminate|]).
    apply List.NoDup_nil.
  - simpl. lia.
  - simpl. lia.
  - simpl. lia.
  - vm_compute. reflexivity.
Defined.

(** * The snapshot of the last unit of a process *)

(** ** A run that the ceiling cuts short *)

Lemma long_iteration_snapshot rem s t h tr :
  2 <= rem ->
  exists s' tr',
    iteration queue_push (rr_dispatch 1) (long_state rem s t h tr)
    = Returned (Continue,
                long_state (rem - 1) s' (t + 1)
                  (h ++ [snapshotState t (Some "P1"%string)
                           [mkProc "P1" 0 200001 0 (rem - 1) s' None true] []])
                  tr').
Proof.
  intros Hrem. unfold iteration, long_state, enqueueArrivals. simpl.
  unfold rr_dispatch, with_found. simpl.
  unfold run_slice. simpl.
  rewrite Z.min_l by lia. simpl.
  unfold exec_unit, enqueueArrivals. simpl.
  destruct (Z.eqb_spec (rem - 1) 0) as [H0|_]; [lia|].
  do 2 eexists. reflexivity.
Qed.

Lemma long_loop_last fuel : forall rem s t h tr,
  Z.of_nat (S fuel) < rem ->
  Z.of_nat (length h) = t ->
  exists s' h' tr',
    main_loop queue_push queue_empty (rr_dispatch 1) (S fuel) (long_state rem s t h tr)
    = Returned (long_state (rem - Z.of_nat (S fuel)) s' (t + Z.of_nat (S fuel))
                  (h' ++ [snapshotState (t + Z.of_nat fuel) (Some "P1"%string)
                            [mkProc "P1" 0 200001 0 (rem - Z.of_nat (S fuel)) s'
                                    None true] []])
                  tr')
    /\ Z.of_nat (length h') = t + Z.of_nat fuel.
Proof.
  induction fuel as [|fuel IH]; intros rem s t h tr Hrem Hlen.
  - cbn [main_loop]. rewrite long_work_left.
    destruct (long_iteration_snapshot rem s t h tr) as (s' & tr' & ->); [lia|].
    exists s', h, tr'. split; [|lia].
    replace (rem - Z.of_nat 1) with (rem - 1) by lia.
    replace (t + Z.of_nat 1) with (t + 1) by lia.
    replace (t + Z.of_nat 0) with t by lia. reflexivity.
  - change (main_loop queue_push queue_empty (rr_dispatch 1) (S (S fuel))
              (long_state rem s t h tr))
      with (if work_left queue_empty (long_state rem s t h tr)
            then match iteration queue_push (rr_dispatch 1) (long_state rem s t h tr) with
                 | Thrown e => Thrown e
                 | Returned (Break, st') => Returned st'
                 | Returned (Continue, st') =>
                     main_loop queue_push queue_empty (rr_dispatch 1) (S fuel) st'
                 end
            else Returned (long_state rem s t h tr)).
    rewrite long_work_left.
    destruct (long_iteration_snapshot rem s t h tr) as (s1 & tr1 & ->); [lia|].
    destruct (IH (rem - 1) s1 (t + 1)
                (h ++ [snapshotState t (Some "P1"%string)
                         [mkProc "P1" 0 200001 0 (rem - 1) s1 None true] []]) tr1)
      as (s' & h' & tr' & -> & Hl); [lia| |].
    { rewrite length_app. simpl. lia. }
    exists s', h', tr'. split; [|lia].
    replace (rem - 1 - Z.of_nat (S fuel)) with (rem - Z.of_nat (S (S fuel))) by lia.
    replace (t + 1 + Z.of_nat (S fuel)) with (t + Z.of_nat (S (S fuel))) by lia.
    replace (t + 1 + Z.of_nat fuel) with (t + Z.of_nat (S fuel)) by lia.
    reflexivity.
Qed.

(** C10, as stated, fails: in the run of Round Robin with quantum 1 on a
    single process of 200001 units, which the ceiling cuts short after 200000
    units, the last unit that [P1] executes is unit 199999, and its snapshot,
    with [P1] on the CPU, records 1 as the remaining time of [P1]. *)
Lemma C10_last_unit_of_truncated_run :
  exists r s e,
    simulate "RR" long_process quantum_one = Returned r
    /\ historySnapshots r !! Z.to_nat 199999 = Some s
    /\ In e (snap_procs s)
    /\ ps_pid e = "P1"%string
    /\ snap_cpu s = Some (ps_pid e)
    /\ last_unit_of (historySnapshots r) (Z.to_nat 199999) (ps_pid e)
    /\ ps_remaining e = 1.
Proof.
  destruct (long_loop_last (Z.to_nat 199999) 200001 None 0 [] [])
    as (s' & h' & tr' & Hm & Hl).
  { rewrite Nat2Z.inj_succ, Z2Nat.id; lia. }
  { reflexivity. }
  assert (Hfuel : S (Z.to_nat 199999) = maxIter).
  { unfold maxIter. rewrite <- Z2Nat.inj_succ by lia. reflexivity. }
  rewrite Hfuel in Hm.
  assert (Hlen : length h' = Z.to_nat 199999) by lia.
  eexists _, _, _. split.
  { change (simulate "RR" long_process quantum_one)
      with (match main_loop queue_push queue_empty (rr_dispatch 1) maxIter
                    (long_state 200001 None 0 [] []) with
            | Returned st => Returned (finish st)
            | Thrown e => Thrown e
            end).
    rewrite Hm. reflexivity. }
  cbn [historySnapshots finish history long_state].
  split; [rewrite <- Hlen; apply list_lookup_middle; reflexivity|].
  split; [left; reflexivity|]. split; [reflexivity|]. split; [reflexivity|].
  split.
  - intros j s0 Hj Hs0. apply lookup_lt_Some in Hs0.
    rewrite length_app in Hs0. simpl in Hs0. lia.
  - simpl. rewrite <- Hfuel. lia.
Qed.

(** ** Runs that come to their end *)

Lemma units_of_positive (p : string) (cpus : list (option string)) :
  In (Some p) cpus -> (1 <= units_of p cpus)%nat.
Proof.
  intros H. unfold units_of.
  assert (Hin : In (Some p) (List.filter (cpu_is p) cpus)).
  { apply filter_In. split; [exact H|]. simpl. apply String.eqb_refl. }
  destruct (List.filter (cpu_is p) cpus); [destruct Hin | simpl; lia].
Qed.

(** C10, amended: in every run over processes with distinct pids, a snapshot
    whose CPU occupant is [p] records for [p] one unit less than [p] had
    before that unit ([p]'s burst before the first unit, what the snapshot
    before records otherwise): the unit has been applied when the snapshot
    is taken.  At the last unit that [p] executes, the snapshot already
    records what [p] ends the run with, and that is 0 unless the run has
    reached the iteration ceiling. *)
Theorem C10_snapshot_after_decrement (algorithm : string) (ps : list ProcIn)
    (o : Options) :
  NoDup (map in_pid ps) ->
  exists r, simulate algorithm ps o = Returned r
    /\ forall i s e,
         historySnapshots r !! i = Some s ->
         In e (snap_procs s) ->
         snap_cpu s = Some (ps_pid e) ->
         remaining_before (historySnapshots r) i e = Some (ps_remaining e + 1)
         /\ (last_unit_of (historySnapshots r) i (ps_pid e) ->
             (forall f, In f (processes (stats r)) -> f_pid f = ps_pid e ->
                        ps_remaining e = f_remaining f)
             /\ (ceiling_reached algorithm ps o = false -> ps_remaining e = 0)).
Proof.
  intros Hnd.
  destruct (simulate_settled algorithm ps o Hnd)
    as (ps0 & Hperm & st & -> & Hsteps & Hok & Hdone).
  exists (finish st). split; [reflexivity|].
  set (pids := map pid ps0). set (bursts := map burst ps0).
  assert (Hpids : NoDup pids).
  { unfold pids. rewrite Hperm, init_pids. exact Hnd. }
  destruct (steps_replays pids bursts Hpids _ _ Hsteps (start_replays ps0 _ Hperm))
    as (Hp & Hb & Hr & Hl).
  cbn [historySnapshots finish stats processes computeStats].
  intros i s e Hi He Hcpu.
  apply list_elem_of_In, list_elem_of_lookup in He as [k Hk].
  destruct (replays_lookup pids bursts _ _ _ _ Hr Hi) as (Hsp & Hsb & Hsr).
  destruct (entry_by_pid pids Hpids _ _ _ Hsp Hk) as [_ Hfi].
  rewrite Hcpu in Hsr. cbn [unit_effect] in Hsr. rewrite Hfi in Hsr.
  assert (Hrk : snap_remaining s !! k = Some (ps_remaining e)).
  { unfold snap_remaining. now rewrite list_lookup_fmap, Hk. }
  assert (Hpk : pids !! k = Some (ps_pid e)).
  { now rewrite <- Hsp, list_lookup_fmap, Hk. }
  split.
  - rewrite Hsr, list_lookup_alter_eq in Hrk.
    destruct i as [|j]; cbn [remaining_before].
    + assert (Hbk : bursts !! k = Some (ps_burst e)).
      { now rewrite <- Hsb, list_lookup_fmap, Hk. }
      rewrite Hbk in Hrk. simpl in Hrk. injection Hrk as Hrk. f_equal. lia.
    + destruct (history st !! j) as [s'|] eqn:Hj.
      2:{ rewrite lookup_nil in Hrk. discriminate. }
      destruct (replays_lookup pids bursts _ _ _ _ Hr Hj) as (Hsp' & _ & _).
      unfold snap_remaining in Hrk. rewrite list_lookup_fmap in Hrk.
      destruct (snap_procs s' !! k) as [e'|] eqn:Hk'; [|discriminate].
      simpl in Hrk. injection Hrk as Hrk.
      assert (Hsame : ps_pid e' = ps_pid e).
      { assert (H1 : pids !! k = Some (ps_pid e'))
          by now rewrite <- Hsp', list_lookup_fmap, Hk'.
        congruence. }
      destruct (entry_by_pid pids Hpids _ _ _ Hsp' Hk') as [Hfind _].
      unfold remaining_in. rewrite <- Hsame, Hfind. simpl. f_equal. lia.
  - intros Hlast.
    (* the process of the entry, at the end of the run *)
    assert (Hy : exists y, procs st !! k = Some y /\ pid y = ps_pid e).
    { rewrite <- Hp, list_lookup_fmap in Hpk.
      destruct (procs st !! k) as [y|]; [|discriminate].
      exists y. split; [reflexivity|]. now injection Hpk. }
    destruct Hy as (y & Hyk & Hypid).
    assert (Hend : remaining y = ps_remaining e).
    { assert (H : last_remaining bursts (history st) !! k = Some (remaining y)).
      { now rewrite <- Hl, list_lookup_fmap, Hyk. }
      pose proof Hr as Hr'.
      rewrite <- (take_drop_middle _ _ _ Hi) in H, Hr'.
      rewrite last_remaining_app in H. apply replays_app in Hr' as [_ Hr'].
      destruct Hr' as (_ & _ & _ & Hr').
      change (last_remaining ?r (s :: ?h)) with (last_remaining (snap_remaining s) h) in H.
      rewrite (replays_untouched pids bursts _ _ k (ps_pid e) Hr' Hpk) in H.
      - congruence.
      - intros s' Hs'. apply list_elem_of_In, list_elem_of_lookup in Hs' as [j Hj].
        rewrite lookup_drop in Hj. apply (Hlast (S i + j)%nat s'); [lia | exact Hj]. }
    split.
    + intros f Hf Hfp.
      apply in_map_iff in Hf as (y' & <- & Hy'). simpl in Hfp. simpl.
      apply list_elem_of_In, list_elem_of_lookup in Hy' as [k' Hk'].
      assert (k' = k) as ->.
      { assert (H1 : pids !! k' = Some (ps_pid e))
          by now rewrite <- Hp, list_lookup_fmap, Hk', <- Hfp.
        eapply NoDup_lookup; eauto. }
      congruence.
    + intros Hceil. specialize (Hdone Hceil).
      rewrite List.Forall_forall in Hdone, Hok.
      assert (Hyin : In y (procs st)).
      { apply list_elem_of_In. eapply list_elem_of_lookup_2, Hyk. }
      pose proof (Hdone y Hyin) as Hle.
      destruct (Hok y Hyin) as (_ & Hout & Hin & _).
      assert (Hwork : remaining y < burst y).
      { assert (Hbk : bursts !! k = Some (burst y)).
        { now rewrite <- Hb, list_lookup_fmap, Hyk. }
        pose proof (replays_count pids bursts _ _ k (ps_pid e) (burst y)
                      Hpids Hr Hpk Hbk) as Hc.
        rewrite <- Hl, list_lookup_fmap, Hyk in Hc. simpl in Hc. injection Hc as Hc.
        assert (1 <= units_of (ps_pid e) (map snap_cpu (history st)))%nat.
        { apply units_of_positive. rewrite <- Hcpu. apply in_map.
          apply list_elem_of_In. eapply list_elem_of_lookup_2, Hi. }
        lia. }
      destruct (enqueued y).
      * destruct (Hin eq_refl) as (_ & Hge & _). lia.
      * destruct (Hout eq_refl) as (Heq & _). lia.
Qed.

Lemma C10_snapshot_after_decrement_witness :
  exists r, simulate "RR" four_processes no_options = Returned r
    /\ forall i s e,
         historySnapshots r !! i = Some s ->
         In e (snap_procs s) ->
         snap_cpu s = Some (ps_pid e) ->
         remaining_before (historySnapshots r) i e = Some (ps_remaining e + 1)
         /\ (last_unit_of (historySnapshots r) i (ps_pid e) ->
             (forall f, In f (processes (stats r)) -> f_pid f = ps_pid e ->
                        ps_remaining e = f_remaining f)
             /\ (ceiling_reached "RR" four_processes no_options = false ->
                 ps_remaining e = 0)).
Proof.
  apply (C10_snapshot_after_decrement "RR" four_processes no_options).
  simpl. repeat constructor; simpl; intros H; apply list_elem_of_In in H;
    simpl in H; intuition discriminate.
Defined.
